(** * sqlr: named-placeholder binder and row mapper

    A shallow embedding of [parser.go] (template parser, value resolver,
    flattened field index) and of the scan-plan mapper, together with the
    properties claimed for them.

    Conventions.
    - Go strings are byte strings: [string] with [ascii] bytes; [q[i]] is
      [byteAt q i], [q[i:j]] is [slice q i j] and [q[i:]] is [from q i].
    - [len] values and the placeholder counter [n] are [nat]; [Config]
      limits are [Z] because the code distinguishes negative, zero and
      positive limits.  Lengths are bounded by memory, far below [2^63], so
      the [int] additions of the source never wrap on them.
    - [map[string]fieldInfo] is a [gmap string fieldInfo].  The process-wide
      caches ([structIndexCache], [scanPlanCache]) memoise deterministic
      functions of their key and are read through: [fieldIndexMap] and
      [getScanPlan] are modelled by the functions they memoise. *)

From Stdlib Require Import ZArith Ascii String DecimalString List.
From stdpp Require Import gmap strings list fin_maps.
Import ListNotations.

Set Warnings "-register-all".

Local Open Scope string_scope.
Local Open Scope list_scope.
Local Open Scope nat_scope.

(** ** Byte strings *)

Definition byteAt (q : string) (i : nat) : option ascii := String.get i q.

Definition slice (q : string) (i j : nat) : string := substring i (j - i) q.

Definition from (q : string) (i : nat) : string :=
  substring i (String.length q - i) q.

(** [i < len(q) && q[i] == c] *)
Definition byteIs (q : string) (i : nat) (c : ascii) : bool :=
  match byteAt q i with
  | Some x => Ascii.eqb x c
  | None => false
  end.

Definition inRange (lo hi b : ascii) : bool :=
  (nat_of_ascii lo <=? nat_of_ascii b) && (nat_of_ascii b <=? nat_of_ascii hi).

(** [isAlphaUnderscore] reports whether b is [A-Za-z_]. *)
Definition isAlphaUnderscore (b : ascii) : bool :=
  inRange "A" "Z" b || inRange "a" "z" b || Ascii.eqb b "_".

(** [isAlphaNumUnderscore] reports whether b is [A-Za-z0-9_]. *)
Definition isAlphaNumUnderscore (b : ascii) : bool :=
  isAlphaUnderscore b || inRange "0" "9" b.

(** Length of the longest prefix of [s] whose bytes satisfy [p]: the
    [for k < len(q) && p(q[k]) { k++ }] loops advance by this much. *)
Fixpoint runLen (p : ascii -> bool) (s : string) : nat :=
  match s with
  | String c r => if p c then S (runLen p r) else 0
  | EmptyString => 0
  end.

Fixpoint isPrefix (p s : string) : bool :=
  match p, s with
  | EmptyString, _ => true
  | String a p', String b s' => Ascii.eqb a b && isPrefix p' s'
  | String _ _, EmptyString => false
  end.

(** [strings.Index(s, sub)]: offset of the first occurrence, if any. *)
Fixpoint indexOf (sub s : string) : option nat :=
  if isPrefix sub s then Some 0
  else match s with
       | EmptyString => None
       | String _ r => option_map S (indexOf sub r)
       end.

Fixpoint rev_string (s : string) : string :=
  match s with
  | EmptyString => EmptyString
  | String c r => rev_string r +:+ String c EmptyString
  end.

(** The UTF-8 encodings of the code points for which [unicode.IsSpace]
    holds; [strings.TrimSpace] strips them from both ends. *)
Definition byte (n : nat) : ascii := ascii_of_nat n.

(** The double quote, byte 34. *)
Local Abbreviation dquote := (Ascii false true false false false true false false).
Definition enc2 (x y : nat) : string := String (byte x) (String (byte y) EmptyString).
Definition enc3 (x y z : nat) : string := String (byte x) (enc2 y z).

Definition spaceEncodings : list string :=
  [ String (byte 9) EmptyString; String (byte 10) EmptyString; String (byte 11) EmptyString;
    String (byte 12) EmptyString; String (byte 13) EmptyString; String (byte 32) EmptyString;
    enc2 194 133; enc2 194 160; enc3 225 154 128;
    enc3 226 128 128; enc3 226 128 129; enc3 226 128 130; enc3 226 128 131;
    enc3 226 128 132; enc3 226 128 133; enc3 226 128 134; enc3 226 128 135;
    enc3 226 128 136; enc3 226 128 137; enc3 226 128 138;
    enc3 226 128 168; enc3 226 128 169; enc3 226 128 175;
    enc3 226 129 159; enc3 227 128 128 ].

Definition dropString (n : nat) (s : string) : string :=
  substring n (String.length s - n) s.

(** Number of bytes of the space, if any, [s] starts with. *)
Definition leadingSpace (encs : list string) (s : string) : option nat :=
  String.length <$> List.find (fun e => isPrefix e s) encs.

Fixpoint trimLeftFuel (fuel : nat) (encs : list string) (s : string) : string :=
  match fuel with
  | 0 => s
  | S f => match leadingSpace encs s with
           | Some k => trimLeftFuel f encs (dropString k s)
           | None => s
           end
  end.

Definition trimLeft (s : string) : string :=
  trimLeftFuel (String.length s) spaceEncodings s.

Definition trimRight (s : string) : string :=
  rev_string (trimLeftFuel (String.length s) (List.map rev_string spaceEncodings)
                           (rev_string s)).

Definition TrimSpace (s : string) : string := trimRight (trimLeft s).

(** [strings.Split(s, ",")] *)
Fixpoint splitComma (s : string) : list string :=
  match s with
  | EmptyString => [EmptyString]
  | String c r =>
      if Ascii.eqb c "," then EmptyString :: splitComma r
      else match splitComma r with
           | h :: t => String c h :: t
           | [] => [String c EmptyString]
           end
  end.

(** ** Dialects and placeholder tokens *)

Inductive Dialect := Postgres | MySQL | SQLite | SQLServer.

Definition Dialect_eqb (a c : Dialect) : bool :=
  match a, c with
  | Postgres, Postgres | MySQL, MySQL | SQLite, SQLite | SQLServer, SQLServer => true
  | _, _ => false
  end.

(** [strconv.AppendInt(_, idx, 10)] on a non-negative ordinal. *)
Definition itoa (idx : nat) : string := NilZero.string_of_uint (Nat.to_uint idx).

(** [writePlaceholder]: the token written for argument number [idx]. *)
Definition placeholder (d : Dialect) (idx : nat) : string :=
  match d with
  | Postgres => "$" +:+ itoa idx
  | SQLServer => "@p" +:+ itoa idx
  | _ => "?"
  end.

Definition writePlaceholder (buf : string) (d : Dialect) (idx : nat) : string :=
  buf +:+ placeholder d idx.

(** [readDollarTag] detects a dollar-quoted opening tag at the start of [s]
    and returns the full tag, delimiters included. *)
Definition readDollarTag (s : string) : option string :=
  if (String.length s <? 2) || negb (byteIs s 0 "$") then None
  else
    let j := 1 + runLen isAlphaNumUnderscore (from s 1) in
    if byteIs s j "$" then Some (slice s 0 (j + 1)) else None.

(** [readCols] parses the column list of [:name{a,b,c}] starting at the
    brace at index [i]; it returns the index after the closing brace and the
    columns, or [None] where the source returns [ok = false]. *)
Fixpoint readColsLoop (fuel : nat) (q : string) (i start : nat) (cols : list string)
  : option (nat * list string) :=
  match fuel with
  | 0 => None
  | S f =>
      match byteAt q i with
      | None => None
      | Some c =>
          if Ascii.eqb c "}" then
            if start <? i then
              let tok := TrimSpace (slice q start i) in
              if String.eqb tok "" then None
              else Some (i + 1, cols ++ [tok])
            else Some (i + 1, cols)
          else if Ascii.eqb c "," then
            let tok := TrimSpace (slice q start i) in
            if String.eqb tok "" then None
            else readColsLoop f q (i + 1) (i + 1) (cols ++ [tok])
          else readColsLoop f q (i + 1) start cols
      end
  end.

Definition readCols (q : string) (i : nat) : option (nat * list string) :=
  readColsLoop (String.length q) q (i + 1) (i + 1) [].


(** ** Types ([reflect.Type]) *)

(** How a defined type declares a method: not at all, with a value receiver
    (the method is in the method sets of [T] and [*T]) or with a pointer
    receiver (only in the method set of [*T]). *)
Inductive recv := NoMethod | ValueRecv | PtrRecv.

(** What the code asks of a defined type: its package path and name, and
    whether it has [Scan] ([sql.Scanner]) and [Value] ([driver.Valuer]). *)
Record tinfo := TInfo {
  tPkgPath : string;
  tName : string;
  tScan : recv;
  tValue : recv
}.

Definition anon : tinfo := TInfo "" "" NoMethod NoMethod.

Inductive bkind := KBool | KInt | KInt64 | KUint8 | KString.

(** A [reflect.StructField] without its type: [Tag] holds the value of the
    [db] key, that is [f.Tag.Get("db")]. *)
Record fieldDecl := FieldDecl {
  fName : string;
  fPkgPath : string;
  fTag : string
}.

(** Types are finite trees with back references.  Inside the fields of
    a defined struct type, [TBack ti] is that enclosing struct type itself
    (the one whose [tinfo] is [ti]): a recursive type such as
    [type Node struct { ID int; Next *Node }] is the struct [Node] whose
    field [Next] has the type [TPointer (TBack node)].  Only a defined
    struct type can occur in its own definition, and only below a pointer,
    slice or map, so a back reference always names a struct type that
    encloses it.  [TInterface] is the empty interface [any]. *)
Inductive rtype :=
| TBasic (k : bkind) (ti : tinfo)
| TPointer (e : rtype)
| TInterface
| TSlice (ti : tinfo) (e : rtype)
| TArray (ti : tinfo) (len : nat) (e : rtype)
| TMap (ti : tinfo) (k e : rtype)
| TStruct (ti : tinfo) (fields : list (fieldDecl * rtype))
| TBack (ti : tinfo).

Inductive Kind :=
| Invalid | Bool | Int | Int64 | Uint8 | String_ | Pointer | Interface
| Slice | Array | Map | Struct.

Definition Kind_eqb (a c : Kind) : bool :=
  match a, c with
  | Invalid, Invalid | Bool, Bool | Int, Int | Int64, Int64 | Uint8, Uint8
  | String_, String_ | Pointer, Pointer | Interface, Interface
  | Slice, Slice | Array, Array | Map, Map | Struct, Struct => true
  | _, _ => false
  end.

Definition kindOfType (t : rtype) : Kind :=
  match t with
  | TBasic KBool _ => Bool
  | TBasic KInt _ => Int
  | TBasic KInt64 _ => Int64
  | TBasic KUint8 _ => Uint8
  | TBasic KString _ => String_
  | TPointer _ => Pointer
  | TInterface => Interface
  | TSlice _ _ => Slice
  | TArray _ _ _ => Array
  | TMap _ _ _ => Map
  | TStruct _ _ | TBack _ => Struct
  end.

Definition recv_eqb (a c : recv) : bool :=
  match a, c with
  | NoMethod, NoMethod | ValueRecv, ValueRecv | PtrRecv, PtrRecv => true
  | _, _ => false
  end.

Definition tinfo_eqb (a c : tinfo) : bool :=
  String.eqb (tPkgPath a) (tPkgPath c) && String.eqb (tName a) (tName c)
  && recv_eqb (tScan a) (tScan c) && recv_eqb (tValue a) (tValue c).

Definition bkind_eqb (a c : bkind) : bool :=
  match a, c with
  | KBool, KBool | KInt, KInt | KInt64, KInt64 | KUint8, KUint8
  | KString, KString => true
  | _, _ => false
  end.

Definition fieldDecl_eqb (a c : fieldDecl) : bool :=
  String.eqb (fName a) (fName c) && String.eqb (fPkgPath a) (fPkgPath c)
  && String.eqb (fTag a) (fTag c).

(** Identity of [reflect.Type] values. *)
Fixpoint rtype_eqb (a c : rtype) : bool :=
  match a, c with
  | TBasic k1 i1, TBasic k2 i2 => bkind_eqb k1 k2 && tinfo_eqb i1 i2
  | TPointer e1, TPointer e2 => rtype_eqb e1 e2
  | TInterface, TInterface => true
  | TSlice i1 e1, TSlice i2 e2 => tinfo_eqb i1 i2 && rtype_eqb e1 e2
  | TArray i1 n1 e1, TArray i2 n2 e2 =>
      tinfo_eqb i1 i2 && Nat.eqb n1 n2 && rtype_eqb e1 e2
  | TMap i1 k1 e1, TMap i2 k2 e2 =>
      tinfo_eqb i1 i2 && rtype_eqb k1 k2 && rtype_eqb e1 e2
  | TStruct i1 fs1, TStruct i2 fs2 =>
      tinfo_eqb i1 i2 &&
      (fix fields_eqb (l1 l2 : list (fieldDecl * rtype)) : bool :=
         match l1, l2 with
         | [], [] => true
         | (d1, t1) :: r1, (d2, t2) :: r2 =>
             fieldDecl_eqb d1 d2 && rtype_eqb t1 t2 && fields_eqb r1 r2
         | _, _ => false
         end) fs1 fs2
  | TBack i1, TBack i2 => tinfo_eqb i1 i2
  | _, _ => false
  end.

(** The method declarations of a type that can have methods. *)
Definition infoOf (t : rtype) : tinfo :=
  match t with
  | TBasic _ ti | TSlice ti _ | TArray ti _ _ | TMap ti _ _ | TStruct ti _
  | TBack ti => ti
  | TPointer _ | TInterface => anon
  end.

(** [t.Implements(iface)] for a one-method interface whose method the
    defined types declare as [sel] says: the method set of [T] holds the
    value-receiver methods, that of [*T] holds all methods of [T], and
    pointers to pointers or to interfaces have no methods. *)
Definition implements (sel : tinfo -> recv) (t : rtype) : bool :=
  match t with
  | TPointer (TPointer _) | TPointer TInterface | TInterface => false
  | TPointer e => negb (recv_eqb (sel (infoOf e)) NoMethod)
  | _ => recv_eqb (sel (infoOf t)) ValueRecv
  end.

Definition implementsScanner : rtype -> bool := implements tScan.
Definition implementsValuer : rtype -> bool := implements tValue.

Definition tInt : rtype := TBasic KInt anon.
Definition tString : rtype := TBasic KString anon.
Definition tBool : rtype := TBasic KBool anon.
Definition tUint8 : rtype := TBasic KUint8 anon.
Definition tBytes : rtype := TSlice anon tUint8.

(** [sql.RawBytes], a defined byte slice type of [database/sql]. *)
Definition tRawBytes : rtype :=
  TSlice (TInfo "database/sql" "RawBytes" NoMethod NoMethod) tUint8.

(** ** Values ([reflect.Value] and [any]) *)

Inductive datum := DBool (x : bool) | DInt (z : Z) | DStr (s : string).

(** A value together with its dynamic type.  [VIface v] is a variable of
    interface type (a struct field, map or slice element declared [any])
    holding [v]; [VNil] is the nil interface, for which [reflect.ValueOf]
    returns the invalid [Value].  A value of Go type [any] is a [value]
    whose head is not [VIface].  [VScalar] and [VAmbiguous] are the
    package's own [scalar] and [ambiguousSentinel] structs. *)
Inductive value :=
| VNil
| VBasic (t : rtype) (d : datum)
| VPtr (t : rtype) (p : option value)
| VIface (v : value)
| VSlice (t : rtype) (els : list value)
| VArray (t : rtype) (els : list value)
| VMap (t : rtype) (kvs : list (value * value))
| VStruct (t : rtype) (fs : list value)
| VScalar (v : value)
| VAmbiguous (name : string).

Definition scalarT : rtype :=
  TStruct (TInfo "sqlr" "scalar" NoMethod NoMethod)
          [(FieldDecl "v" "sqlr" "", TInterface)].

Definition ambiguousSentinelT : rtype :=
  TStruct (TInfo "sqlr" "ambiguousSentinel" NoMethod NoMethod)
          [(FieldDecl "name" "sqlr" "", tString)].

(** [v.Type()]; [None] for the invalid value. *)
Definition typeOf (v : value) : option rtype :=
  match v with
  | VNil => None
  | VBasic t _ | VSlice t _ | VArray t _ | VMap t _ | VStruct t _ => Some t
  | VPtr t _ => Some (TPointer t)
  | VIface _ => Some TInterface
  | VScalar _ => Some scalarT
  | VAmbiguous _ => Some ambiguousSentinelT
  end.

(** [v.Kind()] *)
Definition kindOf (v : value) : Kind :=
  match typeOf v with
  | Some t => kindOfType t
  | None => Invalid
  end.

Definition IsValid (v : value) : bool := negb (Kind_eqb (kindOf v) Invalid).

(** [v.IsNil()] for pointers and interfaces. *)
Definition IsNil (v : value) : bool :=
  match v with
  | VPtr _ None | VIface VNil => true
  | _ => false
  end.

(** [v.Elem()] for non-nil pointers and interfaces. *)
Definition Elem (v : value) : value :=
  match v with
  | VPtr _ (Some x) => x
  | VIface x => x
  | _ => VNil
  end.

(** [v.Interface()]: the value as an [any]. *)
Definition toAny (v : value) : value :=
  match v with
  | VIface x => x
  | _ => v
  end.

Definition isIndirect (v : value) : bool :=
  Kind_eqb (kindOf v) Interface || Kind_eqb (kindOf v) Pointer.

(** Depth of pointers and interfaces wrapped around a value: the
    unwrapping loops of the source terminate within this many steps. *)
Fixpoint depth (v : value) : nat :=
  match v with
  | VPtr _ (Some x) => S (depth x)
  | VIface x => S (depth x)
  | _ => 0
  end.

(** ** Flattened field index ([fieldIndexMap]) *)

(** [fieldInfo] describes a leaf field: its index path, whether it is
    tagged [scalar], and whether several leaves expose its name. *)
Record fieldInfo := FieldInfo {
  index : list nat;
  scalar : bool;
  ambiguous : bool
}.

Definition isTimeTime (t : rtype) : bool :=
  String.eqb (tPkgPath (infoOf t)) "time" && String.eqb (tName (infoOf t)) "Time".

(** [shouldFlatten] decides whether to descend into [ft] (struct or
    pointer to struct). *)
Definition shouldFlatten (ft : rtype) : bool :=
  if implementsScanner (TPointer ft) || implementsScanner ft then false
  else
    let tt := match ft with TPointer e => e | _ => ft end in
    if negb (Kind_eqb (kindOfType tt) Struct) then false
    else if isTimeTime tt then false
    else true.

(** Column name of a field: the first part of the tag when it is not
    empty, the field name otherwise. *)
Definition columnName (f : fieldDecl) : string :=
  if String.eqb (fTag f) "" then fName f
  else match splitComma (fTag f) with
       | p0 :: _ => if String.eqb p0 "" then fName f else p0
       | [] => fName f
       end.

(** Whether one of the tag options after the name is [scalar]. *)
Definition tagScalar (f : fieldDecl) : bool :=
  if String.eqb (fTag f) "" then false
  else existsb (fun p => String.eqb (TrimSpace p) "scalar")
               (List.tail (splitComma (fTag f))).

(** Leaf insertion with collision handling: a second leaf of the same
    name marks the entry ambiguous, and an ambiguous entry stays. *)
Definition addLeaf (m : gmap string fieldInfo) (name : string) (fi : fieldInfo)
  : gmap string fieldInfo :=
  match m !! name with
  | Some prev =>
      if ambiguous prev then m
      else <[name := FieldInfo [] false true]> m
  | None => <[name := fi]> m
  end.

(** The fields loop of [walk], over the fields from index [i] on;
    [descend] is the recursive call of [walk] on a flattened field. *)
Fixpoint walkFields
  (descend : rtype -> list nat -> gmap string fieldInfo -> gmap string fieldInfo)
  (path : list nat) (i : nat) (fs : list (fieldDecl * rtype))
  (m : gmap string fieldInfo) : gmap string fieldInfo :=
  match fs with
  | [] => m
  | (f, ft) :: rest =>
      if negb (String.eqb (fPkgPath f) "") then walkFields descend path (S i) rest m
      else if String.eqb (fTag f) "-" then walkFields descend path (S i) rest m
      else if shouldFlatten ft then
        walkFields descend path (S i) rest (descend ft (path ++ [i]) m)
      else
        walkFields descend path (S i) rest
                   (addLeaf m (columnName f) (FieldInfo (path ++ [i]) (tagScalar f) false))
  end.

(** [walk]: pointers are followed, a type that is being expanded is not
    entered again ([visited] holds the types on the current path of the
    recursion, as the deferred [delete] makes it), and every exported,
    non-ignored field is either flattened or added as a leaf.  At a back
    reference [rt] is a struct type that encloses it, which the walk is
    expanding: [visited[rt]] holds and the walk returns. *)
Fixpoint walk (rt : rtype) (visited : list rtype) (path : list nat)
  (m : gmap string fieldInfo) {struct rt} : gmap string fieldInfo :=
  match rt with
  | TPointer e => walk e visited path m
  | TBack _ => m
  | TStruct _ fs =>
      if existsb (rtype_eqb rt) visited then m
      else
        walkFields
          (fun ft path' m' =>
             match ft with
             | TPointer nextT => walk nextT (rt :: visited) path' m'
             | nextT => walk nextT (rt :: visited) path' m'
             end)
          path 0 fs m
  | _ => m
  end.

Fixpoint derefType (t : rtype) : rtype :=
  match t with
  | TPointer e => derefType e
  | _ => t
  end.

(** [fieldIndexMap] returns the mapping from column name to [fieldInfo]
    of the struct type under [t]; empty when there is none. *)
Definition fieldIndexMap (t : rtype) : gmap string fieldInfo :=
  let base := derefType t in
  if negb (Kind_eqb (kindOfType base) Struct) then ∅
  else walk base [] [] ∅.

(** ** Reading values by path *)

(** The [for v.Kind() == reflect.Interface] loops: [None] when a nil
    interface is met. *)
Fixpoint unwrapInterfaces (v : value) : option value :=
  match v with
  | VIface VNil => None
  | VIface x => unwrapInterfaces x
  | _ => Some v
  end.

(** The [for v.Kind() == reflect.Pointer] loops: [None] on a nil pointer. *)
Fixpoint unwrapPointers (v : value) : option value :=
  match v with
  | VPtr _ None => None
  | VPtr _ (Some x) => unwrapPointers x
  | _ => Some v
  end.

(** The loops over interfaces and pointers: [None] on a nil one. *)
Fixpoint unwrapAll (v : value) : option value :=
  match v with
  | VPtr _ None | VIface VNil => None
  | VPtr _ (Some x) => unwrapAll x
  | VIface x => unwrapAll x
  | _ => Some v
  end.

(** [deIndirect] unwraps interfaces and pointers until a concrete value,
    or returns the nil pointer or interface it meets. *)
Fixpoint deIndirect (v : value) : value :=
  match v with
  | VPtr _ None | VIface VNil => v
  | VPtr _ (Some x) => deIndirect x
  | VIface x => deIndirect x
  | _ => v
  end.

(** [v.Field(idx)] of a struct value. *)
Definition Field (v : value) (idx : nat) : option value :=
  match v with
  | VStruct _ fs => fs !! idx
  | VScalar x => if Nat.eqb idx 0 then Some (VIface x) else None
  | VAmbiguous name => if Nat.eqb idx 0 then Some (VBasic tString (DStr name)) else None
  | _ => None
  end.

(** The leaf case of [getValueByPathAny]. *)
Definition leafValue (v : value) : value * bool :=
  match unwrapInterfaces v with
  | None => (VNil, true)
  | Some v =>
      if Kind_eqb (kindOf v) Pointer then
        if IsNil v then (VNil, true) else (toAny v, true)
      else (toAny v, true)
  end.

(** The loop over [path] of [getValueByPathAny].  An index outside the
    struct makes [Field] panic in the source; paths come from the field
    index of the value's own type, and the case is given the mismatch
    result. *)
Fixpoint walkPath (v : value) (path : list nat) : value * bool :=
  match path with
  | [] => (VNil, false)
  | idx :: rest =>
      match unwrapPointers v with
      | None => (VNil, true)
      | Some v =>
          if negb (IsValid v) || negb (Kind_eqb (kindOf v) Struct) then (VNil, false)
          else match Field v idx with
               | None => (VNil, false)
               | Some f =>
                   match rest with
                   | [] => leafValue f
                   | _ => walkPath f rest
                   end
               end
      end
  end.

(** [getValueByPathAny] extracts the value at the end of [path] from
    [root]: [(nil, true)] when a pointer on the way is nil, [(nil, false)]
    on a structural mismatch. *)
Definition getValueByPathAny (root : value) (path : list nat) : value * bool :=
  match unwrapInterfaces root with
  | None => (VNil, true)
  | Some v => walkPath v path
  end.

(** ** Resolver *)

Definition datum_eqb (x y : datum) : bool :=
  match x, y with
  | DBool a, DBool c => Bool.eqb a c
  | DInt a, DInt c => Z.eqb a c
  | DStr a, DStr c => String.eqb a c
  | _, _ => false
  end.

(** Go's [==] on map keys of basic type, also inside an interface. *)
Fixpoint key_eqb (x y : value) : bool :=
  match x, y with
  | VBasic t1 d1, VBasic t2 d2 => rtype_eqb t1 t2 && datum_eqb d1 d2
  | VIface a, VIface c => key_eqb a c
  | _, _ => false
  end.

(** [v.MapIndex(key)]: the element stored under [key]; [None] is the
    invalid [Value] of a missing key. *)
Definition MapIndex (v key : value) : option value :=
  match v with
  | VMap _ kvs => snd <$> List.find (fun kv => key_eqb (fst kv) key) kvs
  | _ => None
  end.

Definition keyType (t : rtype) : option rtype :=
  match t with
  | TMap _ k _ => Some k
  | _ => None
  end.

Definition elemType (t : rtype) : option rtype :=
  match t with
  | TPointer e | TSlice _ e | TArray _ _ e | TMap _ _ e => Some e
  | _ => None
  end.

(** [reflect.TypeOf("").ConvertibleTo(keyT)] for a map key type: the
    string kinds and the empty interface. *)
Definition stringConvertibleTo (keyT : rtype) : bool :=
  Kind_eqb (kindOfType keyT) String_ || rtype_eqb keyT TInterface.

(** [reflect.ValueOf(name)], converted to [keyT] when the types differ
    and the conversion exists. *)
Definition stringKey (name : string) (keyT : rtype) : value :=
  if rtype_eqb keyT tString then VBasic tString (DStr name)
  else if Kind_eqb (kindOfType keyT) String_ then VBasic keyT (DStr name)
  else if rtype_eqb keyT TInterface then VIface (VBasic tString (DStr name))
  else VBasic tString (DStr name).

Definition tMapStringAny : rtype := TMap anon tString TInterface.

Definition isMapStringAny (v : value) : bool :=
  match typeOf v with
  | Some t => rtype_eqb t tMapStringAny
  | None => false
  end.

(** The lookup of a string in a map whose key type may differ from
    [string]: [None] where the source returns [nil, false]. *)
Definition reflectMapLookup (v : value) (name : string) : option value :=
  match typeOf v ≫= keyType with
  | None => None
  | Some keyT =>
      if negb (rtype_eqb tString keyT) && negb (stringConvertibleTo keyT) then None
      else toAny <$> MapIndex v (stringKey name keyT)
  end.

(** [singleLookup] resolves a [:name] from a single [Bind()] input;
    [Some v] stands for [(v, true)] and [None] for [(nil, false)]. *)
Definition singleLookup (input : value) (name : string) : option value :=
  if negb (IsValid input) then None
  else
    match unwrapAll input with
    | None => None
    | Some v =>
        if isMapStringAny v then toAny <$> MapIndex v (VBasic tString (DStr name))
        else
          match kindOf v with
          | Map => reflectMapLookup v name
          | Struct =>
              match typeOf v with
              | None => None
              | Some t =>
                  match fieldIndexMap t !! name with
                  | Some fi =>
                      if ambiguous fi then Some (VAmbiguous name)
                      else
                        let val := fst (getValueByPathAny v (index fi)) in
                        if scalar fi then Some (VScalar val) else Some val
                  | None => None
                  end
              end
          | _ => None
          end
    end.

(** [getColValue] extracts a value by column name from a row. *)
Definition getColValue (row : value) (col : string) : option value :=
  if isMapStringAny row then toAny <$> MapIndex row (VBasic tString (DStr col))
  else
    match unwrapAll row with
    | None => None
    | Some rv =>
        match kindOf rv with
        | Map => reflectMapLookup rv col
        | Struct =>
            match typeOf rv with
            | None => None
            | Some t =>
                match fieldIndexMap t !! col with
                | Some fi => Some (fst (getValueByPathAny rv (index fi)))
                | None => None
                end
            end
        | _ => None
        end
    end.

(** A lookup that can panic inside [reflect]. *)
Inductive lookupRes (A : Type) :=
| Found (a : A)
| Missing
| Panics.
Arguments Found {A} a.
Arguments Missing {A}.
Arguments Panics {A}.

(** [rowsFromSliceValue] returns the slice elements if [v] is a slice of
    struct or map, possibly wrapped in interfaces and pointers. *)
Definition rowsFromSliceValue (v : value) : option (list value) :=
  match unwrapAll v with
  | None => None
  | Some v =>
      match v with
      | VSlice _ els =>
          let out := List.map toAny els in
          match els with
          | [] => Some out
          | el :: _ =>
              match unwrapAll el with
              | None => None
              | Some el =>
                  if Kind_eqb (kindOf el) Struct || Kind_eqb (kindOf el) Map
                  then Some out else None
              end
          end
      | _ => None
      end
  end.

Definition ofOption {A : Type} (o : option A) : lookupRes A :=
  match o with
  | Some a => Found a
  | None => Missing
  end.

(** [singleRowsLookup] resolves the rows of [:name{...}] from a single
    input.  The key passed to [MapIndex] is the unconverted string: on a
    map whose key type is a defined string type [reflect] panics, as a
    [string] is not assignable to it. *)
Definition singleRowsLookup (input : value) (name : string) : lookupRes (list value) :=
  if negb (IsValid input) then Missing
  else
    let viaName :=
      match typeOf input ≫= keyType with
      | Some keyT =>
          if Kind_eqb (kindOf input) Map && Kind_eqb (kindOfType keyT) String_ then
            if rtype_eqb keyT tString then
              match MapIndex input (VBasic tString (DStr name)) with
              | Some mv => Some (ofOption (rowsFromSliceValue mv))
              | None => None
              end
            else Some Panics
          else None
      | None => None
      end in
    match viaName with
    | Some r => r
    | None =>
        if String.eqb name "rows" then ofOption (rowsFromSliceValue input)
        else Missing
    end.

(** [makeMultiResolver]: both resolvers try the inputs from the last
    one to the first one and return the first hit. *)
Fixpoint lookupFrom (revInputs : list value) (name : string) : option value :=
  match revInputs with
  | [] => None
  | x :: rest =>
      match singleLookup x name with
      | Some v => Some v
      | None => lookupFrom rest name
      end
  end.

Fixpoint rowsLookupFrom (revInputs : list value) (name : string)
  : lookupRes (list value) :=
  match revInputs with
  | [] => Missing
  | x :: rest =>
      match singleRowsLookup x name with
      | Found rows => Found rows
      | Panics => Panics
      | Missing => rowsLookupFrom rest name
      end
  end.

Definition makeLookup (inputs : list value) : string -> option value :=
  lookupFrom (List.rev inputs).

Definition makeRowsLookup (inputs : list value) : string -> lookupRes (list value) :=
  rowsLookupFrom (List.rev inputs).

(** ** The template parser ([parse]) *)

Record Config := MkConfig {
  MaxParams : Z;
  MaxNameLen : Z
}.

(** The error kinds of the package with what their messages name; the
    flag of [ErrParamMissing] tells the [:name{...}] form, that of
    [ErrRowsMalformed] the message about a block without columns, and
    [ErrFieldAmbiguous] carries the block and record index when it comes
    from a rows block. *)
Inductive error :=
| ErrParamMissing (name : string) (block : bool)
| ErrSliceEmpty (name : string)
| ErrRowsEmpty (name : string)
| ErrRowsMalformed (name : string) (noColumns : bool)
| ErrColumnNotFound (col name : string) (record : nat)
| ErrTooManyParams (requested : Z) (limit : Z)
| ErrParamNameTooLong (name : string)
| ErrFieldAmbiguous (col : string) (block : option (string * nat)).

Inductive lexState := sText | sSQ | sDQ | sBT | sBR | sLC | sBC | sDQD.

(** The variables of the loop of [parse]: the index [i], the lexical
    state, the active dollar tag, the number [n] of placeholders emitted,
    the output buffer and the arguments. *)
Record pstate := PState {
  pos : nat;
  state : lexState;
  dqTag : string;
  count : nat;
  buf : string;
  args : list value
}.

(** One iteration of the loop: the next state, an error return, or a
    panic.  [Fail] keeps the loop variables as they are when the error is
    returned: the counter, buffer and arguments hold what the iteration has
    written before it failed. *)
Inductive stepResult :=
| Next (s : pstate)
| Fail (e : error) (s : pstate)
| Crash.

(** What a call of [parse] does: it returns its three results, panics, or
    has not returned when the fuel of the model is used up. *)
Inductive outcome :=
| Return (text : string) (arguments : list value) (err : option error)
| Panic
| OutOfFuel.

Definition str1 (c : ascii) : string := String c EmptyString.

(** The column index paths in a field index: the first column that is
    missing or ambiguous fails, for record [r] of block [name]. *)
Fixpoint columnPaths (fm : gmap string fieldInfo) (cols : list string)
  (name : string) (r : nat) : error + list (list nat) :=
  match cols with
  | [] => inr []
  | col :: rest =>
      match fm !! col with
      | None => inl (ErrColumnNotFound col name r)
      | Some fi =>
          if ambiguous fi then inl (ErrFieldAmbiguous col (Some (name, r)))
          else match columnPaths fm rest name r with
               | inl e => inl e
               | inr ps => inr (index fi :: ps)
               end
      end
  end.

(** [colPathByType]: struct type to the paths of the columns. *)
Definition pathCache := list (rtype * list (list nat)).

Fixpoint cacheGet (cache : pathCache) (t : rtype) : option (list (list nat)) :=
  match cache with
  | [] => None
  | (t', ps) :: rest => if rtype_eqb t' t then Some ps else cacheGet rest t
  end.

(** [getValueByPathAny(rv, paths[cidx])] as an optional value. *)
Definition valueAtPath (rv : value) (paths : list (list nat)) (cidx : nat)
  : option value :=
  match paths !! cidx with
  | Some path =>
      let '(v, ok) := getValueByPathAny rv path in
      if ok then Some v else None
  | None => None
  end.

Section Parser.

Variable dialect : Dialect.
Variable q : string.
Variable config : Config.
Variable lookup : string -> option value.
Variable rowsLookup : string -> lookupRes (list value).

(** [ensureAdd]: the error when [cur + add] placeholders exceed a
    positive limit. *)
Definition ensureAdd (cur add : nat) : option error :=
  if (0 <? MaxParams config)%Z && (MaxParams config <? Z.of_nat (cur + add))%Z
  then Some (ErrTooManyParams (Z.of_nat (cur + add)) (MaxParams config))
  else None.

(** A single placeholder for [arg]; the scan resumes at [k]. *)
Definition emitOne (s : pstate) (k : nat) (arg : value) : stepResult :=
  match ensureAdd (count s) 1 with
  | Some e => Fail e s
  | None =>
      Next (PState k sText (dqTag s) (S (count s))
                   (writePlaceholder (buf s) dialect (S (count s)))
                   (args s ++ [arg]))
  end.

(** The expansion loop over the elements from index [t] on. *)
Fixpoint emitElems (t : nat) (els : list value) (n : nat) (out : string)
  (acc : list value) : nat * string * list value :=
  match els with
  | [] => (n, out, acc)
  | e :: rest =>
      let out := if 0 <? t then out +:+ ", " else out in
      emitElems (S t) rest (S n) (writePlaceholder out dialect (S n))
                (acc ++ [toAny e])
  end.

Definition isByteSliceLike (v : value) : bool :=
  IsValid v && Kind_eqb (kindOf v) Slice &&
  match typeOf v ≫= elemType with
  | Some e => Kind_eqb (kindOfType e) Uint8
  | None => false
  end.

(** The elements of a slice or array whose element kind is not
    [Uint8]. *)
Definition expandable (v : value) : option (list value) :=
  match v with
  | VSlice t els | VArray t els =>
      match elemType t with
      | Some e => if Kind_eqb (kindOfType e) Uint8 then None else Some els
      | None => None
      end
  | _ => None
  end.

(** Simple [:name]: single value or slice expansion. *)
Definition emitValue (s : pstate) (name : string) (k : nat) (v : value)
  : stepResult :=
  match v with
  | VAmbiguous a => Fail (ErrFieldAmbiguous a None) s
  | VScalar x => emitOne s k x
  | _ =>
      if match typeOf v with Some t => implementsValuer t | None => false end
      then emitOne s k v
      else if match typeOf v with Some t => rtype_eqb t tBytes | None => false end
      then emitOne s k v
      else if isByteSliceLike v then
        match v with
        | VSlice (TSlice _ e) els =>
            if rtype_eqb e tUint8 then emitOne s k (VSlice tBytes els)
            else emitOne s k v
        | _ => emitOne s k v
        end
      else
        match expandable v with
        | Some els =>
            if Nat.eqb (List.length els) 0 then Fail (ErrSliceEmpty name) s
            else
              match ensureAdd (count s) (List.length els) with
              | Some e => Fail e s
              | None =>
                  let '(n, out, acc) := emitElems 0 els (count s) (buf s) (args s) in
                  Next (PState k sText (dqTag s) n out acc)
              end
        | None => emitOne s k v
        end
  end.

(** The value of column [cidx] of the row [r] and the path cache after
    it: by the cached paths of the struct type (filled in for a type met
    for the first time), by the converted key of a map of the key type of
    the first row, or by [getColValue]. *)
Definition fetchColumn (name : string) (r : nat) (row rv : value) (useMapFast : bool)
  (colKeys : list value) (cols : list string) (cidx : nat) (col : string)
  (cache : pathCache) : error + (pathCache * option value) :=
  if IsValid rv && Kind_eqb (kindOf rv) Struct then
    match typeOf rv with
    | Some t =>
        match cacheGet cache t with
        | Some paths => inr (cache, valueAtPath rv paths cidx)
        | None =>
            match columnPaths (fieldIndexMap t) cols name r with
            | inl e => inl e
            | inr paths => inr ((t, paths) :: cache, valueAtPath rv paths cidx)
            end
        end
    | None => inr (cache, None)
    end
  else if useMapFast then
    inr (cache, colKeys !! cidx ≫= fun key => toAny <$> MapIndex rv key)
  else inr (cache, getColValue row col).

(** The loop over the columns of one row, from column [cidx] on. *)
Fixpoint emitCols (name : string) (r : nat) (row rv : value) (useMapFast : bool)
  (colKeys : list value) (cols : list string) (cidx : nat) (rest : list string)
  (cache : pathCache) (n : nat) (out : string) (acc : list value)
  : (error * nat * string * list value) + (pathCache * nat * string * list value) :=
  match rest with
  | [] => inr (cache, n, out, acc)
  | col :: rest' =>
      let out := if 0 <? cidx then out +:+ ", " else out in
      match fetchColumn name r row rv useMapFast colKeys cols cidx col cache with
      | inl e => inl (e, n, out, acc)
      | inr (_, None) => inl (ErrColumnNotFound col name r, n, out, acc)
      | inr (cache', Some v) =>
          emitCols name r row rv useMapFast colKeys cols (S cidx) rest' cache'
                   (S n) (writePlaceholder out dialect (S n)) (acc ++ [v])
      end
  end.

Definition sameKeyType (rv : value) (mapKeyT : option rtype) : bool :=
  match typeOf rv ≫= keyType, mapKeyT with
  | Some a, Some c => rtype_eqb a c
  | _, _ => false
  end.

(** The loop over the rows, from row [r] on. *)
Fixpoint emitRows (name : string) (colKeys : option (list value))
  (mapKeyT : option rtype) (cols : list string) (r : nat) (rows : list value)
  (cache : pathCache) (n : nat) (out : string) (acc : list value)
  : (error * nat * string * list value) + (nat * string * list value) :=
  match rows with
  | [] => inr (n, out, acc)
  | row :: rest =>
      let out := if 0 <? r then out +:+ ", " else out in
      let out := out +:+ "(" in
      let rv := deIndirect row in
      let useMapFast :=
        match colKeys with Some _ => true | None => false end
        && IsValid rv && Kind_eqb (kindOf rv) Map && sameKeyType rv mapKeyT in
      match emitCols name r row rv useMapFast (default [] colKeys) cols 0 cols
                     cache n out acc with
      | inl e => inl e
      | inr (cache', n', out', acc') =>
          emitRows name colKeys mapKeyT cols (S r) rest cache' n' (out' +:+ ")") acc'
      end
  end.

(** [:name{col,...}] with the brace at index [k]. *)
Definition emitRowsBlock (s : pstate) (name : string) (k : nat) : stepResult :=
  match readCols q k with
  | None => Fail (ErrRowsMalformed name false) s
  | Some (k2, cols) =>
      if Nat.eqb (List.length cols) 0 then Fail (ErrRowsMalformed name true) s
      else
        match rowsLookup name with
        | Panics => Crash
        | Missing => Fail (ErrParamMissing name true) s
        | Found rows =>
            match rows with
            | [] => Fail (ErrRowsEmpty name) s
            | row0 :: _ =>
                match ensureAdd (count s) (List.length rows * List.length cols) with
                | Some e => Fail e s
                | None =>
                    let rv0 := deIndirect row0 in
                    let mapKeyT :=
                      if IsValid rv0 && Kind_eqb (kindOf rv0) Map
                      then typeOf rv0 ≫= keyType else None in
                    let colKeys :=
                      match mapKeyT with
                      | Some kt =>
                          if Kind_eqb (kindOfType kt) String_ || stringConvertibleTo kt
                          then Some (List.map (fun col => stringKey col kt) cols)
                          else None
                      | None => None
                      end in
                    let pre : error + pathCache :=
                      if IsValid rv0 && Kind_eqb (kindOf rv0) Struct then
                        match typeOf rv0 with
                        | Some baseT =>
                            match columnPaths (fieldIndexMap baseT) cols name 0 with
                            | inl e => inl e
                            | inr paths => inr [(baseT, paths)]
                            end
                        | None => inr []
                        end
                      else inr [] in
                    match pre with
                    | inl e => Fail e s
                    | inr cache =>
                        match emitRows name colKeys mapKeyT cols 0 rows cache
                                       (count s) (buf s) (args s) with
                        | inl (e, n, out, acc) =>
                            Fail e (PState (pos s) (state s) (dqTag s) n out acc)
                        | inr (n, out, acc) =>
                            Next (PState k2 sText (dqTag s) n out acc)
                        end
                    end
                end
            end
        end
  end.

(** Copy [w] to the output and continue at [i] in state [st]. *)
Definition copy (s : pstate) (w : string) (i : nat) (st : lexState) : pstate :=
  PState i st (dqTag s) (count s) (buf s +:+ w) (args s).

Definition nameTooLong (name : string) : bool :=
  (0 <? MaxNameLen config)%Z && (MaxNameLen config <? Z.of_nat (String.length name))%Z.

(** The case [sText] of the loop, on the byte [c] at index [pos s]. *)
Definition stepText (s : pstate) (c : ascii) : stepResult :=
  let i := pos s in
  if Ascii.eqb c "-" && byteIs q (i + 1) "-" then Next (copy s "--" (i + 2) sLC)
  else if Ascii.eqb c "#" && Dialect_eqb dialect MySQL then Next (copy s "#" (i + 1) sLC)
  else if Ascii.eqb c "/" && byteIs q (i + 1) "*" then Next (copy s "/*" (i + 2) sBC)
  else if Ascii.eqb c "'" then Next (copy s (str1 c) (i + 1) sSQ)
  else if Ascii.eqb c dquote then Next (copy s (str1 c) (i + 1) sDQ)
  else if Ascii.eqb c "`" && (Dialect_eqb dialect MySQL || Dialect_eqb dialect SQLite)
  then Next (copy s (str1 c) (i + 1) sBT)
  else if Ascii.eqb c "[" && Dialect_eqb dialect SQLServer
  then Next (copy s (str1 c) (i + 1) sBR)
  else
    match (if Ascii.eqb c "$" then readDollarTag (from q i) else None) with
    | Some tag =>
        Next (PState (i + String.length tag) sDQD tag (count s)
                     (buf s +:+ tag) (args s))
    | None =>
        if Ascii.eqb c ":" && (i + 1 <? String.length q)
           && negb (byteIs q (i + 1) ":")
           && negb ((0 <? i) && byteIs q (i - 1) ":")
           && match byteAt q (i + 1) with
              | Some x => isAlphaUnderscore x
              | None => false
              end
        then
          let j := i + 1 in
          let k := j + 1 + runLen isAlphaNumUnderscore (from q (j + 1)) in
          let name := slice q j k in
          if nameTooLong name then Fail (ErrParamNameTooLong name) s
          else if byteIs q k "{" then emitRowsBlock s name k
          else
            match lookup name with
            | None => Fail (ErrParamMissing name false) s
            | Some v => emitValue s name k v
            end
        else Next (copy s (str1 c) (i + 1) sText)
    end.

(** The quoted states [sSQ] and [sDQ] with quote byte [quote]: a
    backslash copies the next byte too, a doubled quote stays inside. *)
Definition stepQuoted (s : pstate) (c quote : ascii) (escapes : bool) : pstate :=
  let i := pos s in
  if escapes && Ascii.eqb c "\" then
    match byteAt q (i + 1) with
    | Some x => copy s (str1 c +:+ str1 x) (i + 2) (state s)
    | None => copy s (str1 c) (i + 1) (state s)
    end
  else if Ascii.eqb c quote then
    if byteIs q (i + 1) quote then copy s (str1 c +:+ str1 quote) (i + 2) (state s)
    else copy s (str1 c) (i + 1) sText
  else copy s (str1 c) (i + 1) (state s).

(** The states other than [sText]. *)
Definition stepOther (s : pstate) (c : ascii) : pstate :=
  let i := pos s in
  match state s with
  | sText => s
  | sSQ => stepQuoted s c "'" true
  | sDQ => stepQuoted s c dquote true
  | sBT => stepQuoted s c "`" false
  | sBR => stepQuoted s c "]" false
  | sLC =>
      if Ascii.eqb c (byte 10) || Ascii.eqb c (byte 13)
      then copy s (str1 c) (i + 1) sText
      else copy s (str1 c) (i + 1) sLC
  | sBC =>
      if Ascii.eqb c "*" && byteIs q (i + 1) "/"
      then copy s (str1 c +:+ "/") (i + 2) sText
      else copy s (str1 c) (i + 1) sBC
  | sDQD =>
      if String.eqb (dqTag s) "" then copy s (from q i) (String.length q) sDQD
      else
        match indexOf (dqTag s) (from q i) with
        | None => copy s (from q i) (String.length q) sDQD
        | Some p =>
            PState (i + p + String.length (dqTag s)) sText "" (count s)
                   (buf s +:+ slice q i (i + p) +:+ dqTag s) (args s)
        end
  end.

(** One iteration of [for i < len(q)], entered with [pos s < len(q)]. *)
Definition step (s : pstate) : stepResult :=
  match byteAt q (pos s) with
  | None => Next s
  | Some c =>
      match state s with
      | sText => stepText s c
      | _ => Next (stepOther s c)
      end
  end.

Fixpoint run (fuel : nat) (s : pstate) : outcome :=
  if String.length q <=? pos s then Return (buf s) (args s) None
  else
    match fuel with
    | 0 => OutOfFuel
    | S f =>
        match step s with
        | Next s' => run f s'
        | Fail e _ => Return "" [] (Some e)
        | Crash => Panic
        end
    end.

Definition initial : pstate := PState 0 sText "" 0 "" [].

End Parser.

(** [parse] performs the SQL building and parameter binding.  Every
    iteration advances the index, so [len(q)] iterations suffice. *)
Definition parse (dialect : Dialect) (q : string) (inputs : list value)
  (config : Config) : outcome :=
  run dialect q config (makeLookup inputs) (makeRowsLookup inputs)
      (String.length q) initial.

(** ** The lexical structure of a template, after the specification

    The specification describes the parser as a single left-to-right pass
    with the states Plain, InSingleQuoted, InDoubleQuoted,
    InBacktickQuoted, InBracketQuoted, InLineComment, InBlockComment and
    InDollarQuoted, and gives the rules by which a state is entered and
    left.  [lexStep] follows these rules and cuts the template into
    tokens; it knows nothing of bindings, limits or output. *)

Inductive region :=
| Plain | InSingleQuoted | InDoubleQuoted | InBacktickQuoted
| InBracketQuoted | InLineComment | InBlockComment | InDollarQuoted.

Inductive token :=
| TText (w : string)
| TParam (name : string)
| TBlock (name : string) (brace : nat).

Record cursor := Cursor {
  offset : nat;
  inside : region;
  tag : string
}.

Definition startsWith (q : string) (i : nat) (w : string) : bool :=
  isPrefix w (from q i).

Definition hashComments (d : Dialect) : bool := Dialect_eqb d MySQL.
Definition backtickQuoting (d : Dialect) : bool :=
  Dialect_eqb d MySQL || Dialect_eqb d SQLite.
Definition bracketQuoting (d : Dialect) : bool := Dialect_eqb d SQLServer.

(** Length of the identifier (letter or underscore, then letters, digits
    and underscores) at index [i], 0 when there is none. *)
Definition identLen (q : string) (i : nat) : nat :=
  match from q i with
  | String c r => if isAlphaUnderscore c then S (runLen isAlphaNumUnderscore r) else 0
  | EmptyString => 0
  end.

(** A placeholder starts at [i]: a colon followed by an identifier, which
    is neither the first colon of [::] nor preceded by a colon. *)
Definition placeholderAt (q : string) (i : nat) : bool :=
  startsWith q i ":" && negb (startsWith q i "::")
  && negb ((0 <? i) && startsWith q (i - 1) ":")
  && (0 <? identLen q (i + 1)).

(** Length of what a quoted state consumes at [i]: an escaped pair, a
    doubled closing character, the closing character, or one byte. *)
Definition quotedStep (q : string) (i : nat) (close : ascii) (backslash : bool)
  (here : region) : nat * region :=
  if backslash && startsWith q i "\" then
    (if i + 1 <? String.length q then 2 else 1, here)
  else if startsWith q i (str1 close +:+ str1 close) then (2, here)
  else if startsWith q i (str1 close) then (1, Plain)
  else (1, here).

(** One token at the cursor, which is inside the template. *)
Definition lexStep (d : Dialect) (q : string) (c : cursor) : token * cursor :=
  let i := offset c in
  let text (len : nat) (r : region) (t : string) :=
    (TText (slice q i (i + len)), Cursor (i + len) r t) in
  match inside c with
  | Plain =>
      if startsWith q i "--" then text 2 InLineComment (tag c)
      else if hashComments d && startsWith q i "#" then text 1 InLineComment (tag c)
      else if startsWith q i "/*" then text 2 InBlockComment (tag c)
      else if startsWith q i "'" then text 1 InSingleQuoted (tag c)
      else if startsWith q i (String dquote EmptyString) then text 1 InDoubleQuoted (tag c)
      else if backtickQuoting d && startsWith q i "`" then text 1 InBacktickQuoted (tag c)
      else if bracketQuoting d && startsWith q i "[" then text 1 InBracketQuoted (tag c)
      else
        match readDollarTag (from q i) with
        | Some t => text (String.length t) InDollarQuoted t
        | None =>
            if placeholderAt q i then
              let k := i + 1 + identLen q (i + 1) in
              let name := slice q (i + 1) k in
              if startsWith q k "{" then (TBlock name k, Cursor k Plain (tag c))
              else (TParam name, Cursor k Plain (tag c))
            else text 1 Plain (tag c)
        end
  | InSingleQuoted =>
      let '(len, r) := quotedStep q i "'" true InSingleQuoted in text len r (tag c)
  | InDoubleQuoted =>
      let '(len, r) := quotedStep q i dquote true InDoubleQuoted in text len r (tag c)
  | InBacktickQuoted =>
      let '(len, r) := quotedStep q i "`" false InBacktickQuoted in text len r (tag c)
  | InBracketQuoted =>
      let '(len, r) := quotedStep q i "]" false InBracketQuoted in text len r (tag c)
  | InLineComment =>
      if startsWith q i (str1 (byte 10)) || startsWith q i (str1 (byte 13))
      then text 1 Plain (tag c)
      else text 1 InLineComment (tag c)
  | InBlockComment =>
      if startsWith q i "*/" then text 2 Plain (tag c)
      else text 1 InBlockComment (tag c)
  | InDollarQuoted =>
      match (if String.eqb (tag c) "" then None else indexOf (tag c) (from q i)) with
      | Some p => text (p + String.length (tag c)) Plain ""
      | None => text (String.length q - i) InDollarQuoted (tag c)
      end
  end.

(** The tokens from the cursor to the end of the template.  A row block
    ends the list: what follows it depends on its column list. *)
Fixpoint tokensFrom (fuel : nat) (d : Dialect) (q : string) (c : cursor)
  : list token :=
  if String.length q <=? offset c then []
  else
    match fuel with
    | 0 => []
    | S f =>
        match lexStep d q c with
        | (TBlock name k, _) => [TBlock name k]
        | (tok, c') => tok :: tokensFrom f d q c'
        end
    end.

Definition tokens (d : Dialect) (q : string) : list token :=
  tokensFrom (String.length q) d q (Cursor 0 Plain "").

(** The names of the scalar placeholders, in order of occurrence. *)
Definition paramNames (toks : list token) : list string :=
  omap (fun t => match t with TParam name => Some name | _ => None end) toks.

Definition isBlock (t : token) : bool :=
  match t with TBlock _ _ => true | _ => false end.

(** The text in which the scalar placeholders after the first [n] are
    replaced by the tokens of the ordinals [n + 1], [n + 2], ... *)
Fixpoint renderScalars (d : Dialect) (n : nat) (toks : list token) : string :=
  match toks with
  | [] => ""
  | TText w :: rest => w +:+ renderScalars d n rest
  | TParam _ :: rest => placeholder d (S n) +:+ renderScalars d (S n) rest
  | TBlock _ _ :: rest => renderScalars d n rest
  end.

(** The argument a single-valued binding contributes: the wrapped value
    of a force-scalar wrapper, the value itself otherwise. *)
Definition argOf (v : value) : value :=
  match v with
  | VScalar x => x
  | _ => v
  end.

(** A value that is neither a collection nor a byte blob (nor the
    ambiguity sentinel): anything that is not a slice or an array, and any
    value wrapped by the force-scalar wrapper. *)
Definition isSingle (v : value) : bool :=
  match v with
  | VSlice _ _ | VArray _ _ | VAmbiguous _ => false
  | _ => true
  end.

Definition region_of (st : lexState) : region :=
  match st with
  | sText => Plain | sSQ => InSingleQuoted | sDQ => InDoubleQuoted
  | sBT => InBacktickQuoted | sBR => InBracketQuoted | sLC => InLineComment
  | sBC => InBlockComment | sDQD => InDollarQuoted
  end.

Definition cursor_of (s : pstate) : cursor :=
  Cursor (pos s) (region_of (state s)) (dqTag s).

(** ** The row mapper

    [database/sql] is outside the package.  Its [Rows.Scan] assigns the
    driver values of the current row to the targets in column order and
    stops at the first conversion error; the rules of its [convertAssign]
    that the mapper relies on are modelled in [convertAssign] below: a
    target of type [*any] takes the driver value as it is, a target that
    implements [sql.Scanner] is handed the driver value, a target that
    points to a pointer is set to nil on NULL and to a fresh converted
    value otherwise, a [[]byte] or [sql.RawBytes] target is set to nil on
    NULL, and NULL cannot be converted to any other target.
    The conversion of a non-NULL driver value to a basic type and the
    [Scan] methods of the user's types are parameters of the model. *)

(** A [driver.Value]. *)
Inductive driverValue :=
| DNull
| DInt64 (z : Z)
| DBoolean (x : bool)
| DString (s : string)
| DBytes (s : string).

Definition isNull (raw : driverValue) : bool :=
  match raw with DNull => true | _ => false end.

(** The driver value as an [any]. *)
Definition ofDriver (raw : driverValue) : value :=
  match raw with
  | DNull => VNil
  | DInt64 z => VBasic (TBasic KInt64 anon) (DInt z)
  | DBoolean x => VBasic tBool (DBool x)
  | DString s => VBasic tString (DStr s)
  | DBytes s => VSlice tBytes (List.map (fun c => VBasic tUint8 (DInt (Z.of_nat (nat_of_ascii c))))
                                        (list_ascii_of_string s))
  end.

(** [colKind] classifies the strategy for scanning a result column into a
    struct field. *)
Inductive colKind := ckSink | ckScanner | ckPtr | ckValue.

(** [scanPlan] describes how to map each result column to a struct
    field. *)
Record scanPlan := ScanPlan {
  kinds : list colKind;
  fPath : list (list nat);
  ptrIdx : list nat;
  ptrFieldTypes : list (option rtype)
}.

(** The errors of a scan: an error of the package, one of its
    shape-mismatch messages, the conversion error of [Rows.Scan] at a
    column, or the error returned by a [Scan] method at a column. *)
Inductive scanError :=
| EPackage (e : error)
| EShape (msg : string)
| EConvert (col : nat)
| EScanner (col : nat).

(** What a call of the mapper does. *)
Inductive result (A : Type) :=
| Done (a : A)
| Failed (e : scanError)
| Panicked.
Arguments Done {A} a.
Arguments Failed {A} e.
Arguments Panicked {A}.

Definition structFieldType (t : rtype) (x : nat) : option rtype :=
  match t with
  | TStruct _ fs => snd <$> fs !! x
  | _ => None
  end.

(** [Type.FieldByIndex]: after the first index a pointer to a struct is
    followed; [None] where [reflect] panics. *)
Fixpoint fieldByIndexFrom (t : rtype) (index : list nat) : option rtype :=
  match index with
  | [] => Some t
  | x :: rest =>
      let t' := match t with
                | TPointer (TStruct ti fs) => TStruct ti fs
                | _ => t
                end in
      structFieldType t' x ≫= fun ft => fieldByIndexFrom ft rest
  end.

Definition FieldByIndexType (t : rtype) (index : list nat) : option rtype :=
  match index with
  | [] => Some t
  | x :: rest => structFieldType t x ≫= fun ft => fieldByIndexFrom ft rest
  end.

Definition isScannerField (ft : rtype) : bool :=
  implementsScanner (TPointer ft) || implementsScanner ft.

(** The loop of [buildScanPlan] over the columns from index [i] on. *)
Fixpoint buildColumns (dstT : rtype) (fmap : gmap string fieldInfo) (i : nat)
  (cols : list string) (p : scanPlan) : result scanPlan :=
  match cols with
  | [] => Done p
  | col :: rest =>
      match fmap !! col with
      | None =>
          buildColumns dstT fmap (S i) rest
            (ScanPlan (kinds p ++ [ckSink]) (fPath p ++ [[]]) (ptrIdx p)
                      (ptrFieldTypes p ++ [None]))
      | Some fi =>
          if ambiguous fi then Failed (EPackage (ErrFieldAmbiguous col None))
          else
            match FieldByIndexType dstT (index fi) with
            | None => Panicked
            | Some ft =>
                if isScannerField ft then
                  buildColumns dstT fmap (S i) rest
                    (ScanPlan (kinds p ++ [ckScanner]) (fPath p ++ [index fi])
                              (ptrIdx p) (ptrFieldTypes p ++ [None]))
                else if Kind_eqb (kindOfType ft) Pointer then
                  buildColumns dstT fmap (S i) rest
                    (ScanPlan (kinds p ++ [ckPtr]) (fPath p ++ [index fi])
                              (ptrIdx p ++ [i]) (ptrFieldTypes p ++ [Some ft]))
                else
                  buildColumns dstT fmap (S i) rest
                    (ScanPlan (kinds p ++ [ckValue]) (fPath p ++ [index fi])
                              (ptrIdx p) (ptrFieldTypes p ++ [None]))
            end
      end
  end.

(** [buildScanPlan] builds the plan describing how each result column is
    scanned into the destination struct type. *)
Definition buildScanPlan (cols : list string) (dstT : rtype) : result scanPlan :=
  let dstT := derefType dstT in
  buildColumns dstT (fieldIndexMap dstT) 0 cols (ScanPlan [] [] [] []).

(** [getScanPlan]: the plan cache memoises [buildScanPlan] on the
    canonical struct type and the column signature. *)
Definition getScanPlan (cols : list string) (dstT : rtype) : result scanPlan :=
  buildScanPlan cols (derefType dstT).

(** [reflect.Zero(t)] *)
Fixpoint zeroValue (t : rtype) : value :=
  match t with
  | TBasic KBool _ => VBasic t (DBool false)
  | TBasic KString _ => VBasic t (DStr "")
  | TBasic _ _ => VBasic t (DInt 0)
  | TPointer e => VPtr e None
  | TInterface => VIface VNil
  | TSlice _ _ => VSlice t []
  | TArray _ n e => VArray t (List.repeat (zeroValue e) n)
  | TMap _ _ _ => VMap t []
  | TStruct _ fs => VStruct t (List.map (fun x => zeroValue (snd x)) fs)
  | TBack _ => VStruct t []
  end.

(** The walk shared by [fieldByIndexAlloc] and [setFieldByIndex]: nil
    pointers between the root and the leaf are allocated, and the leaf is
    replaced by [leaf] applied to it.  [None] where [reflect] panics. *)
Fixpoint updatePath (v : value) (path : list nat) (leaf : value -> value)
  : option value :=
  match path, v with
  | [], _ => Some v
  | idx :: rest, VStruct t fs =>
      match fs !! idx with
      | None => None
      | Some f =>
          match rest with
          | [] => Some (VStruct t (<[idx := leaf f]> fs))
          | _ =>
              match f with
              | VPtr e None =>
                  (fun x => VStruct t (<[idx := VPtr e (Some x)]> fs))
                    <$> updatePath (zeroValue e) rest leaf
              | VPtr e (Some x) =>
                  (fun x' => VStruct t (<[idx := VPtr e (Some x')]> fs))
                    <$> updatePath x rest leaf
              | _ =>
                  (fun f' => VStruct t (<[idx := f']> fs))
                    <$> updatePath f rest leaf
              end
          end
      end
  | _ :: _, _ => None
  end.

(** [fieldByIndexAlloc]: the root after the allocation of the
    intermediate pointers. *)
Definition fieldByIndexAlloc (root : value) (path : list nat) : option value :=
  updatePath root path (fun f => f).

(** [setFieldByIndex] sets [x] into the field at [path] on [root]. *)
Definition setFieldByIndex (root : value) (path : list nat) (x : value)
  : option value :=
  updatePath root path (fun _ => x).

(** The field at [path], through non-nil pointers between the root and
    the leaf. *)
Fixpoint fieldAt (v : value) (path : list nat) : option value :=
  match path, v with
  | [], _ => Some v
  | idx :: rest, VStruct _ fs =>
      match fs !! idx with
      | None => None
      | Some f =>
          match rest with
          | [] => Some f
          | _ => match f with
                 | VPtr _ None => None
                 | VPtr _ (Some x) => fieldAt x rest
                 | _ => fieldAt f rest
                 end
          end
      end
  | _ :: _, _ => None
  end.

(** [hasPtrOnPath] reports whether a field between the root type and
    the leaf of [path] is a pointer. *)
Fixpoint hasPtrOnPathFrom (t : rtype) (path : list nat) : bool :=
  match path with
  | [] => false
  | idx :: rest =>
      match t with
      | TStruct _ fs =>
          match fs !! idx with
          | None => true
          | Some (_, ft) =>
              match rest with
              | [] => false
              | _ =>
                  if Kind_eqb (kindOfType ft) Pointer then true
                  else if negb (Kind_eqb (kindOfType ft) Struct) then true
                  else hasPtrOnPathFrom ft rest
              end
          end
      | _ => true
      end
  end.

Definition hasPtrOnPath (rootT : rtype) (path : list nat) : bool :=
  hasPtrOnPathFrom (derefType rootT) path.

(** Where a target of [Rows.Scan] points: to the sink of a column, to
    the leaf field at a path of the destination, of the given type, or to
    the holder of a column, which holds a pointer of the given type. *)
Inductive target :=
| ToSink (i : nat)
| ToField (path : list nat) (ft : rtype)
| ToHolder (i : nat) (ft : rtype).

(** [scanState] holds the per-scan buffers: the targets, the sinks
    ([*any], read as their content) and the holders ([**T], read as the
    pointer they hold; [None] where the plan has no holder). *)
Record scanState := ScanState {
  targets : list (option target);
  sinks : list driverValue;
  holders : list (option value)
}.

(** [newState] allocates the buffers for the columns of the plan. *)
Definition newState (p : scanPlan) : scanState :=
  let n := List.length (kinds p) in
  ScanState (List.repeat None n) (List.repeat DNull n)
            (List.map (fun i =>
                         if existsb (Nat.eqb i) (ptrIdx p)
                         then zeroValue <$> mjoin (ptrFieldTypes p !! i)
                         else None)
                      (seq 0 n)).

(** What the scan of a row has changed: the destination struct, the
    buffers, and the calls of [Scan] methods made so far, each with its
    column and the driver value it was handed. *)
Record scanMem := ScanMem {
  dst : value;
  st : scanState;
  calls : list (nat * driverValue)
}.

Section Mapper.

(** The conversion of a non-NULL driver value to a type that is neither
    a pointer, an interface nor a [Scanner], by [database/sql]. *)
Variable convertNonNull : rtype -> driverValue -> option value.

(** The [Scan] method of the type [t] with a [Scan] method: the value of
    the receiver after the call, or [None] for an error. *)
Variable scanMethod : rtype -> driverValue -> option value.

(** [convertAssign(dest, src)] for a [dest] of type [*t]: the new
    content of the target and the [Scan] calls made, or the kind of
    error. *)
Fixpoint convertAssign (col : nat) (t : rtype) (src : driverValue)
  : (scanError + value) * list (nat * driverValue) :=
  if rtype_eqb t TInterface then (inr (VIface (ofDriver src)), [])
  else if implementsScanner (TPointer t) then
    (match scanMethod t src with
     | Some v => inr v
     | None => inl (EScanner col)
     end, [(col, src)])
  else
    match t with
    | TPointer e =>
        if isNull src then (inr (VPtr e None), [])
        else
          let '(r, log) := convertAssign col e src in
          (match r with
           | inr x => inr (VPtr e (Some x))
           | inl err => inl err
           end, log)
    | _ =>
        if isNull src then
          if rtype_eqb t tBytes then (inr (VSlice tBytes []), [])
          else if rtype_eqb t tRawBytes then (inr (VSlice tRawBytes []), [])
          else (inl (EConvert col), [])
        else
          (match convertNonNull t src with
           | Some v => inr v
           | None => inl (EConvert col)
           end, [])
    end.

(** The assignments of [rows.Scan], from column [i] on: each target
    takes the driver value of its column, and the first error stops the
    scan with the earlier targets written. *)
Fixpoint assignColumns (i : nat) (tgts : list (option target))
  (row : list driverValue) (m : scanMem) : result scanMem :=
  match tgts, row with
  | Some tg :: tgts', src :: row' =>
      match tg with
      | ToSink j =>
          assignColumns (S i) tgts' row'
            (ScanMem (dst m)
                     (ScanState (targets (st m)) (<[j := src]> (sinks (st m)))
                                (holders (st m)))
                     (calls m))
      | ToField path ft =>
          let '(r, log) := convertAssign i ft src in
          match r with
          | inl err => Failed err
          | inr x =>
              match setFieldByIndex (dst m) path x with
              | None => Panicked
              | Some d =>
                  assignColumns (S i) tgts' row' (ScanMem d (st m) (calls m ++ log))
              end
          end
      | ToHolder j ft =>
          let '(r, log) := convertAssign i ft src in
          match r with
          | inl err => Failed err
          | inr x =>
              assignColumns (S i) tgts' row'
                (ScanMem (dst m)
                         (ScanState (targets (st m)) (sinks (st m))
                                    (<[j := Some x]> (holders (st m))))
                         (calls m ++ log))
          end
      end
  | None :: _, _ :: _ => Failed (EConvert i)
  | _, _ => Done m
  end.

(** [rows.Scan(targets...)] on the driver values of the current row:
    the number of targets must be the number of columns. *)
Definition rowsScan (tgts : list (option target)) (row : list driverValue)
  (m : scanMem) : result scanMem :=
  if negb (Nat.eqb (List.length tgts) (List.length row))
  then Failed (EShape "sql: expected destination arguments in Scan")
  else assignColumns 0 tgts row m.

(** The leaf field of column [i]: [fieldByIndexAlloc] where [alloc]
    holds, [FieldByIndex] otherwise; the destination after it, and the
    type of the leaf. *)
Definition leafField (alloc : bool) (structT : rtype) (d : value) (path : list nat)
  : option (value * rtype) :=
  match (if alloc then fieldByIndexAlloc d path
         else (fun _ => d) <$> fieldAt d path),
        FieldByIndexType structT path with
  | Some d', Some ft => Some (d', ft)
  | _, _ => None
  end.

(** The loop preparing the targets of the columns from [i] on;
    [ptrScannerIdx] collects the columns whose field is a pointer that
    implements [sql.Scanner]. *)
Fixpoint prepareTargets (plan : scanPlan) (structT : rtype)
  (alloc : list nat -> bool) (i : nat) (ks : list colKind)
  (m : scanMem) (ptrScannerIdx : list nat) : option (scanMem * list nat) :=
  match ks with
  | [] => Some (m, ptrScannerIdx)
  | kind :: ks' =>
      let path := default [] (fPath plan !! i) in
      let setTarget (d : value) (tg : target) (hs : list (option value)) :=
        ScanMem d (ScanState (<[i := Some tg]> (targets (st m))) (sinks (st m)) hs)
                (calls m) in
      match kind with
      | ckSink =>
          prepareTargets plan structT alloc (S i) ks'
            (setTarget (dst m) (ToSink i) (holders (st m))) ptrScannerIdx
      | ckScanner =>
          match leafField (alloc path) structT (dst m) path with
          | None => None
          | Some (d, ft) =>
              if Kind_eqb (kindOfType ft) Pointer && implementsScanner ft then
                prepareTargets plan structT alloc (S i) ks'
                  (setTarget d (ToSink i) (holders (st m))) (ptrScannerIdx ++ [i])
              else
                prepareTargets plan structT alloc (S i) ks'
                  (setTarget d (ToField path ft) (holders (st m))) ptrScannerIdx
          end
      | ckValue =>
          match leafField (alloc path) structT (dst m) path with
          | None => None
          | Some (d, ft) =>
              prepareTargets plan structT alloc (S i) ks'
                (setTarget d (ToField path ft) (holders (st m))) ptrScannerIdx
          end
      | ckPtr =>
          match mjoin (holders (st m) !! i), mjoin (ptrFieldTypes plan !! i) with
          | Some _, Some ft =>
              prepareTargets plan structT alloc (S i) ks'
                (setTarget (dst m) (ToHolder i ft)
                           (<[i := Some (zeroValue ft)]> (holders (st m))))
                ptrScannerIdx
          | _, _ => None
          end
      end
  end.

(** The post-assignments of the [ckPtr] columns. *)
Fixpoint applyHolders (plan : scanPlan) (idxs : list nat) (m : scanMem)
  : option scanMem :=
  match idxs with
  | [] => Some m
  | i :: rest =>
      match mjoin (holders (st m) !! i) with
      | None => None
      | Some h =>
          match setFieldByIndex (dst m) (default [] (fPath plan !! i)) h with
          | None => None
          | Some d => applyHolders plan rest (ScanMem d (st m) (calls m))
          end
      end
  end.

(** The post-processing of the pointer-to-Scanner columns: the field
    stays nil on NULL, and is allocated and scanned otherwise. *)
Fixpoint applyPtrScanners (plan : scanPlan) (structT : rtype)
  (alloc : list nat -> bool) (idxs : list nat) (m : scanMem) : result scanMem :=
  match idxs with
  | [] => Done m
  | i :: rest =>
      let path := default [] (fPath plan !! i) in
      match sinks (st m) !! i, leafField (alloc path) structT (dst m) path with
      | Some raw, Some (d, TPointer e) =>
          if isNull raw then
            match setFieldByIndex d path (zeroValue (TPointer e)) with
            | None => Panicked
            | Some d' => applyPtrScanners plan structT alloc rest
                           (ScanMem d' (st m) (calls m))
            end
          else if negb (implementsScanner (TPointer e)) then
            Failed (EShape "sqlr: internal: type does not implement sql.Scanner")
          else
            match scanMethod e raw with
            | None => Failed (EScanner i)
            | Some x =>
                match setFieldByIndex d path (VPtr e (Some x)) with
                | None => Panicked
                | Some d' => applyPtrScanners plan structT alloc rest
                               (ScanMem d' (st m) (calls m ++ [(i, raw)]))
                end
            end
      | _, _ => Panicked
      end
  end.

(** The scan of one row into the struct [d] with the buffers [s]: the
    targets are prepared, the row is fetched, and the deferred
    assignments are made. *)
Definition scanRow (plan : scanPlan) (structT : rtype) (alloc : list nat -> bool)
  (row : list driverValue) (d : value) (s : scanState)
  (log : list (nat * driverValue)) : result scanMem :=
  match prepareTargets plan structT alloc 0 (kinds plan) (ScanMem d s log) [] with
  | None => Panicked
  | Some (m, ptrScannerIdx) =>
      match rowsScan (targets (st m)) row m with
      | Done m' =>
          match applyHolders plan (ptrIdx plan) m' with
          | None => Panicked
          | Some m'' => applyPtrScanners plan structT alloc ptrScannerIdx m''
          end
      | Failed e => Failed e
      | Panicked => Panicked
      end
  end.

Definition structTypeOf (v : value) : rtype :=
  default TInterface (typeOf v).

(** [scanOneWithPlan] scans the current row into [dstStruct]: the
    struct after the scan and the [Scan] calls made. *)
Definition scanOneWithPlan (cols : list string) (row : list driverValue)
  (dstStruct : value) : result (value * list (nat * driverValue)) :=
  match getScanPlan cols (structTypeOf dstStruct) with
  | Failed e => Failed e
  | Panicked => Panicked
  | Done plan =>
      match scanRow plan (derefType (structTypeOf dstStruct)) (fun _ => true)
                    row dstStruct (newState plan) [] with
      | Done m => Done (dst m, calls m)
      | Failed e => Failed e
      | Panicked => Panicked
      end
  end.

(** The loop of [scanAll] over the rows of the cursor for a slice of
    structs ([isPtr] false) or of pointers to structs: [backing] is
    the backing array of the destination slice, of which the first
    [List.length out] elements are in use. *)
Fixpoint scanAllRows (plan : scanPlan) (structT : rtype) (isPtr : bool)
  (backing : list value) (rows : list (list driverValue)) (out : list value)
  (s : scanState) (log : list (nat * driverValue))
  : result (list value * list (nat * driverValue)) :=
  match rows with
  | [] => Done (out, log)
  | row :: rest =>
      let alloc := hasPtrOnPath structT in
      let element :=
        if isPtr then zeroValue structT
        else default (zeroValue structT) (backing !! List.length out) in
      match scanRow plan structT alloc row element s log with
      | Done m =>
          scanAllRows plan structT isPtr backing rest
            (out ++ [if isPtr then VPtr structT (Some (dst m)) else dst m])
            (st m) (calls m)
      | Failed e => Failed e
      | Panicked => Panicked
      end
  end.

(** [scanAll] on a destination slice with element type [elemT] and
    the given backing array, for the struct and pointer element kinds. *)
Definition scanAll (cols : list string) (rows : list (list driverValue))
  (elemT : rtype) (backing : list value)
  : result (list value * list (nat * driverValue)) :=
  match kindOfType elemT with
  | Struct | Pointer =>
      let isPtr := Kind_eqb (kindOfType elemT) Pointer in
      if isPtr && negb (match elemType elemT with
                        | Some e => Kind_eqb (kindOfType e) Struct
                        | None => false
                        end)
      then Failed (EShape "sqlr: slice of pointers to non-struct")
      else
        let structT := if isPtr then default elemT (elemType elemT) else elemT in
        match getScanPlan cols structT with
        | Failed e => Failed e
        | Panicked => Panicked
        | Done plan =>
            scanAllRows plan structT isPtr backing rows [] (newState plan) []
        end
  | _ =>
      if negb (Nat.eqb (List.length cols) 1)
      then Failed (EShape "sqlr: ScanAll on slice of non-struct requires 1 column")
      else
        (fix items (rows : list (list driverValue)) (out : list value)
             (log : list (nat * driverValue)) :=
           match rows with
           | [] => Done (out, log)
           | row :: rest =>
               match row with
               | [src] =>
                   let '(r, l) := convertAssign 0 elemT src in
                   match r with
                   | inl e => Failed e
                   | inr x => items rest (out ++ [x]) (log ++ l)
                   end
               | _ => Failed (EShape "sql: expected destination arguments in Scan")
               end
           end) rows [] []
  end.

End Mapper.

(** ** Flattened leaves, after the specification

    The specification describes the field index as the result of a
    depth-first walk of the declared fields: unexported and ignored fields
    are skipped, a record-shaped field (directly or through one pointer)
    is flattened unless its type has the conversion capability or is the
    timestamp type, a type that is being expanded is not entered again,
    and every other field is a leaf under its column name.  [leaves t]
    lists these leaves, with their paths, in the order of the walk. *)

Fixpoint leavesFields
  (descend : rtype -> list nat -> list (string * fieldInfo))
  (path : list nat) (i : nat) (fs : list (fieldDecl * rtype))
  : list (string * fieldInfo) :=
  match fs with
  | [] => []
  | (f, ft) :: rest =>
      if negb (String.eqb (fPkgPath f) "") || String.eqb (fTag f) "-"
      then leavesFields descend path (S i) rest
      else if shouldFlatten ft
      then descend ft (path ++ [i]) ++ leavesFields descend path (S i) rest
      else (columnName f, FieldInfo (path ++ [i]) (tagScalar f) false)
             :: leavesFields descend path (S i) rest
  end.

Fixpoint leavesFrom (rt : rtype) (visited : list rtype) (path : list nat)
  {struct rt} : list (string * fieldInfo) :=
  match rt with
  | TPointer e => leavesFrom e visited path
  | TBack _ => []
  | TStruct _ fs =>
      if existsb (rtype_eqb rt) visited then []
      else leavesFields (fun ft path' => leavesFrom ft (rt :: visited) path')
                        path 0 fs
  | _ => []
  end.

Definition leaves (t : rtype) : list (string * fieldInfo) :=
  leavesFrom (derefType t) [] [].

(** The number of leaves that expose [name]. *)
Definition leafCount (t : rtype) (name : string) : nat :=
  count_occ string_dec (List.map fst (leaves t)) name.

Definition addLeaves (l : list (string * fieldInfo)) (m : gmap string fieldInfo)
  : gmap string fieldInfo :=
  fold_left (fun m x => addLeaf m (fst x) (snd x)) l m.


(** Two index paths part at some index: neither leaf lies on the way to
    the other. *)
Fixpoint disjointPaths (p p' : list nat) : bool :=
  match p, p' with
  | a :: r, c :: r' => if Nat.eqb a c then disjointPaths r r' else true
  | _, _ => false
  end.

(** The target that the preparation gives column [j]. *)
Definition targetOf (plan : scanPlan) (structT : rtype) (j : nat) : option target :=
  let path := default [] (fPath plan !! j) in
  match kinds plan !! j with
  | Some ckSink => Some (ToSink j)
  | Some ckScanner =>
      (fun ft => if Kind_eqb (kindOfType ft) Pointer && implementsScanner ft
                 then ToSink j else ToField path ft)
        <$> FieldByIndexType structT path
  | Some ckValue => ToField path <$> FieldByIndexType structT path
  | Some ckPtr => ToHolder j <$> mjoin (ptrFieldTypes plan !! j)
  | None => None
  end.

(** Column [j] is scanned through its sink and post-processed: its field
    is a pointer that implements [sql.Scanner]. *)
Definition isPtrScannerCol (plan : scanPlan) (structT : rtype) (j : nat) : bool :=
  match kinds plan !! j, FieldByIndexType structT (default [] (fPath plan !! j)) with
  | Some ckScanner, Some ft => Kind_eqb (kindOfType ft) Pointer && implementsScanner ft
  | _, _ => false
  end.

(** The buffers have one slot per column. *)
Definition sized (n : nat) (s : scanState) : Prop :=
  List.length (targets s) = n /\ List.length (sinks s) = n
  /\ List.length (holders s) = n.

(** A sink or holder target belongs to the column it is the target
    of. *)
Definition ownTarget (k : nat) (tg : target) : Prop :=
  match tg with
  | ToSink j | ToHolder j _ => j = k
  | ToField _ _ => True
  end.

Definition isSinkTarget (tg : target) : bool :=
  match tg with ToSink _ => true | _ => false end.

(** The entry of the plan for a column: its kind, its path and, for an
    optional leaf, the type of the leaf; [None] when the build stops at
    the column. *)
Definition colEntry (dstT : rtype) (fm : gmap string fieldInfo) (col : string)
  : option (colKind * list nat * option rtype) :=
  match fm !! col with
  | None => Some (ckSink, [], None)
  | Some fi =>
      if ambiguous fi then None
      else match FieldByIndexType dstT (index fi) with
           | None => None
           | Some ft =>
               if isScannerField ft then Some (ckScanner, index fi, None)
               else if Kind_eqb (kindOfType ft) Pointer
                    then Some (ckPtr, index fi, Some ft)
                    else Some (ckValue, index fi, None)
           end
  end.

Definition isPtrKind (k : colKind) : bool :=
  match k with ckPtr => true | _ => false end.

(** The indices, counted from [i0], of the entries of kind [ckPtr]. *)
Fixpoint ptrsOf (i0 : nat) (ens : list (colKind * list nat * option rtype))
  : list nat :=
  match ens with
  | [] => []
  | en :: rest =>
      (if isPtrKind (fst (fst en)) then [i0] else []) ++ ptrsOf (S i0) rest
  end.

(** The struct of an element of the destination slice. *)
Definition elemStruct (el : value) : value :=
  match el with
  | VPtr _ (Some x) => x
  | _ => el
  end.

(** The path of column [j] in a plan. *)
Definition planPath (plan : scanPlan) (j : nat) : list nat :=
  default [] (fPath plan !! j).

(** Column [j] of the plan is mapped to a field of the destination. *)
Definition mappedColumn (plan : scanPlan) (j : nat) : bool :=
  match kinds plan !! j with
  | Some ckSink | None => false
  | Some _ => true
  end.

(** No other mapped column of the plan is scanned into the leaf at
    [path] or into a field on the way to it or under it. *)
Definition onlyColumnOf (plan : scanPlan) (i : nat) (path : list nat) : Prop :=
  forall j, j <> i -> mappedColumn plan j = true ->
            disjointPaths (planPath plan j) path = true.

(** The mapped columns of the plan are scanned into fields that part
    from one another. *)
Definition mappedDisjoint (plan : scanPlan) : Prop :=
  forall j k, j <> k -> mappedColumn plan j = true -> mappedColumn plan k = true ->
              disjointPaths (planPath plan j) (planPath plan k) = true.

(** The destination has the field of every mapped column: the field can
    be reached through pointers that are allocated on the way, and read
    as it is where the scan does not allocate. *)
Definition destReady (alloc : list nat -> bool) (plan : scanPlan) (d : value) : Prop :=
  forall j, mappedColumn plan j = true ->
            planPath plan j <> []
            /\ is_Some (fieldByIndexAlloc d (planPath plan j))
            /\ (alloc (planPath plan j) = false -> is_Some (fieldAt d (planPath plan j))).

(** The driver value of column [j] of the row can be stored in the
    field of the column: [convertAssign] converts it to the type of the
    leaf, or, for a pointer leaf with a [Scan] method, [Scan] accepts it
    when it is not NULL. *)
Definition columnScans (convertNonNull scanMethod : rtype -> driverValue -> option value)
  (plan : scanPlan) (structT : rtype) (row : list driverValue) (j : nat) : Prop :=
  match kinds plan !! j with
  | Some ckSink | None => True
  | Some ckPtr =>
      exists ft src x l,
        mjoin (ptrFieldTypes plan !! j) = Some ft /\ row !! j = Some src
        /\ convertAssign convertNonNull scanMethod j ft src = (inr x, l)
  | Some ckValue =>
      exists ft src x l,
        FieldByIndexType structT (planPath plan j) = Some ft /\ row !! j = Some src
        /\ convertAssign convertNonNull scanMethod j ft src = (inr x, l)
  | Some ckScanner =>
      exists ft src,
        FieldByIndexType structT (planPath plan j) = Some ft /\ row !! j = Some src
        /\ if Kind_eqb (kindOfType ft) Pointer && implementsScanner ft
           then isNull src = false ->
                forall e, ft = TPointer e -> is_Some (scanMethod e src)
           else exists x l,
               convertAssign convertNonNull scanMethod j ft src = (inr x, l)
  end.

(** ** The output of the parser, after the specification *)

(** The state of the loop for a region of the lexer. *)
Definition state_of (r : region) : lexState :=
  match r with
  | Plain => sText | InSingleQuoted => sSQ | InDoubleQuoted => sDQ
  | InBacktickQuoted => sBT | InBracketQuoted => sBR | InLineComment => sLC
  | InBlockComment => sBC | InDollarQuoted => sDQD
  end.

(** What the iteration in state [sText] does with a token of the lexer. *)
Definition stepOn (dialect : Dialect) (q : string) (config : Config)
  (lookup : string -> option value)
  (rowsLookup : string -> lookupRes (list value))
  (s : pstate) (tok : token) (c' : cursor) : stepResult :=
  match tok with
  | TText w =>
      Next (PState (offset c') (state_of (inside c')) (tag c') (count s)
                   (buf s +:+ w) (args s))
  | TParam name =>
      if nameTooLong config name then Fail (ErrParamNameTooLong name) s
      else match lookup name with
           | None => Fail (ErrParamMissing name false) s
           | Some v => emitValue dialect config s name (offset c') v
           end
  | TBlock name k =>
      if nameTooLong config name then Fail (ErrParamNameTooLong name) s
      else emitRowsBlock dialect q config rowsLookup s name k
  end.

(** The arguments bound to a list of names. *)
Definition argsOf (lookup : string -> option value) (names : list string)
  : list value :=
  omap (fun name => argOf <$> lookup name) names.

(** [name] is within the name limit and is bound to a value that takes
    a single placeholder. *)
Definition bindsSingle (config : Config) (lookup : string -> option value)
  (name : string) : Prop :=
  nameTooLong config name = false
  /\ exists v, lookup name = Some v /\ isSingle v = true.

(** The pieces of the output of a template of scalar placeholders: the
    texts copied and the ordinals of the placeholders, counted from
    [n + 1]. *)
Fixpoint pieces (n : nat) (toks : list token) : list (string + nat) :=
  match toks with
  | [] => []
  | TText w :: rest => inl w :: pieces n rest
  | TParam _ :: rest => inr (S n) :: pieces (S n) rest
  | TBlock _ _ :: rest => pieces n rest
  end.

(** A piece as it is written for a dialect, and the text of a list of
    pieces. *)
Definition showPiece (d : Dialect) (p : string + nat) : string :=
  match p with
  | inl w => w
  | inr k => placeholder d k
  end.

Fixpoint concatStrings (l : list string) : string :=
  match l with
  | [] => ""
  | w :: rest => w +:+ concatStrings rest
  end.

(** The ordinals among the pieces, from left to right. *)
Definition ordinalsOf (ps : list (string + nat)) : list nat :=
  omap (fun p => match p with inr k => Some k | inl _ => None end) ps.

(** The text of [k] placeholders for the ordinals after [n], each but
    the one at index 0 preceded by a comma and a space. *)
Fixpoint sepList (d : Dialect) (t n k : nat) : string :=
  match k with
  | 0 => ""
  | S k' =>
      (if 0 <? t then ", " else "") +:+ placeholder d (S n) +:+ sepList d (S t) (S n) k'
  end.

(** The text of [k] placeholders for the ordinals [n + 1] to [n + k]. *)
Definition placeholderList (d : Dialect) (n k : nat) : string := sepList d 0 n k.

(** The dynamic type of the value implements [driver.Valuer]. *)
Definition isValuer (v : value) : bool :=
  match typeOf v with
  | Some t => implementsValuer t
  | None => false
  end.

(** The tuples of [rows] rows of [cols] placeholders each, for the
    ordinals after [n]: each tuple in parentheses, each but the one at
    index 0 preceded by a comma and a space. *)
Fixpoint tupleList (d : Dialect) (r n rows cols : nat) : string :=
  match rows with
  | 0 => ""
  | S rows' =>
      (if 0 <? r then ", " else "") +:+ "(" +:+ placeholderList d n cols +:+ ")"
      +:+ tupleList d (S r) (n + cols) rows' cols
  end.

(** The value of a column on a row: for a record the leaf of the
    flattened field of that name, which must not be ambiguous; for a
    mapping the element under that key. *)
Definition columnOf (row : value) (col : string) : option value :=
  match unwrapAll row with
  | None => None
  | Some rv =>
      match kindOf rv with
      | Struct =>
          match typeOf rv with
          | Some t =>
              match fieldIndexMap t !! col with
              | Some fi =>
                  if ambiguous fi then None
                  else
                    let '(v, ok) := getValueByPathAny rv (index fi) in
                    if ok then Some v else None
              | None => None
              end
          | None => None
          end
      | Map => reflectMapLookup rv col
      | _ => None
      end
  end.

(** The values of the columns [cols] on the rows, row by row. *)
Definition cellsOf (rows : list value) (cols : list string) : list value :=
  flat_map (fun row => omap (columnOf row) cols) rows.

(** The keys prepared from the first row fit its key type. *)
Definition keysOk (cols : list string) (colKeys : option (list value))
  (mapKeyT : option rtype) : Prop :=
  forall ks, colKeys = Some ks ->
             exists kt, mapKeyT = Some kt
                        /\ ks = List.map (fun c => stringKey c kt) cols
                        /\ stringConvertibleTo kt = true.

(** The counter and the arguments grow by the same number, and a counter
    within a positive limit stays within it. *)
Definition extends (cfg : Config) (s s' : pstate) : Prop :=
  exists add,
    count s' = count s + add
    /\ List.length (args s') = List.length (args s) + add
    /\ ((0 < MaxParams cfg)%Z ->
        (Z.of_nat (count s) <= MaxParams cfg)%Z ->
        (Z.of_nat (count s') <= MaxParams cfg)%Z).

(** The error is not [ErrTooManyParams]. *)
Definition notLimit (e : error) : Prop :=
  forall req lim, e <> ErrTooManyParams req lim.

(** A target type to which [database/sql] cannot assign NULL: not an
    interface, not a pointer, neither [[]byte] nor [sql.RawBytes], and
    without a [Scan] method. *)
Definition rejectsNull (ft : rtype) : bool :=
  negb (rtype_eqb ft TInterface) && negb (implementsScanner (TPointer ft))
  && negb (Kind_eqb (kindOfType ft) Pointer) && negb (rtype_eqb ft tBytes)
  && negb (rtype_eqb ft tRawBytes).

(** Every entry of the path cache holds the paths of the columns in the
    field index of its type. *)
Definition cacheOk (cols : list string) (cache : pathCache) : Prop :=
  forall t paths, cacheGet cache t = Some paths ->
                  forall name r, columnPaths (fieldIndexMap t) cols name r = inr paths.

(** The leaf is a nil pointer or a nil interface, possibly inside
    interfaces. *)
Definition isNilLeaf (f : value) : Prop :=
  match unwrapInterfaces f with
  | None => True
  | Some (VPtr _ None) => True
  | Some _ => False
  end.

(** The path from [v] crosses a nil pointer, or ends at a nil pointer or
    nil interface. *)
Inductive crossesNil : value -> list nat -> Prop :=
| crosses_pointer v idx rest :
    unwrapPointers v = None -> crossesNil v (idx :: rest)
| crosses_leaf v t fs idx f :
    unwrapPointers v = Some (VStruct t fs) -> kindOfType t = Struct ->
    fs !! idx = Some f -> isNilLeaf f -> crossesNil v [idx]
| crosses_field v t fs idx f rest :
    unwrapPointers v = Some (VStruct t fs) -> kindOfType t = Struct ->
    fs !! idx = Some f -> rest <> [] -> crossesNil f rest ->
    crossesNil v (idx :: rest).

(** The holders and the list of pointer-scanner columns after the
    preparation of column [i]. *)
Definition holdersAfter (plan : scanPlan) (i : nat) (hs : list (option value))
  : list (option value) :=
  match kinds plan !! i, mjoin (ptrFieldTypes plan !! i) with
  | Some ckPtr, Some ft => <[i := Some (zeroValue ft)]> hs
  | _, _ => hs
  end.

Definition accAfter (plan : scanPlan) (structT : rtype) (i : nat) (acc : list nat)
  : list nat :=
  if isPtrScannerCol plan structT i then acc ++ [i] else acc.

(** ** Literals and comments, after the specification

    The specification names the regions in which a placeholder-shaped
    token is plain text: the quoted literals, the comments and the
    dollar-quoted regions.  [closedRegion d w rest] holds when the text
    [w], followed by [rest], is such a region from its opening to its
    closing delimiter. *)

Definition startsWithByte (w : string) (c : ascii) : bool :=
  match w with
  | String x _ => Ascii.eqb x c
  | EmptyString => false
  end.

(** The text between the delimiters of a literal closed by [close]: a
    backslash, where it escapes, takes the next byte with it, and a
    closing byte inside the literal is doubled. *)
Fixpoint quotedBody (close : ascii) (escapes : bool) (w : string) : bool :=
  match w with
  | EmptyString => true
  | String c r =>
      if escapes && Ascii.eqb c "\" then
        match r with
        | String _ r' => quotedBody close escapes r'
        | EmptyString => false
        end
      else if Ascii.eqb c close then
        match r with
        | String x r' => Ascii.eqb x close && quotedBody close escapes r'
        | EmptyString => false
        end
      else quotedBody close escapes r
  end.

(** The text of a line comment has no line feed and no carriage
    return. *)
Fixpoint lineBody (w : string) : bool :=
  match w with
  | EmptyString => true
  | String c r =>
      negb (Ascii.eqb c (byte 10) || Ascii.eqb c (byte 13)) && lineBody r
  end.

(** A line comment ends with a line feed or a carriage return, or with
    the template. *)
Definition lineEnd (nl rest : string) : Prop :=
  nl = str1 (byte 10) \/ nl = str1 (byte 13) \/ (nl = "" /\ rest = "").

(** The text of a block comment: no star in it is followed by a
    slash. *)
Fixpoint blockBody (w : string) : bool :=
  match w with
  | EmptyString => true
  | String c r => negb (Ascii.eqb c "*" && startsWithByte r "/") && blockBody r
  end.

Inductive closedRegion (d : Dialect) : string -> string -> Prop :=
| region_single body rest :
    quotedBody "'" true body = true -> startsWithByte rest "'" = false ->
    closedRegion d ("'" +:+ body +:+ "'") rest
| region_double body rest :
    quotedBody dquote true body = true -> startsWithByte rest dquote = false ->
    closedRegion d (str1 dquote +:+ body +:+ str1 dquote) rest
| region_backtick body rest :
    backtickQuoting d = true ->
    quotedBody "`" false body = true -> startsWithByte rest "`" = false ->
    closedRegion d ("`" +:+ body +:+ "`") rest
| region_bracket body rest :
    bracketQuoting d = true ->
    quotedBody "]" false body = true -> startsWithByte rest "]" = false ->
    closedRegion d ("[" +:+ body +:+ "]") rest
| region_line body nl rest :
    lineBody body = true -> lineEnd nl rest ->
    closedRegion d ("--" +:+ body +:+ nl) rest
| region_hash body nl rest :
    hashComments d = true -> lineBody body = true -> lineEnd nl rest ->
    closedRegion d ("#" +:+ body +:+ nl) rest
| region_block body rest :
    blockBody body = true ->
    closedRegion d ("/*" +:+ body +:+ "*/") rest
| region_dollar tag body rest :
    readDollarTag (tag +:+ body +:+ tag +:+ rest) = Some tag ->
    indexOf tag (body +:+ tag +:+ rest) = Some (String.length body) ->
    closedRegion d (tag +:+ body +:+ tag) rest.

(** A byte that, followed by [rest], opens no region and starts no
    placeholder. *)
Definition plainByte (d : Dialect) (c : ascii) (rest : string) : bool :=
  negb (Ascii.eqb c "-" && startsWithByte rest "-")
  && negb (Ascii.eqb c "#" && hashComments d)
  && negb (Ascii.eqb c "/" && startsWithByte rest "*")
  && negb (Ascii.eqb c "'")
  && negb (Ascii.eqb c dquote)
  && negb (Ascii.eqb c "`" && backtickQuoting d)
  && negb (Ascii.eqb c "[" && bracketQuoting d)
  && negb (Ascii.eqb c "$")
  && negb (Ascii.eqb c ":").

(** A template made of such bytes and of closed regions: every colon in
    it is inside a literal or a comment. *)
Inductive inert (d : Dialect) : string -> Prop :=
| inert_nil : inert d ""
| inert_byte c rest :
    plainByte d c rest = true -> inert d rest -> inert d (String c rest)
| inert_region w rest :
    closedRegion d w rest -> inert d rest -> inert d (w +:+ rest).

(** The loop entered with the variables [s] returns what the loop
    entered with the variables [s'] returns. *)
Definition continuesAs (dialect : Dialect) (q : string) (config : Config)
  (lookup : string -> option value)
  (rowsLookup : string -> lookupRes (list value)) (s s' : pstate) : Prop :=
  forall fuel fuel',
    String.length q - pos s <= fuel -> String.length q - pos s' <= fuel' ->
    run dialect q config lookup rowsLookup fuel s
    = run dialect q config lookup rowsLookup fuel' s'.

(** ** Example values *)

(** [defaultConfig] merges the configuration of the caller with the
    defaults of the dialect. *)
Definition defaultConfig (dialect : Dialect) (c : Config) : Config :=
  MkConfig
    (if (MaxParams c =? 0)%Z then
       match dialect with
       | SQLServer => 2100%Z
       | SQLite => 999%Z
       | Postgres | MySQL => 65535%Z
       end
     else MaxParams c)
    (if (MaxNameLen c <=? 0)%Z then 64%Z else MaxNameLen c).

Definition vInt (z : Z) : value := VBasic tInt (DInt z).
Definition vStr (w : string) : value := VBasic tString (DStr w).

(** A [map[string]any] with the given entries. *)
Definition bag (kvs : list (string * value)) : value :=
  VMap tMapStringAny (List.map (fun kv => (vStr (fst kv), VIface (snd kv))) kvs).

(** [type U struct { ID int `db:"id"`; Name string `db:"name"` }] *)
Definition tUser : rtype :=
  TStruct (TInfo "main" "U" NoMethod NoMethod)
          [(FieldDecl "ID" "" "id", tInt); (FieldDecl "Name" "" "name", tString)].

Definition user (i : Z) (n : string) : value := VStruct tUser [vInt i; vStr n].

Definition twoUsers : value := VSlice (TSlice anon tUser) [user 1 "A"; user 2 "B"].

(** A slice type with a [Value] method, as [pq.StringArray]. *)
Definition tStringArray : rtype :=
  TSlice (TInfo "pq" "StringArray" NoMethod ValueRecv) tString.

Definition stringArray : value := VSlice tStringArray [vStr "a"; vStr "b"].

(** [type R struct { A int `db:"a"`; B *string `db:"b"` }] *)
Definition tRec : rtype :=
  TStruct (TInfo "main" "R" NoMethod NoMethod)
          [(FieldDecl "A" "" "a", tInt); (FieldDecl "B" "" "b", TPointer tString)].

(** A string type with a [Scan] method on its pointer, and
    [type N struct { A int `db:"a"`; Note *Note `db:"note"` }]. *)
Definition tNote : rtype := TBasic KString (TInfo "main" "Note" PtrRecv NoMethod).

Definition tNoted : rtype :=
  TStruct (TInfo "main" "N" NoMethod NoMethod)
          [(FieldDecl "A" "" "a", tInt); (FieldDecl "Note" "" "note", TPointer tNote)].

(** Two structs that both expose a column [id]:
    [type P struct { X struct{ ID int `db:"id"` }; Y struct{ ID int `db:"id"` } }]. *)
Definition tInner (n : string) : rtype :=
  TStruct (TInfo "main" n NoMethod NoMethod) [(FieldDecl "ID" "" "id", tInt)].

Definition tPair : rtype :=
  TStruct (TInfo "main" "P" NoMethod NoMethod)
          [(FieldDecl "X" "" "", tInner "X"); (FieldDecl "Y" "" "", tInner "Y")].

(** A value of type [P]. *)
Definition pairOfIds : value :=
  VStruct tPair [VStruct (tInner "X") [vInt 1]; VStruct (tInner "Y") [vInt 2]].

(** The conversions of [database/sql] for the basic types, and the
    [Scan] method of [*Note]. *)
Definition basicConvert (t : rtype) (x : driverValue) : option value :=
  match t, x with
  | TBasic KInt _, DInt64 z | TBasic KInt64 _, DInt64 z => Some (VBasic t (DInt z))
  | TBasic KString _, DString w => Some (VBasic t (DStr w))
  | TBasic KBool _, DBoolean c => Some (VBasic t (DBool c))
  | _, _ => None
  end.

(** A record of type [R] whose optional field is nil. *)
Definition nilRec : value := VStruct tRec [vInt 1; VPtr tString None].

(** The plans of the columns [a, b] into [R] and [a, note] into [N]. *)
Definition planRec : scanPlan :=
  ScanPlan [ckValue; ckPtr] [[0]; [1]] [1] [None; Some (TPointer tString)].

Definition planNoted : scanPlan :=
  ScanPlan [ckValue; ckScanner] [[0]; [1]] [] [None; None].

(** Buffers for two columns in which the holder of the second column
    still points to a string. *)
Definition staleState : scanState :=
  ScanState [None; None] [DNull; DNull]
            [None; Some (VPtr tString (Some (vStr "old")))].

(** The recursive type [type Node struct { ID int `db:"id"`; Next *Node }]. *)
Definition nodeInfo : tinfo := TInfo "main" "Node" NoMethod NoMethod.

Definition tNode : rtype :=
  TStruct nodeInfo [(FieldDecl "ID" "" "id", tInt);
                    (FieldDecl "Next" "" "", TPointer (TBack nodeInfo))].

(** A defined string type, and a map keyed by it that holds rows. *)
Definition tKey : rtype := TBasic KString (TInfo "main" "Key" NoMethod NoMethod).

Definition keyedRows : value :=
  VMap (TMap anon tKey TInterface) [(VBasic tKey (DStr "rows"), VIface twoUsers)].

(** [type H struct { In *X; N int `db:"n"` }] with a nil [In]. *)
Definition tHolder : rtype :=
  TStruct (TInfo "main" "H" NoMethod NoMethod)
          [(FieldDecl "In" "" "", TPointer (tInner "X")); (FieldDecl "N" "" "n", tInt)].

Definition emptyHolder : value := VStruct tHolder [VPtr (tInner "X") None; vInt 7].

(** The loop variables before [:ids], [:rows{id,name}] and [:xs] in the
    templates of the examples. *)
Definition beforeParam : pstate := PState 7 sText "" 0 "SELECT " [].
Definition beforeBlock : pstate := PState 7 sText "" 0 "VALUES " [].

Definition noteScan (t : rtype) (x : driverValue) : option value :=
  match x with
  | DString w => Some (VBasic t (DStr w))
  | _ => None
  end.

(** * Properties *)

(** ** Byte strings *)

Lemma substring_nil n m : substring n m "" = "".
Proof. destruct n, m; reflexivity. Qed.

Lemma substring_zero n s : substring n 0 s = "".
Proof.
  revert n; induction s as [|c s IH]; intros [|n]; simpl; auto.
Qed.

Lemma substring_append n a c s :
  substring n (a + c) s = substring n a s +:+ substring (n + a) c s.
Proof.
  revert n a; induction s as [|ch s IH]; intros n a.
  - now rewrite !substring_nil.
  - destruct n as [|n]; simpl.
    + destruct a as [|a]; simpl; [reflexivity|].
      now rewrite (IH 0 a).
    + apply IH.
Qed.

Lemma substring_all s : substring 0 (String.length s) s = s.
Proof. induction s as [|c s IH]; simpl; [reflexivity | now rewrite IH]. Qed.

Lemma length_substring n m s :
  String.length (substring n m s) = Nat.min m (String.length s - n).
Proof.
  revert n m; induction s as [|c s IH]; intros n m.
  - rewrite substring_nil. simpl. lia.
  - destruct n as [|n]; simpl.
    + destruct m as [|m]; simpl; [reflexivity|]. rewrite IH. lia.
    + apply IH.
Qed.

Lemma append_cons c (s t : string) : String c s +:+ t = String c (s +:+ t).
Proof. reflexivity. Qed.

Lemma append_nil_l (s : string) : "" +:+ s = s.
Proof. reflexivity. Qed.

Lemma length_append_string (s t : string) :
  String.length (s +:+ t) = String.length s + String.length t.
Proof.
  induction s as [|c s IH]; [reflexivity|].
  rewrite append_cons. simpl. now rewrite IH.
Qed.

Lemma append_assoc (s t u : string) : (s +:+ t) +:+ u = s +:+ (t +:+ u).
Proof.
  induction s as [|c s IH]; [reflexivity|].
  rewrite !append_cons. now rewrite IH.
Qed.

Lemma append_nil_r (s : string) : s +:+ "" = s.
Proof.
  induction s as [|c s IH]; [reflexivity|].
  rewrite append_cons. now rewrite IH.
Qed.

Lemma byteAt_Some_lt q i c : byteAt q i = Some c -> i < String.length q.
Proof.
  unfold byteAt. revert i; induction q as [|a q IH]; intros [|i]; simpl; try discriminate.
  - lia.
  - intros H. apply IH in H. lia.
Qed.

Lemma byteAt_None_ge q i : byteAt q i = None -> String.length q <= i.
Proof.
  unfold byteAt. revert i; induction q as [|a q IH]; intros [|i]; simpl; try discriminate; try lia.
  intros H. apply IH in H. lia.
Qed.

Lemma byteAt_lt_Some q i : i < String.length q -> exists c, byteAt q i = Some c.
Proof.
  intros H. destruct (byteAt q i) eqn:E; [eauto|].
  apply byteAt_None_ge in E. lia.
Qed.

Lemma from_cons q i c : byteAt q i = Some c -> from q i = String c (from q (S i)).
Proof.
  unfold from, byteAt. revert i; induction q as [|a q IH]; intros [|i]; simpl; try discriminate.
  - intros [= ->]. rewrite Nat.sub_0_r. now rewrite substring_all.
  - intros H. now apply IH.
Qed.

Lemma from_nil q i : byteAt q i = None -> from q i = "".
Proof.
  intros H. apply byteAt_None_ge in H. unfold from.
  replace (String.length q - i) with 0 by lia. apply substring_zero.
Qed.

Lemma length_from q i : String.length (from q i) = String.length q - i.
Proof. unfold from. rewrite length_substring. lia. Qed.

Lemma slice_full q i : slice q i (String.length q) = from q i.
Proof. reflexivity. Qed.

Lemma slice_append q i j k :
  i <= j -> j <= k -> slice q i j +:+ slice q j k = slice q i k.
Proof.
  intros H1 H2. unfold slice.
  replace (k - i) with ((j - i) + (k - j)) by lia.
  rewrite substring_append. now replace (i + (j - i)) with j by lia.
Qed.

Lemma substring_from q i p m : substring p m (from q i) = substring (i + p) m q.
Proof.
  unfold from. revert i; induction q as [|a q IH]; intros i.
  - now rewrite !substring_nil.
  - destruct i as [|i]; simpl.
    + now rewrite substring_all.
    + apply IH.
Qed.

Lemma slice_from q i a c : slice (from q i) a c = slice q (i + a) (i + c).
Proof.
  unfold slice. rewrite substring_from. f_equal. lia.
Qed.

Lemma from_from q i j : from (from q i) j = from q (i + j).
Proof.
  unfold from at 1. rewrite substring_from, length_from.
  unfold from. f_equal. lia.
Qed.

Lemma byteAt_from q i j : byteAt (from q i) j = byteAt q (i + j).
Proof.
  unfold from, byteAt. revert i; induction q as [|a q IH]; intros i.
  - rewrite substring_nil. now destruct (i + j), j.
  - destruct i as [|i]; simpl.
    + now rewrite substring_all.
    + apply IH.
Qed.

Lemma slice_one q i c : byteAt q i = Some c -> slice q i (i + 1) = str1 c.
Proof.
  intros H. unfold slice. replace (i + 1 - i) with 1 by lia.
  rewrite <- (Nat.add_0_r i) at 1. rewrite <- substring_from.
  rewrite (from_cons _ _ _ H). simpl. now rewrite substring_zero.
Qed.

Lemma slice_two q i c x :
  byteAt q i = Some c -> byteAt q (i + 1) = Some x ->
  slice q i (i + 2) = str1 c +:+ str1 x.
Proof.
  intros H1 H2. rewrite <- (slice_append q i (i + 1) (i + 2)) by lia.
  rewrite (slice_one _ _ _ H1). replace (i + 2) with (i + 1 + 1) by lia.
  now rewrite (slice_one _ _ _ H2).
Qed.

Lemma byteIs_true q i c : byteIs q i c = true <-> byteAt q i = Some c.
Proof.
  unfold byteIs. destruct (byteAt q i) as [x|]; [|split; discriminate].
  rewrite Ascii.eqb_eq. split; congruence.
Qed.

Lemma startsWith_cons q i a w :
  startsWith q i (String a w) = byteIs q i a && startsWith q (S i) w.
Proof.
  unfold startsWith, byteIs. destruct (byteAt q i) as [x|] eqn:E.
  - rewrite (from_cons _ _ _ E). simpl. now rewrite Ascii.eqb_sym.
  - now rewrite (from_nil _ _ E).
Qed.

Lemma startsWith_nil q i : startsWith q i "" = true.
Proof. unfold startsWith. now destruct (from q i). Qed.

Lemma isPrefix_substring w s :
  isPrefix w s = true -> substring 0 (String.length w) s = w.
Proof.
  revert s; induction w as [|a w IH]; intros s H; simpl.
  - apply substring_zero.
  - destruct s as [|c s]; simpl in *; [discriminate|].
    apply andb_prop in H as [H1 H2]. apply Ascii.eqb_eq in H1 as ->.
    now rewrite IH.
Qed.

Lemma isPrefix_length w s : isPrefix w s = true -> String.length w <= String.length s.
Proof.
  revert s; induction w as [|a w IH]; intros s H; simpl; [lia|].
  destruct s as [|c s]; simpl in *; [discriminate|].
  apply andb_prop in H as [_ H]. apply IH in H. lia.
Qed.

Lemma indexOf_Some w s p :
  indexOf w s = Some p ->
  substring p (String.length w) s = w /\ p + String.length w <= String.length s.
Proof.
  revert p; induction s as [|c s IH]; intros p.
  - cbn [indexOf]. destruct (isPrefix w "") eqn:E; [|discriminate].
    intros [= <-]. split; [now apply isPrefix_substring|].
    apply isPrefix_length in E. simpl in *. lia.
  - cbn [indexOf]. destruct (isPrefix w (String c s)) eqn:E.
    + intros [= <-]. split; [now apply isPrefix_substring|].
      apply isPrefix_length in E. simpl in *. lia.
    + destruct (indexOf w s) as [p'|]; [|discriminate].
      intros [= <-]. destruct (IH p' eq_refl) as [H1 H2].
      split; [exact H1 | simpl; lia].
Qed.

Lemma indexOf_None_prefix w s : indexOf w s = None -> isPrefix w s = false.
Proof. destruct s; simpl; destruct (isPrefix w _); auto; discriminate. Qed.

Lemma indexOf_None_tail w c s : indexOf w (String c s) = None -> indexOf w s = None.
Proof.
  simpl. destruct (isPrefix w (String c s)); [discriminate|].
  now destruct (indexOf w s).
Qed.

(** ** The parser follows the lexical structure *)

Lemma state_of_region st : state_of (region_of st) = st.
Proof. now destruct st. Qed.

Lemma lexState_eq_dec (a c : lexState) : {a = c} + {a <> c}.
Proof. decide equality. Qed.

Lemma startsWith_byte q i c a w :
  byteAt q i = Some c ->
  startsWith q i (String a w) = Ascii.eqb c a && startsWith q (S i) w.
Proof. intros H. rewrite startsWith_cons. unfold byteIs. now rewrite H. Qed.

Lemma startsWith_1 q i a : startsWith q i (str1 a) = byteIs q i a.
Proof. unfold str1. rewrite startsWith_cons, startsWith_nil. apply andb_true_r. Qed.

Lemma readDollarTag_Some s t :
  readDollarTag s = Some t ->
  t = substring 0 (String.length t) s /\ 2 <= String.length t <= String.length s.
Proof.
  unfold readDollarTag.
  destruct (_ || _); [discriminate|].
  set (j := 1 + runLen isAlphaNumUnderscore (from s 1)).
  destruct (byteIs s j "$") eqn:E; [|discriminate].
  intros [= <-]. apply byteIs_true, byteAt_Some_lt in E.
  unfold slice. rewrite length_substring.
  replace (Nat.min (j + 1 - 0) (String.length s - 0)) with (j + 1) by lia.
  split; [f_equal; lia | subst j; lia].
Qed.

Section Refinement.

Variable dialect : Dialect.
Variable q : string.
Variable config : Config.
Variable lookup : string -> option value.
Variable rowsLookup : string -> lookupRes (list value).

Local Abbreviation step := (step dialect q config lookup rowsLookup).
Local Abbreviation stepText := (stepText dialect q config lookup rowsLookup).
Local Abbreviation run := (run dialect q config lookup rowsLookup).
Local Abbreviation stepOn := (stepOn dialect q config lookup rowsLookup).
Local Abbreviation argsOf := (argsOf lookup).
Local Abbreviation bindsSingle := (bindsSingle config lookup).

Lemma quoted_lex s c quote esc here :
  byteAt q (pos s) = Some c ->
  state s = state_of here ->
  let '(len, r) := quotedStep q (pos s) quote esc here in
  stepQuoted q s c quote esc =
  PState (pos s + len) (state_of r) (dqTag s) (count s)
         (buf s +:+ slice q (pos s) (pos s + len)) (args s)
  /\ 0 < len /\ pos s + len <= String.length q.
Proof.
  intros H Hst. unfold quotedStep, stepQuoted, copy.
  apply byteAt_Some_lt in H as Hlt.
  rewrite (startsWith_byte _ _ _ _ _ H), startsWith_nil, andb_true_r.
  rewrite Hst.
  destruct (esc && Ascii.eqb c "\") eqn:E1.
  - destruct (byteAt q (pos s + 1)) as [x|] eqn:E2.
    + apply byteAt_Some_lt in E2 as E3.
      apply Nat.ltb_lt in E3 as E4. rewrite E4.
      rewrite (slice_two _ _ _ _ H E2). repeat split; lia.
    + apply byteAt_None_ge in E2 as E3.
      apply Nat.ltb_ge in E3. rewrite E3.
      rewrite (slice_one _ _ _ H). repeat split; lia.
  - unfold str1 at 1. rewrite append_cons, append_nil_l.
    rewrite (startsWith_byte _ _ _ _ _ H), startsWith_1.
    replace (S (pos s)) with (pos s + 1) by lia.
    rewrite startsWith_1. unfold byteIs at 2. rewrite H.
    destruct (Ascii.eqb c quote) eqn:E2; simpl.
    + destruct (byteIs q (pos s + 1) quote) eqn:E3.
      * apply byteIs_true in E3. rewrite (slice_two _ _ _ _ H E3).
        apply byteAt_Some_lt in E3. repeat split; lia.
      * rewrite (slice_one _ _ _ H). repeat split; lia.
    + rewrite (slice_one _ _ _ H). repeat split; lia.
Qed.

(** In the states other than [sText] the iteration copies the token of
    the lexer, which is the piece of the template it consumes. *)
Lemma stepOther_lex s c :
  byteAt q (pos s) = Some c ->
  state s <> sText ->
  exists len r t,
    lexStep dialect q (cursor_of s)
    = (TText (slice q (pos s) (pos s + len)), Cursor (pos s + len) r t)
    /\ stepOther q s c
       = PState (pos s + len) (state_of r) t (count s)
                (buf s +:+ slice q (pos s) (pos s + len)) (args s)
    /\ 0 < len /\ pos s + len <= String.length q.
Proof.
  intros H Hst. unfold lexStep, cursor_of; cbn [offset inside tag].
  apply byteAt_Some_lt in H as Hlt.
  destruct (state s) eqn:Est; [congruence| | | | | | |]; cbn [region_of];
    unfold stepOther; rewrite Est.
  - pose proof (quoted_lex s c "'" true InSingleQuoted H Est) as L.
    destruct (quotedStep q (pos s) "'" true InSingleQuoted) as [len r].
    exists len, r, (dqTag s). destruct L as (-> & ? & ?). auto.
  - pose proof (quoted_lex s c dquote true InDoubleQuoted H Est) as L.
    destruct (quotedStep q (pos s) dquote true InDoubleQuoted) as [len r].
    exists len, r, (dqTag s). destruct L as (-> & ? & ?). auto.
  - pose proof (quoted_lex s c "`" false InBacktickQuoted H Est) as L.
    destruct (quotedStep q (pos s) "`" false InBacktickQuoted) as [len r].
    exists len, r, (dqTag s). destruct L as (-> & ? & ?). auto.
  - pose proof (quoted_lex s c "]" false InBracketQuoted H Est) as L.
    destruct (quotedStep q (pos s) "]" false InBracketQuoted) as [len r].
    exists len, r, (dqTag s). destruct L as (-> & ? & ?). auto.
  - rewrite !startsWith_1. unfold byteIs. rewrite H.
    unfold copy.
    destruct (_ || _); eexists 1, _, _; rewrite (slice_one _ _ _ H);
      (split; [reflexivity|]); (split; [reflexivity|lia]).
  - rewrite (startsWith_byte _ _ _ _ _ H).
    change "/"%string with (str1 "/"). rewrite startsWith_1.
    replace (S (pos s)) with (pos s + 1) by lia.
    destruct (Ascii.eqb c "*" && byteIs q (pos s + 1) "/") eqn:E.
    + exists 2, Plain, (dqTag s). apply andb_prop in E as [_ E].
      apply byteIs_true in E. apply byteAt_Some_lt in E as E'.
      unfold copy. rewrite (slice_two _ _ _ _ H E). auto with lia.
    + exists 1, InBlockComment, (dqTag s). unfold copy.
      rewrite (slice_one _ _ _ H). auto with lia.
  - assert (Hrest :
      (TText (slice q (pos s) (pos s + (String.length q - pos s))),
       Cursor (pos s + (String.length q - pos s)) InDollarQuoted (dqTag s))
      = (TText (slice q (pos s) (pos s + (String.length q - pos s))),
         Cursor (pos s + (String.length q - pos s)) InDollarQuoted (dqTag s))
      /\ copy s (from q (pos s)) (String.length q) sDQD
         = PState (pos s + (String.length q - pos s)) (state_of InDollarQuoted)
                  (dqTag s) (count s)
                  (buf s +:+ slice q (pos s) (pos s + (String.length q - pos s)))
                  (args s)
      /\ 0 < String.length q - pos s
      /\ pos s + (String.length q - pos s) <= String.length q).
    { unfold copy.
      replace (pos s + (String.length q - pos s)) with (String.length q) by lia.
      rewrite slice_full. cbn [state_of]. auto with lia. }
    destruct (String.eqb (dqTag s) "") eqn:E.
    + exists (String.length q - pos s), InDollarQuoted, (dqTag s). exact Hrest.
    + destruct (indexOf (dqTag s) (from q (pos s))) as [p|] eqn:E2.
      * exists (p + String.length (dqTag s)), Plain, "".
        apply indexOf_Some in E2 as [E2 E3]. rewrite substring_from in E2.
        rewrite length_from in E3.
        assert (dqTag s <> "") as Hne by (now apply String.eqb_neq).
        assert (0 < String.length (dqTag s)) by (destruct (dqTag s); simpl; [congruence|lia]).
        split; [reflexivity|]. cbn [state_of].
        assert (slice q (pos s) (pos s + (p + String.length (dqTag s)))
                = slice q (pos s) (pos s + p) +:+ dqTag s) as ->.
        { rewrite <- (slice_append q (pos s) (pos s + p)
                                   (pos s + (p + String.length (dqTag s)))) by lia.
          f_equal. unfold slice.
          replace (pos s + (p + String.length (dqTag s)) - (pos s + p))
            with (String.length (dqTag s)) by lia.
          exact E2. }
        split; [f_equal; lia | lia].
      * exists (String.length q - pos s), InDollarQuoted, (dqTag s). exact Hrest.
Qed.

Lemma startsWith_2 i a c : startsWith q i (String a (String c "")) = byteIs q i a && byteIs q (i + 1) c.
Proof.
  rewrite startsWith_cons. change (String c "") with (str1 c).
  rewrite startsWith_1. now replace (S i) with (i + 1) by lia.
Qed.

Lemma identLen_alpha i :
  (0 <? identLen q i)
  = match byteAt q i with Some x => isAlphaUnderscore x | None => false end.
Proof.
  unfold identLen. destruct (byteAt q i) as [x|] eqn:E.
  - rewrite (from_cons _ _ _ E). now destruct (isAlphaUnderscore x).
  - now rewrite (from_nil _ _ E).
Qed.

Lemma identLen_run i x :
  byteAt q i = Some x -> isAlphaUnderscore x = true ->
  identLen q i = 1 + runLen isAlphaNumUnderscore (from q (i + 1)).
Proof.
  intros E A. unfold identLen. rewrite (from_cons _ _ _ E), A.
  now replace (S i) with (i + 1) by lia.
Qed.

Lemma identLen_bound i : i + identLen q i <= Nat.max i (String.length q).
Proof.
  unfold identLen. destruct (byteAt q i) as [x|] eqn:E.
  - rewrite (from_cons _ _ _ E). apply byteAt_Some_lt in E.
    destruct (isAlphaUnderscore x); [|lia].
    assert (forall p r, runLen p r <= String.length r) as R.
    { intros p r; induction r as [|a r IH]; simpl; [lia|]. destruct (p a); simpl; lia. }
    specialize (R isAlphaNumUnderscore (from q (S i))).
    rewrite length_from in R. lia.
  - rewrite (from_nil _ _ E). lia.
Qed.

Lemma placeholderAt_code i c :
  byteAt q i = Some c ->
  placeholderAt q i
  = Ascii.eqb c ":" && (i + 1 <? String.length q)
    && negb (byteIs q (i + 1) ":")
    && negb ((0 <? i) && byteIs q (i - 1) ":")
    && match byteAt q (i + 1) with
       | Some x => isAlphaUnderscore x
       | None => false
       end.
Proof.
  intros H. unfold placeholderAt.
  rewrite startsWith_2. change ":"%string with (str1 ":").
  rewrite !startsWith_1, identLen_alpha. unfold byteIs at 1 2. rewrite H.
  destruct (Ascii.eqb c ":"); [|reflexivity]. cbn [andb].
  destruct (byteAt q (i + 1)) as [x|] eqn:E.
  - apply byteAt_Some_lt in E as E'. apply Nat.ltb_lt in E'. rewrite E'.
    reflexivity.
  - now rewrite !andb_false_r.
Qed.

Lemma readDollarTag_from_None i c :
  byteAt q i = Some c -> Ascii.eqb c "$" = false -> readDollarTag (from q i) = None.
Proof.
  intros H E. unfold readDollarTag, byteIs.
  rewrite byteAt_from, Nat.add_0_r, H, E. now rewrite orb_true_r.
Qed.

Lemma stepText_lex s c :
  byteAt q (pos s) = Some c ->
  state s = sText ->
  stepText s c
  = stepOn s (fst (lexStep dialect q (cursor_of s)))
           (snd (lexStep dialect q (cursor_of s))).
Proof.
  intros H Hst. unfold lexStep, stepText, cursor_of, stepOn, copy.
  cbn [offset inside tag]. rewrite Hst. cbn [region_of].
  apply byteAt_Some_lt in H as Hlt.
  rewrite !startsWith_2. change "#"%string with (str1 "#").
  change "'"%string with (str1 "'"). change (String dquote EmptyString) with (str1 dquote).
  change "`"%string with (str1 "`"). change "["%string with (str1 "[").
  rewrite !startsWith_1. unfold hashComments, backtickQuoting, bracketQuoting.
  assert (forall a, byteIs q (pos s) a = Ascii.eqb c a) as B
    by (intros a; unfold byteIs; now rewrite H).
  rewrite !B.
  destruct (Ascii.eqb c "-" && byteIs q (pos s + 1) "-") eqn:E1.
  { apply andb_prop in E1 as [E1 E1']. apply Ascii.eqb_eq in E1 as ->.
    apply byteIs_true in E1'. cbn [fst snd offset inside tag state_of].
    now rewrite (slice_two _ _ _ _ H E1'). }
  rewrite (andb_comm (Dialect_eqb dialect MySQL)).
  destruct (Ascii.eqb c "#" && Dialect_eqb dialect MySQL) eqn:E2.
  { cbn [fst snd offset inside tag state_of]. rewrite (slice_one _ _ _ H).
    apply andb_prop in E2 as [E2 _]. now apply Ascii.eqb_eq in E2 as ->. }
  destruct (Ascii.eqb c "/" && byteIs q (pos s + 1) "*") eqn:E3.
  { apply andb_prop in E3 as [E3 E3']. apply Ascii.eqb_eq in E3 as ->.
    apply byteIs_true in E3'. cbn [fst snd offset inside tag state_of].
    now rewrite (slice_two _ _ _ _ H E3'). }
  destruct (Ascii.eqb c "'") eqn:E4.
  { cbn [fst snd offset inside tag state_of]. now rewrite (slice_one _ _ _ H). }
  destruct (Ascii.eqb c dquote) eqn:E5.
  { cbn [fst snd offset inside tag state_of]. now rewrite (slice_one _ _ _ H). }
  rewrite (andb_comm _ (Ascii.eqb c "`")).
  destruct (Ascii.eqb c "`" && _) eqn:E6.
  { cbn [fst snd offset inside tag state_of]. now rewrite (slice_one _ _ _ H). }
  rewrite (andb_comm _ (Ascii.eqb c "[")).
  destruct (Ascii.eqb c "[" && _) eqn:E7.
  { cbn [fst snd offset inside tag state_of]. now rewrite (slice_one _ _ _ H). }
  assert ((if Ascii.eqb c "$" then readDollarTag (from q (pos s)) else None)
          = readDollarTag (from q (pos s))) as ->.
  { destruct (Ascii.eqb c "$") eqn:E8; [reflexivity|].
    symmetry. now apply readDollarTag_from_None with c. }
  destruct (readDollarTag (from q (pos s))) as [t|] eqn:E8.
  { cbn [fst snd offset inside tag state_of].
    apply readDollarTag_Some in E8 as [E8 E9].
    rewrite substring_from in E8. rewrite Nat.add_0_r in E8.
    unfold slice. replace (pos s + String.length t - pos s) with (String.length t) by lia.
    now rewrite <- E8. }
  rewrite (placeholderAt_code _ _ H).
  destruct (Ascii.eqb c ":" && _ && _ && _ && _) eqn:E9.
  - apply andb_prop in E9 as [_ E9].
    destruct (byteAt q (pos s + 1)) as [x|] eqn:E10; [|discriminate].
    rewrite (identLen_run _ _ E10 E9).
    replace (pos s + 1 + (1 + runLen isAlphaNumUnderscore (from q (pos s + 1 + 1))))
      with (pos s + 1 + 1 + runLen isAlphaNumUnderscore (from q (pos s + 1 + 1))) by lia.
    change "{"%string with (str1 "{"). rewrite startsWith_1.
    destruct (byteIs q _ "{"); reflexivity.
  - cbn [fst snd offset inside tag state_of]. now rewrite (slice_one _ _ _ H).
Qed.

(** One iteration of the loop is the treatment of one token. *)
Lemma step_lex s :
  pos s < String.length q ->
  step s = stepOn s (fst (lexStep dialect q (cursor_of s)))
                  (snd (lexStep dialect q (cursor_of s))).
Proof.
  intros Hlt. destruct (byteAt_lt_Some _ _ Hlt) as [c H].
  unfold step. rewrite H. destruct (state s) eqn:Est.
  1: now apply stepText_lex.
  all: destruct (stepOther_lex s c H) as (len & r & t & L & S & _);
    [congruence|]; rewrite L; cbn [fst snd stepOn offset inside tag];
    now rewrite <- S.
Qed.

(** Every token advances the cursor and stays inside the template. *)
Lemma lexStep_progress c :
  offset c < String.length q ->
  offset c < offset (snd (lexStep dialect q c)) <= String.length q.
Proof.
  intros Hlt. destruct c as [i r t]. cbn [offset] in Hlt.
  destruct (byteAt_lt_Some _ _ Hlt) as [ch H].
  destruct r.
  2-8: match goal with |- context [lexStep _ _ (Cursor _ ?r _)] =>
         destruct (stepOther_lex (PState i (state_of r) t 0 "" []) ch H)
           as (len & r' & t' & L & _ & ? & ?); [discriminate|];
         unfold cursor_of in L; cbn [pos state dqTag region_of state_of] in L;
         rewrite L; cbn [snd offset pos] in *; lia
       end.
  unfold lexStep. cbn [offset inside tag].
  destruct (startsWith q i "--") eqn:E1.
  { rewrite startsWith_2 in E1. apply andb_prop in E1 as [_ E1].
    apply byteIs_true, byteAt_Some_lt in E1. cbn [snd offset]. lia. }
  destruct (hashComments dialect && _); [cbn [snd offset]; lia|].
  destruct (startsWith q i "/*") eqn:E3.
  { rewrite startsWith_2 in E3. apply andb_prop in E3 as [_ E3].
    apply byteIs_true, byteAt_Some_lt in E3. cbn [snd offset]. lia. }
  destruct (startsWith q i "'"); [cbn [snd offset]; lia|].
  destruct (startsWith q i (String dquote EmptyString)); [cbn [snd offset]; lia|].
  destruct (backtickQuoting dialect && _); [cbn [snd offset]; lia|].
  destruct (bracketQuoting dialect && _); [cbn [snd offset]; lia|].
  destruct (readDollarTag (from q i)) as [tg|] eqn:E.
  - apply readDollarTag_Some in E as [_ E]. rewrite length_from in E.
    cbn [snd offset]. lia.
  - destruct (placeholderAt q i) eqn:P.
    + pose proof (identLen_bound (i + 1)) as Bd.
      unfold placeholderAt in P. apply andb_prop in P as [_ P].
      apply Nat.ltb_lt in P.
      destruct (startsWith q _ "{"); cbn [snd offset]; lia.
    + cbn [snd offset]. lia.
Qed.

Lemma readColsLoop_bound fuel i start cols k2 cols' :
  readColsLoop fuel q i start cols = Some (k2, cols') -> i < k2 <= String.length q.
Proof.
  revert i start cols; induction fuel as [|f IH]; intros i start cols; simpl; [discriminate|].
  destruct (byteAt q i) as [c|] eqn:E; [|discriminate].
  apply byteAt_Some_lt in E.
  destruct (Ascii.eqb c "}").
  - destruct (start <? i).
    + destruct (String.eqb _ ""); [discriminate|]. intros [= <- _]. lia.
    + intros [= <- _]. lia.
  - destruct (Ascii.eqb c ",").
    + destruct (String.eqb _ ""); [discriminate|]. intros H. apply IH in H. lia.
    + intros H. apply IH in H. lia.
Qed.

Lemma readCols_bound k k2 cols :
  readCols q k = Some (k2, cols) -> k < k2 <= String.length q.
Proof. unfold readCols. intros H. apply readColsLoop_bound in H. lia. Qed.

Lemma emitOne_Next s k arg s' :
  emitOne dialect config s k arg = Next s' -> pos s' = k.
Proof.
  unfold emitOne. destruct (ensureAdd _ _ _); [discriminate|]. now intros [= <-].
Qed.

Lemma emitValue_Next s name k v s' :
  emitValue dialect config s name k v = Next s' -> pos s' = k.
Proof.
  unfold emitValue. intros H.
  repeat match type of H with
         | emitOne _ _ _ _ _ = _ => apply emitOne_Next in H; exact H
         | Fail _ _ = Next _ => discriminate
         | Next _ = Next _ => injection H as <-; reflexivity
         | context [match ?x with _ => _ end] => destruct x eqn:?
         end.
Qed.

Lemma emitRowsBlock_Next s name k s' :
  emitRowsBlock dialect q config rowsLookup s name k = Next s' ->
  k < pos s' <= String.length q.
Proof.
  unfold emitRowsBlock. intros H.
  destruct (readCols q k) as [[k2 cols]|] eqn:R; [|discriminate].
  apply readCols_bound in R.
  repeat match type of H with
         | Fail _ _ = Next _ => discriminate
         | Crash = Next _ => discriminate
         | Next _ = Next _ => injection H as <-; exact R
         | context [match ?x with _ => _ end] => destruct x eqn:?
         end.
Qed.

(** An iteration that continues has advanced the index, within the
    template. *)
Lemma step_progress s s' :
  pos s < String.length q -> step s = Next s' ->
  pos s < pos s' <= String.length q.
Proof.
  intros Hlt. rewrite (step_lex s Hlt).
  pose proof (lexStep_progress (cursor_of s) Hlt) as P. cbn [cursor_of offset] in P.
  destruct (lexStep dialect q (cursor_of s)) as [tok c'] eqn:L.
  cbn [fst snd] in *. unfold stepOn.
  destruct tok as [w|name|name k].
  - intros [= <-]. exact P.
  - destruct (nameTooLong config name); [discriminate|].
    destruct (lookup name) as [v|]; [|discriminate].
    intros H. apply emitValue_Next in H. now rewrite H.
  - destruct (nameTooLong config name); [discriminate|].
    intros H. apply emitRowsBlock_Next in H.
    assert (offset c' = k) as <-; [|lia].
    clear H P. unfold lexStep in L.
    repeat match type of L with
           | (TText _, _) = (TBlock _ _, _) => discriminate
           | (TParam _, _) = (TBlock _ _, _) => discriminate
           | (TBlock _ _, _) = (TBlock _ _, _) => injection L as <- <- <-; reflexivity
           | context [match ?x with _ => _ end] => destruct x eqn:?
           end.
Qed.

(** The loop uses at most one unit of fuel per byte of the template. *)
Lemma run_fuel fuel s :
  String.length q - pos s <= fuel -> run fuel s <> OutOfFuel.
Proof.
  revert s; induction fuel as [|f IH]; intros s Hf; simpl.
  - destruct (String.length q <=? pos s) eqn:E; [discriminate|].
    apply Nat.leb_gt in E. lia.
  - destruct (String.length q <=? pos s) eqn:E; [discriminate|].
    apply Nat.leb_gt in E.
    destruct (step s) as [s'| |] eqn:S; try discriminate.
    apply step_progress in S; [|exact E]. apply IH. lia.
Qed.

(** *** Unterminated regions *)

Lemma run_done fuel s :
  String.length q <= pos s -> run fuel s = Return (buf s) (args s) None.
Proof.
  intros H. apply Nat.leb_le in H. destruct fuel; simpl; now rewrite H.
Qed.

Lemma run_step fuel s :
  pos s < String.length q ->
  run (S fuel) s
  = match step s with
    | Next s' => run fuel s'
    | Fail e _ => Return "" [] (Some e)
    | Crash => Panic
    end.
Proof. intros H. apply Nat.leb_gt in H. simpl. now rewrite H. Qed.

(** A block comment that is never closed is copied to the end of the
    template. *)
Lemma run_unterminated_comment fuel s :
  state s = sBC ->
  String.length q - pos s <= fuel ->
  indexOf "*/" (from q (pos s)) = None ->
  run fuel s = Return (buf s +:+ from q (pos s)) (args s) None.
Proof.
  revert s; induction fuel as [|f IH]; intros s Hst Hf Hno.
  - rewrite run_done by lia. rewrite from_nil, append_nil_r; [reflexivity|].
    destruct (byteAt q (pos s)) eqn:E; [|reflexivity].
    apply byteAt_Some_lt in E. lia.
  - destruct (byteAt q (pos s)) as [c|] eqn:E.
    + apply byteAt_Some_lt in E as Hlt. rewrite run_step by exact Hlt.
      unfold step. rewrite E, Hst. unfold stepOther. rewrite Hst.
      apply indexOf_None_prefix in Hno as Hp.
      change (isPrefix "*/" (from q (pos s))) with (startsWith q (pos s) "*/") in Hp.
      rewrite startsWith_2 in Hp. unfold byteIs at 1 in Hp. rewrite E in Hp.
      rewrite Hp. rewrite (from_cons _ _ _ E) in Hno.
      apply indexOf_None_tail in Hno.
      rewrite IH; unfold copy; cbn [pos state buf args]; try lia; try reflexivity.
      * rewrite (from_cons _ _ _ E). replace (pos s + 1) with (S (pos s)) by lia.
        now rewrite append_assoc.
      * now replace (pos s + 1) with (S (pos s)) by lia.
    + apply byteAt_None_ge in E as Hge. rewrite run_done by exact Hge.
      now rewrite (from_nil _ _ E), append_nil_r.
Qed.

(** A dollar-quoted region whose tag does not occur again is copied to
    the end of the template. *)
Lemma run_unterminated_dollar fuel s :
  state s = sDQD ->
  String.length q - pos s <= fuel ->
  indexOf (dqTag s) (from q (pos s)) = None ->
  run fuel s = Return (buf s +:+ from q (pos s)) (args s) None.
Proof.
  intros Hst Hf Hno.
  destruct (byteAt q (pos s)) as [c|] eqn:E.
  - apply byteAt_Some_lt in E as Hlt.
    destruct fuel as [|f]; [lia|]. rewrite run_step by exact Hlt.
    unfold step. rewrite E, Hst. unfold stepOther. rewrite Hst, Hno.
    destruct (String.eqb (dqTag s) ""); now rewrite run_done.
  - apply byteAt_None_ge in E as Hge. rewrite run_done by exact Hge.
    now rewrite (from_nil _ _ E), append_nil_r.
Qed.

(** *** Templates of scalar placeholders *)

Lemma region_of_state r : region_of (state_of r) = r.
Proof. now destruct r. Qed.

Lemma ensureAdd_None cur add :
  (MaxParams config <= 0 \/ Z.of_nat (cur + add) <= MaxParams config)%Z ->
  ensureAdd config cur add = None.
Proof.
  intros H. unfold ensureAdd.
  destruct (0 <? MaxParams config)%Z eqn:E1; [|reflexivity].
  destruct (MaxParams config <? Z.of_nat (cur + add))%Z eqn:E2; [|reflexivity].
  apply Z.ltb_lt in E1, E2. lia.
Qed.

Lemma ensureAdd_Some cur add :
  (0 < MaxParams config)%Z -> (MaxParams config < Z.of_nat (cur + add))%Z ->
  ensureAdd config cur add
  = Some (ErrTooManyParams (Z.of_nat (cur + add)) (MaxParams config)).
Proof.
  intros H1 H2. unfold ensureAdd.
  apply Z.ltb_lt in H1, H2. now rewrite H1, H2.
Qed.

(** A value that is not a collection contributes one placeholder and
    one argument. *)
Lemma emitValue_single s name k v :
  isSingle v = true ->
  emitValue dialect config s name k v = emitOne dialect config s k (argOf v).
Proof.
  intros H. unfold emitValue.
  destruct v; try discriminate; try reflexivity; cbn [argOf expandable];
    repeat match goal with
           | |- context [if ?x then _ else _] => destruct x
           end; reflexivity.
Qed.

Lemma argsOf_cons name v names :
  lookup name = Some v -> argsOf (name :: names) = argOf v :: argsOf names.
Proof. intros H. unfold argsOf. simpl. now rewrite H. Qed.

Lemma run_scalars fuel s :
  String.length q - pos s <= fuel ->
  forallb (fun t => negb (isBlock t)) (tokensFrom fuel dialect q (cursor_of s)) = true ->
  Forall bindsSingle (paramNames (tokensFrom fuel dialect q (cursor_of s))) ->
  (MaxParams config <= 0
   \/ Z.of_nat (count s + List.length (paramNames (tokensFrom fuel dialect q (cursor_of s))))
      <= MaxParams config)%Z ->
  run fuel s
  = Return (buf s +:+ renderScalars dialect (count s)
                                    (tokensFrom fuel dialect q (cursor_of s)))
           (args s ++ argsOf (paramNames (tokensFrom fuel dialect q (cursor_of s))))
           None.
Proof.
  revert s; induction fuel as [|f IH]; intros s Hf.
  - intros _ _ _. rewrite run_done by lia. simpl.
    destruct (String.length q <=? _); simpl; now rewrite append_nil_r, app_nil_r.
  - destruct (le_lt_dec (String.length q) (pos s)) as [Hge|Hlt].
    + intros _ _ _. rewrite run_done by lia. simpl.
      apply Nat.leb_le in Hge. rewrite Hge. simpl.
      now rewrite append_nil_r, app_nil_r.
    + rewrite run_step by exact Hlt. rewrite (step_lex s Hlt).
      pose proof (lexStep_progress (cursor_of s) Hlt) as P.
      cbn [tokensFrom]. cbn [cursor_of offset] in *.
      apply Nat.leb_gt in Hlt as Hlt'. rewrite Hlt'.
      destruct (lexStep dialect q (cursor_of s)) as [tok c'] eqn:L.
      cbn [fst snd] in *.
      destruct tok as [w|name|name k]; [| |discriminate].
      * intros Hb Hs Hl. cbn [forallb isBlock negb andb paramNames omap] in *.
        unfold stepOn.
        set (s' := PState (offset c') (state_of (inside c')) (tag c') (count s)
                          (buf s +:+ w) (args s)).
        assert (cursor_of s' = c') as Hc.
        { unfold cursor_of, s'. cbn [pos state dqTag].
          rewrite region_of_state. now destruct c'. }
        specialize (IH s'). rewrite Hc in IH.
        rewrite IH; cbn [pos count buf args s']; try assumption; try lia.
        cbn [renderScalars]. now rewrite append_assoc.
      * intros Hb Hs Hl. cbn [forallb isBlock negb andb] in Hb.
        change (paramNames (TParam name :: ?l)) with (name :: paramNames l) in *.
        apply Forall_cons in Hs as [[Hn (v & Hv & Hsingle)] Hs].
        cbn [List.length] in Hl.
        unfold stepOn. rewrite Hn, Hv, (emitValue_single _ _ _ _ Hsingle).
        unfold emitOne. rewrite ensureAdd_None by lia.
        assert (inside c' = Plain /\ tag c' = dqTag s) as [Hi Ht].
        { clear -L. unfold lexStep in L. cbn [offset inside tag] in L.
          repeat match type of L with
                 | (TText _, _) = (TParam _, _) => discriminate
                 | (TBlock _ _, _) = (TParam _, _) => discriminate
                 | (TParam _, _) = (TParam _, _) => injection L as <- <-; auto
                 | context [match ?x with _ => _ end] => destruct x eqn:?
                 end. }
        set (s' := PState (offset c') sText (dqTag s) (S (count s))
                          (writePlaceholder (buf s) dialect (S (count s)))
                          (args s ++ [argOf v])).
        assert (cursor_of s' = c') as Hc.
        { unfold cursor_of, s'. cbn [pos state dqTag region_of].
          destruct c'; cbn in *; congruence. }
        specialize (IH s'). rewrite Hc in IH.
        rewrite IH; cbn [pos count buf args s']; try assumption; try lia.
        cbn [renderScalars]. unfold writePlaceholder. rewrite append_assoc.
        rewrite (argsOf_cons _ _ _ Hv). now rewrite <- app_assoc.
Qed.

(** *** Closed regions *)

Local Abbreviation continuesAs := (continuesAs dialect q config lookup rowsLookup).

Lemma run_enough fuel : forall fuel' s,
  String.length q - pos s <= fuel -> String.length q - pos s <= fuel' ->
  run fuel s = run fuel' s.
Proof.
  induction fuel as [|f IH]; intros fuel' s H H'.
  - now rewrite !run_done by lia.
  - destruct (le_lt_dec (String.length q) (pos s)) as [Hge|Hlt].
    + now rewrite !run_done by lia.
    + destruct fuel' as [|f']; [lia|]. rewrite !run_step by exact Hlt.
      destruct (step s) as [s'| |] eqn:S; try reflexivity.
      apply step_progress in S; [|exact Hlt]. apply IH; lia.
Qed.

Lemma continuesAs_step s s' :
  pos s < String.length q -> step s = Next s' -> continuesAs s s'.
Proof.
  intros Hlt S fuel fuel' H H'. destruct fuel as [|f]; [lia|].
  rewrite run_step by exact Hlt. rewrite S.
  apply step_progress in S; [|exact Hlt]. apply run_enough; lia.
Qed.

Lemma continuesAs_refl s : continuesAs s s.
Proof. intros fuel fuel' H H'. now apply run_enough. Qed.

Lemma continuesAs_trans s1 s2 s3 :
  continuesAs s1 s2 -> continuesAs s2 s3 -> continuesAs s1 s3.
Proof.
  intros H1 H2 fuel fuel' Hf Hf'.
  rewrite (H1 fuel (String.length q - pos s2) Hf (le_n _)). now apply H2.
Qed.

Lemma continuesAs_done s s' :
  String.length q <= pos s -> String.length q <= pos s' ->
  buf s = buf s' -> args s = args s' -> continuesAs s s'.
Proof.
  intros H H' Hb Ha fuel fuel' _ _. rewrite !run_done by assumption. congruence.
Qed.

(** An iteration, then the loop from a state that is the one reached. *)
Lemma continuesAs_via s s1 s2 s2' :
  byteAt q (pos s) <> None -> step s = Next s1 ->
  continuesAs s1 s2' -> s2' = s2 -> continuesAs s s2.
Proof.
  intros Hc S H <-. eapply continuesAs_trans; [|exact H].
  apply continuesAs_step; [|exact S].
  destruct (byteAt q (pos s)) eqn:E; [|congruence]. now apply byteAt_Some_lt in E.
Qed.

Lemma from_inv i c r :
  from q i = String c r -> byteAt q i = Some c /\ from q (i + 1) = r.
Proof.
  intros H. destruct (byteAt q i) as [x|] eqn:E.
  - rewrite (from_cons _ _ _ E) in H. injection H as -> <-.
    split; [reflexivity|]. now replace (i + 1) with (S i) by lia.
  - rewrite (from_nil _ _ E) in H. discriminate.
Qed.

Lemma from_end i : from q i = "" -> String.length q <= i.
Proof.
  intros H. pose proof (length_from q i) as L. rewrite H in L. simpl in L. lia.
Qed.

Lemma byteIs_from i c : byteIs q i c = startsWithByte (from q i) c.
Proof.
  unfold byteIs. destruct (byteAt q i) as [x|] eqn:E;
    [rewrite (from_cons _ _ _ E)|rewrite (from_nil _ _ E)]; reflexivity.
Qed.

Lemma from_skip a : forall i b,
  from q i = a +:+ b ->
  from q (i + String.length a) = b /\ slice q i (i + String.length a) = a.
Proof.
  induction a as [|c a IH]; intros i b H.
  - rewrite append_nil_l in H. simpl. rewrite Nat.add_0_r. split; [exact H|].
    unfold slice. rewrite Nat.sub_diag. apply substring_zero.
  - rewrite append_cons in H. apply from_inv in H as [Hc H].
    destruct (IH _ _ H) as [H1 H2]. simpl String.length.
    replace (i + S (String.length a)) with (i + 1 + String.length a) by lia.
    split; [exact H1|].
    rewrite <- (slice_append q i (i + 1) (i + 1 + String.length a)) by lia.
    rewrite (slice_one _ _ _ Hc), H2. reflexivity.
Qed.

Lemma step_other s c :
  byteAt q (pos s) = Some c -> state s <> sText -> step s = Next (stepOther q s c).
Proof. intros H Hst. unfold step. rewrite H. destruct (state s); congruence. Qed.

Lemma step_text s c :
  byteAt q (pos s) = Some c -> state s = sText -> step s = stepText s c.
Proof. intros H Hst. unfold step. now rewrite H, Hst. Qed.

Ltac same_state :=
  unfold copy, str1; cbn [pos state dqTag count buf args];
  rewrite ?append_cons, ?append_nil_l; cbn [String.length];
  rewrite ?length_append_string; cbn [String.length];
  f_equal; try lia; rewrite ?append_assoc, ?append_cons, ?append_nil_l; reflexivity.

(** From inside a literal to the byte after its closing delimiter. *)
Lemma quoted_crossing close esc st :
  st <> sText ->
  (forall s c, state s = st -> stepOther q s c = stepQuoted q s c close esc) ->
  (esc && Ascii.eqb close "\") = false ->
  forall n body s rest,
    String.length body <= n ->
    quotedBody close esc body = true ->
    state s = st ->
    from q (pos s) = body +:+ String close rest ->
    startsWithByte rest close = false ->
    continuesAs s (PState (pos s + String.length body + 1) sText (dqTag s) (count s)
                          (buf s +:+ body +:+ str1 close) (args s)).
Proof.
  intros Hst Hstep Hesc.
  induction n as [|n IH]; intros body s rest Hn Hb Hs Hf Hr;
    destruct body as [|c r]; try (simpl in Hn; lia).
  1,2: rewrite append_nil_l in Hf; apply from_inv in Hf as [Hc Hf];
    apply continuesAs_step; [now apply byteAt_Some_lt in Hc|];
    rewrite (step_other s close Hc) by congruence; rewrite (Hstep s close Hs);
    unfold stepQuoted; rewrite Hesc, Ascii.eqb_refl, byteIs_from, Hf, Hr;
    f_equal; same_state.
  rewrite append_cons in Hf. apply from_inv in Hf as [Hc Hf].
  assert (step s = Next (stepQuoted q s c close esc)) as S
      by (rewrite (step_other s c Hc) by congruence; now rewrite (Hstep s c Hs)).
  cbn [quotedBody] in Hb. unfold stepQuoted in S.
  destruct (esc && Ascii.eqb c "\") eqn:E1.
  - destruct r as [|x r']; [discriminate|].
    rewrite append_cons in Hf. apply from_inv in Hf as [Hx Hf]. rewrite Hx in S.
    eapply continuesAs_via; [congruence|exact S| |].
    + apply (IH r' _ rest); [simpl in Hn; lia|exact Hb|exact Hs| |exact Hr].
      cbn [copy pos]. now replace (pos s + 2) with (pos s + 1 + 1) by lia.
    + same_state.
  - destruct (Ascii.eqb c close) eqn:E2.
    + destruct r as [|x r']; [discriminate|].
      apply andb_prop in Hb as [Hx' Hb]. apply Ascii.eqb_eq in Hx' as ->.
      rewrite append_cons in Hf. rewrite byteIs_from, Hf in S.
      cbn [startsWithByte] in S. rewrite Ascii.eqb_refl in S.
      apply from_inv in Hf as [Hx Hf].
      apply Ascii.eqb_eq in E2 as ->.
      eapply continuesAs_via; [congruence|exact S| |].
      * apply (IH r' _ rest); [simpl in Hn; lia|exact Hb|exact Hs| |exact Hr].
        cbn [copy pos]. now replace (pos s + 2) with (pos s + 1 + 1) by lia.
      * same_state.
    + eapply continuesAs_via; [congruence|exact S| |].
      * apply (IH r _ rest); [simpl in Hn; lia|exact Hb|exact Hs|exact Hf|exact Hr].
      * same_state.
Qed.

Lemma line_crossing body : forall s nl rest,
  lineBody body = true ->
  state s = sLC ->
  from q (pos s) = body +:+ nl +:+ rest ->
  lineEnd nl rest ->
  continuesAs s (PState (pos s + String.length body + String.length nl) sText
                        (dqTag s) (count s) (buf s +:+ body +:+ nl) (args s)).
Proof.
  induction body as [|c r IH]; intros s nl rest Hb Hs Hf He.
  - rewrite append_nil_l in Hf.
    assert (forall c, nl = str1 c ->
                      Ascii.eqb c (byte 10) || Ascii.eqb c (byte 13) = true ->
                      continuesAs s (PState (pos s + String.length "" + String.length nl)
                                            sText (dqTag s) (count s)
                                            (buf s +:+ "" +:+ nl) (args s))) as A.
    { intros c -> Hc. unfold str1 in Hf. rewrite append_cons, append_nil_l in Hf.
      apply from_inv in Hf as [Hq Hf].
      apply continuesAs_step; [now apply byteAt_Some_lt in Hq|].
      rewrite (step_other s c Hq) by congruence. unfold stepOther. rewrite Hs, Hc.
      f_equal. same_state. }
    destruct He as [->|[->|[-> ->]]].
    + apply (A (byte 10)); reflexivity.
    + apply (A (byte 13)); reflexivity.
    + apply from_end in Hf. apply continuesAs_done; cbn [pos buf args]; try lia;
        try reflexivity. now rewrite append_nil_l, append_nil_r.
  - rewrite append_cons in Hf. apply from_inv in Hf as [Hc Hf].
    cbn [lineBody] in Hb. apply andb_prop in Hb as [Hn Hb].
    apply negb_true_iff in Hn.
    eapply continuesAs_via; [congruence| | |].
    + rewrite (step_other s c Hc) by congruence. unfold stepOther.
      rewrite Hs, Hn. reflexivity.
    + apply (IH _ nl rest); [exact Hb|reflexivity|exact Hf|exact He].
    + same_state.
Qed.

Lemma block_crossing body : forall s rest,
  blockBody body = true ->
  state s = sBC ->
  from q (pos s) = body +:+ "*/" +:+ rest ->
  continuesAs s (PState (pos s + String.length body + 2) sText (dqTag s) (count s)
                        (buf s +:+ body +:+ "*/") (args s)).
Proof.
  induction body as [|c r IH]; intros s rest Hb Hs Hf.
  - rewrite append_nil_l, !append_cons, append_nil_l in Hf.
    apply from_inv in Hf as [Hc Hf].
    apply continuesAs_step; [now apply byteAt_Some_lt in Hc|].
    rewrite (step_other s _ Hc) by congruence. unfold stepOther.
    rewrite Hs, byteIs_from, Hf. cbn [startsWithByte].
    rewrite !Ascii.eqb_refl. cbn [andb]. f_equal. same_state.
  - rewrite append_cons in Hf. apply from_inv in Hf as [Hc Hf].
    cbn [blockBody] in Hb. apply andb_prop in Hb as [Hn Hb].
    apply negb_true_iff in Hn.
    eapply continuesAs_via; [congruence| | |].
    + rewrite (step_other s c Hc) by congruence. unfold stepOther.
      rewrite Hs, byteIs_from, Hf.
      assert (startsWithByte (r +:+ "*/" +:+ rest) "/" = startsWithByte r "/") as ->
          by (destruct r; reflexivity).
      rewrite Hn. reflexivity.
    + apply (IH _ rest); [exact Hb|reflexivity|exact Hf].
    + same_state.
Qed.

Ltac closed_eqb :=
  repeat match goal with
         | |- context [Ascii.eqb ?a ?c] =>
             let v := eval vm_compute in (Ascii.eqb a c) in
             match v with
             | true => change (Ascii.eqb a c) with true
             | false => change (Ascii.eqb a c) with false
             end
         end;
  cbn [andb orb negb].

(** From the opening delimiter of a closed region, met in the plain
    state, to the plain state after its closing delimiter: the region is
    copied and nothing is bound. *)
Lemma region_crossing s w rest :
  state s = sText ->
  from q (pos s) = w +:+ rest ->
  closedRegion dialect w rest ->
  exists t,
    continuesAs s (PState (pos s + String.length w) sText t (count s)
                          (buf s +:+ w) (args s)).
Proof.
  intros Hs Hf Hc.
  assert (forall opener close esc st body,
             st <> sText ->
             (forall s c, state s = st -> stepOther q s c = stepQuoted q s c close esc) ->
             (esc && Ascii.eqb close "\") = false ->
             from q (pos s) = (str1 opener +:+ body +:+ str1 close) +:+ rest ->
             stepText s opener = Next (copy s (str1 opener) (pos s + 1) st) ->
             quotedBody close esc body = true ->
             startsWithByte rest close = false ->
             continuesAs s (PState (pos s + String.length
                                              (str1 opener +:+ body +:+ str1 close))
                                   sText (dqTag s) (count s)
                                   (buf s +:+ str1 opener +:+ body +:+ str1 close)
                                   (args s))) as Quoted.
  { intros opener close esc st body Hst Hstep Hesc Hq Ho Hb Hr.
    unfold str1 in Hq. rewrite !append_assoc, !append_cons, !append_nil_l in Hq.
    apply from_inv in Hq as [Hc0 Hq].
    eapply continuesAs_via; [congruence| | |].
    - rewrite (step_text s opener Hc0 Hs). exact Ho.
    - apply (quoted_crossing close esc st Hst Hstep Hesc (String.length body) body _ rest);
        [lia|exact Hb|reflexivity|exact Hq|exact Hr].
    - same_state. }
  assert (forall opener body nl,
             from q (pos s) = (opener +:+ body +:+ nl) +:+ rest ->
             (forall c, byteAt q (pos s) = Some c ->
                        stepText s c
                        = Next (copy s opener (pos s + String.length opener) sLC)) ->
             opener <> "" ->
             lineBody body = true -> lineEnd nl rest ->
             continuesAs s (PState (pos s + String.length (opener +:+ body +:+ nl))
                                   sText (dqTag s) (count s)
                                   (buf s +:+ opener +:+ body +:+ nl) (args s))) as Line.
  { intros opener body nl Hq Ho Hne Hb He.
    rewrite !append_assoc in Hq.
    destruct (from_skip opener _ _ Hq) as [Hq' _].
    destruct opener as [|c o]; [congruence|].
    rewrite append_cons in Hq. apply from_inv in Hq as [Hc0 Hq].
    eapply continuesAs_via; [congruence| | |].
    - rewrite (step_text s c Hc0 Hs). now apply Ho.
    - apply (line_crossing body _ nl rest); [exact Hb|reflexivity| |exact He].
      cbn [copy pos]. exact Hq'.
    - same_state. }
  destruct Hc as [body rest Hb Hr|body rest Hb Hr|body rest Hd Hb Hr|body rest Hd Hb Hr
                  |body nl rest Hb He|body nl rest Hd Hb He|body rest Hb
                  |tg body rest Ht Hi].
  - exists (dqTag s).
    apply (Quoted "'"%char "'"%char true sSQ body);
      [discriminate|intros s0 c0 H0; unfold stepOther; now rewrite H0|reflexivity
       |exact Hf| |exact Hb|exact Hr].
    unfold stepText. closed_eqb. reflexivity.
  - exists (dqTag s).
    apply (Quoted dquote dquote true sDQ body);
      [discriminate|intros s0 c0 H0; unfold stepOther; now rewrite H0|reflexivity
       |exact Hf| |exact Hb|exact Hr].
    unfold stepText. closed_eqb. reflexivity.
  - exists (dqTag s).
    apply (Quoted "`"%char "`"%char false sBT body);
      [discriminate|intros s0 c0 H0; unfold stepOther; now rewrite H0|reflexivity
       |exact Hf| |exact Hb|exact Hr].
    unfold stepText. closed_eqb. unfold backtickQuoting in Hd. rewrite Hd. reflexivity.
  - exists (dqTag s).
    apply (Quoted "["%char "]"%char false sBR body);
      [discriminate|intros s0 c0 H0; unfold stepOther; now rewrite H0|reflexivity
       |exact Hf| |exact Hb|exact Hr].
    unfold stepText. closed_eqb. unfold bracketQuoting in Hd. rewrite Hd. reflexivity.
  - exists (dqTag s). pose proof Hf as Hf2.
    rewrite !append_assoc, !append_cons, append_nil_l in Hf2.
    apply from_inv in Hf2 as [Hc0 Hf2]. apply from_inv in Hf2 as [Hc1 _].
    apply (Line "--" body nl); auto; try discriminate.
    intros c Hc. rewrite Hc0 in Hc. injection Hc as <-.
    unfold stepText. closed_eqb. apply byteIs_true in Hc1. rewrite Hc1. reflexivity.
  - exists (dqTag s). pose proof Hf as Hf2.
    rewrite !append_assoc, !append_cons, append_nil_l in Hf2.
    apply from_inv in Hf2 as [Hc0 _].
    apply (Line "#" body nl); auto; try discriminate.
    intros c Hc. rewrite Hc0 in Hc. injection Hc as <-.
    unfold stepText. closed_eqb. unfold hashComments in Hd. rewrite Hd. reflexivity.
  - exists (dqTag s).
    rewrite !append_assoc, !append_cons, append_nil_l in Hf.
    apply from_inv in Hf as [Hc0 Hf]. apply from_inv in Hf as [Hc1 Hf].
    eapply continuesAs_via; [congruence| | |].
    + rewrite (step_text s _ Hc0 Hs). unfold stepText. closed_eqb.
      apply byteIs_true in Hc1. rewrite Hc1. reflexivity.
    + apply (block_crossing body _ rest); [exact Hb|reflexivity|].
      cbn [copy pos]. now replace (pos s + 2) with (pos s + 1 + 1) by lia.
    + same_state.
  - exists "".
    rewrite !append_assoc in Hf.
    apply readDollarTag_Some in Ht as Hlen. destruct Hlen as [_ [Hlen _]].
    destruct (from_skip tg _ _ Hf) as [Hf1 _].
    destruct (from_skip body _ _ Hf1) as [_ Hbody].
    assert (exists c0, byteAt q (pos s) = Some c0 /\ Ascii.eqb c0 "$" = true)
      as (c0 & Hc0 & Hdollar).
    { unfold readDollarTag in Ht. rewrite <- Hf in Ht.
      destruct (_ || negb (byteIs (from q (pos s)) 0 "$")) eqn:E; [discriminate|].
      apply orb_false_elim in E as [_ E]. apply negb_false_iff in E.
      apply byteIs_true in E. rewrite byteAt_from, Nat.add_0_r in E.
      exists "$"%char. split; [exact E|reflexivity]. }
    assert (byteAt q (pos s + String.length tg) <> None) as Hin.
    { intros E. apply from_nil in E. rewrite Hf1 in E.
      destruct tg; [simpl in Hlen; lia|]. destruct body; discriminate. }
    eapply continuesAs_trans.
    + apply continuesAs_step; [now apply byteAt_Some_lt in Hc0|].
      rewrite (step_text s c0 Hc0 Hs). unfold stepText.
      apply Ascii.eqb_eq in Hdollar as ->. closed_eqb.
      rewrite Hf, Ht. reflexivity.
    + destruct (byteAt q (pos s + String.length tg)) as [c1|] eqn:Hc1; [|congruence].
      eapply continuesAs_via; [cbn [pos]; congruence| | |].
      * rewrite (step_other _ c1) by (cbn [pos state]; congruence).
        unfold stepOther. cbn [pos state dqTag count buf args].
        assert (String.eqb tg "" = false) as ->.
        { apply String.eqb_neq. intros ->. simpl in Hlen. lia. }
        rewrite Hf1, Hi. reflexivity.
      * apply continuesAs_refl.
      * rewrite Hbody. same_state.
Qed.

(** A byte that opens no region and starts no placeholder is copied. *)
Lemma plain_step s c rest :
  state s = sText ->
  from q (pos s) = String c rest ->
  plainByte dialect c rest = true ->
  step s = Next (copy s (str1 c) (pos s + 1) sText).
Proof.
  intros Hs Hf Hp. apply from_inv in Hf as [Hc Hf].
  rewrite (step_text s c Hc Hs). unfold stepText, plainByte in *.
  rewrite !byteIs_from, Hf.
  unfold hashComments, backtickQuoting, bracketQuoting in Hp.
  repeat match type of Hp with
         | _ && _ = true => apply andb_prop in Hp as [Hp ?]
         end.
  repeat match goal with
         | H : negb _ = true |- _ => apply negb_true_iff in H; rewrite ?H
         end.
  reflexivity.
Qed.

(** A template in which every colon is inside a closed literal or
    comment is copied as it is. *)
Lemma inert_run t :
  inert dialect t ->
  forall s, state s = sText -> from q (pos s) = t ->
            continuesAs s (PState (String.length q) sText "" 0 (buf s +:+ t) (args s)).
Proof.
  induction 1 as [|c rest Hp _ IH|w rest Hc _ IH]; intros s Hs Hf.
  - apply from_end in Hf. apply continuesAs_done; cbn [pos buf args]; try lia;
      try reflexivity. now rewrite append_nil_r.
  - pose proof (plain_step s c rest Hs Hf Hp) as S.
    apply from_inv in Hf as [Hc Hf].
    eapply continuesAs_via; [congruence|exact S| |].
    + apply IH; [reflexivity|exact Hf].
    + same_state.
  - destruct (region_crossing s w rest Hs Hf Hc) as [tg R].
    eapply continuesAs_trans; [exact R|].
    destruct (from_skip w _ _ Hf) as [Hf' _].
    eapply continuesAs_trans; [apply IH; [reflexivity|exact Hf']|].
    cbn [pos buf args]. rewrite append_assoc.
    intros fuel fuel' _ _. now rewrite !run_done by (cbn [pos]; lia).
Qed.

(** From a state other than the plain one the loop only copies, until
    it is back in the plain state or at the end of the template. *)
Lemma region_persists n : forall s,
  String.length q - pos s <= n ->
  state s <> sText ->
  exists s',
    continuesAs s s'
    /\ pos s <= pos s'
    /\ buf s' = buf s +:+ slice q (pos s) (pos s')
    /\ args s' = args s
    /\ count s' = count s
    /\ (state s' = sText \/ String.length q <= pos s').
Proof.
  assert (forall s, String.length q <= pos s ->
                    exists s',
                      continuesAs s s'
                      /\ pos s <= pos s'
                      /\ buf s' = buf s +:+ slice q (pos s) (pos s')
                      /\ args s' = args s
                      /\ count s' = count s
                      /\ (state s' = sText \/ String.length q <= pos s')) as AtEnd.
  { intros s H. exists s. split; [apply continuesAs_refl|]. split; [lia|].
    split; [|auto]. unfold slice. rewrite Nat.sub_diag, substring_zero.
    now rewrite append_nil_r. }
  induction n as [|n IH]; intros s Hn Hst; [apply AtEnd; lia|].
  destruct (le_lt_dec (String.length q) (pos s)) as [Hge|Hlt]; [now apply AtEnd|].
  destruct (byteAt_lt_Some _ _ Hlt) as [c H].
  destruct (stepOther_lex s c H Hst) as (len & r & t & _ & S & H1 & H2).
  assert (continuesAs s (stepOther q s c)) as C1
      by (apply continuesAs_step; [exact Hlt|now apply step_other]).
  destruct (lexState_eq_dec (state (stepOther q s c)) sText) as [Hp|Hp].
  - exists (stepOther q s c). split; [exact C1|]. rewrite S in *.
    cbn [pos buf args count state] in *. repeat split; auto; lia.
  - destruct (IH (stepOther q s c)) as (s' & C2 & Hpos & Hbuf & Hargs & Hcount & Hend);
      [rewrite S; cbn [pos]; lia|exact Hp|].
    exists s'. split; [eapply continuesAs_trans; eauto|].
    rewrite S in Hpos, Hbuf, Hargs, Hcount. cbn [pos buf args count] in *.
    split; [lia|]. split; [|auto].
    rewrite Hbuf, append_assoc. f_equal. apply slice_append; lia.
Qed.

End Refinement.

(** ** Quoting and comment immunity *)

(** C4: a literal (single, double, backtick or bracket quoted), a
    comment (line or block) or a dollar-quoted region that the loop meets
    in the plain state is copied to the output from its opening to its
    closing delimiter, whatever it contains and whatever is bound, and the
    loop goes on in the plain state after it with the arguments and the
    placeholder counter as they were; a template in which every colon is
    inside such a region is returned unchanged with no argument; and in
    every state other than the plain one an iteration succeeds, copies
    the bytes it consumes and leaves the arguments and the counter as they
    are, so that from such a state the loop only copies until it is back
    in the plain state or at the end of the template, closed or not.  A
    placeholder-shaped token inside such a region is never a
    placeholder. *)
Theorem C4_regions_are_copied_verbatim (d : Dialect) (cfg : Config) :
  (forall q lookup rowsLookup s w rest,
      state s = sText ->
      from q (pos s) = w +:+ rest ->
      closedRegion d w rest ->
      exists t,
        continuesAs d q cfg lookup rowsLookup s
          (PState (pos s + String.length w) sText t (count s)
                  (buf s +:+ w) (args s)))
  /\ (forall q inputs, inert d q -> parse d q inputs cfg = Return q [] None)
  /\ (forall q lookup rowsLookup s,
        pos s < String.length q ->
        state s <> sText ->
        exists s',
          step d q cfg lookup rowsLookup s = Next s'
          /\ pos s < pos s' <= String.length q
          /\ buf s' = buf s +:+ slice q (pos s) (pos s')
          /\ args s' = args s
          /\ count s' = count s)
  /\ (forall q lookup rowsLookup s,
        state s <> sText ->
        exists s',
          continuesAs d q cfg lookup rowsLookup s s'
          /\ pos s <= pos s'
          /\ buf s' = buf s +:+ slice q (pos s) (pos s')
          /\ args s' = args s
          /\ count s' = count s
          /\ (state s' = sText \/ String.length q <= pos s')).
Proof.
  split; [|split; [|split]].
  4: { intros q lookup rowsLookup s.
       apply (region_persists d q cfg lookup rowsLookup (String.length q - pos s)).
       lia. }
  - intros q lookup rowsLookup s w rest. apply region_crossing.
  - intros q inputs Hi. unfold parse.
    rewrite (inert_run d q cfg _ _ q Hi initial eq_refl
               ltac:(unfold from; cbn [pos initial];
                     now rewrite Nat.sub_0_r, substring_all)
               (String.length q) 0);
      cbn [pos initial]; try lia.
    rewrite run_done by (cbn [pos]; lia). reflexivity.
  - intros q lookup rowsLookup s Hlt Hst. destruct (byteAt_lt_Some _ _ Hlt) as [c H].
    destruct (stepOther_lex d q s c H Hst) as (len & r & t & _ & S & H1 & H2).
    exists (stepOther q s c). unfold step. rewrite H.
    split; [now destruct (state s)|].
    rewrite S. cbn [pos buf args count]. repeat split; lia.
Qed.

(** A colon and a name inside a literal, before a placeholder and in a
    template that has no placeholder. *)
Lemma C4_regions_are_copied_verbatim_witness :
  parse MySQL "':x' = :x" [bag [("x", vInt 7)]] (defaultConfig MySQL (MkConfig 0 0))
  = Return "':x' = ?" [vInt 7] None
  /\ parse MySQL "SELECT ':a' -- :b" [bag [("a", vInt 1); ("b", vInt 2)]]
           (defaultConfig MySQL (MkConfig 0 0))
     = Return "SELECT ':a' -- :b" [] None.
Proof.
  destruct (C4_regions_are_copied_verbatim MySQL (defaultConfig MySQL (MkConfig 0 0)))
    as (A & B & _).
  split.
  - destruct (A "':x' = :x" (makeLookup [bag [("x", vInt 7)]])
                (makeRowsLookup [bag [("x", vInt 7)]]) initial "':x'" " = :x"
                eq_refl eq_refl (region_single MySQL ":x" " = :x" eq_refl eq_refl))
      as [t H].
    unfold parse. rewrite (H _ 5); [|simpl; lia|simpl; lia].
    vm_compute. reflexivity.
  - apply B.
    do 7 (apply inert_byte; [reflexivity|]).
    apply (inert_region MySQL "':a'" " -- :b");
      [exact (region_single MySQL ":a" " -- :b" eq_refl eq_refl)|].
    apply inert_byte; [reflexivity|].
    apply (inert_region MySQL "-- :b" "");
      [exact (region_line MySQL " :b" "" "" eq_refl (or_intror (or_intror (conj eq_refl eq_refl))))|].
    apply inert_nil.
Defined.

(** ** Termination and unterminated regions *)

(** C9: [parse] returns or panics within the fuel of the model on every
    template (it never runs out of iterations); from a block comment that
    is never closed, and from a dollar-quoted region whose tag never
    occurs again, the rest of the template is copied to the output, no
    argument is added and no error is returned. *)
Theorem C9_parse_terminates_and_tolerates_unterminated_regions
  (d : Dialect) (q : string) (inputs : list value) (cfg : Config) :
  parse d q inputs cfg <> OutOfFuel
  /\ (forall s fuel,
        state s = sBC ->
        String.length q - pos s <= fuel ->
        indexOf "*/" (from q (pos s)) = None ->
        run d q cfg (makeLookup inputs) (makeRowsLookup inputs) fuel s
        = Return (buf s +:+ from q (pos s)) (args s) None)
  /\ (forall s fuel,
        state s = sDQD ->
        String.length q - pos s <= fuel ->
        indexOf (dqTag s) (from q (pos s)) = None ->
        run d q cfg (makeLookup inputs) (makeRowsLookup inputs) fuel s
        = Return (buf s +:+ from q (pos s)) (args s) None).
Proof.
  split; [|split].
  - unfold parse. apply run_fuel. simpl. lia.
  - intros s fuel. apply run_unterminated_comment.
  - intros s fuel. apply run_unterminated_dollar.
Qed.

(** ** Scalar placeholders *)

Lemma renderScalars_pieces d n toks :
  renderScalars d n toks = concatStrings (List.map (showPiece d) (pieces n toks)).
Proof.
  revert n; induction toks as [|[w|name|name k] toks IH]; intros n; simpl;
    rewrite ?IH; reflexivity.
Qed.

Lemma ordinalsOf_pieces n toks :
  ordinalsOf (pieces n toks) = seq (S n) (List.length (paramNames toks)).
Proof.
  revert n; induction toks as [|[w|name|name k] toks IH]; intros n;
    unfold ordinalsOf in *; simpl; rewrite ?IH; reflexivity.
Qed.

Lemma length_argsOf lookup names :
  Forall (fun name => is_Some (lookup name)) names ->
  List.length (argsOf lookup names) = List.length names.
Proof.
  induction 1 as [|name names [v Hv] _ IH]; [reflexivity|].
  rewrite (argsOf_cons _ _ _ _ Hv). simpl. now rewrite IH.
Qed.

(** C1: a template whose placeholders outside quotes and comments are [N]
    scalar placeholders, each bound to a value that is neither a
    collection nor a byte blob, renders, within the limits of the
    configuration, to its text with the [k]-th placeholder replaced by the
    dialect's token for ordinal [k], the ordinals being 1..N in order, and
    to the [N] bound values in order of occurrence. *)
Theorem C1_scalar_placeholders_render_in_order
  (d : Dialect) (q : string) (inputs : list value) (cfg : Config) :
  let toks := tokens d q in
  let names := paramNames toks in
  forallb (fun t => negb (isBlock t)) toks = true ->
  Forall (bindsSingle cfg (makeLookup inputs)) names ->
  (MaxParams cfg <= 0 \/ Z.of_nat (List.length names) <= MaxParams cfg)%Z ->
  parse d q inputs cfg
  = Return (concatStrings (List.map (showPiece d) (pieces 0 toks)))
           (argsOf (makeLookup inputs) names) None
  /\ ordinalsOf (pieces 0 toks) = seq 1 (List.length names)
  /\ List.length (argsOf (makeLookup inputs) names) = List.length names.
Proof.
  intros toks names Hb Hs Hl. split; [|split].
  - unfold parse, toks, names, tokens in *.
    change (Cursor 0 Plain "") with (cursor_of initial) in *.
    rewrite run_scalars; try assumption.
    + now rewrite renderScalars_pieces.
    + simpl. lia.
  - apply ordinalsOf_pieces.
  - apply length_argsOf. eapply Forall_impl; [exact Hs|].
    intros name [_ (v & Hv & _)]. now exists v.
Qed.

(** ** Collections *)

Lemma emitElems_spec d t els n out acc :
  emitElems d t els n out acc
  = (n + List.length els, out +:+ sepList d t n (List.length els),
     acc ++ List.map toAny els).
Proof.
  revert t n out acc; induction els as [|e els IH]; intros t n out acc; simpl.
  - now rewrite Nat.add_0_r, append_nil_r, app_nil_r.
  - rewrite IH. unfold writePlaceholder. f_equal; [f_equal; [lia|]|].
    + destruct (0 <? t); now rewrite !append_assoc.
    + now rewrite <- app_assoc.
Qed.

Lemma rtype_eqb_bytes_kind t e :
  rtype_eqb t tBytes = true -> elemType t = Some e -> kindOfType e = Uint8.
Proof.
  destruct t; try discriminate. simpl.
  intros H [= ->]. apply andb_prop in H as [_ H].
  destruct e; try discriminate. simpl in H.
  apply andb_prop in H as [H _]. now destruct k.
Qed.

(** The treatment of a slice or array whose elements are not bytes and
    whose type has no [Value] method. *)
Lemma emitValue_expandable d cfg s name k v els :
  expandable v = Some els ->
  isValuer v = false ->
  emitValue d cfg s name k v
  = if Nat.eqb (List.length els) 0 then Fail (ErrSliceEmpty name) s
    else match ensureAdd cfg (count s) (List.length els) with
         | Some e => Fail e s
         | None =>
             Next (PState k sText (dqTag s) (count s + List.length els)
                          (buf s +:+ placeholderList d (count s) (List.length els))
                          (args s ++ List.map toAny els))
         end.
Proof.
  intros He Hv. unfold emitValue.
  assert (exists t e, typeOf v = Some t /\ elemType t = Some e
                      /\ Kind_eqb (kindOfType e) Uint8 = false) as (t & e & Ht & Hel & Hk).
  { destruct v; try discriminate; simpl in He |- *;
      destruct (elemType t) as [e|] eqn:E; try discriminate;
      destruct (Kind_eqb (kindOfType e) Uint8) eqn:K; try discriminate;
      exists t, e; auto. }
  unfold isValuer in Hv. rewrite Ht in Hv.
  assert (rtype_eqb t tBytes = false) as Hb.
  { destruct (rtype_eqb t tBytes) eqn:E; [|reflexivity].
    rewrite (rtype_eqb_bytes_kind _ _ E Hel) in Hk. discriminate. }
  assert (isByteSliceLike v = false) as Hs.
  { unfold isByteSliceLike. rewrite Ht. cbn [mbind option_bind]. rewrite Hel, Hk.
    now rewrite andb_false_r. }
  destruct v; try discriminate; rewrite Ht, Hv, Hb, Hs, He;
    (destruct (Nat.eqb _ 0); [reflexivity|]);
    (destruct (ensureAdd _ _ _); [reflexivity|]);
    now rewrite emitElems_spec.
Qed.

(** C2 (as the code has it): a scalar placeholder bound to a slice or
    array of [K] elements that are not bytes, whose type has no [Value]
    method, fails with [ErrSliceEmpty] when [K = 0]; otherwise, within the
    parameter limit, it is replaced by [K] placeholders for the next [K]
    ordinals, separated by a comma and a space, and contributes the [K]
    elements in order as arguments. *)
Theorem C2_collection_expands_elementwise
  (d : Dialect) (q : string) (cfg : Config)
  (lookup : string -> option value)
  (rowsLookup : string -> lookupRes (list value))
  (s : pstate) (name : string) (c' : cursor) (v : value) (els : list value) :
  pos s < String.length q ->
  lexStep d q (cursor_of s) = (TParam name, c') ->
  nameTooLong cfg name = false ->
  lookup name = Some v ->
  expandable v = Some els ->
  isValuer v = false ->
  (els = [] ->
   step d q cfg lookup rowsLookup s = Fail (ErrSliceEmpty name) s)
  /\ (els <> [] ->
      (MaxParams cfg <= 0
       \/ Z.of_nat (count s + List.length els) <= MaxParams cfg)%Z ->
      step d q cfg lookup rowsLookup s
      = Next (PState (offset c') sText (dqTag s) (count s + List.length els)
                     (buf s +:+ placeholderList d (count s) (List.length els))
                     (args s ++ List.map toAny els))).
Proof.
  intros Hlt L Hn Hv He Hval.
  rewrite (step_lex d q cfg lookup rowsLookup s Hlt), L.
  cbn [fst snd stepOn]. rewrite Hn, Hv.
  rewrite (emitValue_expandable _ _ _ _ _ _ _ He Hval).
  split.
  - now intros ->.
  - intros Hne Hl. destruct els as [|e els]; [congruence|].
    cbn [List.length Nat.eqb]. now rewrite ensureAdd_None.
Qed.

(** C6: the parameter limit is checked before a batch is written.  When
    a positive limit is exceeded by the batch (1 for a single value, the
    length for a collection, rows times columns for a rows block) the
    iteration fails with [ErrTooManyParams] and the counter, the buffer
    and the arguments are those before the batch; and whenever [parse]
    returns an error it returns the empty text and no arguments. *)
Theorem C6_limit_precedes_emission_and_errors_return_nothing
  (d : Dialect) (q : string) (inputs : list value) (cfg : Config) :
  (forall text arguments e,
      parse d q inputs cfg = Return text arguments (Some e) ->
      text = "" /\ arguments = [])
  /\ (forall s name k v,
        isSingle v = true ->
        (0 < MaxParams cfg)%Z ->
        (MaxParams cfg < Z.of_nat (count s + 1))%Z ->
        emitValue d cfg s name k v
        = Fail (ErrTooManyParams (Z.of_nat (count s + 1)) (MaxParams cfg)) s)
  /\ (forall s name k v els,
        expandable v = Some els -> isValuer v = false -> els <> [] ->
        (0 < MaxParams cfg)%Z ->
        (MaxParams cfg < Z.of_nat (count s + List.length els))%Z ->
        emitValue d cfg s name k v
        = Fail (ErrTooManyParams (Z.of_nat (count s + List.length els))
                                 (MaxParams cfg)) s)
  /\ (forall s name k k2 cols rows,
        readCols q k = Some (k2, cols) -> cols <> [] ->
        makeRowsLookup inputs name = Found rows -> rows <> [] ->
        (0 < MaxParams cfg)%Z ->
        (MaxParams cfg < Z.of_nat (count s + List.length rows * List.length cols))%Z ->
        emitRowsBlock d q cfg (makeRowsLookup inputs) s name k
        = Fail (ErrTooManyParams
                  (Z.of_nat (count s + List.length rows * List.length cols))
                  (MaxParams cfg)) s).
Proof.
  split; [|split; [|split]].
  - unfold parse. generalize (String.length q) at 1. generalize initial.
    intros s fuel; revert s; induction fuel as [|f IH]; intros s text arguments e; simpl.
    + destruct (String.length q <=? pos s); discriminate.
    + destruct (String.length q <=? pos s); [discriminate|].
      destruct (step _ _ _ _ _ s) as [s'|e' s'|]; [apply IH| |discriminate].
      now intros [= <- <- _].
  - intros s name k v Hs H1 H2. rewrite emitValue_single by exact Hs.
    unfold emitOne. now rewrite ensureAdd_Some.
  - intros s name k v els He Hv Hne H1 H2.
    rewrite (emitValue_expandable _ _ _ _ _ _ _ He Hv).
    destruct els as [|x els]; [congruence|]. cbn [List.length Nat.eqb].
    now rewrite ensureAdd_Some.
  - intros s name k k2 cols rows Hr Hc Hl Hne H1 H2.
    unfold emitRowsBlock. rewrite Hr, Hl.
    destruct cols as [|c cols]; [congruence|]. cbn [List.length Nat.eqb].
    destruct rows as [|r rows]; [congruence|].
    now rewrite ensureAdd_Some.
Qed.

(** ** Nil fields *)

Lemma leafValue_nil f : isNilLeaf f -> leafValue f = (VNil, true).
Proof.
  unfold isNilLeaf, leafValue. destruct (unwrapInterfaces f) as [x|]; [|reflexivity].
  destruct x; try contradiction. destruct p; [contradiction|reflexivity].
Qed.

Lemma walkPath_nil v path : crossesNil v path -> walkPath v path = (VNil, true).
Proof.
  induction 1 as [v idx rest H | v t fs idx f H K Hf Hl
                 | v t fs idx f rest H K Hf Hr _ IH];
    simpl; rewrite H; try reflexivity;
    unfold IsValid, kindOf; cbn [typeOf Field]; rewrite K; simpl; rewrite Hf.
  - now apply leafValue_nil.
  - destruct rest; [congruence|exact IH].
Qed.

Lemma kindOfType_valid t : Kind_eqb (kindOfType t) Invalid = false.
Proof. destruct t as [[] ?| | | | | | |]; reflexivity. Qed.

Lemma IsValid_not_nil v : v <> VNil -> IsValid v = true.
Proof.
  intros H. unfold IsValid, kindOf.
  destruct v; try congruence; cbn [typeOf]; now rewrite kindOfType_valid.
Qed.

Lemma unwrapAll_valid v w : unwrapAll v = Some w -> IsValid w = true -> IsValid v = true.
Proof.
  intros H Hw. apply IsValid_not_nil. intros ->. simpl in H.
  injection H as <-. discriminate.
Qed.

Lemma makeLookup_last inputs input name v :
  singleLookup input name = Some v -> makeLookup (inputs ++ [input]) name = Some v.
Proof.
  intros H. unfold makeLookup. rewrite rev_app_distr. simpl. now rewrite H.
Qed.

Lemma argsOf_at lookup names : forall k n v,
  Forall (fun n => is_Some (lookup n)) names ->
  names !! k = Some n -> lookup n = Some v ->
  argsOf lookup names !! k = Some (argOf v).
Proof.
  induction names as [|n0 names IH]; intros k n v Hall Hk Hv; [discriminate|].
  apply Forall_cons in Hall as [[v0 Hv0] Hall].
  rewrite (argsOf_cons lookup n0 v0 names Hv0).
  destruct k as [|k].
  - cbn in Hk. injection Hk as ->. rewrite Hv in Hv0. now injection Hv0 as <-.
  - cbn in Hk |- *. now apply IH with n.
Qed.

(** C10: a scalar placeholder that resolves through a bound record to an
    unambiguous flattened field whose path crosses a nil pointer, or ends
    at a nil pointer or nil interface, is found (no [ErrParamMissing]):
    the resolver returns nil, wrapped when the field is tagged scalar;
    the iteration of the parser at such a placeholder writes the
    placeholder with a nil argument; and [parse] of a template of scalar
    placeholders succeeds with nil as the argument of every occurrence of
    the name. *)
Theorem C10_nil_field_binds_null
  (input : value) (ti : tinfo) (fds : list (fieldDecl * rtype))
  (fs : list value) (name : string) (fi : fieldInfo) :
  unwrapAll input = Some (VStruct (TStruct ti fds) fs) ->
  fieldIndexMap (TStruct ti fds) !! name = Some fi ->
  ambiguous fi = false ->
  crossesNil (VStruct (TStruct ti fds) fs) (index fi) ->
  exists v,
    singleLookup input name = Some v
    /\ (forall inputs, makeLookup (inputs ++ [input]) name = Some v)
    /\ argOf v = VNil
    /\ (forall d cfg s k,
          (MaxParams cfg <= 0 \/ Z.of_nat (count s + 1) <= MaxParams cfg)%Z ->
          emitValue d cfg s name k v
          = Next (PState k sText (dqTag s) (S (count s))
                         (writePlaceholder (buf s) d (S (count s)))
                         (args s ++ [VNil])))
    /\ (forall d q cfg inputs rowsLookup s c',
          pos s < String.length q ->
          lexStep d q (cursor_of s) = (TParam name, c') ->
          nameTooLong cfg name = false ->
          (MaxParams cfg <= 0 \/ Z.of_nat (count s + 1) <= MaxParams cfg)%Z ->
          step d q cfg (makeLookup (inputs ++ [input])) rowsLookup s
          = Next (PState (offset c') sText (dqTag s) (S (count s))
                         (writePlaceholder (buf s) d (S (count s)))
                         (args s ++ [VNil])))
    /\ (forall d q cfg inputs,
          forallb (fun t => negb (isBlock t)) (tokens d q) = true ->
          Forall (bindsSingle cfg (makeLookup (inputs ++ [input])))
                 (paramNames (tokens d q)) ->
          (MaxParams cfg <= 0
           \/ Z.of_nat (List.length (paramNames (tokens d q))) <= MaxParams cfg)%Z ->
          exists text arguments,
            parse d q (inputs ++ [input]) cfg = Return text arguments None
            /\ List.length arguments = List.length (paramNames (tokens d q))
            /\ forall k, paramNames (tokens d q) !! k = Some name ->
                         arguments !! k = Some VNil).
Proof.
  intros Hu Hm Ha Hc.
  assert (singleLookup input name
          = Some (if scalar fi then VScalar VNil else VNil)) as Hl.
  { unfold singleLookup. rewrite (unwrapAll_valid _ _ Hu eq_refl), Hu.
    unfold isMapStringAny, tMapStringAny.
    cbn [negb typeOf rtype_eqb kindOf kindOfType].
    rewrite Hm, Ha. unfold getValueByPathAny. cbn [unwrapInterfaces].
    rewrite (walkPath_nil _ _ Hc). now destruct (scalar fi). }
  exists (if scalar fi then VScalar VNil else VNil).
  assert (forall d cfg s k,
             (MaxParams cfg <= 0 \/ Z.of_nat (count s + 1) <= MaxParams cfg)%Z ->
             emitValue d cfg s name k (if scalar fi then VScalar VNil else VNil)
             = Next (PState k sText (dqTag s) (S (count s))
                            (writePlaceholder (buf s) d (S (count s)))
                            (args s ++ [VNil]))) as He.
  { intros d cfg s k Hlim.
    rewrite emitValue_single by (now destruct (scalar fi)).
    unfold emitOne. rewrite ensureAdd_None by exact Hlim.
    now destruct (scalar fi). }
  split; [exact Hl|]. split; [intros; now apply makeLookup_last|].
  split; [now destruct (scalar fi)|].
  split; [exact He|]. split.
  - intros d q cfg inputs rowsLookup s c' Hlt L Hn Hlim.
    rewrite (step_lex d q cfg _ rowsLookup s Hlt), L. cbn [fst snd stepOn].
    rewrite Hn, (makeLookup_last inputs input name _ Hl). now apply He.
  - intros d q cfg inputs Hb Hs Hlim.
    exists (concatStrings (List.map (showPiece d) (pieces 0 (tokens d q)))),
      (argsOf (makeLookup (inputs ++ [input])) (paramNames (tokens d q))).
    assert (Forall (fun n => is_Some (makeLookup (inputs ++ [input]) n))
                   (paramNames (tokens d q))) as Hsome.
    { eapply Forall_impl; [exact Hs|]. intros n [_ (v & Hv & _)]. now exists v. }
    split; [|split].
    + unfold parse, tokens in *.
      change (Cursor 0 Plain "") with (cursor_of initial) in *.
      rewrite run_scalars; try assumption.
      * now rewrite renderScalars_pieces.
      * simpl. lia.
    + now apply length_argsOf.
    + intros k Hk.
      rewrite (argsOf_at _ _ k name _ Hsome Hk (makeLookup_last inputs input name _ Hl)).
      now destruct (scalar fi).
Qed.

(** ** The field index and the flattened leaves *)

Lemma rtype_nested_ind (P : rtype -> Prop) :
  (forall k ti, P (TBasic k ti)) ->
  (forall e, P e -> P (TPointer e)) ->
  P TInterface ->
  (forall ti e, P e -> P (TSlice ti e)) ->
  (forall ti n e, P e -> P (TArray ti n e)) ->
  (forall ti k e, P k -> P e -> P (TMap ti k e)) ->
  (forall ti fs, Forall (fun x => P (snd x)) fs -> P (TStruct ti fs)) ->
  (forall ti, P (TBack ti)) ->
  forall t, P t.
Proof.
  intros Hb Hp Hi Hs Ha Hm Hst Hbk.
  fix IH 1. intros [k ti|e| |ti e|ti n e|ti k e|ti fs|ti].
  - apply Hb.
  - apply Hp, IH.
  - apply Hi.
  - apply Hs, IH.
  - apply Ha, IH.
  - apply Hm; apply IH.
  - apply Hst. induction fs as [|[f ft] fs IHfs]; constructor; [apply IH|exact IHfs].
  - apply Hbk.
Qed.

Lemma addLeaves_app l1 l2 m : addLeaves (l1 ++ l2) m = addLeaves l2 (addLeaves l1 m).
Proof. unfold addLeaves. apply fold_left_app. Qed.

Lemma walkFields_leaves descendW descendL path i fs m :
  Forall (fun x => forall p m', descendW (snd x) p m' = addLeaves (descendL (snd x) p) m') fs ->
  walkFields descendW path i fs m = addLeaves (leavesFields descendL path i fs) m.
Proof.
  intros H; revert i m; induction H as [|[f ft] fs Hx _ IH]; intros i m; simpl.
  - reflexivity.
  - destruct (negb (String.eqb (fPkgPath f) "")); simpl; [apply IH|].
    destruct (String.eqb (fTag f) "-"); [apply IH|].
    destruct (shouldFlatten ft).
    + rewrite addLeaves_app, IH. f_equal. apply Hx.
    + rewrite IH. reflexivity.
Qed.

Lemma walk_leavesFrom rt : forall visited path m,
  walk rt visited path m = addLeaves (leavesFrom rt visited path) m.
Proof.
  induction rt as [k ti|e IH| |ti e IH|ti n e IH|ti k IHk e IHe|ti fs IH|ti]
    using rtype_nested_ind; intros visited path m; try reflexivity.
  - simpl. apply IH.
  - cbn [walk leavesFrom].
    destruct (existsb (rtype_eqb (TStruct ti fs)) visited); [reflexivity|].
    apply walkFields_leaves.
    eapply Forall_impl; [exact IH|]. intros [f ft] Hft p m'. cbn [snd] in *.
    destruct ft; apply Hft.
Qed.

Lemma derefType_not_pointer t e : derefType t <> TPointer e.
Proof. induction t; simpl; try discriminate. exact IHt. Qed.

(** The field index is the fold of the collision rule over the leaves. *)
Lemma fieldIndexMap_leaves t : fieldIndexMap t = addLeaves (leaves t) ∅.
Proof.
  unfold fieldIndexMap, leaves.
  destruct (negb (Kind_eqb (kindOfType (derefType t)) Struct)) eqn:E.
  - pose proof (derefType_not_pointer t) as Hp.
    destruct (derefType t) as [[] ?|e| | | | | |]; try reflexivity.
    + now destruct (Hp e).
    + discriminate E.
  - apply walk_leavesFrom.
Qed.

Lemma addLeaf_lookup_same m name fi :
  addLeaf m name fi !! name
  = match m !! name with
    | Some prev => if ambiguous prev then Some prev else Some (FieldInfo [] false true)
    | None => Some fi
    end.
Proof.
  unfold addLeaf. destruct (m !! name) as [prev|] eqn:E.
  - destruct (ambiguous prev); [exact E|]. apply lookup_insert_eq.
  - apply lookup_insert_eq.
Qed.

Lemma addLeaf_lookup_other m name n' fi :
  n' <> name -> addLeaf m n' fi !! name = m !! name.
Proof.
  intros H. unfold addLeaf. destruct (m !! n') as [prev|].
  - destruct (ambiguous prev); [reflexivity|]. now apply lookup_insert_ne.
  - now apply lookup_insert_ne.
Qed.

(** A name that the map already holds and one more leaf exposes, or that
    two leaves expose, ends up marked ambiguous. *)
Lemma addLeaves_marked l : forall (m : gmap string fieldInfo) name,
  match m !! name with
  | Some prev => ambiguous prev = true \/ 1 <= count_occ string_dec (List.map fst l) name
  | None => 2 <= count_occ string_dec (List.map fst l) name
  end ->
  exists fi, addLeaves l m !! name = Some fi /\ ambiguous fi = true.
Proof.
  induction l as [|[n fi] l IH]; intros m name H.
  - simpl in *. destruct (m !! name) as [prev|]; [|lia].
    destruct H as [H|H]; [eauto|lia].
  - change (addLeaves ((n, fi) :: l) m) with (addLeaves l (addLeaf m n fi)).
    apply IH. cbn [List.map fst count_occ] in H.
    destruct (string_dec n name) as [->|Hne].
    + rewrite addLeaf_lookup_same.
      destruct (m !! name) as [prev|].
      * destruct (ambiguous prev) eqn:E; [now left|]. now left.
      * right. lia.
    + rewrite addLeaf_lookup_other by exact Hne. exact H.
Qed.

(** A column name that two flattened leaves expose is ambiguous in the
    field index. *)
Lemma fieldIndexMap_ambiguous t name :
  2 <= leafCount t name ->
  exists fi, fieldIndexMap t !! name = Some fi /\ ambiguous fi = true.
Proof.
  intros H. rewrite fieldIndexMap_leaves. apply addLeaves_marked.
  now rewrite lookup_empty.
Qed.

Lemma columnPaths_ambiguous fm pre name post blk r :
  Forall (fun c => exists fi, fm !! c = Some fi /\ ambiguous fi = false) pre ->
  (exists fi, fm !! name = Some fi /\ ambiguous fi = true) ->
  columnPaths fm (pre ++ name :: post) blk r
  = inl (ErrFieldAmbiguous name (Some (blk, r))).
Proof.
  intros Hpre (fi & Hfi & Ha). induction Hpre as [|c pre (fc & Hc & Hac) _ IH]; simpl.
  - now rewrite Hfi, Ha.
  - now rewrite Hc, Hac, IH.
Qed.

Lemma buildColumns_ambiguous dstT fm pre name post :
  (exists fi, fm !! name = Some fi /\ ambiguous fi = true) ->
  forall i p p',
    buildColumns dstT fm i pre p = Done p' ->
    buildColumns dstT fm i (pre ++ name :: post) p
    = Failed (EPackage (ErrFieldAmbiguous name None)).
Proof.
  intros (fi & Hfi & Ha). induction pre as [|c pre IH]; intros i p p'; simpl.
  - now rewrite Hfi, Ha.
  - destruct (fm !! c) as [fc|]; [|apply IH].
    destruct (ambiguous fc); [discriminate|].
    destruct (FieldByIndexType dstT (index fc)) as [ft|]; [|discriminate].
    destruct (isScannerField ft); [apply IH|].
    destruct (Kind_eqb (kindOfType ft) Pointer); apply IH.
Qed.

Lemma buildColumns_never_done dstT fm cols name :
  (exists fi, fm !! name = Some fi /\ ambiguous fi = true) ->
  In name cols ->
  forall i p p', buildColumns dstT fm i cols p <> Done p'.
Proof.
  intros (fi & Hfi & Ha) Hin. induction cols as [|c cols IH]; [contradiction|].
  intros i p p'. simpl.
  destruct Hin as [->|Hin].
  - now rewrite Hfi, Ha.
  - destruct (fm !! c) as [fc|]; [|now apply IH].
    destruct (ambiguous fc); [discriminate|].
    destruct (FieldByIndexType dstT (index fc)) as [ft|]; [|discriminate].
    destruct (isScannerField ft); [now apply IH|].
    destruct (Kind_eqb (kindOfType ft) Pointer); now apply IH.
Qed.

Lemma derefType_idem t : derefType (derefType t) = derefType t.
Proof. induction t; simpl; auto. Qed.

Lemma fieldIndexMap_deref t : fieldIndexMap (derefType t) = fieldIndexMap t.
Proof. unfold fieldIndexMap. now rewrite derefType_idem. Qed.

(** C5: when two flattened leaves of a record type expose the same
    column name, the field index marks the name ambiguous, and every
    operation that consults it for that name fails with
    [ErrFieldAmbiguous] naming the column: the resolution of a scalar
    placeholder through a record of the type, the resolution of the
    columns of a rows block (before anything of the block is written, when
    the first row is of the type, and at a later row of the type), and
    the construction of a scan plan, which never returns a plan for
    columns that include the name; the iteration of the parser at a
    scalar placeholder of that name, and at a rows block that lists it,
    returns the error.  A type that refers to itself is not entered
    again, so its own leaves are counted once. *)
Theorem C5_ambiguous_column_always_fails (t : rtype) (name : string) :
  2 <= leafCount t name ->
  (exists fi, fieldIndexMap t !! name = Some fi /\ ambiguous fi = true)
  /\ (forall input fs,
        kindOfType t = Struct ->
        unwrapAll input = Some (VStruct t fs) ->
        singleLookup input name = Some (VAmbiguous name)
        /\ forall d cfg s k,
            emitValue d cfg s name k (VAmbiguous name)
            = Fail (ErrFieldAmbiguous name None) s)
  /\ (forall pre post blk r,
        Forall (fun c => exists fi, fieldIndexMap t !! c = Some fi
                                    /\ ambiguous fi = false) pre ->
        columnPaths (fieldIndexMap t) (pre ++ name :: post) blk r
        = inl (ErrFieldAmbiguous name (Some (blk, r))))
  /\ (forall d q cfg rowsLookup s blk k k2 pre post row0 rows fs,
        kindOfType t = Struct ->
        readCols q k = Some (k2, pre ++ name :: post) ->
        rowsLookup blk = Found (row0 :: rows) ->
        deIndirect row0 = VStruct t fs ->
        ensureAdd cfg (count s)
                  (List.length (row0 :: rows) * List.length (pre ++ name :: post))
        = None ->
        Forall (fun c => exists fi, fieldIndexMap t !! c = Some fi
                                    /\ ambiguous fi = false) pre ->
        emitRowsBlock d q cfg rowsLookup s blk k
        = Fail (ErrFieldAmbiguous name (Some (blk, 0))) s)
  /\ (forall blk r row fs fast colKeys pre post cidx col cache,
        kindOfType t = Struct ->
        Forall (fun c => exists fi, fieldIndexMap t !! c = Some fi
                                    /\ ambiguous fi = false) pre ->
        cacheOk (pre ++ name :: post) cache ->
        fetchColumn blk r row (VStruct t fs) fast colKeys (pre ++ name :: post)
                    cidx col cache
        = inl (ErrFieldAmbiguous name (Some (blk, r))))
  /\ (forall cols p, In name cols -> buildScanPlan cols t <> Done p)
  /\ (forall pre post p,
        buildScanPlan pre t = Done p ->
        buildScanPlan (pre ++ name :: post) t
        = Failed (EPackage (ErrFieldAmbiguous name None)))
  /\ (forall d q cfg inputs input fs rowsLookup s c',
        kindOfType t = Struct ->
        unwrapAll input = Some (VStruct t fs) ->
        pos s < String.length q ->
        lexStep d q (cursor_of s) = (TParam name, c') ->
        nameTooLong cfg name = false ->
        step d q cfg (makeLookup (inputs ++ [input])) rowsLookup s
        = Fail (ErrFieldAmbiguous name None) s)
  /\ (forall d q cfg lookup rowsLookup s c' blk k k2 pre post row0 rows fs,
        kindOfType t = Struct ->
        pos s < String.length q ->
        lexStep d q (cursor_of s) = (TBlock blk k, c') ->
        nameTooLong cfg blk = false ->
        readCols q k = Some (k2, pre ++ name :: post) ->
        rowsLookup blk = Found (row0 :: rows) ->
        deIndirect row0 = VStruct t fs ->
        ensureAdd cfg (count s)
                  (List.length (row0 :: rows) * List.length (pre ++ name :: post))
        = None ->
        Forall (fun c => exists fi, fieldIndexMap t !! c = Some fi
                                    /\ ambiguous fi = false) pre ->
        step d q cfg lookup rowsLookup s
        = Fail (ErrFieldAmbiguous name (Some (blk, 0))) s).
Proof.
  intros H. pose proof (fieldIndexMap_ambiguous t name H) as Hamb.
  split; [exact Hamb|]. destruct Hamb as (fi & Hfi & Ha).
  assert (forall input fs,
             kindOfType t = Struct ->
             unwrapAll input = Some (VStruct t fs) ->
             singleLookup input name = Some (VAmbiguous name)) as Hsl.
  { intros input fs Hk Hu.
    unfold singleLookup. rewrite (unwrapAll_valid _ _ Hu).
    2: { apply IsValid_not_nil. discriminate. }
    rewrite Hu. unfold isMapStringAny, kindOf. cbn [negb typeOf].
    rewrite Hk, Hfi, Ha.
    destruct (rtype_eqb t tMapStringAny) eqn:E; [|reflexivity].
    destruct t; discriminate. }
  assert (forall d q cfg rowsLookup s blk k k2 pre post row0 rows fs,
             kindOfType t = Struct ->
             readCols q k = Some (k2, pre ++ name :: post) ->
             rowsLookup blk = Found (row0 :: rows) ->
             deIndirect row0 = VStruct t fs ->
             ensureAdd cfg (count s)
                       (List.length (row0 :: rows) * List.length (pre ++ name :: post))
             = None ->
             Forall (fun c => exists fi, fieldIndexMap t !! c = Some fi
                                         /\ ambiguous fi = false) pre ->
             emitRowsBlock d q cfg rowsLookup s blk k
             = Fail (ErrFieldAmbiguous name (Some (blk, 0))) s) as Hblk.
  { intros d q cfg rowsLookup s blk k k2 pre post row0 rows fs Hk Hr Hl Hd He Hpre.
    unfold emitRowsBlock. rewrite Hr, Hl, He, Hd.
    unfold IsValid, kindOf. cbn [typeOf]. rewrite Hk. cbn [Kind_eqb negb andb].
    rewrite (columnPaths_ambiguous _ pre name post blk 0 Hpre) by eauto.
    destruct (Nat.eqb _ 0) eqn:E; [|reflexivity].
    apply Nat.eqb_eq in E. rewrite length_app in E. simpl in E. lia. }
  split; [|split; [|split; [|split; [|split; [|split; [|split]]]]]].
  7: { intros d q cfg inputs input fs rowsLookup s c' Hk Hu Hlt L Hn.
       rewrite (step_lex d q cfg _ rowsLookup s Hlt), L. cbn [fst snd stepOn].
       now rewrite Hn, (makeLookup_last inputs input name _ (Hsl input fs Hk Hu)). }
  7: { intros d q cfg lookup rowsLookup s c' blk k k2 pre post row0 rows fs
              Hk Hlt L Hn Hr Hl Hd He Hpre.
       rewrite (step_lex d q cfg lookup rowsLookup s Hlt), L. cbn [fst snd stepOn].
       rewrite Hn. eapply Hblk; eauto. }
  - intros input fs Hk Hu. split; [now apply Hsl with fs|reflexivity].
  - intros pre post blk r Hpre. apply columnPaths_ambiguous; eauto.
  - exact Hblk.
  - intros blk r row fs fast colKeys pre post cidx col cache Hk Hpre Hc.
    pose proof (columnPaths_ambiguous (fieldIndexMap t) pre name post blk r Hpre
                  (ex_intro _ fi (conj Hfi Ha))) as P.
    unfold fetchColumn, IsValid, kindOf. cbn [typeOf]. rewrite Hk.
    cbn [Kind_eqb negb andb].
    destruct (cacheGet cache t) as [paths|] eqn:C.
    + rewrite (Hc _ _ C blk r) in P. discriminate.
    + now rewrite P.
  - intros cols p Hin. unfold buildScanPlan.
    apply buildColumns_never_done with name; [|exact Hin].
    rewrite fieldIndexMap_deref. eauto.
  - intros pre post p Hp. unfold buildScanPlan in *.
    eapply buildColumns_ambiguous; [|exact Hp].
    rewrite fieldIndexMap_deref. eauto.
Qed.

(** ** Paths into the destination *)

Lemma disjointPaths_cons a r c r' :
  disjointPaths (a :: r) (c :: r') = true ->
  a <> c \/ (a = c /\ disjointPaths r r' = true).
Proof.
  simpl. destruct (Nat.eqb a c) eqn:E.
  - apply Nat.eqb_eq in E. auto.
  - apply Nat.eqb_neq in E. auto.
Qed.

Lemma disjointPaths_nonempty p p' : disjointPaths p p' = true -> p <> [] /\ p' <> [].
Proof. destruct p, p'; simpl; try discriminate. split; discriminate. Qed.

Lemma fieldAt_cons2 t fs a c r f :
  fs !! a = Some f ->
  fieldAt (VStruct t fs) (a :: c :: r)
  = match f with
    | VPtr _ None => None
    | VPtr _ (Some x) => fieldAt x (c :: r)
    | _ => fieldAt f (c :: r)
    end.
Proof. intros H. cbn [fieldAt]. now rewrite H. Qed.

Lemma updatePath_struct t fs p leaf x :
  updatePath (VStruct t fs) p leaf = Some x -> exists fs', x = VStruct t fs'.
Proof.
  destruct p as [|a r]; cbn [updatePath]; [intros [= <-]; eauto|].
  destruct (fs !! a) as [fa|]; [|discriminate].
  destruct r; [intros [= <-]; eauto|].
  destruct fa as [| |e [y|]| | | | | | |];
    match goal with
    | |- _ <$> ?u = Some _ -> _ => destruct u; intros [= <-]; eauto
    end.
Qed.

(** A write at a path leaves the fields at the paths that part from it
    as they are. *)
Lemma updatePath_frame p' : forall d p leaf d' f,
  disjointPaths p' p = true ->
  updatePath d p' leaf = Some d' ->
  fieldAt d p = Some f ->
  fieldAt d' p = Some f.
Proof.
  induction p' as [|a r' IH]; intros d p leaf d' f Hd Hu Hf; [discriminate|].
  destruct p as [|c r]; [discriminate|].
  destruct d as [| | | | | | |t fs| |]; try discriminate.
  cbn [updatePath] in Hu.
  destruct (fs !! a) as [fa|] eqn:Ea; [|discriminate].
  assert (a < List.length fs) as Hlen by (apply lookup_lt_Some in Ea; exact Ea).
  apply disjointPaths_cons in Hd as [Hne|[-> Hd]].
  - assert (exists X, d' = VStruct t (<[a := X]> fs)) as [X ->].
    { destruct r'; [injection Hu as <-; eauto|].
      destruct fa as [| |e [x|]| | | | | | |];
        match type of Hu with
        | _ <$> ?u = Some _ => destruct u; [injection Hu as <-; eauto|discriminate]
        end. }
    cbn [fieldAt] in *. rewrite list_lookup_insert_ne by exact Hne. exact Hf.
  - apply disjointPaths_nonempty in Hd as Hne. destruct Hne as [Hr' Hr].
    destruct r' as [|a' r'']; [congruence|]. destruct r as [|c' r0]; [congruence|].
    rewrite (fieldAt_cons2 _ _ _ _ _ _ Ea) in Hf.
    destruct fa as [| |e [x|]| | | | | | |];
      try discriminate;
      match type of Hu with
      | _ <$> ?u = Some _ =>
          destruct u as [x'|] eqn:Eu; [injection Hu as <-|discriminate]
      end;
      erewrite fieldAt_cons2 by (apply list_lookup_insert_eq; exact Hlen);
      try (destruct (updatePath_struct _ _ _ _ _ Eu) as [fs' Hx']; subst x');
      cbv iota; eapply IH; eauto.
Qed.

(** After [setFieldByIndex] the field at the path is the value set. *)
Lemma setFieldByIndex_same p : forall d x d',
  p <> [] -> setFieldByIndex d p x = Some d' -> fieldAt d' p = Some x.
Proof.
  unfold setFieldByIndex.
  induction p as [|a r IH]; intros d x d' Hne Hu; [congruence|].
  destruct d as [| | | | | | |t fs| |]; try discriminate.
  cbn [updatePath] in Hu.
  destruct (fs !! a) as [fa|] eqn:Ea; [|discriminate].
  assert (a < List.length fs) as Hlen by (apply lookup_lt_Some in Ea; exact Ea).
  destruct r as [|a' r'].
  - injection Hu as <-. cbn [fieldAt]. now rewrite list_lookup_insert_eq.
  - destruct fa as [| |e [y|]| | | | | | |];
      match type of Hu with
      | _ <$> ?u = Some _ =>
          destruct u as [x'|] eqn:Eu; [injection Hu as <-|discriminate]
      end;
      try (solve [cbn [updatePath] in Eu; discriminate]);
      erewrite fieldAt_cons2 by (apply list_lookup_insert_eq; exact Hlen);
      try (destruct (updatePath_struct _ _ _ _ _ Eu) as [fs' Hx']; subst x');
      cbv iota; eapply IH; eauto; discriminate.
Qed.

(** Whether the walk of [updatePath] succeeds does not depend on what is
    done at the leaf, and it succeeds again on the root it returned. *)
Lemma updatePath_shape p : forall d f g,
  is_Some (updatePath d p f) -> is_Some (updatePath d p g).
Proof.
  induction p as [|a r IH]; intros d f g H; [cbn; eauto|].
  destruct d as [| | | | | | |t fs| |]; try (destruct H; discriminate).
  cbn [updatePath] in *.
  destruct (fs !! a) as [fa|]; [|exact H].
  destruct r as [|a' r']; [eauto|].
  destruct fa as [| |e [y|]| | | | | | |];
    match goal with
    | H : is_Some (_ <$> ?u) |- is_Some (_ <$> ?w) =>
        let X := fresh in
        assert (is_Some w) as X
            by (apply (IH _ f g); destruct u; [eauto|destruct H; discriminate]);
        destruct X as [? ->]; cbn; eauto
    end.
Qed.

Lemma updatePath_cons2 t fs a c r f leaf :
  fs !! a = Some f ->
  updatePath (VStruct t fs) (a :: c :: r) leaf
  = match f with
    | VPtr e None =>
        (fun x => VStruct t (<[a := VPtr e (Some x)]> fs))
          <$> updatePath (zeroValue e) (c :: r) leaf
    | VPtr e (Some x) =>
        (fun x' => VStruct t (<[a := VPtr e (Some x')]> fs))
          <$> updatePath x (c :: r) leaf
    | _ => (fun f' => VStruct t (<[a := f']> fs)) <$> updatePath f (c :: r) leaf
    end.
Proof. intros H. cbn [updatePath]. now rewrite H. Qed.

Lemma updatePath_again p : forall d f g d',
  updatePath d p f = Some d' -> is_Some (updatePath d' p g).
Proof.
  induction p as [|a r IH]; intros d f g d' Hu; [cbn; eauto|].
  destruct d as [| | | | | | |t fs| |]; try discriminate.
  cbn [updatePath] in Hu.
  destruct (fs !! a) as [fa|] eqn:Ea; [|discriminate].
  assert (a < List.length fs) as Hlen by (apply lookup_lt_Some in Ea; exact Ea).
  destruct r as [|a' r'].
  - injection Hu as <-. cbn [updatePath]. rewrite list_lookup_insert_eq by exact Hlen.
    eauto.
  - destruct fa as [| |e [y|]| | | | | | |];
      match type of Hu with
      | _ <$> ?u = Some _ =>
          destruct u as [x'|] eqn:Eu; [injection Hu as <-|discriminate]
      end;
      try (solve [cbn [updatePath] in Eu; discriminate]);
      erewrite updatePath_cons2 by (apply list_lookup_insert_eq; exact Hlen);
      try (destruct (updatePath_struct _ _ _ _ _ Eu) as [fs' Hx']; subst x');
      cbv iota; destruct (IH _ f g _ Eu) as [z Hz]; rewrite Hz; cbn; eauto.
Qed.

(** A write at a path leaves the paths that part from it reachable. *)
Lemma updatePath_frame_def p' : forall d p f g d',
  disjointPaths p' p = true ->
  updatePath d p' f = Some d' ->
  is_Some (updatePath d p g) ->
  is_Some (updatePath d' p g).
Proof.
  induction p' as [|a r' IH]; intros d p f g d' Hd Hu Hs; [discriminate|].
  destruct p as [|c r]; [discriminate|].
  destruct d as [| | | | | | |t fs| |]; try discriminate.
  cbn [updatePath] in Hu.
  destruct (fs !! a) as [fa|] eqn:Ea; [|discriminate].
  assert (a < List.length fs) as Hlen by (apply lookup_lt_Some in Ea; exact Ea).
  apply disjointPaths_cons in Hd as [Hne|[-> Hd]].
  - assert (exists X, d' = VStruct t (<[a := X]> fs)) as [X ->].
    { destruct r'; [injection Hu as <-; eauto|].
      destruct fa as [| |e [x|]| | | | | | |];
        match type of Hu with
        | _ <$> ?u = Some _ => destruct u; [injection Hu as <-; eauto|discriminate]
        end. }
    cbn [updatePath] in Hs |- *. rewrite list_lookup_insert_ne by exact Hne.
    destruct (fs !! c) as [fc|]; [|exact Hs].
    destruct r; [eauto|].
    destruct fc as [| |e [y|]| | | | | | |]; apply fmap_is_Some in Hs;
      apply fmap_is_Some; exact Hs.
  - apply disjointPaths_nonempty in Hd as Hne. destruct Hne as [Hr' Hr].
    destruct r' as [|a' r'']; [congruence|]. destruct r as [|c' r0]; [congruence|].
    rewrite (updatePath_cons2 _ _ _ _ _ _ _ Ea) in Hs.
    destruct fa as [| |e [x|]| | | | | | |];
      apply fmap_is_Some in Hs;
      match type of Hu with
      | _ <$> ?u = Some _ =>
          destruct u as [x'|] eqn:Eu; [injection Hu as <-|discriminate]
      end;
      try (solve [cbn [updatePath] in Eu; discriminate]);
      erewrite updatePath_cons2 by (apply list_lookup_insert_eq; exact Hlen);
      try (destruct (updatePath_struct _ _ _ _ _ Eu) as [fs' Hx']; subst x');
      cbv iota; apply fmap_is_Some; eapply IH; eauto.
Qed.

(** After a write at a path the field at the path can be read. *)
Lemma updatePath_fieldAt p : forall d f d',
  p <> [] -> updatePath d p f = Some d' -> is_Some (fieldAt d' p).
Proof.
  induction p as [|a r IH]; intros d f d' Hne Hu; [congruence|].
  destruct d as [| | | | | | |t fs| |]; try discriminate.
  cbn [updatePath] in Hu.
  destruct (fs !! a) as [fa|] eqn:Ea; [|discriminate].
  assert (a < List.length fs) as Hlen by (apply lookup_lt_Some in Ea; exact Ea).
  destruct r as [|a' r'].
  - injection Hu as <-. cbn [fieldAt]. rewrite list_lookup_insert_eq by exact Hlen.
    eauto.
  - destruct fa as [| |e [y|]| | | | | | |];
      match type of Hu with
      | _ <$> ?u = Some _ =>
          destruct u as [x'|] eqn:Eu; [injection Hu as <-|discriminate]
      end;
      try (solve [cbn [updatePath] in Eu; discriminate]);
      erewrite fieldAt_cons2 by (apply list_lookup_insert_eq; exact Hlen);
      try (destruct (updatePath_struct _ _ _ _ _ Eu) as [fs' Hx']; subst x');
      cbv iota; eapply IH; eauto; discriminate.
Qed.

(** ** The scan of a row *)

Section MapperProperties.

Variable convertNonNull : rtype -> driverValue -> option value.
Variable scanMethod : rtype -> driverValue -> option value.
Variable plan : scanPlan.
Variable structT : rtype.
Variable alloc : list nat -> bool.

Local Abbreviation prepare := (prepareTargets plan structT alloc).
Local Abbreviation assign := (assignColumns convertNonNull scanMethod).
Local Abbreviation postScanners := (applyPtrScanners scanMethod plan structT alloc).
Local Abbreviation holdersAfter := (holdersAfter plan).
Local Abbreviation accAfter := (accAfter plan structT).

Lemma leafField_type a d path d' ft :
  leafField a structT d path = Some (d', ft) ->
  FieldByIndexType structT path = Some ft.
Proof.
  unfold leafField.
  destruct (if a then _ else _); [|discriminate].
  destruct (FieldByIndexType structT path); [|discriminate].
  now intros [= _ ->].
Qed.

(** The preparation of one column. *)
Lemma prepareTargets_cons i kind ks m acc r :
  kinds plan !! i = Some kind ->
  prepare i (kind :: ks) m acc = Some r ->
  exists d' tg,
    targetOf plan structT i = Some tg
    /\ prepare (S i) ks
         (ScanMem d' (ScanState (<[i := Some tg]> (targets (st m))) (sinks (st m))
                                (holdersAfter i (holders (st m))))
                  (calls m))
         (accAfter i acc) = Some r.
Proof.
  intros Hk. cbn [prepareTargets].
  unfold targetOf, holdersAfter, accAfter, isPtrScannerCol. rewrite Hk.
  destruct kind.
  - intros H. exists (dst m), (ToSink i). split; [reflexivity|exact H].
  - destruct (leafField _ _ _ _) as [[d ft]|] eqn:L; [|discriminate].
    apply leafField_type in L as Hft. rewrite Hft. cbn [fmap option_fmap option_map].
    destruct (Kind_eqb (kindOfType ft) Pointer && implementsScanner ft);
      intros H; eexists d, _; (split; [reflexivity|exact H]).
  - destruct (mjoin (holders (st m) !! i)); [|discriminate].
    destruct (mjoin (ptrFieldTypes plan !! i)) as [ft|]; [|discriminate].
    intros H. exists (dst m), (ToHolder i ft). split; [reflexivity|exact H].
  - destruct (leafField _ _ _ _) as [[d ft]|] eqn:L; [|discriminate].
    apply leafField_type in L as Hft. rewrite Hft.
    intros H. exists d, (ToField (default [] (fPath plan !! i)) ft).
    split; [reflexivity|exact H].
Qed.

Lemma holdersAfter_length i hs : List.length (holdersAfter i hs) = List.length hs.
Proof.
  unfold holdersAfter. destruct (kinds plan !! i) as [[]|]; try reflexivity.
  destruct (mjoin _); [apply length_insert|reflexivity].
Qed.

Lemma holdersAfter_other i j hs : j <> i -> holdersAfter i hs !! j = hs !! j.
Proof.
  intros H. unfold holdersAfter. destruct (kinds plan !! i) as [[]|]; try reflexivity.
  destruct (mjoin _); [|reflexivity]. now apply list_lookup_insert_ne.
Qed.

(** What the preparation of the columns from [i0] on leaves behind. *)
Lemma prepareTargets_spec ks : forall i0 pre m acc m' acc' n,
  kinds plan = pre ++ ks -> List.length pre = i0 ->
  sized n (st m) -> i0 + List.length ks <= n ->
  prepare i0 ks m acc = Some (m', acc') ->
  sized n (st m')
  /\ sinks (st m') = sinks (st m)
  /\ calls m' = calls m
  /\ (forall j, i0 <= j < i0 + List.length ks ->
        exists tg, targetOf plan structT j = Some tg
                   /\ targets (st m') !! j = Some (Some tg))
  /\ (forall j, j < i0 -> targets (st m') !! j = targets (st m) !! j
                          /\ holders (st m') !! j = holders (st m) !! j)
  /\ (forall j, i0 <= j < i0 + List.length ks -> kinds plan !! j = Some ckPtr ->
        exists ft, mjoin (ptrFieldTypes plan !! j) = Some ft
                   /\ holders (st m') !! j = Some (Some (zeroValue ft)))
  /\ (forall j, In j acc' <->
                In j acc \/ (i0 <= j < i0 + List.length ks
                             /\ isPtrScannerCol plan structT j = true)).
Proof.
  induction ks as [|kind ks IH]; intros i0 pre m acc m' acc' n Hk Hpre Hs Hn H.
  - simpl in H. injection H as <- <-. simpl.
    split; [exact Hs|]. repeat split; auto; try (intros; lia).
    intros [?|[? _]]; [assumption|lia].
  - assert (kinds plan !! i0 = Some kind) as Hkind.
    { rewrite Hk, lookup_app_r by lia. now replace (i0 - List.length pre) with 0 by lia. }
    destruct Hs as (Ht & Hsk & Hh). cbn [List.length] in Hn |- *.
    destruct (prepareTargets_cons _ _ _ _ _ _ Hkind H) as (d' & tg & Htg & H1).
    apply (IH (S i0) (pre ++ [kind]) _ _ _ _ n) in H1.
    2: now rewrite <- app_assoc.
    2: rewrite length_app; simpl; lia.
    2: { unfold sized; cbn [st targets sinks holders].
         now rewrite length_insert, holdersAfter_length. }
    2: lia.
    cbn [st targets sinks holders calls] in H1.
    destruct H1 as (Hs' & Hsk' & Hc' & Htgs & Hlow & Hhold & Hacc').
    split; [exact Hs'|]. split; [exact Hsk'|]. split; [exact Hc'|].
    split; [|split; [|split]].
    + intros j Hj. destruct (Nat.eq_dec j i0) as [->|Hne].
      * exists tg. split; [exact Htg|].
        destruct (Hlow i0) as [-> _]; [lia|].
        apply list_lookup_insert_eq. lia.
      * apply Htgs. lia.
    + intros j Hj. destruct (Hlow j) as [-> ->]; [lia|].
      rewrite list_lookup_insert_ne by lia.
      now rewrite holdersAfter_other by lia.
    + intros j Hj Hjk. destruct (Nat.eq_dec j i0) as [->|Hne].
      * destruct (Hlow i0) as [_ ->]; [lia|].
        unfold targetOf in Htg. rewrite Hjk in Htg.
        destruct (mjoin (ptrFieldTypes plan !! i0)) as [ft|] eqn:Eft; [|discriminate].
        exists ft. split; [reflexivity|].
        unfold holdersAfter. rewrite Hjk, Eft.
        apply list_lookup_insert_eq. lia.
      * apply Hhold; [lia|exact Hjk].
    + intros j. rewrite Hacc'. unfold accAfter.
      destruct (isPtrScannerCol plan structT i0) eqn:Ep.
      * rewrite in_app_iff. simpl. split.
        -- intros [[?|[<-|[]]]|[? ?]]; auto; right; split; auto; lia.
        -- intros [?|[Hr Hp]]; auto.
           destruct (Nat.eq_dec j i0) as [->|Hne]; auto. right. split; auto. lia.
      * split.
        -- intros [?|[? ?]]; auto. right; split; auto; lia.
        -- intros [?|[Hr Hp]]; auto.
           destruct (Nat.eq_dec j i0) as [->|Hne]; [congruence|].
           right. split; auto. lia.
Qed.

Lemma targetOf_own k tg : targetOf plan structT k = Some tg -> ownTarget k tg.
Proof.
  unfold targetOf. destruct (kinds plan !! k) as [[]|]; try discriminate.
  - now intros [= <-].
  - destruct (FieldByIndexType _ _) as [ft|]; [|discriminate].
    cbn. destruct (_ && _); now intros [= <-].
  - destruct (mjoin _); [|discriminate]. now intros [= <-].
  - destruct (FieldByIndexType _ _); [|discriminate]. now intros [= <-].
Qed.

Lemma convertAssign_calls t : forall col src r log,
  convertAssign convertNonNull scanMethod col t src = (r, log) ->
  forall c raw, In (c, raw) log -> c = col.
Proof.
  induction t; intros col src r log; cbn [convertAssign];
    try (destruct (rtype_eqb _ TInterface); [intros [= _ <-] ? ? []|]);
    try (destruct (implementsScanner _);
         [intros [= _ <-] c raw [[= <- _]|[]]; reflexivity|]).
  all: try (destruct (isNull src);
            [destruct (rtype_eqb _ tBytes); [|destruct (rtype_eqb _ tRawBytes)]|];
            intros [= _ <-] ? ? []).
  destruct (isNull src); [intros [= _ <-] ? ? []|].
  destruct (convertAssign _ _ col t src) as [r' log'] eqn:E.
  intros [= _ <-]. eapply IHt; eauto.
Qed.

Lemma convertAssign_null_pointer col e :
  convertAssign convertNonNull scanMethod col (TPointer e) DNull
  = (inr (VPtr e None), []).
Proof.
  cbn [convertAssign rtype_eqb isNull].
  assert (implementsScanner (TPointer (TPointer e)) = false) as -> by reflexivity.
  reflexivity.
Qed.

(** What [rows.Scan] does to the buffers. *)
Lemma assignColumns_spec tgts : forall i0 row m m',
  (forall k tg, tgts !! k = Some (Some tg) -> ownTarget (i0 + k) tg) ->
  assign i0 tgts row m = Done m' ->
  targets (st m') = targets (st m)
  /\ List.length (sinks (st m')) = List.length (sinks (st m))
  /\ List.length (holders (st m')) = List.length (holders (st m))
  /\ (forall j, j < i0 ->
        sinks (st m') !! j = sinks (st m) !! j
        /\ holders (st m') !! j = holders (st m) !! j)
  /\ (forall k src,
        tgts !! k = Some (Some (ToSink (i0 + k))) -> row !! k = Some src ->
        i0 + k < List.length (sinks (st m)) ->
        sinks (st m') !! (i0 + k) = Some src)
  /\ (forall k e,
        tgts !! k = Some (Some (ToHolder (i0 + k) (TPointer e))) ->
        row !! k = Some DNull ->
        i0 + k < List.length (holders (st m)) ->
        holders (st m') !! (i0 + k) = Some (Some (VPtr e None)))
  /\ exists new,
      calls m' = calls m ++ new
      /\ forall c raw, In (c, raw) new ->
           exists k tg, c = i0 + k /\ tgts !! k = Some (Some tg)
                        /\ isSinkTarget tg = false.
Proof.
  assert (forall (tgts0 : list (option target)) (row0 : list driverValue) i m0,
             tgts0 = [] \/ row0 = [] ->
             targets (st m0) = targets (st m0)
             /\ List.length (sinks (st m0)) = List.length (sinks (st m0))
             /\ List.length (holders (st m0)) = List.length (holders (st m0))
             /\ (forall j, j < i ->
                   sinks (st m0) !! j = sinks (st m0) !! j
                   /\ holders (st m0) !! j = holders (st m0) !! j)
             /\ (forall k src,
                   tgts0 !! k = Some (Some (ToSink (i + k))) -> row0 !! k = Some src ->
                   i + k < List.length (sinks (st m0)) ->
                   sinks (st m0) !! (i + k) = Some src)
             /\ (forall k e,
                   tgts0 !! k = Some (Some (ToHolder (i + k) (TPointer e))) ->
                   row0 !! k = Some DNull ->
                   i + k < List.length (holders (st m0)) ->
                   holders (st m0) !! (i + k) = Some (Some (VPtr e None)))
             /\ exists new,
                 calls m0 = calls m0 ++ new
                 /\ forall c raw, In (c, raw) new ->
                      exists k tg, c = i + k /\ tgts0 !! k = Some (Some tg)
                                   /\ isSinkTarget tg = false) as Trivial.
  { intros tgts0 row0 i m0 Hnil. repeat split; auto.
    - intros k src Hk Hr. destruct Hnil as [-> | ->]; destruct k; discriminate.
    - intros k e Hk Hr. destruct Hnil as [-> | ->]; destruct k; discriminate.
    - exists []. split; [now rewrite app_nil_r|intros ? ? []]. }
  induction tgts as [|otg tgts IH]; intros i0 row m m' Hown H.
  - destruct row; simpl in H; injection H as <-; apply Trivial; auto.
  - destruct otg as [tg|]; destruct row as [|src row]; cbn [assignColumns] in H;
      try discriminate.
    1,3: injection H as <-; apply Trivial; auto.
    assert (forall k tg', tgts !! k = Some (Some tg') -> ownTarget (S i0 + k) tg') as Hown'.
    { intros k tg' Hk. replace (S i0 + k) with (i0 + S k) by lia. now apply Hown. }
    pose proof (Hown 0 tg eq_refl) as Hown0. rewrite Nat.add_0_r in Hown0.
    assert (forall (m1 : scanMem) (log : list (nat * driverValue)),
               assign (S i0) tgts row m1 = Done m' ->
               targets (st m1) = targets (st m) ->
               List.length (sinks (st m1)) = List.length (sinks (st m)) ->
               List.length (holders (st m1)) = List.length (holders (st m)) ->
               (forall j, j < i0 -> sinks (st m1) !! j = sinks (st m) !! j
                                    /\ holders (st m1) !! j = holders (st m) !! j) ->
               (tg = ToSink i0 -> i0 < List.length (sinks (st m)) ->
                sinks (st m1) !! i0 = Some src) ->
               (forall e, tg = ToHolder i0 (TPointer e) -> src = DNull ->
                          i0 < List.length (holders (st m)) ->
                          holders (st m1) !! i0 = Some (Some (VPtr e None))) ->
               calls m1 = calls m ++ log ->
               (forall c raw, In (c, raw) log -> c = i0 /\ isSinkTarget tg = false) ->
               targets (st m') = targets (st m)
               /\ List.length (sinks (st m')) = List.length (sinks (st m))
               /\ List.length (holders (st m')) = List.length (holders (st m))
               /\ (forall j, j < i0 ->
                     sinks (st m') !! j = sinks (st m) !! j
                     /\ holders (st m') !! j = holders (st m) !! j)
               /\ (forall k src0,
                     (Some tg :: tgts) !! k = Some (Some (ToSink (i0 + k))) ->
                     (src :: row) !! k = Some src0 ->
                     i0 + k < List.length (sinks (st m)) ->
                     sinks (st m') !! (i0 + k) = Some src0)
               /\ (forall k e,
                     (Some tg :: tgts) !! k = Some (Some (ToHolder (i0 + k) (TPointer e))) ->
                     (src :: row) !! k = Some DNull ->
                     i0 + k < List.length (holders (st m)) ->
                     holders (st m') !! (i0 + k) = Some (Some (VPtr e None)))
               /\ exists new,
                   calls m' = calls m ++ new
                   /\ forall c raw, In (c, raw) new ->
                        exists k tg0, c = i0 + k /\ (Some tg :: tgts) !! k = Some (Some tg0)
                                      /\ isSinkTarget tg0 = false) as Step.
    { intros m1 log H1 Ht1 Hls Hlh Hlow Hsink Hhold Hc1 Hlog.
      destruct (IH (S i0) row m1 m' Hown' H1)
        as (Ht' & Hls' & Hlh' & Hlow' & Hsk' & Hhd' & new & Hc' & Hnew).
      split; [congruence|]. split; [congruence|]. split; [congruence|].
      split; [|split; [|split]].
      - intros j Hj. destruct (Hlow' j) as [-> ->]; [lia|]. now apply Hlow.
      - intros [|k] src0 Hk Hr Hlen.
        + cbn in Hk, Hr. injection Hk as ->. injection Hr as <-.
          rewrite Nat.add_0_r in *. destruct (Hlow' i0) as [-> _]; [lia|]. auto.
        + cbn in Hk, Hr. replace (i0 + S k) with (S i0 + k) in * by lia.
          apply Hsk'; auto. lia.
      - intros [|k] e Hk Hr Hlen.
        + cbn in Hk, Hr. injection Hk as ->. injection Hr as ->.
          rewrite Nat.add_0_r in *. destruct (Hlow' i0) as [_ ->]; [lia|]. auto.
        + cbn in Hk, Hr. replace (i0 + S k) with (S i0 + k) in * by lia.
          apply Hhd'; auto. lia.
      - exists (log ++ new). split; [rewrite Hc', Hc1; now rewrite app_assoc|].
        intros c raw Hin. apply in_app_iff in Hin as [Hin|Hin].
        + destruct (Hlog c raw Hin) as [-> Hs]. exists 0, tg.
          rewrite Nat.add_0_r. auto.
        + destruct (Hnew c raw Hin) as (k & tg0 & -> & Hk & Hs).
          exists (S k), tg0. split; [lia|]. auto. }
    destruct tg as [j|path ft|j ft]; cbn [ownTarget] in Hown0; subst.
    + eapply Step; [exact H|..]; cbn [st targets sinks holders calls dst]; auto.
      * apply length_insert.
      * intros j Hj. split; [|reflexivity]. apply list_lookup_insert_ne. lia.
      * intros _ Hlen. now apply list_lookup_insert_eq.
      * discriminate.
      * instantiate (1 := []). now rewrite app_nil_r.
      * intros ? ? [].
    + destruct (convertAssign _ _ i0 ft src) as [r log] eqn:E.
      destruct r as [err|x]; [discriminate|].
      destruct (setFieldByIndex (dst m) path x) as [d|]; [|discriminate].
      eapply Step; [exact H|..]; cbn [st targets sinks holders calls dst]; auto.
      * discriminate.
      * discriminate.
      * intros c raw Hin. split; [|reflexivity].
        eapply convertAssign_calls; eauto.
    + destruct (convertAssign _ _ i0 ft src) as [r log] eqn:E.
      destruct r as [err|x]; [discriminate|].
      eapply Step; [exact H|..]; cbn [st targets sinks holders calls dst]; auto.
      * apply length_insert.
      * intros j Hj. split; [reflexivity|]. apply list_lookup_insert_ne. lia.
      * discriminate.
      * intros e [= ->] -> Hlen. rewrite convertAssign_null_pointer in E.
        injection E as <- _. now apply list_lookup_insert_eq.
      * intros c raw Hin. split; [|reflexivity].
        eapply convertAssign_calls; eauto.
Qed.

Local Abbreviation pathOf := (planPath plan).

(** What the post-assignments of the holders do. *)
Lemma applyHolders_spec idxs : forall m m',
  applyHolders plan idxs m = Some m' ->
  st m' = st m /\ calls m' = calls m
  /\ (forall p f,
        (forall j, In j idxs -> disjointPaths (pathOf j) p = true) ->
        fieldAt (dst m) p = Some f -> fieldAt (dst m') p = Some f)
  /\ (forall i h,
        In i idxs -> mjoin (holders (st m) !! i) = Some h -> pathOf i <> [] ->
        (forall j, In j idxs -> j <> i -> disjointPaths (pathOf j) (pathOf i) = true) ->
        fieldAt (dst m') (pathOf i) = Some h).
Proof.
  induction idxs as [|a idxs IH]; intros m m' H.
  - simpl in H. injection H as <-. repeat split; auto. intros ? ? [].
  - cbn [applyHolders] in H.
    destruct (mjoin (holders (st m) !! a)) as [ha|] eqn:Ea; [|discriminate].
    destruct (setFieldByIndex (dst m) (default [] (fPath plan !! a)) ha) as [d|] eqn:Es;
      [|discriminate].
    destruct (IH _ _ H) as (Hst & Hc & Hframe & Hset).
    cbn [st calls dst holders] in *.
    split; [exact Hst|]. split; [exact Hc|]. split.
    + intros p f Hd Hf. apply Hframe; [intros j Hj; apply Hd; now right|].
      eapply updatePath_frame; [|exact Es|exact Hf]. apply Hd. now left.
    + intros i h Hin Hh Hne Hd.
      destruct (in_dec Nat.eq_dec i idxs) as [Hi|Hi].
      * apply Hset; auto. intros j Hj. apply Hd. now right.
      * destruct Hin as [->|Hin]; [|contradiction].
        rewrite Hh in Ea. injection Ea as <-.
        apply Hframe.
        -- intros j Hj. apply Hd; [now right|]. intros ->. contradiction.
        -- eapply setFieldByIndex_same; eauto.
Qed.

Lemma leafField_frame a d path d' ft p f :
  disjointPaths path p = true ->
  leafField a structT d path = Some (d', ft) ->
  fieldAt d p = Some f -> fieldAt d' p = Some f.
Proof.
  unfold leafField, fieldByIndexAlloc. intros Hd H Hf. destruct a.
  - destruct (updatePath d path _) as [d0|] eqn:E; [|discriminate].
    destruct (FieldByIndexType structT path); [|discriminate].
    injection H as <- _. eapply updatePath_frame; eauto.
  - destruct (fieldAt d path); [|discriminate]. cbn in H.
    destruct (FieldByIndexType structT path); [|discriminate].
    now injection H as <- _.
Qed.

(** What the post-processing of the pointer-to-Scanner columns does. *)
Lemma applyPtrScanners_spec idxs : forall m m',
  postScanners idxs m = Done m' ->
  st m' = st m
  /\ (forall p f,
        (forall j, In j idxs -> disjointPaths (pathOf j) p = true) ->
        fieldAt (dst m) p = Some f -> fieldAt (dst m') p = Some f)
  /\ (exists new,
        calls m' = calls m ++ new
        /\ forall c raw, In (c, raw) new ->
             In c idxs /\ sinks (st m) !! c = Some raw /\ isNull raw = false)
  /\ (forall i raw,
        In i idxs -> sinks (st m) !! i = Some raw -> pathOf i <> [] ->
        (forall j, In j idxs -> j <> i -> disjointPaths (pathOf j) (pathOf i) = true) ->
        exists e,
          FieldByIndexType structT (pathOf i) = Some (TPointer e)
          /\ fieldAt (dst m') (pathOf i)
             = Some (if isNull raw then VPtr e None
                     else VPtr e (scanMethod e raw))
          /\ (isNull raw = false -> is_Some (scanMethod e raw))).
Proof.
  induction idxs as [|a idxs IH]; intros m m' H.
  - simpl in H. injection H as <-. repeat split; auto.
    + exists []. split; [now rewrite app_nil_r|intros ? ? []].
    + intros ? ? [].
  - cbn [applyPtrScanners] in H.
    destruct (sinks (st m) !! a) as [raw|] eqn:Ea; [|discriminate].
    destruct (leafField _ _ _ _) as [[d ft]|] eqn:L; [|discriminate].
    destruct ft as [|e| | | | | |]; try discriminate.
    apply leafField_type in L as Hft.
    assert (forall d' (log : list (nat * driverValue)) (x : value),
               postScanners idxs (ScanMem d' (st m) (calls m ++ log)) = Done m' ->
               setFieldByIndex d (default [] (fPath plan !! a)) x = Some d' ->
               (forall c r0, In (c, r0) log -> c = a /\ r0 = raw /\ isNull raw = false) ->
               x = (if isNull raw then VPtr e None else VPtr e (scanMethod e raw)) ->
               (isNull raw = false -> is_Some (scanMethod e raw)) ->
               st m' = st m
               /\ (forall p f,
                     (forall j, In j (a :: idxs) -> disjointPaths (pathOf j) p = true) ->
                     fieldAt (dst m) p = Some f -> fieldAt (dst m') p = Some f)
               /\ (exists new,
                     calls m' = calls m ++ new
                     /\ forall c raw0, In (c, raw0) new ->
                          In c (a :: idxs) /\ sinks (st m) !! c = Some raw0
                          /\ isNull raw0 = false)
               /\ (forall i raw0,
                     In i (a :: idxs) -> sinks (st m) !! i = Some raw0 -> pathOf i <> [] ->
                     (forall j, In j (a :: idxs) -> j <> i ->
                                disjointPaths (pathOf j) (pathOf i) = true) ->
                     exists e0,
                       FieldByIndexType structT (pathOf i) = Some (TPointer e0)
                       /\ fieldAt (dst m') (pathOf i)
                          = Some (if isNull raw0 then VPtr e0 None
                                  else VPtr e0 (scanMethod e0 raw0))
                       /\ (isNull raw0 = false -> is_Some (scanMethod e0 raw0)))) as Step.
    { intros d' log x H1 Hs Hlog Hx Hsome.
      destruct (IH _ _ H1) as (Hst & Hframe & (new & Hc & Hnew) & Hleaf).
      cbn [st calls dst sinks] in *.
      split; [exact Hst|]. split; [|split].
      - intros p f Hd Hf. apply Hframe; [intros j Hj; apply Hd; now right|].
        eapply updatePath_frame; [|exact Hs|]; [apply Hd; now left|].
        eapply leafField_frame; [|exact L|exact Hf]. apply Hd. now left.
      - exists (log ++ new). split; [rewrite Hc; now rewrite app_assoc|].
        intros c r0 Hin. apply in_app_iff in Hin as [Hin|Hin].
        + destruct (Hlog _ _ Hin) as (-> & -> & Hn). split; [now left|]. auto.
        + destruct (Hnew _ _ Hin) as (? & ? & ?). split; [now right|]. auto.
      - intros i raw0 Hin Hraw Hne Hd.
        destruct (in_dec Nat.eq_dec i idxs) as [Hi|Hi].
        + apply Hleaf; auto. intros j Hj. apply Hd. now right.
        + destruct Hin as [->|Hin]; [|contradiction].
          rewrite Hraw in Ea. injection Ea as ->.
          exists e. split; [exact Hft|]. split; [|exact Hsome].
          rewrite <- Hx. apply Hframe.
          * intros j Hj. apply Hd; [now right|]. intros ->. contradiction.
          * eapply setFieldByIndex_same; eauto. }
    destruct (isNull raw) eqn:En.
    + destruct (setFieldByIndex d _ (zeroValue (TPointer e))) as [d'|] eqn:Es;
        [|discriminate].
      eapply (Step d' [] _); eauto;
        try (now rewrite app_nil_r); try (intros ? ? []); try discriminate.
    + destruct (negb (implementsScanner (TPointer e))); [discriminate|].
      destruct (scanMethod e raw) as [x|] eqn:Ex; [|discriminate].
      destruct (setFieldByIndex d _ (VPtr e (Some x))) as [d'|] eqn:Es;
        [|discriminate].
      eapply (Step d' [(a, raw)] _); eauto;
        try (intros c r0 [[= <- <-]|[]]; now auto); try (now rewrite Ex).
Qed.

(** A NULL scanned into the holder of an optional leaf leaves the leaf
    nil, whatever the buffers held before the row. *)
Lemma scanRow_null_optional row d s log m i e :
  sized (List.length (kinds plan)) s ->
  kinds plan !! i = Some ckPtr ->
  mjoin (ptrFieldTypes plan !! i) = Some (TPointer e) ->
  In i (ptrIdx plan) ->
  pathOf i <> [] ->
  (forall j, j <> i -> In j (ptrIdx plan) \/ isPtrScannerCol plan structT j = true ->
             disjointPaths (pathOf j) (pathOf i) = true) ->
  row !! i = Some DNull ->
  scanRow convertNonNull scanMethod plan structT alloc row d s log = Done m ->
  fieldAt (dst m) (pathOf i) = Some (VPtr e None)
  /\ sized (List.length (kinds plan)) (st m).
Proof.
  intros Hs Hk Hft Hin Hne Hd Hrow H. unfold scanRow in H.
  destruct (prepare 0 (kinds plan) (ScanMem d s log) [])
    as [[m1 acc]|] eqn:P; [|discriminate].
  destruct (prepareTargets_spec _ 0 [] (ScanMem d s log) _ _ _ _
                                eq_refl eq_refl Hs (le_n _) P)
    as ((Ht1 & Hsk1 & Hh1) & _ & _ & Htg & _ & Hhold & Hacc).
  assert (i < List.length (kinds plan)) as Hi by (apply lookup_lt_Some in Hk; exact Hk).
  unfold rowsScan in H. destruct (negb _); [discriminate|].
  destruct (assign 0 (targets (st m1)) row m1) as [m2| |] eqn:A; try discriminate.
  assert (forall k tg, targets (st m1) !! k = Some (Some tg) -> ownTarget (0 + k) tg)
    as Hown.
  { intros k tg Hktg. apply targetOf_own.
    destruct (Htg k) as (tg' & Htg' & Hl).
    - apply lookup_lt_Some in Hktg. rewrite Ht1 in Hktg. simpl. lia.
    - rewrite Hktg in Hl. now injection Hl as ->. }
  destruct (assignColumns_spec _ 0 _ _ _ Hown A)
    as (Ht2 & Hsk2 & Hh2 & _ & _ & Hnull & _).
  destruct (applyHolders plan (ptrIdx plan) m2) as [m3|] eqn:AH; [|discriminate].
  destruct (applyHolders_spec _ _ _ AH) as (Hst3 & _ & _ & Hset).
  destruct (applyPtrScanners_spec _ _ _ H) as (Hst4 & Hframe & _ & _).
  split.
  - apply Hframe.
    + intros j Hj. apply Hd.
      * intros ->. apply Hacc in Hj as [[]|[_ Hj]].
        unfold isPtrScannerCol in Hj. now rewrite Hk in Hj.
      * right. apply Hacc in Hj as [[]|[_ Hj]]. exact Hj.
    + apply Hset; auto.
      destruct (Htg i) as (tg & Htgi & Hl); [simpl; lia|].
      unfold targetOf in Htgi. rewrite Hk, Hft in Htgi. injection Htgi as <-.
      assert (holders (st m2) !! (0 + i) = Some (Some (VPtr e None))) as Hn.
      { apply Hnull; auto; simpl; lia. }
      simpl in Hn. now rewrite Hn.
  - rewrite Hst4, Hst3. unfold sized. rewrite Ht2, Hsk2, Hh2. auto.
Qed.

(** A column whose field is a pointer that implements [sql.Scanner]: the
    driver value is captured in the sink of the column; on NULL the field
    is left nil and [Scan] is not called for the column, otherwise the
    field points to a fresh value on which [Scan] was called with the
    driver value. *)
Lemma scanRow_pointer_scanner row d s log m i raw :
  sized (List.length (kinds plan)) s ->
  isPtrScannerCol plan structT i = true ->
  pathOf i <> [] ->
  (forall j, j <> i -> isPtrScannerCol plan structT j = true ->
             disjointPaths (pathOf j) (pathOf i) = true) ->
  row !! i = Some raw ->
  scanRow convertNonNull scanMethod plan structT alloc row d s log = Done m ->
  targetOf plan structT i = Some (ToSink i)
  /\ sinks (st m) !! i = Some raw
  /\ exists e,
      FieldByIndexType structT (pathOf i) = Some (TPointer e)
      /\ fieldAt (dst m) (pathOf i)
         = Some (if isNull raw then VPtr e None else VPtr e (scanMethod e raw))
      /\ (isNull raw = false -> is_Some (scanMethod e raw))
      /\ exists new,
          calls m = log ++ new
          /\ forall r0, In (i, r0) new -> r0 = raw /\ isNull raw = false.
Proof.
  intros Hs Hp Hne Hd Hrow H. unfold scanRow in H.
  destruct (prepare 0 (kinds plan) (ScanMem d s log) [])
    as [[m1 acc]|] eqn:P; [|discriminate].
  destruct (prepareTargets_spec _ 0 [] (ScanMem d s log) _ _ _ _
                                eq_refl eq_refl Hs (le_n _) P)
    as ((Ht1 & Hsk1 & Hh1) & _ & Hc1 & Htg & _ & _ & Hacc).
  assert (targetOf plan structT i = Some (ToSink i)) as Hti.
  { unfold targetOf. unfold isPtrScannerCol in Hp.
    destruct (kinds plan !! i) as [[]|]; try discriminate.
    destruct (FieldByIndexType _ _); [|discriminate]. cbn. now rewrite Hp. }
  assert (i < List.length (kinds plan)) as Hi.
  { unfold isPtrScannerCol in Hp. destruct (kinds plan !! i) eqn:E; [|discriminate].
    apply lookup_lt_Some in E. exact E. }
  unfold rowsScan in H. destruct (negb _); [discriminate|].
  destruct (assign 0 (targets (st m1)) row m1) as [m2| |] eqn:A; try discriminate.
  assert (forall k tg, targets (st m1) !! k = Some (Some tg) -> ownTarget (0 + k) tg)
    as Hown.
  { intros k tg Hktg. apply targetOf_own.
    destruct (Htg k) as (tg' & Htg' & Hl).
    - apply lookup_lt_Some in Hktg. rewrite Ht1 in Hktg. simpl. lia.
    - rewrite Hktg in Hl. now injection Hl as ->. }
  destruct (assignColumns_spec _ 0 _ _ _ Hown A)
    as (Ht2 & Hsk2 & Hh2 & _ & Hsink & _ & new1 & Hc2 & Hnew1).
  destruct (applyHolders plan (ptrIdx plan) m2) as [m3|] eqn:AH; [|discriminate].
  destruct (applyHolders_spec _ _ _ AH) as (Hst3 & Hc3 & _ & _).
  destruct (applyPtrScanners_spec _ _ _ H) as (Hst4 & _ & (new2 & Hc4 & Hnew2) & Hleaf).
  assert (sinks (st m2) !! i = Some raw) as Hraw.
  { apply (Hsink i raw); auto; [|simpl; lia].
    destruct (Htg i) as (tg & Htgi & Hl); [simpl; lia|]. simpl. congruence. }
  split; [exact Hti|]. split; [now rewrite Hst4, Hst3|].
  destruct (Hleaf i raw) as (e & Hft & Hf & Hsome).
  { apply Hacc. right. split; [simpl; lia|exact Hp]. }
  { now rewrite Hst3. }
  { exact Hne. }
  { intros j Hj Hji. apply Hd; [exact Hji|].
    apply Hacc in Hj as [[]|[_ Hj]]. exact Hj. }
  exists e. split; [exact Hft|]. split; [exact Hf|]. split; [exact Hsome|].
  exists (new1 ++ new2). split.
  { rewrite Hc4, Hc3, Hc2, Hc1. cbn [calls]. now rewrite app_assoc. }
  intros r0 Hin. apply in_app_iff in Hin as [Hin|Hin].
  - destruct (Hnew1 _ _ Hin) as (k & tg & Hk & Hktg & Hsk). simpl in Hk. subst k.
    destruct (Htg i) as (tg' & Htgi & Hl); [simpl; lia|].
    rewrite Hktg in Hl. injection Hl as ->. rewrite Hti in Htgi.
    injection Htgi as <-. discriminate.
  - destruct (Hnew2 _ _ Hin) as (_ & Hs0 & Hn). rewrite Hst3, Hraw in Hs0.
    injection Hs0 as <-. auto.
Qed.

Lemma scanRow_sized row d s log m :
  sized (List.length (kinds plan)) s ->
  scanRow convertNonNull scanMethod plan structT alloc row d s log = Done m ->
  sized (List.length (kinds plan)) (st m).
Proof.
  intros Hs H. unfold scanRow in H.
  destruct (prepare 0 (kinds plan) (ScanMem d s log) [])
    as [[m1 acc]|] eqn:P; [|discriminate].
  destruct (prepareTargets_spec _ 0 [] (ScanMem d s log) _ _ _ _
                                eq_refl eq_refl Hs (le_n _) P)
    as ((Ht1 & Hsk1 & Hh1) & _ & _ & Htg & _ & _ & _).
  unfold rowsScan in H. destruct (negb _); [discriminate|].
  destruct (assign 0 (targets (st m1)) row m1) as [m2| |] eqn:A; try discriminate.
  assert (forall k tg, targets (st m1) !! k = Some (Some tg) -> ownTarget (0 + k) tg)
    as Hown.
  { intros k tg Hktg. apply targetOf_own.
    destruct (Htg k) as (tg' & Htg' & Hl).
    - apply lookup_lt_Some in Hktg. rewrite Ht1 in Hktg. simpl. lia.
    - rewrite Hktg in Hl. now injection Hl as ->. }
  destruct (assignColumns_spec _ 0 _ _ _ Hown A) as (Ht2 & Hsk2 & Hh2 & _).
  destruct (applyHolders plan (ptrIdx plan) m2) as [m3|] eqn:AH; [|discriminate].
  destruct (applyHolders_spec _ _ _ AH) as (Hst3 & _).
  destruct (applyPtrScanners_spec _ _ _ H) as (Hst4 & _).
  rewrite Hst4, Hst3. unfold sized. rewrite Ht2, Hsk2, Hh2. auto.
Qed.

(** *** Rows that scan

    A row scans when every driver value can be stored, the mapped
    columns are scanned into fields that part from one another, and the
    destination has these fields. *)

Local Abbreviation ready := (destReady alloc plan).
Local Abbreviation scans := (columnScans convertNonNull scanMethod plan structT).

Lemma mapped_kind j k :
  kinds plan !! j = Some k -> k <> ckSink -> mappedColumn plan j = true.
Proof. unfold mappedColumn. intros ->. now destruct k. Qed.

Lemma kind_pointer ft : Kind_eqb (kindOfType ft) Pointer = true -> exists e, ft = TPointer e.
Proof. destruct ft as [[]| | | | | | |]; try discriminate. eauto. Qed.

Lemma holders_insert (hs : list (option value)) j x j' :
  is_Some (mjoin (hs !! j')) -> is_Some (mjoin (<[j := Some x]> hs !! j')).
Proof.
  intros H. destruct (Nat.eq_dec j' j) as [->|Hn].
  - rewrite list_lookup_insert_eq; [cbn; eauto|].
    destruct (hs !! j) eqn:E; [|destruct H; discriminate].
    apply lookup_lt_Some in E. exact E.
  - now rewrite list_lookup_insert_ne by congruence.
Qed.

Lemma destReady_update d d' k f :
  mappedDisjoint plan -> mappedColumn plan k = true ->
  updatePath d (pathOf k) f = Some d' -> ready d -> ready d'.
Proof.
  intros Hdis Hk Hu Hr j Hj. destruct (Hr j Hj) as (Hne & Hreach & Hfa).
  split; [exact Hne|]. unfold fieldByIndexAlloc in *.
  destruct (Nat.eq_dec j k) as [->|Hn].
  - split; [eapply updatePath_again; eauto|].
    intros _. eapply updatePath_fieldAt; eauto.
  - pose proof (Hdis k j ltac:(congruence) Hk Hj) as D. split.
    + eapply updatePath_frame_def; eauto.
    + intros Ha. destruct (Hfa Ha) as [x Hx]. exists x.
      eapply updatePath_frame; eauto.
Qed.

Lemma setField_ok d k x :
  mappedDisjoint plan -> mappedColumn plan k = true -> ready d ->
  exists d', setFieldByIndex d (default [] (fPath plan !! k)) x = Some d' /\ ready d'.
Proof.
  intros Hdis Hk Hr. destruct (Hr k Hk) as (_ & Hreach & _).
  destruct (updatePath_shape _ _ _ (fun _ => x) Hreach) as [d' Hd'].
  exists d'. split; [exact Hd'|]. eapply destReady_update; eauto.
Qed.

Lemma leafField_ok d k ft :
  mappedDisjoint plan -> mappedColumn plan k = true -> ready d ->
  FieldByIndexType structT (pathOf k) = Some ft ->
  exists d',
    leafField (alloc (default [] (fPath plan !! k))) structT d
              (default [] (fPath plan !! k)) = Some (d', ft)
    /\ ready d'.
Proof.
  intros Hdis Hk Hr Hft. destruct (Hr k Hk) as (Hne & [d1 Hreach] & Hfa).
  unfold leafField. unfold planPath in *. rewrite Hft.
  destruct (alloc (default [] (fPath plan !! k))) eqn:Ea.
  - rewrite Hreach. exists d1. split; [reflexivity|].
    eapply destReady_update; eauto.
  - destruct (Hfa eq_refl) as [x Hx]. rewrite Hx. cbn. exists d. auto.
Qed.

Lemma prepare_ok ks : forall i0 pre m acc,
  kinds plan = pre ++ ks -> List.length pre = i0 ->
  mappedDisjoint plan ->
  ready (dst m) ->
  (forall j, i0 <= j -> kinds plan !! j = Some ckPtr ->
             is_Some (mjoin (holders (st m) !! j))
             /\ is_Some (mjoin (ptrFieldTypes plan !! j))) ->
  (forall j, kinds plan !! j = Some ckValue \/ kinds plan !! j = Some ckScanner ->
             is_Some (FieldByIndexType structT (pathOf j))) ->
  exists m' acc', prepare i0 ks m acc = Some (m', acc') /\ ready (dst m').
Proof.
  induction ks as [|kind ks IH]; intros i0 pre m acc Hk Hpre Hdis Hr Hh Hft.
  - simpl. eauto.
  - assert (kinds plan !! i0 = Some kind) as Hkind.
    { rewrite Hk, lookup_app_r by lia. now replace (i0 - List.length pre) with 0 by lia. }
    assert (forall d hs tg acc',
               ready d ->
               (forall j, S i0 <= j -> kinds plan !! j = Some ckPtr ->
                          is_Some (mjoin (hs !! j))
                          /\ is_Some (mjoin (ptrFieldTypes plan !! j))) ->
               exists m' acc'',
                 prepare (S i0) ks
                   (ScanMem d (ScanState (<[i0 := Some tg]> (targets (st m)))
                                         (sinks (st m)) hs) (calls m)) acc'
                 = Some (m', acc'') /\ ready (dst m')) as Continue.
    { intros d hs tg acc' Hd Hhs. apply (IH (S i0) (pre ++ [kind])); auto.
      - now rewrite <- app_assoc.
      - rewrite length_app. simpl. lia. }
    assert (forall j, S i0 <= j -> kinds plan !! j = Some ckPtr ->
                      is_Some (mjoin (holders (st m) !! j))
                      /\ is_Some (mjoin (ptrFieldTypes plan !! j))) as Hh'
        by (intros j Hj Hp; apply Hh; [lia|exact Hp]).
    cbn [prepareTargets]. destruct kind.
    + now apply Continue.
    + destruct (Hft i0 (or_intror Hkind)) as [ft Hft0].
      destruct (leafField_ok (dst m) i0 ft Hdis
                             (mapped_kind _ _ Hkind ltac:(discriminate)) Hr Hft0)
        as (d' & -> & Hd').
      destruct (_ && _); now apply Continue.
    + destruct (Hh i0 (le_n _) Hkind) as [[h Hh0] [ft Hft0]]. rewrite Hh0, Hft0.
      apply Continue; [exact Hr|]. intros j Hj Hp.
      rewrite list_lookup_insert_ne by lia. now apply Hh'.
    + destruct (Hft i0 (or_introl Hkind)) as [ft Hft0].
      destruct (leafField_ok (dst m) i0 ft Hdis
                             (mapped_kind _ _ Hkind ltac:(discriminate)) Hr Hft0)
        as (d' & -> & Hd').
      now apply Continue.
Qed.

Lemma assign_ok frow tgts : forall i0 row m,
  List.length tgts = List.length row ->
  mappedDisjoint plan -> ready (dst m) ->
  (forall k, row !! k = frow !! (i0 + k)) ->
  (forall k otg, tgts !! k = Some otg ->
                 otg = targetOf plan structT (i0 + k) /\ is_Some otg) ->
  (forall j, scans frow j) ->
  exists m',
    assign i0 tgts row m = Done m' /\ ready (dst m')
    /\ (forall j, is_Some (mjoin (holders (st m) !! j)) ->
                  is_Some (mjoin (holders (st m') !! j))).
Proof.
  induction tgts as [|otg tgts IH]; intros i0 row m Hlen Hdis Hr Hrow Htg Hsc.
  - destruct row; [|discriminate]. simpl. eauto.
  - destruct row as [|src row]; [discriminate|].
    destruct (Htg 0 otg eq_refl) as [Ho [tg Htg0]]. rewrite Nat.add_0_r in Ho.
    subst otg. rewrite Htg0.
    assert (frow !! i0 = Some src) as Hsrc.
    { rewrite <- (Nat.add_0_r i0), <- (Hrow 0). reflexivity. }
    assert (forall m1,
               ready (dst m1) ->
               (forall j, is_Some (mjoin (holders (st m) !! j)) ->
                          is_Some (mjoin (holders (st m1) !! j))) ->
               exists m',
                 assign (S i0) tgts row m1 = Done m' /\ ready (dst m')
                 /\ (forall j, is_Some (mjoin (holders (st m) !! j)) ->
                               is_Some (mjoin (holders (st m') !! j)))) as Continue.
    { intros m1 Hr1 Hh1.
      destruct (IH (S i0) row m1) as (m' & E & R & Hh'); auto.
      - intros k. replace (S i0 + k) with (i0 + S k) by lia.
        now rewrite <- (Hrow (S k)).
      - intros k otg Hk. destruct (Htg (S k) otg Hk) as [E S'].
        split; [|exact S']. rewrite E. f_equal. lia.
      - exists m'. split; [exact E|]. split; [exact R|]. auto. }
    unfold targetOf in Htg0. pose proof (Hsc i0) as Hs0. unfold columnScans in Hs0.
    destruct (kinds plan !! i0) as [[]|] eqn:Hkind; try discriminate.
    + injection Htg0 as <-. cbn [assignColumns]. apply Continue; cbn; auto.
    + destruct Hs0 as (ft & src' & Hft & Hsrc' & Hconv).
      rewrite Hsrc in Hsrc'. injection Hsrc' as <-.
      unfold planPath in Hft. rewrite Hft in Htg0.
      cbn [fmap option_fmap option_map] in Htg0. injection Htg0 as <-.
      destruct (_ && _).
      * cbn [assignColumns]. apply Continue; cbn; auto.
      * destruct Hconv as (x & l & Hc). cbn [assignColumns]. rewrite Hc.
        destruct (setField_ok (dst m) i0 x Hdis
                              (mapped_kind _ _ Hkind ltac:(discriminate)) Hr)
          as (d' & -> & Hd').
        apply Continue; cbn; auto.
    + destruct Hs0 as (ft & src' & x & l & Hft & Hsrc' & Hc).
      rewrite Hsrc in Hsrc'. injection Hsrc' as <-.
      rewrite Hft in Htg0. cbn [fmap option_fmap option_map] in Htg0.
      injection Htg0 as <-. cbn [assignColumns]. rewrite Hc.
      apply Continue; cbn [dst st holders]; auto.
      intros j. apply holders_insert.
    + destruct Hs0 as (ft & src' & x & l & Hft & Hsrc' & Hc).
      rewrite Hsrc in Hsrc'. injection Hsrc' as <-.
      unfold planPath in Hft. rewrite Hft in Htg0.
      cbn [fmap option_fmap option_map] in Htg0. injection Htg0 as <-.
      cbn [assignColumns]. rewrite Hc.
      destruct (setField_ok (dst m) i0 x Hdis
                            (mapped_kind _ _ Hkind ltac:(discriminate)) Hr)
        as (d' & -> & Hd').
      apply Continue; cbn; auto.
Qed.

Lemma applyHolders_ok idxs : forall m,
  (forall j, In j idxs ->
             kinds plan !! j = Some ckPtr
             /\ is_Some (mjoin (holders (st m) !! j))) ->
  mappedDisjoint plan -> ready (dst m) ->
  exists m', applyHolders plan idxs m = Some m' /\ ready (dst m').
Proof.
  induction idxs as [|a idxs IH]; intros m H Hdis Hr; [simpl; eauto|].
  destruct (H a (or_introl eq_refl)) as [Hk [h Hh]].
  cbn [applyHolders]. rewrite Hh.
  destruct (setField_ok (dst m) a h Hdis (mapped_kind _ _ Hk ltac:(discriminate)) Hr)
    as (d' & -> & Hd').
  apply IH; cbn [st dst]; auto. intros j Hj. apply H. now right.
Qed.

Lemma applyPtrScanners_ok idxs : forall m,
  (forall j, In j idxs ->
             isPtrScannerCol plan structT j = true
             /\ exists raw,
                 sinks (st m) !! j = Some raw
                 /\ (isNull raw = false ->
                     forall e, FieldByIndexType structT (pathOf j) = Some (TPointer e) ->
                               is_Some (scanMethod e raw))) ->
  mappedDisjoint plan -> ready (dst m) ->
  exists m', postScanners idxs m = Done m' /\ ready (dst m').
Proof.
  induction idxs as [|a idxs IH]; intros m H Hdis Hr; [simpl; eauto|].
  destruct (H a (or_introl eq_refl)) as (Hp & raw & Hraw & Hscan).
  assert (forall d', ready d' -> forall log,
             exists m', postScanners idxs (ScanMem d' (st m) log) = Done m'
                        /\ ready (dst m')) as Continue.
  { intros d' Hd' log. apply IH; cbn [st dst]; auto. intros j Hj. apply H. now right. }
  unfold isPtrScannerCol in Hp.
  destruct (kinds plan !! a) as [[]|] eqn:Hk; try discriminate.
  destruct (FieldByIndexType structT (default [] (fPath plan !! a))) as [ft|] eqn:Hft;
    [|discriminate].
  apply andb_prop in Hp as [Hkind Himp].
  destruct (kind_pointer _ Hkind) as [e ->].
  assert (mappedColumn plan a = true) as Hm
      by (apply (mapped_kind _ _ Hk); discriminate).
  cbn [applyPtrScanners]. rewrite Hraw.
  destruct (leafField_ok (dst m) a (TPointer e) Hdis Hm Hr Hft) as (d1 & -> & Hd1).
  destruct (isNull raw) eqn:En.
  - destruct (setField_ok d1 a (zeroValue (TPointer e)) Hdis Hm Hd1) as (d2 & -> & Hd2).
    now apply Continue.
  - rewrite Himp. cbn [negb]. destruct (Hscan eq_refl e Hft) as [x ->].
    destruct (setField_ok d1 a (VPtr e (Some x)) Hdis Hm Hd1) as (d2 & -> & Hd2).
    now apply Continue.
Qed.

(** The post-processing calls [Scan] for every pointer-to-Scanner
    column whose driver value is not NULL. *)
Lemma applyPtrScanners_called idxs : forall m m' c raw,
  postScanners idxs m = Done m' ->
  (In c idxs /\ sinks (st m) !! c = Some raw /\ isNull raw = false
   \/ In (c, raw) (calls m)) ->
  In (c, raw) (calls m').
Proof.
  induction idxs as [|a idxs IH]; intros m m' c raw H Hc.
  - simpl in H. injection H as <-. destruct Hc as [[[] _]|Hc]. exact Hc.
  - cbn [applyPtrScanners] in H.
    destruct (sinks (st m) !! a) as [raw0|] eqn:Ea; [|discriminate].
    destruct (leafField _ _ _ _) as [[d ft]|]; [|discriminate].
    destruct ft as [|e| | | | | |]; try discriminate.
    destruct (isNull raw0) eqn:En.
    + destruct (setFieldByIndex _ _ _) as [d'|]; [|discriminate].
      apply (IH _ _ c raw H). cbn [st calls].
      destruct Hc as [([->|Hin] & Hs & Hn)|Hc]; auto.
      rewrite Hs in Ea. injection Ea as ->. congruence.
    + destruct (negb _); [discriminate|].
      destruct (scanMethod e raw0); [|discriminate].
      destruct (setFieldByIndex _ _ _) as [d'|]; [|discriminate].
      apply (IH _ _ c raw H). cbn [st calls].
      destruct Hc as [([->|Hin] & Hs & Hn)|Hc]; auto.
      * rewrite Hs in Ea. injection Ea as ->. right. apply in_app_iff. right. now left.
      * right. apply in_app_iff. now left.
Qed.

(** A row scans when its driver values can be stored. *)
Lemma scanRow_ok row d s log :
  sized (List.length (kinds plan)) s ->
  List.length row = List.length (kinds plan) ->
  mappedDisjoint plan ->
  ready d ->
  (forall j, In j (ptrIdx plan) -> kinds plan !! j = Some ckPtr) ->
  (forall j, kinds plan !! j = Some ckPtr -> is_Some (mjoin (holders s !! j))) ->
  (forall j, scans row j) ->
  exists m,
    scanRow convertNonNull scanMethod plan structT alloc row d s log = Done m
    /\ (forall j, kinds plan !! j = Some ckPtr ->
                  is_Some (mjoin (holders (st m) !! j)))
    /\ (forall j raw, isPtrScannerCol plan structT j = true ->
                      row !! j = Some raw -> isNull raw = false ->
                      In (j, raw) (calls m)).
Proof.
  intros Hs Hrow Hdis Hr Hptr Hh Hsc.
  destruct (prepare_ok (kinds plan) 0 [] (ScanMem d s log) [] eq_refl eq_refl Hdis Hr)
    as (m1 & acc & P & Hr1).
  { intros j _ Hk. split; [now apply Hh|].
    pose proof (Hsc j) as S. unfold columnScans in S. rewrite Hk in S.
    destruct S as (ft & _ & _ & _ & -> & _). eauto. }
  { intros j Hk. pose proof (Hsc j) as S. unfold columnScans in S.
    destruct Hk as [Hk|Hk]; rewrite Hk in S.
    - destruct S as (ft & _ & _ & _ & -> & _). eauto.
    - destruct S as (ft & _ & -> & _). eauto. }
  destruct (prepareTargets_spec _ 0 [] (ScanMem d s log) _ _ _ _
                                eq_refl eq_refl Hs (le_n _) P)
    as ((Ht1 & Hsk1 & Hh1) & _ & _ & Htg & _ & Hhold & Hacc).
  assert (forall j, j < List.length (kinds plan) ->
                    exists tg, targetOf plan structT j = Some tg
                               /\ targets (st m1) !! j = Some (Some tg)) as Htg'.
  { intros j Hj. apply Htg. simpl. lia. }
  destruct (assign_ok row (targets (st m1)) 0 row m1) as (m2 & A & Hr2 & Hh2); auto.
  { congruence. }
  { intros k otg Hk. apply lookup_lt_Some in Hk as Hlt. rewrite Ht1 in Hlt.
    destruct (Htg' k Hlt) as (tg & Ht & Hl). rewrite Hl in Hk. injection Hk as <-.
    split; [change (0 + k) with k; now rewrite Ht|eauto]. }
  assert (forall k tg, targets (st m1) !! k = Some (Some tg) -> ownTarget (0 + k) tg)
    as Hown.
  { intros k tg Hktg. apply targetOf_own.
    destruct (Htg' k) as (tg' & Htg'' & Hl).
    - apply lookup_lt_Some in Hktg. lia.
    - rewrite Hktg in Hl. now injection Hl as ->. }
  destruct (assignColumns_spec _ 0 _ _ _ Hown A)
    as (_ & Hsk2 & _ & _ & Hsink & _).
  destruct (applyHolders_ok (ptrIdx plan) m2) as (m3 & AH & Hr3); auto.
  { intros j Hj. split; [now apply Hptr|]. apply Hh2.
    assert (j < List.length (kinds plan)) as Hlt.
    { apply Hptr in Hj. apply lookup_lt_Some in Hj. exact Hj. }
    destruct (Hhold j) as (ft & _ & ->); [simpl; lia|now apply Hptr|]. cbn. eauto. }
  destruct (applyHolders_spec _ _ _ AH) as (Hst3 & _).
  destruct (applyPtrScanners_ok acc m3) as (m4 & PS & _); auto.
  { intros j Hj. apply Hacc in Hj as [[]|[Hlt Hp]]. split; [exact Hp|].
    simpl in Hlt.
    destruct (lookup_lt_is_Some_2 row j ltac:(lia)) as [raw Hraw].
    exists raw. split.
    - rewrite Hst3. apply (Hsink j raw); [|exact Hraw|lia].
      destruct (Htg' j ltac:(lia)) as (tg & Ht & ->). do 2 f_equal.
      unfold targetOf in Ht. unfold isPtrScannerCol in Hp.
      destruct (kinds plan !! j) as [[]|]; try discriminate.
      destruct (FieldByIndexType _ _); [|discriminate].
      cbn [fmap option_fmap option_map] in Ht. rewrite Hp in Ht. now injection Ht as <-.
    - intros Hn e He. pose proof (Hsc j) as S. unfold columnScans in S.
      unfold isPtrScannerCol in Hp.
      destruct (kinds plan !! j) as [[]|]; try discriminate.
      destruct S as (ft & src & Hft & Hsrc & Hc). unfold planPath in *.
      rewrite Hft in Hp, He. injection He as ->. rewrite Hp in Hc.
      rewrite Hraw in Hsrc. injection Hsrc as <-. now apply Hc. }
  exists m4. split; [|split].
  - unfold scanRow. rewrite P. unfold rowsScan.
    rewrite Ht1, Hrow, Nat.eqb_refl. cbn [negb]. rewrite A, AH. exact PS.
  - intros j Hk.
    destruct (applyPtrScanners_spec _ _ _ PS) as (-> & _). rewrite Hst3.
    apply Hh2. assert (j < List.length (kinds plan)) as Hlt
        by (apply lookup_lt_Some in Hk; exact Hk).
    destruct (Hhold j) as (ft & _ & ->); [simpl; lia|exact Hk|]. cbn. eauto.
  - intros j raw Hp Hraw Hn.
    apply (applyPtrScanners_called acc m3 m4 j raw PS). left.
    assert (j < List.length (kinds plan)) as Hlt.
    { apply lookup_lt_Some in Hraw. lia. }
    split; [apply Hacc; right; split; [simpl; lia|exact Hp]|]. split; [|exact Hn].
    rewrite Hst3. apply (Hsink j raw); [|exact Hraw|lia].
    destruct (Htg' j Hlt) as (tg & Ht & ->). do 2 f_equal.
    unfold targetOf in Ht. unfold isPtrScannerCol in Hp.
    destruct (kinds plan !! j) as [[]|]; try discriminate.
    destruct (FieldByIndexType _ _); [|discriminate].
    cbn [fmap option_fmap option_map] in Ht. rewrite Hp in Ht. now injection Ht as <-.
Qed.

End MapperProperties.

(** ** Scan plans *)

Lemma buildColumns_entries dstT fm cols : forall i0 p p',
  buildColumns dstT fm i0 cols p = Done p' ->
  exists ens,
    Forall2 (fun col en => colEntry dstT fm col = Some en) cols ens
    /\ kinds p' = kinds p ++ List.map (fun en => fst (fst en)) ens
    /\ fPath p' = fPath p ++ List.map (fun en => snd (fst en)) ens
    /\ ptrFieldTypes p' = ptrFieldTypes p ++ List.map snd ens
    /\ ptrIdx p' = ptrIdx p ++ ptrsOf i0 ens.
Proof.
  induction cols as [|col cols IH]; intros i0 p p' H.
  - simpl in H. injection H as <-. exists []. simpl.
    rewrite !app_nil_r. auto.
  - cbn [buildColumns] in H.
    assert (forall en p1,
               colEntry dstT fm col = Some en ->
               buildColumns dstT fm (S i0) cols p1 = Done p' ->
               kinds p1 = kinds p ++ [fst (fst en)] ->
               fPath p1 = fPath p ++ [snd (fst en)] ->
               ptrFieldTypes p1 = ptrFieldTypes p ++ [snd en] ->
               ptrIdx p1 = ptrIdx p ++ (if isPtrKind (fst (fst en)) then [i0] else []) ->
               exists ens,
                 Forall2 (fun col en => colEntry dstT fm col = Some en) (col :: cols) ens
                 /\ kinds p' = kinds p ++ List.map (fun en => fst (fst en)) ens
                 /\ fPath p' = fPath p ++ List.map (fun en => snd (fst en)) ens
                 /\ ptrFieldTypes p' = ptrFieldTypes p ++ List.map snd ens
                 /\ ptrIdx p' = ptrIdx p ++ ptrsOf i0 ens) as Step.
    { intros en p1 Hen H1 Hk Hf Ht Hi.
      destruct (IH _ _ _ H1) as (ens & HF & Hk' & Hf' & Ht' & Hi').
      exists (en :: ens). split; [now constructor|].
      cbn [List.map ptrsOf]. rewrite Hk', Hf', Ht', Hi', Hk, Hf, Ht, Hi.
      now rewrite <- !app_assoc. }
    unfold colEntry in Step.
    destruct (fm !! col) as [fi|].
    + destruct (ambiguous fi); [discriminate|].
      destruct (FieldByIndexType dstT (index fi)) as [ft|]; [|discriminate].
      destruct (isScannerField ft).
      * eapply Step; [reflexivity|exact H|..]; cbn; auto. now rewrite app_nil_r.
      * destruct (Kind_eqb (kindOfType ft) Pointer).
        -- eapply Step; [reflexivity|exact H|..]; cbn; auto.
        -- eapply Step; [reflexivity|exact H|..]; cbn; auto. now rewrite app_nil_r.
    + eapply Step; [reflexivity|exact H|..]; cbn; auto. now rewrite app_nil_r.
Qed.

Lemma ptrsOf_In ens : forall i0 j,
  In j (ptrsOf i0 ens) <->
  exists k en, j = i0 + k /\ ens !! k = Some en /\ isPtrKind (fst (fst en)) = true.
Proof.
  induction ens as [|en ens IH]; intros i0 j; cbn [ptrsOf].
  - split; [intros []|intros (k & en & _ & H & _); destruct k; discriminate].
  - rewrite in_app_iff, IH. split.
    + intros [H|(k & en' & -> & Hk & Hp)].
      * destruct (isPtrKind (fst (fst en))) eqn:E; [|destruct H].
        destruct H as [<-|[]]. exists 0, en. rewrite Nat.add_0_r. auto.
      * exists (S k), en'. split; [lia|]. auto.
    + intros ([|k] & en' & -> & Hk & Hp).
      * cbn in Hk. injection Hk as <-. rewrite Hp. left. left. lia.
      * right. exists k, en'. split; [lia|]. auto.
Qed.

(** The plan built for the columns [cols]: one entry per column, and
    the holders are those of the optional leaves. *)
Lemma buildScanPlan_columns cols t plan :
  buildScanPlan cols t = Done plan ->
  List.length (kinds plan) = List.length cols
  /\ (forall i col,
        cols !! i = Some col ->
        exists en,
          colEntry (derefType t) (fieldIndexMap (derefType t)) col = Some en
          /\ kinds plan !! i = Some (fst (fst en))
          /\ fPath plan !! i = Some (snd (fst en))
          /\ ptrFieldTypes plan !! i = Some (snd en)
          /\ (isPtrKind (fst (fst en)) = true -> In i (ptrIdx plan)))
  /\ (forall j, In j (ptrIdx plan) -> kinds plan !! j = Some ckPtr).
Proof.
  unfold buildScanPlan. intros H.
  destruct (buildColumns_entries _ _ _ _ _ _ H) as (ens & HF & Hk & Hf & Ht & Hi).
  cbn [kinds fPath ptrFieldTypes ptrIdx app] in *.
  split; [|split].
  - rewrite Hk, length_map. symmetry. eapply Forall2_length; eauto.
  - intros i col Hc.
    destruct (Forall2_lookup_l _ _ _ _ _ HF Hc) as (en & Hen & Hcol).
    exists en. split; [exact Hcol|].
    rewrite Hk, Hf, Ht, Hi, !list_lookup_fmap, Hen. cbn.
    repeat split; auto. intros Hp. apply ptrsOf_In.
    exists i, en. auto.
  - intros j Hj. rewrite Hi in Hj. apply ptrsOf_In in Hj as (k & en & -> & Hen & Hp).
    cbn [Nat.add]. rewrite Hk, list_lookup_fmap, Hen. cbn.
    destruct (fst (fst en)); try discriminate. reflexivity.
Qed.

Lemma newState_sized plan : sized (List.length (kinds plan)) (newState plan).
Proof.
  unfold sized, newState. cbn [targets sinks holders].
  now rewrite !repeat_length, length_map, length_seq.
Qed.

Lemma fieldAt_struct v p f :
  p <> [] -> fieldAt v p = Some f -> exists t fs, v = VStruct t fs.
Proof.
  destruct p; [congruence|]. intros _. destruct v; try discriminate. eauto.
Qed.

Lemma derefType_struct t : kindOfType t = Struct -> derefType t = t.
Proof. destruct t; try discriminate; reflexivity. Qed.

Section ScanProperties.

Variable convertNonNull : rtype -> driverValue -> option value.
Variable scanMethod : rtype -> driverValue -> option value.

(** The plan entry of a column that maps to an optional leaf. *)
Lemma plan_optional_leaf cols structT plan i col fi e :
  kindOfType structT = Struct ->
  getScanPlan cols structT = Done plan ->
  cols !! i = Some col ->
  fieldIndexMap structT !! col = Some fi -> ambiguous fi = false ->
  FieldByIndexType structT (index fi) = Some (TPointer e) ->
  isScannerField (TPointer e) = false ->
  List.length (kinds plan) = List.length cols
  /\ kinds plan !! i = Some ckPtr
  /\ planPath plan i = index fi
  /\ mjoin (ptrFieldTypes plan !! i) = Some (TPointer e)
  /\ In i (ptrIdx plan)
  /\ (forall j, In j (ptrIdx plan) -> kinds plan !! j = Some ckPtr).
Proof.
  intros Hk Hp Hc Hfi Ha Hft Hs. unfold getScanPlan in Hp.
  destruct (buildScanPlan_columns _ _ _ Hp) as (Hlen & Hcol & Hptr).
  destruct (Hcol i col Hc) as (en & Hen & Hkind & Hpath & Hpt & Hin).
  rewrite !derefType_idem, !(derefType_struct _ Hk) in Hen.
  unfold colEntry in Hen. rewrite Hfi, Ha, Hft, Hs in Hen. cbn in Hen.
  injection Hen as <-. cbn in *.
  unfold planPath. rewrite Hpath, Hpt. cbn. auto 10.
Qed.

(** The plan entry of a column that maps to a pointer leaf with the
    conversion capability. *)
Lemma plan_pointer_scanner cols structT plan i col fi e :
  kindOfType structT = Struct ->
  getScanPlan cols structT = Done plan ->
  cols !! i = Some col ->
  fieldIndexMap structT !! col = Some fi -> ambiguous fi = false ->
  FieldByIndexType structT (index fi) = Some (TPointer e) ->
  implementsScanner (TPointer e) = true ->
  List.length (kinds plan) = List.length cols
  /\ kinds plan !! i = Some ckScanner
  /\ planPath plan i = index fi
  /\ isPtrScannerCol plan structT i = true.
Proof.
  intros Hk Hp Hc Hfi Ha Hft Hs. unfold getScanPlan in Hp.
  destruct (buildScanPlan_columns _ _ _ Hp) as (Hlen & Hcol & Hptr).
  destruct (Hcol i col Hc) as (en & Hen & Hkind & Hpath & Hpt & Hin).
  rewrite !derefType_idem, !(derefType_struct _ Hk) in Hen.
  unfold colEntry in Hen. rewrite Hfi, Ha, Hft in Hen.
  unfold isScannerField in Hen. rewrite Hs, orb_true_r in Hen.
  injection Hen as <-. cbn in *.
  unfold planPath, isPtrScannerCol. rewrite Hpath, Hkind. cbn. rewrite Hft. cbn.
  auto.
Qed.

Lemma isPtrScannerCol_mapped plan structT j :
  isPtrScannerCol plan structT j = true -> mappedColumn plan j = true.
Proof.
  unfold isPtrScannerCol, mappedColumn.
  destruct (kinds plan !! j) as [[]|]; (discriminate || reflexivity).
Qed.

(** Every row of a multi-row scan whose column [i] is NULL leaves the
    optional leaf of its element nil. *)
Lemma scanAllRows_null plan structT isPtr backing i e :
  kinds plan !! i = Some ckPtr ->
  mjoin (ptrFieldTypes plan !! i) = Some (TPointer e) ->
  In i (ptrIdx plan) ->
  planPath plan i <> [] ->
  (forall j, In j (ptrIdx plan) -> kinds plan !! j = Some ckPtr) ->
  onlyColumnOf plan i (planPath plan i) ->
  forall rows out s log outs log',
    sized (List.length (kinds plan)) s ->
    scanAllRows convertNonNull scanMethod plan structT isPtr backing rows out s log
    = Done (outs, log') ->
    forall r row,
      rows !! r = Some row -> row !! i = Some DNull ->
      exists el,
        outs !! (List.length out + r) = Some el
        /\ fieldAt (elemStruct el) (planPath plan i) = Some (VPtr e None).
Proof.
  intros Hk Hft Hin Hne Hptr Honly.
  assert (forall rows out s log outs log',
             scanAllRows convertNonNull scanMethod plan structT isPtr backing
                         rows out s log = Done (outs, log') ->
             exists tail, outs = out ++ tail) as Hprefix.
  { induction rows as [|row rows IH]; intros out s log outs log' H.
    - simpl in H. injection H as <- _. exists []. now rewrite app_nil_r.
    - cbn [scanAllRows] in H.
      destruct (scanRow _ _ _ _ _ _ _ _ _) as [m| |]; try discriminate.
      apply IH in H as [tail ->]. rewrite <- app_assoc. eauto. }
  assert (forall j, j <> i ->
                    In j (ptrIdx plan) \/ isPtrScannerCol plan structT j = true ->
                    disjointPaths (planPath plan j) (planPath plan i) = true) as Hd.
  { intros j Hj Hor. apply Honly; [exact Hj|]. destruct Hor as [Hj'|Hj'].
    - unfold mappedColumn. now rewrite (Hptr j Hj').
    - now apply isPtrScannerCol_mapped with structT. }
  induction rows as [|row rows IH]; intros out s log outs log' Hs H r row' Hr Hnull.
  - destruct r; discriminate.
  - cbn [scanAllRows] in H.
    destruct (scanRow _ _ _ _ _ _ _ _ _) as [m| |] eqn:R; try discriminate.
    destruct r as [|r].
    + cbn in Hr. injection Hr as <-.
      destruct (scanRow_null_optional _ _ _ _ _ _ _ _ _ _ _ _ Hs Hk Hft Hin Hne
                                      Hd Hnull R) as [Hf _].
      apply Hprefix in H as [tail ->].
      eexists. rewrite Nat.add_0_r, <- app_assoc, lookup_app_r by lia.
      rewrite Nat.sub_diag. split; [reflexivity|].
      destruct isPtr; [exact Hf|].
      destruct (fieldAt_struct _ _ _ Hne Hf) as (t & fs & E).
      rewrite E in Hf |- *. exact Hf.
    + pose proof (scanRow_sized _ _ _ _ _ _ _ _ _ _ Hs R) as Hs'.
      destruct (IH _ _ _ _ _ Hs' H r row' Hr Hnull) as (el & Hel & Hf).
      exists el. rewrite length_app in Hel. simpl in Hel.
      replace (List.length out + S r) with (List.length out + 1 + r) by lia. auto.
Qed.

Lemma targetOf_pointer_scanner plan structT i :
  isPtrScannerCol plan structT i = true -> targetOf plan structT i = Some (ToSink i).
Proof.
  unfold targetOf, isPtrScannerCol. intros Hp.
  destruct (kinds plan !! i) as [[]|]; try discriminate.
  destruct (FieldByIndexType _ _); [|discriminate]. cbn. now rewrite Hp.
Qed.

Lemma onlyColumnOf_others plan structT i path :
  onlyColumnOf plan i path ->
  (forall j, In j (ptrIdx plan) -> kinds plan !! j = Some ckPtr) ->
  forall j, j <> i ->
            In j (ptrIdx plan) \/ isPtrScannerCol plan structT j = true ->
            disjointPaths (planPath plan j) path = true.
Proof.
  intros Honly Hptr j Hj Hor. apply Honly; [exact Hj|]. destruct Hor as [Hj'|Hj'].
  - unfold mappedColumn. now rewrite (Hptr j Hj').
  - now apply isPtrScannerCol_mapped with structT.
Qed.

(** [newState] allocates an empty holder for every optional leaf. *)
Lemma newState_holder plan i ft :
  In i (ptrIdx plan) -> i < List.length (kinds plan) ->
  mjoin (ptrFieldTypes plan !! i) = Some ft ->
  holders (newState plan) !! i = Some (Some (zeroValue ft)).
Proof.
  intros Hin Hlt Hft. unfold newState. cbn [holders].
  rewrite list_lookup_fmap, lookup_seq_lt by exact Hlt. cbn [fmap option_fmap option_map Nat.add].
  assert (existsb (Nat.eqb i) (ptrIdx plan) = true) as ->.
  { apply existsb_exists. exists i. split; [exact Hin|apply Nat.eqb_refl]. }
  now rewrite Hft.
Qed.

Lemma plan_holders cols structT plan j :
  getScanPlan cols structT = Done plan ->
  kinds plan !! j = Some ckPtr ->
  is_Some (mjoin (holders (newState plan) !! j)).
Proof.
  intros Hp Hk. unfold getScanPlan in Hp.
  destruct (buildScanPlan_columns _ _ _ Hp) as (Hlen & Hcol & _).
  assert (j < List.length (kinds plan)) as Hlt by (apply lookup_lt_Some in Hk; exact Hk).
  destruct (lookup_lt_is_Some_2 cols j ltac:(lia)) as [c Hc].
  destruct (Hcol j c Hc) as (en & Hen & Hkind & _ & Hpt & Hin).
  rewrite Hk in Hkind. injection Hkind as Hkind.
  assert (exists ft, snd en = Some ft) as [ft Hft].
  { unfold colEntry in Hen.
    repeat match type of Hen with
           | context [match ?x with _ => _ end] => destruct x
           end; try discriminate; injection Hen as <-; cbn in *;
      try discriminate; eauto. }
  rewrite (newState_holder plan j ft); [cbn; eauto| |exact Hlt|now rewrite Hpt, Hft].
  apply Hin. now rewrite <- Hkind.
Qed.

Lemma plan_ptrIdx cols structT plan :
  getScanPlan cols structT = Done plan ->
  forall j, In j (ptrIdx plan) -> kinds plan !! j = Some ckPtr.
Proof.
  intros Hp. unfold getScanPlan in Hp.
  now destruct (buildScanPlan_columns _ _ _ Hp) as (_ & _ & Hptr).
Qed.

(** The rows of a multi-row scan all scan when their driver values can
    be stored, whatever the holders took from the rows before. *)
Lemma scanAllRows_ok plan structT isPtr backing :
  mappedDisjoint plan ->
  (forall j, In j (ptrIdx plan) -> kinds plan !! j = Some ckPtr) ->
  destReady (hasPtrOnPath structT) plan (zeroValue structT) ->
  Forall (destReady (hasPtrOnPath structT) plan) backing ->
  forall rows out s log,
    sized (List.length (kinds plan)) s ->
    (forall j, kinds plan !! j = Some ckPtr -> is_Some (mjoin (holders s !! j))) ->
    Forall (fun row =>
              List.length row = List.length (kinds plan)
              /\ forall j, columnScans convertNonNull scanMethod plan structT row j)
           rows ->
    exists outs log',
      scanAllRows convertNonNull scanMethod plan structT isPtr backing rows out s log
      = Done (outs, log').
Proof.
  intros Hdis Hptr Hz Hb.
  induction rows as [|row rows IH]; intros out s log Hs Hh Hrows.
  - simpl. eauto.
  - apply Forall_cons in Hrows as [[Hlen Hsc] Hrows].
    cbn [scanAllRows].
    match goal with
    | |- context [scanRow _ _ _ _ ?a _ ?el _ _] =>
        assert (destReady a plan el) as Hel;
        [|destruct (scanRow_ok convertNonNull scanMethod plan structT a
                      row el s log Hs Hlen Hdis Hel Hptr Hh Hsc)
            as (m & R & Hh' & _)]
    end.
    { destruct isPtr; [exact Hz|].
      destruct (backing !! List.length out) as [el|] eqn:E; [|exact Hz].
      cbn. eapply Forall_lookup in Hb; eauto. }
    rewrite R. apply IH; [|exact Hh'|exact Hrows].
    eapply scanRow_sized; eauto.
Qed.

(** C7: for a column mapped to an unambiguous leaf whose type is a
    pointer that implements [sql.Scanner], and to which no other mapped
    column is scanned, the target of the row fetch is the generic sink of
    the column; after the fetch the leaf is nil when the driver value is
    NULL, and otherwise points to a fresh value converted by [Scan];
    every call of [Scan] for the column has the non-NULL driver value of
    the row; the sink of the column holds the driver value after the scan
    of a row; and a row whose driver values can all be stored does scan:
    the scan returns the struct with the leaf nil on NULL, and with the
    leaf pointing to the converted value, after a call of [Scan] with the
    driver value, otherwise. *)
Theorem C7_pointer_scanner_leaf_is_converted_after_the_fetch
  (cols : list string) (structT : rtype) (plan : scanPlan)
  (i : nat) (col : string) (fi : fieldInfo) (e : rtype) :
  kindOfType structT = Struct ->
  getScanPlan cols structT = Done plan ->
  cols !! i = Some col ->
  fieldIndexMap structT !! col = Some fi -> ambiguous fi = false ->
  index fi <> [] ->
  FieldByIndexType structT (index fi) = Some (TPointer e) ->
  implementsScanner (TPointer e) = true ->
  onlyColumnOf plan i (index fi) ->
  targetOf plan structT i = Some (ToSink i)
  /\ (forall row raw d d' log,
        typeOf d = Some structT -> row !! i = Some raw ->
        scanOneWithPlan convertNonNull scanMethod cols row d = Done (d', log) ->
        fieldAt d' (index fi)
        = Some (if isNull raw then VPtr e None else VPtr e (scanMethod e raw))
        /\ (isNull raw = false -> is_Some (scanMethod e raw))
        /\ (forall r0, In (i, r0) log -> r0 = raw /\ isNull raw = false))
  /\ (forall alloc row raw d s log m,
        sized (List.length cols) s -> row !! i = Some raw ->
        scanRow convertNonNull scanMethod plan structT alloc row d s log = Done m ->
        sinks (st m) !! i = Some raw)
  /\ (forall row raw d,
        typeOf d = Some structT ->
        List.length row = List.length cols ->
        mappedDisjoint plan ->
        destReady (fun _ => true) plan d ->
        (forall j, columnScans convertNonNull scanMethod plan structT row j) ->
        row !! i = Some raw ->
        exists d' log,
          scanOneWithPlan convertNonNull scanMethod cols row d = Done (d', log)
          /\ fieldAt d' (index fi)
             = Some (if isNull raw then VPtr e None else VPtr e (scanMethod e raw))
          /\ (isNull raw = false -> is_Some (scanMethod e raw) /\ In (i, raw) log)
          /\ (forall r0, In (i, r0) log -> r0 = raw /\ isNull raw = false)).
Proof.
  intros Hk Hp Hc Hfi Ha Hne Hft Hs Honly.
  destruct (plan_pointer_scanner _ _ _ _ _ _ _ Hk Hp Hc Hfi Ha Hft Hs)
    as (Hlen & Hkind & Hpath & Hps).
  assert (forall j, j <> i -> isPtrScannerCol plan structT j = true ->
                    disjointPaths (planPath plan j) (planPath plan i) = true) as Hd.
  { intros j Hj Hj'. rewrite Hpath. apply Honly; auto.
    now apply isPtrScannerCol_mapped with structT. }
  assert (forall row d,
             typeOf d = Some structT ->
             scanOneWithPlan convertNonNull scanMethod cols row d
             = match scanRow convertNonNull scanMethod plan structT (fun _ => true)
                             row d (newState plan) [] with
               | Done m => Done (dst m, calls m)
               | Failed err => Failed err
               | Panicked => Panicked
               end) as Hone.
  { intros row d Ht. unfold scanOneWithPlan.
    replace (structTypeOf d) with structT by (unfold structTypeOf; now rewrite Ht).
    now rewrite Hp, (derefType_struct _ Hk). }
  assert (forall row raw d d' log,
             typeOf d = Some structT -> row !! i = Some raw ->
             scanOneWithPlan convertNonNull scanMethod cols row d = Done (d', log) ->
             fieldAt d' (index fi)
             = Some (if isNull raw then VPtr e None else VPtr e (scanMethod e raw))
             /\ (isNull raw = false -> is_Some (scanMethod e raw))
             /\ (forall r0, In (i, r0) log -> r0 = raw /\ isNull raw = false)) as Cond.
  { intros row raw d d' log Ht Hrow H. rewrite (Hone row d Ht) in H.
    destruct (scanRow _ _ _ _ _ _ _ _ _) as [m| |] eqn:R; try discriminate.
    injection H as <- <-.
    destruct (scanRow_pointer_scanner _ _ _ _ _ _ _ _ _ _ _ _
                (newState_sized plan) Hps ltac:(now rewrite Hpath) Hd Hrow R)
      as (_ & _ & e' & Hft' & Hf & Hsome & new & Hcalls & Hnew).
    rewrite Hpath in *. rewrite Hft in Hft'. injection Hft' as <-.
    split; [exact Hf|]. split; [exact Hsome|].
    intros r0 Hin. rewrite Hcalls in Hin. now apply Hnew. }
  split; [now apply targetOf_pointer_scanner|].
  split; [exact Cond|]. split.
  - intros alloc row raw d s log m Hsz Hrow R. rewrite <- Hlen in Hsz.
    now destruct (scanRow_pointer_scanner _ _ _ _ _ _ _ _ _ _ _ _
                    Hsz Hps ltac:(now rewrite Hpath) Hd Hrow R) as (_ & S & _).
  - intros row raw d Ht Hrow Hdis Hready Hsc Hraw.
    destruct (scanRow_ok convertNonNull scanMethod plan structT (fun _ => true)
                row d (newState plan) [] (newState_sized plan) ltac:(congruence)
                Hdis Hready (plan_ptrIdx _ _ _ Hp)
                (fun j Hj => plan_holders _ _ _ j Hp Hj) Hsc)
      as (m & R & _ & Hcalled).
    assert (scanOneWithPlan convertNonNull scanMethod cols row d
            = Done (dst m, calls m)) as E by (now rewrite (Hone row d Ht), R).
    destruct (Cond row raw d _ _ Ht Hraw E) as (F1 & F2 & F3).
    exists (dst m), (calls m). split; [exact E|]. split; [exact F1|].
    split; [|exact F3]. intros Hn. split; [now apply F2|].
    now apply Hcalled.
Qed.

(** C8: for a column mapped to an unambiguous pointer-typed leaf without
    the conversion capability, to which no other mapped column is
    scanned, a NULL leaves the leaf nil: in a single-row scan, in every
    row of a multi-row scan into a slice of structs or of pointers to
    structs, whatever the backing array held, and in the scan of a row
    with buffers in any state, so that what an earlier row left in the
    reusable holder never shows in a later row.  The preparation of a
    row makes the holder the target of the column and resets it to nil,
    whatever it held.  Rows whose driver values can all be stored do
    scan: a single row with a NULL gives the struct with the leaf nil,
    and a multi-row scan gives a slice in which every row with a NULL has
    the leaf nil. *)
Theorem C8_null_leaves_optional_leaf_nil
  (cols : list string) (structT : rtype) (plan : scanPlan)
  (i : nat) (col : string) (fi : fieldInfo) (e : rtype) :
  kindOfType structT = Struct ->
  getScanPlan cols structT = Done plan ->
  cols !! i = Some col ->
  fieldIndexMap structT !! col = Some fi -> ambiguous fi = false ->
  index fi <> [] ->
  FieldByIndexType structT (index fi) = Some (TPointer e) ->
  isScannerField (TPointer e) = false ->
  onlyColumnOf plan i (index fi) ->
  (forall row d d' log,
      typeOf d = Some structT -> row !! i = Some DNull ->
      scanOneWithPlan convertNonNull scanMethod cols row d = Done (d', log) ->
      fieldAt d' (index fi) = Some (VPtr e None))
  /\ (forall rows (isPtr : bool) backing outs log,
        scanAll convertNonNull scanMethod cols rows
                (if isPtr then TPointer structT else structT) backing
        = Done (outs, log) ->
        forall r row,
          rows !! r = Some row -> row !! i = Some DNull ->
          exists el,
            outs !! r = Some el
            /\ fieldAt (elemStruct el) (index fi) = Some (VPtr e None))
  /\ (forall alloc row d s log m,
        sized (List.length cols) s -> row !! i = Some DNull ->
        scanRow convertNonNull scanMethod plan structT alloc row d s log = Done m ->
        fieldAt (dst m) (index fi) = Some (VPtr e None))
  /\ (forall alloc d s log m0 ptrScannerIdx,
        sized (List.length cols) s ->
        prepareTargets plan structT alloc 0 (kinds plan) (ScanMem d s log) []
        = Some (m0, ptrScannerIdx) ->
        targets (st m0) !! i = Some (Some (ToHolder i (TPointer e)))
        /\ holders (st m0) !! i = Some (Some (VPtr e None)))
  /\ (forall row d,
        typeOf d = Some structT ->
        List.length row = List.length cols ->
        mappedDisjoint plan ->
        destReady (fun _ => true) plan d ->
        (forall j, columnScans convertNonNull scanMethod plan structT row j) ->
        row !! i = Some DNull ->
        exists d' log,
          scanOneWithPlan convertNonNull scanMethod cols row d = Done (d', log)
          /\ fieldAt d' (index fi) = Some (VPtr e None))
  /\ (forall rows (isPtr : bool) backing,
        mappedDisjoint plan ->
        Forall (fun row =>
                  List.length row = List.length cols
                  /\ forall j, columnScans convertNonNull scanMethod plan structT row j)
               rows ->
        destReady (hasPtrOnPath structT) plan (zeroValue structT) ->
        Forall (destReady (hasPtrOnPath structT) plan) backing ->
        exists outs log,
          scanAll convertNonNull scanMethod cols rows
                  (if isPtr then TPointer structT else structT) backing
          = Done (outs, log)
          /\ forall r row,
              rows !! r = Some row -> row !! i = Some DNull ->
              exists el,
                outs !! r = Some el
                /\ fieldAt (elemStruct el) (index fi) = Some (VPtr e None)).
Proof.
  intros Hk Hp Hc Hfi Ha Hne Hft Hs Honly.
  destruct (plan_optional_leaf _ _ _ _ _ _ _ Hk Hp Hc Hfi Ha Hft Hs)
    as (Hlen & Hkind & Hpath & Hpt & Hin & Hptr).
  rewrite <- Hpath in Hne, Honly |- *.
  pose proof (onlyColumnOf_others _ structT _ _ Honly Hptr) as Hd.
  assert (i < List.length (kinds plan)) as Hi
      by (apply lookup_lt_Some in Hkind; exact Hkind).
  assert (forall (isPtr : bool) rows backing,
             scanAll convertNonNull scanMethod cols rows
                     (if isPtr then TPointer structT else structT) backing
             = scanAllRows convertNonNull scanMethod plan structT isPtr backing rows []
                           (newState plan) []) as Hall.
  { intros isPtr rows backing. unfold scanAll. destruct isPtr.
    - cbn [kindOfType Kind_eqb elemType andb negb]. rewrite Hk.
      change (default (TPointer structT) (Some structT)) with structT.
      cbn [Kind_eqb negb]. now rewrite Hp.
    - rewrite Hk. cbn [Kind_eqb andb]. now rewrite Hp. }
  assert (forall row d,
             typeOf d = Some structT ->
             scanOneWithPlan convertNonNull scanMethod cols row d
             = match scanRow convertNonNull scanMethod plan structT (fun _ => true)
                             row d (newState plan) [] with
               | Done m => Done (dst m, calls m)
               | Failed err => Failed err
               | Panicked => Panicked
               end) as Hone.
  { intros row d Ht. unfold scanOneWithPlan.
    replace (structTypeOf d) with structT by (unfold structTypeOf; now rewrite Ht).
    now rewrite Hp, (derefType_struct _ Hk). }
  assert (forall row d d' log,
             typeOf d = Some structT -> row !! i = Some DNull ->
             scanOneWithPlan convertNonNull scanMethod cols row d = Done (d', log) ->
             fieldAt d' (planPath plan i) = Some (VPtr e None)) as One.
  { intros row d d' log Ht Hrow H. rewrite (Hone row d Ht) in H.
    destruct (scanRow _ _ _ _ _ _ _ _ _) as [m| |] eqn:R; try discriminate.
    injection H as <- <-.
    now destruct (scanRow_null_optional _ _ _ _ _ _ _ _ _ _ _ _
                    (newState_sized plan) Hkind Hpt Hin Hne Hd Hrow R). }
  assert (forall rows (isPtr : bool) backing outs log,
             scanAll convertNonNull scanMethod cols rows
                     (if isPtr then TPointer structT else structT) backing
             = Done (outs, log) ->
             forall r row,
               rows !! r = Some row -> row !! i = Some DNull ->
               exists el,
                 outs !! r = Some el
                 /\ fieldAt (elemStruct el) (planPath plan i) = Some (VPtr e None))
    as Many.
  { intros rows isPtr backing outs log H r row Hr Hrow. rewrite Hall in H.
    exact (scanAllRows_null _ _ _ _ _ _ Hkind Hpt Hin Hne Hptr Honly _ _ _ _ _ _
             (newState_sized plan) H r row Hr Hrow). }
  split; [exact One|]. split; [exact Many|].
  split; [|split; [|split]].
  - intros alloc row d s log m Hsz Hrow R. rewrite <- Hlen in Hsz.
    now destruct (scanRow_null_optional _ _ _ _ _ _ _ _ _ _ _ _
                    Hsz Hkind Hpt Hin Hne Hd Hrow R).
  - intros alloc d s log m0 acc Hsz P. rewrite <- Hlen in Hsz.
    destruct (prepareTargets_spec _ _ _ _ 0 [] (ScanMem d s log) _ _ _ _
                                  eq_refl eq_refl Hsz (le_n _) P)
      as (_ & _ & _ & Htg & _ & Hhold & _).
    split.
    + destruct (Htg i) as (tg & Ht & ->); [simpl; lia|]. do 2 f_equal.
      unfold targetOf in Ht. rewrite Hkind, Hpt in Ht. now injection Ht as <-.
    + destruct (Hhold i) as (ft & Hft' & ->); [simpl; lia|exact Hkind|].
      rewrite Hpt in Hft'. now injection Hft' as <-.
  - intros row d Ht Hrow Hdis Hready Hsc Hnull.
    destruct (scanRow_ok convertNonNull scanMethod plan structT (fun _ => true)
                row d (newState plan) [] (newState_sized plan) ltac:(congruence)
                Hdis Hready Hptr (fun j Hj => plan_holders _ _ _ j Hp Hj) Hsc)
      as (m & R & _).
    assert (scanOneWithPlan convertNonNull scanMethod cols row d
            = Done (dst m, calls m)) as E by (now rewrite (Hone row d Ht), R).
    exists (dst m), (calls m). split; [exact E|].
    exact (One row d _ _ Ht Hnull E).
  - intros rows isPtr backing Hdis Hrows Hz Hb.
    rewrite <- Hlen in Hrows.
    destruct (scanAllRows_ok plan structT isPtr backing Hdis Hptr Hz Hb
                rows [] (newState plan) [] (newState_sized plan)
                (fun j Hj => plan_holders _ _ _ j Hp Hj) Hrows) as (outs & log & R).
    exists outs, log. rewrite Hall. split; [exact R|].
    apply (Many rows isPtr backing outs log). now rewrite Hall.
Qed.

End ScanProperties.

(** ** Rows blocks *)

Lemma recv_eqb_eq a c : recv_eqb a c = true -> a = c.
Proof. now destruct a, c. Qed.

Lemma bkind_eqb_eq a c : bkind_eqb a c = true -> a = c.
Proof. now destruct a, c. Qed.

Lemma tinfo_eqb_eq a c : tinfo_eqb a c = true -> a = c.
Proof.
  destruct a as [p1 n1 s1 v1], c as [p2 n2 s2 v2]. unfold tinfo_eqb. cbn.
  intros H. apply andb_prop in H as [H H4]. apply andb_prop in H as [H H3].
  apply andb_prop in H as [H1 H2].
  apply String.eqb_eq in H1, H2. apply recv_eqb_eq in H3, H4. congruence.
Qed.

Lemma fieldDecl_eqb_eq a c : fieldDecl_eqb a c = true -> a = c.
Proof.
  destruct a as [n1 p1 t1], c as [n2 p2 t2]. unfold fieldDecl_eqb. cbn.
  intros H. apply andb_prop in H as [H H3]. apply andb_prop in H as [H1 H2].
  apply String.eqb_eq in H1, H2, H3. congruence.
Qed.

(** Identical types are equal. *)
Lemma rtype_eqb_eq a : forall c, rtype_eqb a c = true -> a = c.
Proof.
  induction a as [k ti|e IH| |ti e IH|ti n e IH|ti k e IHk IHe|ti fs IH|ti]
    using rtype_nested_ind;
    intros [k2 ti2|e2| |ti2 e2|ti2 n2 e2|ti2 k2 e2|ti2 fs2|ti2];
    cbn [rtype_eqb]; try discriminate; intros H.
  - apply andb_prop in H as [H1 H2].
    apply bkind_eqb_eq in H1. apply tinfo_eqb_eq in H2. congruence.
  - f_equal. now apply IH.
  - reflexivity.
  - apply andb_prop in H as [H1 H2]. apply tinfo_eqb_eq in H1. apply IH in H2.
    congruence.
  - apply andb_prop in H as [H H3]. apply andb_prop in H as [H1 H2].
    apply tinfo_eqb_eq in H1. apply Nat.eqb_eq in H2. apply IH in H3. congruence.
  - apply andb_prop in H as [H H3]. apply andb_prop in H as [H1 H2].
    apply tinfo_eqb_eq in H1. apply IHk in H2. apply IHe in H3. congruence.
  - apply andb_prop in H as [H1 H2]. apply tinfo_eqb_eq in H1. subst ti2. f_equal.
    revert fs2 H2.
    induction IH as [|[d1 t1] fs Hx _ IHfs]; intros [|[d2 t2] fs2] H;
      try discriminate; [reflexivity|].
    apply andb_prop in H as [H H3]. apply andb_prop in H as [H1 H2].
    apply fieldDecl_eqb_eq in H1. apply Hx in H2. apply IHfs in H3.
    cbn [snd] in H2. congruence.
  - apply tinfo_eqb_eq in H. congruence.
Qed.

(** Induction on the pointers and interfaces wrapped around a value. *)
Lemma unwrap_ind (P : value -> Prop) :
  (forall v, depth v = 0 -> P v) ->
  (forall t x, P x -> P (VPtr t (Some x))) ->
  (forall x, P x -> P (VIface x)) ->
  forall v, P v.
Proof.
  intros H0 Hp Hi v. remember (depth v) as n eqn:E. revert v E.
  induction n as [|n IH]; intros v E; [now apply H0|].
  destruct v as [ |t x|t [x|]|x|t els|t els|t kvs|t fs|x|name]; try discriminate.
  - apply Hp, IH. now injection E.
  - apply Hi, IH. now injection E.
Qed.

Lemma unwrapAll_flat v : depth v = 0 -> unwrapAll v = Some v \/ unwrapAll v = None.
Proof.
  destruct v as [ |t x|t [x|]|x|t els|t els|t kvs|t fs|x|name]; try discriminate; auto.
Qed.

Lemma unwrapAll_iface x :
  x <> VNil -> unwrapAll (VIface x) = unwrapAll x /\ deIndirect (VIface x) = deIndirect x.
Proof. destruct x; auto. congruence. Qed.

(** Where [unwrapAll] finds a value, [deIndirect] stops at it. *)
Lemma unwrapAll_deIndirect row :
  forall rv, unwrapAll row = Some rv -> deIndirect row = rv /\ unwrapAll rv = Some rv.
Proof.
  induction row as [v E|t x IH|x IH] using unwrap_ind; intros rv H.
  - destruct v as [ |t x|t [x|]|x|t els|t els|t kvs|t fs|x|name]; try discriminate;
      cbn in H |- *; injection H as <-; auto.
  - cbn in H |- *. now apply IH.
  - assert (x = VNil \/ x <> VNil) as [->|Hx]
      by (destruct x; auto; right; discriminate).
    + discriminate.
    + destruct (unwrapAll_iface x Hx) as [E1 E2].
      rewrite E1 in H. rewrite E2. now apply IH.
Qed.

Lemma columnPaths_lookup fm cols name r paths :
  columnPaths fm cols name r = inr paths ->
  forall cidx col,
    cols !! cidx = Some col ->
    exists fi, fm !! col = Some fi /\ ambiguous fi = false
               /\ paths !! cidx = Some (index fi).
Proof.
  revert paths; induction cols as [|c cols IH]; intros paths H cidx col Hc.
  - discriminate.
  - cbn [columnPaths] in H. destruct (fm !! c) as [fi|] eqn:E; [|discriminate].
    destruct (ambiguous fi) eqn:A; [discriminate|].
    destruct (columnPaths fm cols name r) as [e|ps] eqn:P; [discriminate|].
    injection H as <-. destruct cidx as [|cidx].
    + injection Hc as <-. now exists fi.
    + now apply (IH ps eq_refl cidx col).
Qed.

Lemma columnPaths_found fm cols :
  (forall col, In col cols -> exists fi, fm !! col = Some fi /\ ambiguous fi = false) ->
  exists paths, forall name r, columnPaths fm cols name r = inr paths.
Proof.
  induction cols as [|c cols IH]; intros H.
  - now exists [].
  - destruct (H c (or_introl eq_refl)) as (fi & E & A).
    destruct IH as (ps & Hps); [intros col Hc; apply H; now right|].
    exists (index fi :: ps). intros name r. cbn [columnPaths].
    now rewrite E, A, Hps.
Qed.

Lemma columnOf_struct row rv col v :
  unwrapAll row = Some rv -> kindOf rv = Struct -> columnOf row col = Some v ->
  exists t fi, typeOf rv = Some t /\ fieldIndexMap t !! col = Some fi
               /\ ambiguous fi = false
               /\ getValueByPathAny rv (index fi) = (v, true).
Proof.
  unfold columnOf. intros -> ->.
  destruct (typeOf rv) as [t|]; [|discriminate].
  destruct (fieldIndexMap t !! col) as [fi|] eqn:E; [|discriminate].
  destruct (ambiguous fi) eqn:A; [discriminate|].
  destruct (getValueByPathAny rv (index fi)) as [w [|]] eqn:G; [|discriminate].
  intros [= ->]. now exists t, fi.
Qed.

Lemma cacheOk_nil cols : cacheOk cols [].
Proof. intros t paths H. discriminate. Qed.

Lemma cacheOk_cons cols t paths cache :
  (forall name r, columnPaths (fieldIndexMap t) cols name r = inr paths) ->
  cacheOk cols cache -> cacheOk cols ((t, paths) :: cache).
Proof.
  intros H Hc t' ps. cbn [cacheGet].
  destruct (rtype_eqb t t') eqn:E.
  - apply rtype_eqb_eq in E as <-. now intros [= <-].
  - apply Hc.
Qed.

Lemma stringKey_string col : stringKey col tString = VBasic tString (DStr col).
Proof. reflexivity. Qed.

Lemma isMapStringAny_lookup row col :
  isMapStringAny row = true ->
  columnOf row col = toAny <$> MapIndex row (VBasic tString (DStr col)).
Proof.
  unfold isMapStringAny. destruct (typeOf row) as [t|] eqn:T; [|discriminate].
  intros H. apply rtype_eqb_eq in H as ->.
  assert (unwrapAll row = Some row) as U.
  { destruct row as [ |? ?|? [?|]|?|? ?|? ?|? ?|? ?|?|?]; try discriminate; reflexivity. }
  unfold columnOf, kindOf, reflectMapLookup. rewrite U, T. reflexivity.
Qed.

(** A column that resolves on a row is fetched by the loop, whichever of
    its three ways it takes. *)
Lemma fetchColumn_resolved name r row useMapFast colKeys cols cidx col cache v :
  cacheOk cols cache ->
  (forall c, In c cols -> is_Some (columnOf row c)) ->
  cols !! cidx = Some col ->
  columnOf row col = Some v ->
  (useMapFast = true ->
   exists kt, typeOf (deIndirect row) ≫= keyType = Some kt
              /\ colKeys = List.map (fun c => stringKey c kt) cols) ->
  exists cache',
    cacheOk cols cache'
    /\ fetchColumn name r row (deIndirect row) useMapFast colKeys cols cidx col cache
       = inr (cache', Some v).
Proof.
  intros Hc Hall Hcol Hv Hfast.
  destruct (unwrapAll row) as [rv|] eqn:U;
    [|unfold columnOf in Hv; rewrite U in Hv; discriminate].
  rewrite (proj1 (unwrapAll_deIndirect _ _ U)). unfold fetchColumn.
  destruct (IsValid rv && Kind_eqb (kindOf rv) Struct) eqn:S.
  - apply andb_prop in S as [_ S].
    assert (kindOf rv = Struct) as K by (now destruct (kindOf rv)).
    destruct (columnOf_struct _ _ _ _ U K Hv) as (t & fi & T & E & A & G).
    rewrite T. destruct (cacheGet cache t) as [paths|] eqn:C.
    + exists cache. split; [exact Hc|].
      destruct (columnPaths_lookup _ _ _ _ _ (Hc _ _ C name r) _ _ Hcol)
        as (fi' & E' & _ & P).
      rewrite E in E'. injection E' as <-.
      unfold valueAtPath. now rewrite P, G.
    + destruct (columnPaths_found (fieldIndexMap t) cols) as (paths & P).
      { intros c Hin. destruct (Hall c Hin) as [w Hw].
        destruct (columnOf_struct _ _ _ _ U K Hw) as (t' & fi' & T' & E' & A' & _).
        rewrite T in T'. injection T' as <-. now exists fi'. }
      rewrite P. exists ((t, paths) :: cache).
      split; [now apply cacheOk_cons|].
      destruct (columnPaths_lookup _ _ _ _ _ (P name r) _ _ Hcol) as (fi' & E' & _ & P').
      rewrite E in E'. injection E' as <-.
      unfold valueAtPath. now rewrite P', G.
  - exists cache. split; [exact Hc|].
    assert (kindOf rv <> Struct) as K.
    { intros K. unfold IsValid in S. rewrite K in S. discriminate. }
    destruct useMapFast.
    + destruct (Hfast eq_refl) as (kt & Hkt & ->).
      rewrite (proj1 (unwrapAll_deIndirect _ _ U)) in Hkt.
      rewrite list_lookup_fmap, Hcol. cbn [fmap option_fmap option_map mbind option_bind].
      unfold columnOf in Hv. rewrite U in Hv.
      destruct (kindOf rv); try discriminate; try congruence.
      unfold reflectMapLookup in Hv. rewrite Hkt in Hv.
      destruct (negb (rtype_eqb tString kt) && negb (stringConvertibleTo kt));
        [discriminate|].
      now rewrite Hv.
    + unfold getColValue. destruct (isMapStringAny row) eqn:M.
      * now rewrite <- (isMapStringAny_lookup _ col M), Hv.
      * unfold columnOf in Hv. rewrite U in Hv |- *.
        destruct (kindOf rv); try discriminate; congruence.
Qed.

Lemma lookup_In {A : Type} (l : list A) (i : nat) (x : A) : l !! i = Some x -> In x l.
Proof. intros H. apply list_elem_of_In. now apply list_elem_of_lookup_2 with i. Qed.

Lemma omap_resolved {A B : Type} (f : A -> option B) (l : list A) :
  (forall x, In x l -> is_Some (f x)) -> List.length (omap f l) = List.length l.
Proof.
  induction l as [|x l IH]; intros H; [reflexivity|].
  destruct (H x (or_introl eq_refl)) as [y Hy]. simpl. rewrite Hy. simpl.
  f_equal. apply IH. intros z Hz. apply H. now right.
Qed.

(** The loop over the columns of a row on which every column resolves. *)
Lemma emitCols_resolved d name r row useMapFast colKeys cols :
  (forall c, In c cols -> is_Some (columnOf row c)) ->
  (useMapFast = true ->
   exists kt, typeOf (deIndirect row) ≫= keyType = Some kt
              /\ colKeys = List.map (fun c => stringKey c kt) cols) ->
  forall rest cidx cache n out acc,
    cacheOk cols cache ->
    (forall j col, rest !! j = Some col -> cols !! (cidx + j) = Some col) ->
    exists cache',
      cacheOk cols cache'
      /\ emitCols d name r row (deIndirect row) useMapFast colKeys cols cidx rest
                  cache n out acc
         = inr (cache', n + List.length rest,
                out +:+ sepList d cidx n (List.length rest),
                acc ++ omap (columnOf row) rest).
Proof.
  intros Hall Hfast rest.
  induction rest as [|col rest IH]; intros cidx cache n out acc Hc Hrest.
  - exists cache. split; [exact Hc|]. cbn.
    now rewrite Nat.add_0_r, append_nil_r, app_nil_r.
  - assert (cols !! cidx = Some col) as Hcol
        by (rewrite <- (Nat.add_0_r cidx); now apply Hrest).
    destruct (Hall col (lookup_In _ _ _ Hcol)) as [v Hv].
    destruct (fetchColumn_resolved name r row useMapFast colKeys cols cidx col cache v
                Hc Hall Hcol Hv Hfast) as (cache1 & Hc1 & F).
    cbn [emitCols]. rewrite F.
    destruct (IH (S cidx) cache1 (S n)
                 (writePlaceholder (if 0 <? cidx then out +:+ ", " else out) d (S n))
                 (acc ++ [v]) Hc1) as (cache' & Hc' & E).
    { intros j c Hj. replace (S cidx + j) with (cidx + S j) by lia. now apply Hrest. }
    exists cache'. split; [exact Hc'|]. rewrite E. cbn [List.length sepList].
    assert (omap (columnOf row) (col :: rest) = v :: omap (columnOf row) rest) as ->
        by (simpl; now rewrite Hv).
    unfold writePlaceholder. f_equal. f_equal; [f_equal; [f_equal; lia|]|].
    + destruct (0 <? cidx); now rewrite !append_assoc.
    + now rewrite <- app_assoc.
Qed.

(** The loop over rows on all of which every column resolves. *)
Lemma emitRows_resolved d name colKeys mapKeyT cols :
  (forall ks, colKeys = Some ks ->
              exists kt, mapKeyT = Some kt
                         /\ ks = List.map (fun c => stringKey c kt) cols) ->
  forall rows r cache n out acc,
    cacheOk cols cache ->
    (forall row c, In row rows -> In c cols -> is_Some (columnOf row c)) ->
    emitRows d name colKeys mapKeyT cols r rows cache n out acc
    = inr (n + List.length rows * List.length cols,
           out +:+ tupleList d r n (List.length rows) (List.length cols),
           acc ++ cellsOf rows cols).
Proof.
  intros Hkeys rows.
  induction rows as [|row rows IH]; intros r cache n out acc Hc Hall.
  - cbn. now rewrite Nat.add_0_r, append_nil_r, app_nil_r.
  - cbn [emitRows].
    set (fast := _ && sameKeyType (deIndirect row) mapKeyT).
    destruct (emitCols_resolved d name r row fast (default [] colKeys) cols
                (fun c Hin => Hall row c (or_introl eq_refl) Hin)) with
      (rest := cols) (cidx := 0) (cache := cache) (n := n)
      (out := (if 0 <? r then out +:+ ", " else out) +:+ "(") (acc := acc)
      as (cache' & Hc' & E); [|exact Hc|now intros j col|].
    { unfold fast. intros Hf.
      apply andb_prop in Hf as [Hf Hs]. apply andb_prop in Hf as [Hf _].
      apply andb_prop in Hf as [Hf _].
      destruct colKeys as [ks|]; [|discriminate].
      destruct (Hkeys ks eq_refl) as (kt & -> & ->).
      unfold sameKeyType in Hs.
      destruct (typeOf (deIndirect row) ≫= keyType) as [a|]; [|discriminate].
      apply rtype_eqb_eq in Hs as ->. now exists kt. }
    rewrite E, IH; [|exact Hc'|intros row' c Hr; apply Hall; now right].
    cbn [List.length tupleList Nat.mul cellsOf flat_map]. unfold placeholderList.
    f_equal. f_equal; [f_equal; [lia|]|].
    + destruct (0 <? r); now rewrite !append_assoc.
    + now rewrite <- app_assoc.
Qed.

Lemma cellsOf_length rows cols :
  (forall row c, In row rows -> In c cols -> is_Some (columnOf row c)) ->
  List.length (cellsOf rows cols) = List.length rows * List.length cols.
Proof.
  induction rows as [|row rows IH]; intros H; [reflexivity|].
  cbn [cellsOf flat_map List.length Nat.mul]. rewrite length_app.
  rewrite omap_resolved by (intros c Hc; apply H; [now left|exact Hc]).
  f_equal. apply IH. intros row' c Hr. apply H. now right.
Qed.

(** C3 (as the code has it): a rows block [:name{col1, ..., colC}] bound
    to [R >= 1] rows on each of which every requested column resolves is
    replaced, within the parameter limit, by [R] tuples in parentheses of
    [C] placeholders each, for the next [R * C] ordinals, the placeholders
    of a tuple and the tuples separated by a comma and a space; and it
    contributes the [R * C] values of the columns as arguments, row by
    row, in the order of the requested columns. *)
Theorem C3_rows_block_renders_tuples_row_major
  (d : Dialect) (q : string) (cfg : Config)
  (lookup : string -> option value)
  (rowsLookup : string -> lookupRes (list value))
  (s : pstate) (name : string) (k : nat) (c' : cursor) (k2 : nat)
  (cols : list string) (rows : list value) :
  pos s < String.length q ->
  lexStep d q (cursor_of s) = (TBlock name k, c') ->
  nameTooLong cfg name = false ->
  readCols q k = Some (k2, cols) -> cols <> [] ->
  rowsLookup name = Found rows -> rows <> [] ->
  (forall row col, In row rows -> In col cols -> is_Some (columnOf row col)) ->
  (MaxParams cfg <= 0
   \/ Z.of_nat (count s + List.length rows * List.length cols) <= MaxParams cfg)%Z ->
  step d q cfg lookup rowsLookup s
  = Next (PState k2 sText (dqTag s)
                 (count s + List.length rows * List.length cols)
                 (buf s +:+ tupleList d 0 (count s) (List.length rows) (List.length cols))
                 (args s ++ cellsOf rows cols))
  /\ List.length (cellsOf rows cols) = List.length rows * List.length cols.
Proof.
  intros Hlt L Hn Hr Hc Hl Hne Hall Hlim.
  split; [|now apply cellsOf_length].
  rewrite (step_lex d q cfg lookup rowsLookup s Hlt), L.
  cbn [fst snd stepOn]. rewrite Hn. unfold emitRowsBlock. rewrite Hr, Hl.
  assert (exists c0, In c0 cols) as [c0 Hc0]
      by (destruct cols as [|c0 ?]; [congruence|exists c0; now left]).
  assert (Nat.eqb (List.length cols) 0 = false) as ->
      by (destruct cols; [congruence|reflexivity]).
  destruct rows as [|row0 rows0]; [congruence|].
  rewrite (ensureAdd_None _ _ _ Hlim). cbv zeta.
  match goal with
  | |- match ?pre with _ => _ end = _ =>
      assert (exists cache, cacheOk cols cache /\ pre = inr cache)
        as (cache & Hcache & ->)
  end.
  { destruct (IsValid (deIndirect row0) && Kind_eqb (kindOf (deIndirect row0)) Struct)
      eqn:S; [|exists []; split; [apply cacheOk_nil|reflexivity]].
    destruct (typeOf (deIndirect row0)) as [t|] eqn:T;
      [|exists []; split; [apply cacheOk_nil|reflexivity]].
    apply andb_prop in S as [_ S].
    destruct (Hall row0 c0 (or_introl eq_refl) Hc0) as [v0 Hv0].
    destruct (unwrapAll row0) as [rv|] eqn:U;
      [|unfold columnOf in Hv0; rewrite U in Hv0; discriminate].
    rewrite (proj1 (unwrapAll_deIndirect _ _ U)) in S, T.
    assert (kindOf rv = Struct) as K by (now destruct (kindOf rv)).
    destruct (columnPaths_found (fieldIndexMap t) cols) as (paths & P).
    { intros c Hin. destruct (Hall row0 c (or_introl eq_refl) Hin) as [w Hw].
      destruct (columnOf_struct _ _ _ _ U K Hw) as (t' & fi & T' & E & A & _).
      rewrite T in T'. injection T' as <-. now exists fi. }
    rewrite P. exists [(t, paths)]. split; [|reflexivity].
    apply cacheOk_cons; [exact P|apply cacheOk_nil]. }
  rewrite emitRows_resolved; [reflexivity| |exact Hcache|exact Hall].
  intros ks.
  destruct (if IsValid (deIndirect row0) && Kind_eqb (kindOf (deIndirect row0)) Map
            then typeOf (deIndirect row0) ≫= keyType else None) as [kt|];
    [|discriminate].
  destruct (Kind_eqb (kindOfType kt) String_ || stringConvertibleTo kt);
    [|discriminate].
  intros [= <-]. now exists kt.
Qed.

(** ** Lexical helpers of the parser *)

Lemma runLen_all p s j :
  j < runLen p s -> exists c, byteAt s j = Some c /\ p c = true.
Proof.
  revert j; induction s as [|c s IH]; intros j H; simpl in H; [lia|].
  destruct (p c) eqn:E; [|lia].
  destruct j as [|j]; [now exists c|]. apply IH. lia.
Qed.

Lemma runLen_length p s : runLen p s <= String.length s.
Proof. induction s as [|c s IH]; simpl; [lia|]. destruct (p c); simpl; lia. Qed.

Lemma byteAt_substring_0 s m j :
  j < m -> byteAt (substring 0 m s) j = byteAt s j.
Proof.
  revert m j; induction s as [|c s IH]; intros m j H.
  - destruct m; reflexivity.
  - destruct m as [|m]; [lia|]. destruct j as [|j]; [reflexivity|].
    cbn. apply IH. lia.
Qed.

(** X1: a tag found by [readDollarTag] is a prefix of the input of at
    least two bytes that begins and ends with a dollar sign, with only
    letters, digits and underscores in between. *)
Theorem X1_readDollarTag_shape (s t : string) :
  readDollarTag s = Some t ->
  t = substring 0 (String.length t) s
  /\ 2 <= String.length t <= String.length s
  /\ byteAt t 0 = Some "$"%char
  /\ byteAt t (String.length t - 1) = Some "$"%char
  /\ forall j, 0 < j < String.length t - 1 ->
               exists c, byteAt t j = Some c /\ isAlphaNumUnderscore c = true.
Proof.
  intros H. destruct (readDollarTag_Some s t H) as [Hp Hl].
  split; [exact Hp|]. split; [exact Hl|].
  unfold readDollarTag in H.
  destruct (String.length s <? 2) eqn:L; [discriminate|].
  destruct (byteIs s 0 "$") eqn:B0; [|discriminate]. cbn [negb orb] in H.
  set (j := 1 + runLen isAlphaNumUnderscore (from s 1)) in *.
  destruct (byteIs s j "$") eqn:Bj; [|discriminate].
  injection H as H.
  apply byteIs_true in B0, Bj. pose proof (byteAt_Some_lt _ _ _ Bj) as Hj.
  assert (t = substring 0 (j + 1) s) as Et.
  { rewrite <- H. unfold slice. now rewrite Nat.sub_0_r. }
  assert (String.length t = j + 1) as Ht.
  { rewrite Et, length_substring. lia. }
  rewrite Ht. rewrite Et.
  split; [rewrite byteAt_substring_0 by lia; exact B0|].
  split.
  - rewrite byteAt_substring_0 by lia. now replace (j + 1 - 1) with j by lia.
  - intros i Hi. rewrite byteAt_substring_0 by lia.
    destruct (runLen_all isAlphaNumUnderscore (from s 1) (i - 1)) as (c & Hc & Pc);
      [unfold j in Hi; lia|].
    rewrite byteAt_from in Hc. replace (1 + (i - 1)) with i in Hc by lia.
    now exists c.
Qed.

Lemma X1_readDollarTag_shape_witness :
  readDollarTag "$fn_1$ body" = Some "$fn_1$"
  /\ byteAt "$fn_1$" 0 = Some "$"%char
  /\ byteAt "$fn_1$" 5 = Some "$"%char.
Proof.
  assert (readDollarTag "$fn_1$ body" = Some "$fn_1$") as H by reflexivity.
  destruct (X1_readDollarTag_shape "$fn_1$ body" "$fn_1$" H) as (_ & _ & A & B & _).
  split; [exact H|]. split; [exact A|exact B].
Defined.

Lemma readColsLoop_shape q fuel : forall i start cols k2 cols',
  readColsLoop fuel q i start cols = Some (k2, cols') ->
  byteAt q (k2 - 1) = Some "}"%char
  /\ (Forall (fun c => c <> "") cols -> Forall (fun c => c <> "") cols').
Proof.
  induction fuel as [|f IH]; intros i start cols k2 cols' H; [discriminate|].
  cbn [readColsLoop] in H. destruct (byteAt q i) as [c|] eqn:B; [|discriminate].
  destruct (Ascii.eqb c "}") eqn:E.
  - apply Ascii.eqb_eq in E. subst c.
    destruct (start <? i).
    + destruct (String.eqb (TrimSpace (slice q start i)) "") eqn:T; [discriminate|].
      injection H as <- <-. replace (i + 1 - 1) with i by lia.
      split; [exact B|]. intros Hc. apply Forall_app. split; [exact Hc|].
      constructor; [|constructor]. intros Heq. rewrite Heq in T. discriminate.
    + injection H as <- <-. replace (i + 1 - 1) with i by lia. now split.
  - destruct (Ascii.eqb c ",").
    + destruct (String.eqb (TrimSpace (slice q start i)) "") eqn:T; [discriminate|].
      apply IH in H as [H1 H2]. split; [exact H1|]. intros Hc. apply H2.
      apply Forall_app. split; [exact Hc|].
      constructor; [|constructor]. intros Heq. rewrite Heq in T. discriminate.
    + now apply IH in H.
Qed.

Lemma readColsLoop_unterminated q fuel : forall i start cols,
  (forall j, i <= j -> byteAt q j <> Some "}"%char) ->
  readColsLoop fuel q i start cols = None.
Proof.
  induction fuel as [|f IH]; intros i start cols H; [reflexivity|].
  cbn [readColsLoop]. destruct (byteAt q i) as [c|] eqn:B; [|reflexivity].
  destruct (Ascii.eqb c "}") eqn:E.
  - apply Ascii.eqb_eq in E. subst c. now destruct (H i (le_n _)).
  - destruct (Ascii.eqb c ",").
    + destruct (String.eqb _ ""); [reflexivity|]. apply IH. intros j Hj. apply H. lia.
    + apply IH. intros j Hj. apply H. lia.
Qed.

(** X2: when [readCols] succeeds on the brace at index [i], the index
    it returns is within the template and just after a closing brace, and
    no column it returns is the empty string; where no closing brace
    follows, it fails. *)
Theorem X2_readCols_result (q : string) (i : nat) :
  (forall k2 cols,
      readCols q i = Some (k2, cols) ->
      i < k2 <= String.length q
      /\ byteAt q (k2 - 1) = Some "}"%char
      /\ Forall (fun c => c <> "") cols)
  /\ ((forall j, i < j -> byteAt q j <> Some "}"%char) -> readCols q i = None).
Proof.
  split.
  - intros k2 cols H. split; [now apply readCols_bound with cols|].
    unfold readCols in H. apply readColsLoop_shape in H as [H1 H2].
    split; [exact H1|]. apply H2. constructor.
  - intros H. unfold readCols. apply readColsLoop_unterminated.
    intros j Hj. apply H. lia.
Qed.

Lemma X2_readCols_result_witness :
  readCols "VALUES :rows{ id , name }" 12 = Some (25, ["id"; "name"])
  /\ byteAt "VALUES :rows{ id , name }" 24 = Some "}"%char.
Proof.
  assert (readCols "VALUES :rows{ id , name }" 12 = Some (25, ["id"; "name"])) as H
      by (vm_compute; reflexivity).
  destruct (proj1 (X2_readCols_result "VALUES :rows{ id , name }" 12) _ _ H)
    as (_ & B & _).
  split; [exact H|exact B].
Defined.

(** ** Colons that start no placeholder *)

(** X3: in plain text, a colon that ends the template, or is followed by
    a byte that is no letter or underscore (another colon, a digit, an
    equals sign, ...), or follows a colon, is copied to the output and
    binds nothing: casts such as [x::int] are left alone. *)
Theorem X3_colon_without_name_is_copied
  (d : Dialect) (q : string) (cfg : Config)
  (lookup : string -> option value)
  (rowsLookup : string -> lookupRes (list value)) (s : pstate) :
  state s = sText ->
  byteAt q (pos s) = Some ":"%char ->
  (byteAt q (pos s + 1) = None
   \/ (exists c, byteAt q (pos s + 1) = Some c /\ isAlphaUnderscore c = false)
   \/ (0 < pos s /\ byteAt q (pos s - 1) = Some ":"%char)) ->
  step d q cfg lookup rowsLookup s
  = Next (PState (pos s + 1) sText (dqTag s) (count s) (buf s +:+ ":") (args s)).
Proof.
  intros Hst Hc Hor. unfold step. rewrite Hc, Hst. unfold stepText.
  cbn [Ascii.eqb Bool.eqb andb orb]. unfold copy, str1.
  destruct Hor as [Hn|[(c & Hn & Ha)|[Hp Hprev]]].
  - apply byteAt_None_ge in Hn.
    assert ((pos s + 1 <? String.length q) = false) as -> by (apply Nat.ltb_ge; lia).
    reflexivity.
  - rewrite Hn, Ha. now rewrite !andb_false_r.
  - assert (byteIs q (pos s - 1) ":" = true) as -> by now apply byteIs_true.
    assert ((0 <? pos s) = true) as -> by now apply Nat.ltb_lt.
    cbn [andb negb]. now rewrite !andb_false_r.
Qed.

Lemma X3_colon_without_name_is_copied_witness :
  step Postgres "x::int" (MkConfig 0 0) (fun _ => None) (fun _ => Missing)
       (PState 1 sText "" 0 "x" [])
  = Next (PState 2 sText "" 0 "x:" [])
  /\ step Postgres "x::int" (MkConfig 0 0) (fun _ => None) (fun _ => Missing)
          (PState 2 sText "" 0 "x:" [])
     = Next (PState 3 sText "" 0 "x::" []).
Proof.
  split.
  - apply (X3_colon_without_name_is_copied Postgres "x::int" (MkConfig 0 0)
             (fun _ => None) (fun _ => Missing) (PState 1 sText "" 0 "x" [])
             eq_refl eq_refl).
    right. left. exists ":"%char. split; reflexivity.
  - apply (X3_colon_without_name_is_copied Postgres "x::int" (MkConfig 0 0)
             (fun _ => None) (fun _ => Missing) (PState 2 sText "" 0 "x:" [])
             eq_refl eq_refl).
    right. right. split; [simpl; lia|reflexivity].
Defined.

(** ** Templates without placeholders *)

(** What the lexer returns: a text token is the slice of the template
    between the two cursors, and another token starts at a colon. *)
Lemma lexStep_shape d q c :
  match fst (lexStep d q c) with
  | TText w => w = slice q (offset c) (offset (snd (lexStep d q c)))
  | _ => byteAt q (offset c) = Some ":"%char
  end.
Proof.
  unfold lexStep. destruct (inside c).
  2-5: destruct (quotedStep _ _ _ _ _); reflexivity.
  - repeat match goal with
           | |- context [if ?x then _ else _] =>
               lazymatch x with
               | placeholderAt _ _ => fail
               | _ => destruct x; [reflexivity|]
               end
           end.
    destruct (readDollarTag _); [reflexivity|].
    destruct (placeholderAt q (offset c)) eqn:P; [|reflexivity].
    assert (byteAt q (offset c) = Some ":"%char) as H.
    { unfold placeholderAt in P. apply andb_prop in P as [P _].
      apply andb_prop in P as [P _]. apply andb_prop in P as [P _].
      change ":"%string with (str1 ":") in P. rewrite startsWith_1 in P.
      now apply byteIs_true. }
    destruct (startsWith q _ "{"); exact H.
  - destruct (_ || _); reflexivity.
  - destruct (startsWith q (offset c) "*/"); reflexivity.
  - destruct (if String.eqb (tag c) "" then None else _); reflexivity.
Qed.

Lemma string_length_0 (s : string) : String.length s = 0 -> s = "".
Proof. destruct s; [reflexivity|discriminate]. Qed.

Lemma run_without_colon d q cfg lookup rowsLookup :
  (forall i, byteAt q i <> Some ":"%char) ->
  forall fuel s,
    String.length q - pos s <= fuel ->
    run d q cfg lookup rowsLookup fuel s
    = Return (buf s +:+ from q (pos s)) (args s) None.
Proof.
  intros Hno fuel. induction fuel as [|f IH]; intros s Hf.
  - rewrite run_done by lia.
    rewrite (string_length_0 (from q (pos s))) by (rewrite length_from; lia).
    now rewrite append_nil_r.
  - destruct (le_lt_dec (String.length q) (pos s)) as [Hge|Hlt].
    + rewrite run_done by lia.
      rewrite (string_length_0 (from q (pos s))) by (rewrite length_from; lia).
      now rewrite append_nil_r.
    + rewrite run_step by exact Hlt. rewrite (step_lex d q cfg lookup rowsLookup s Hlt).
      pose proof (lexStep_progress d q (cursor_of s) Hlt) as P.
      pose proof (lexStep_shape d q (cursor_of s)) as S.
      destruct (lexStep d q (cursor_of s)) as [tok c'].
      cbn [fst snd cursor_of offset] in *.
      destruct tok as [w|name|name k]; try (now destruct (Hno (pos s))).
      cbn [stepOn]. rewrite IH by (cbn [pos]; lia). cbn [pos buf args].
      rewrite S, append_assoc. f_equal. f_equal.
      rewrite <- !slice_full. apply slice_append; lia.
Qed.

Lemma indexOf_None_byte c q :
  indexOf (str1 c) q = None -> forall i, byteAt q i <> Some c.
Proof.
  induction q as [|x q IH]; intros H i.
  - destruct i; discriminate.
  - pose proof (indexOf_None_prefix _ _ H) as P.
    apply indexOf_None_tail in H. destruct i as [|i].
    + cbn. intros [= ->]. cbn in P. now rewrite Ascii.eqb_refl in P.
    + apply (IH H i).
Qed.

(** X4: a template in which no colon occurs is returned unchanged, with
    no arguments and no error, for every dialect, binding and limit. *)
Theorem X4_template_without_colon_is_unchanged
  (d : Dialect) (q : string) (inputs : list value) (cfg : Config) :
  indexOf ":" q = None ->
  parse d q inputs cfg = Return q [] None.
Proof.
  intros H. unfold parse.
  rewrite run_without_colon; [|now apply indexOf_None_byte|cbn; lia].
  cbn [buf args pos initial]. rewrite append_nil_l.
  unfold from. now rewrite Nat.sub_0_r, substring_all.
Qed.

Lemma X4_template_without_colon_is_unchanged_witness :
  parse MySQL "SELECT 'a' # note" [] (MkConfig 0 0) = Return "SELECT 'a' # note" [] None.
Proof.
  apply X4_template_without_colon_is_unchanged. vm_compute. reflexivity.
Defined.

(** ** Names that are too long or not bound *)

(** X5: a placeholder or rows block whose name is longer than a positive
    [MaxNameLen] fails with [ErrParamNameTooLong] before anything is
    looked up, whatever is bound; the loop variables are unchanged. *)
Theorem X5_long_name_fails_before_lookup
  (d : Dialect) (q : string) (cfg : Config)
  (lookup : string -> option value)
  (rowsLookup : string -> lookupRes (list value))
  (s : pstate) (tok : token) (c' : cursor) (name : string) :
  pos s < String.length q ->
  lexStep d q (cursor_of s) = (tok, c') ->
  tok = TParam name \/ (exists k, tok = TBlock name k) ->
  (0 < MaxNameLen cfg)%Z ->
  (MaxNameLen cfg < Z.of_nat (String.length name))%Z ->
  step d q cfg lookup rowsLookup s = Fail (ErrParamNameTooLong name) s.
Proof.
  intros Hlt L Htok H0 H1.
  rewrite (step_lex d q cfg lookup rowsLookup s Hlt), L. cbn [fst snd].
  assert (nameTooLong cfg name = true) as Hn.
  { unfold nameTooLong. apply andb_true_intro. split; now apply Z.ltb_lt. }
  destruct Htok as [->|[k ->]]; cbn [stepOn]; now rewrite Hn.
Qed.

Lemma X5_long_name_fails_before_lookup_witness :
  step MySQL "a=:abcdef" (MkConfig 0 3) (fun _ => Some (vInt 1)) (fun _ => Missing)
       (PState 2 sText "" 0 "a=" [])
  = Fail (ErrParamNameTooLong "abcdef") (PState 2 sText "" 0 "a=" []).
Proof.
  apply (X5_long_name_fails_before_lookup MySQL "a=:abcdef" (MkConfig 0 3)
           (fun _ => Some (vInt 1)) (fun _ => Missing) (PState 2 sText "" 0 "a=" [])
           (TParam "abcdef") (Cursor 9 Plain "") "abcdef").
  - vm_compute. lia.
  - vm_compute. reflexivity.
  - now left.
  - reflexivity.
  - reflexivity.
Defined.

Lemma lookupFrom_none l name :
  Forall (fun y => singleLookup y name = None) l -> lookupFrom l name = None.
Proof. induction 1 as [|y l Hy _ IH]; simpl; [reflexivity|]. now rewrite Hy. Qed.

Lemma rowsLookupFrom_missing l name :
  Forall (fun y => singleRowsLookup y name = Missing) l -> rowsLookupFrom l name = Missing.
Proof. induction 1 as [|y l Hy _ IH]; simpl; [reflexivity|]. now rewrite Hy. Qed.

Lemma Forall_rev_list {A : Type} (P : A -> Prop) (l : list A) :
  Forall P l -> Forall P (List.rev l).
Proof.
  intros H. apply List.Forall_forall. intros x Hx. apply List.in_rev in Hx.
  revert x Hx. now apply List.Forall_forall.
Qed.

(** X6: a scalar placeholder whose name no input resolves fails with
    [ErrParamMissing], and so does a rows block with a well-formed,
    non-empty column list whose name no input resolves to rows; the loop
    variables are unchanged. *)
Theorem X6_unbound_name_is_missing
  (d : Dialect) (q : string) (cfg : Config) (inputs : list value)
  (s : pstate) (c' : cursor) (name : string) :
  pos s < String.length q ->
  nameTooLong cfg name = false ->
  (lexStep d q (cursor_of s) = (TParam name, c') ->
   Forall (fun y => singleLookup y name = None) inputs ->
   step d q cfg (makeLookup inputs) (makeRowsLookup inputs) s
   = Fail (ErrParamMissing name false) s)
  /\ (forall k k2 cols,
        lexStep d q (cursor_of s) = (TBlock name k, c') ->
        readCols q k = Some (k2, cols) -> cols <> [] ->
        Forall (fun y => singleRowsLookup y name = Missing) inputs ->
        step d q cfg (makeLookup inputs) (makeRowsLookup inputs) s
        = Fail (ErrParamMissing name true) s).
Proof.
  intros Hlt Hn. split.
  - intros L Hall. rewrite (step_lex _ _ _ _ _ s Hlt), L. cbn [fst snd stepOn].
    rewrite Hn. unfold makeLookup.
    now rewrite lookupFrom_none by now apply Forall_rev_list.
  - intros k k2 cols L Hr Hc Hall.
    rewrite (step_lex _ _ _ _ _ s Hlt), L. cbn [fst snd stepOn].
    rewrite Hn. unfold emitRowsBlock. rewrite Hr.
    assert (Nat.eqb (List.length cols) 0 = false) as ->
        by (destruct cols; [congruence|reflexivity]).
    unfold makeRowsLookup.
    now rewrite rowsLookupFrom_missing by now apply Forall_rev_list.
Qed.

Lemma X6_unbound_name_is_missing_witness :
  step MySQL "a=:b" (MkConfig 0 0) (makeLookup [bag [("a", vInt 1)]])
       (makeRowsLookup [bag [("a", vInt 1)]]) (PState 2 sText "" 0 "a=" [])
  = Fail (ErrParamMissing "b" false) (PState 2 sText "" 0 "a=" []).
Proof.
  assert (pos (PState 2 sText "" 0 "a=" []) < String.length "a=:b") as H
      by (vm_compute; lia).
  apply (proj1 (X6_unbound_name_is_missing MySQL "a=:b" (MkConfig 0 0)
                  [bag [("a", vInt 1)]] (PState 2 sText "" 0 "a=" [])
                  (Cursor 4 Plain "") "b" H eq_refl)).
  - vm_compute. reflexivity.
  - repeat constructor.
Defined.

(** ** Precedence of the inputs *)

(** X7: each of the two resolvers of [makeMultiResolver] returns what
    the last input that resolves the name gives, the earlier inputs being
    consulted only when all later ones miss, and nothing when no input
    resolves the name. *)
Theorem X7_last_input_wins (inputs : list value) (name : string) :
  (forall pre x post v,
      inputs = pre ++ x :: post ->
      singleLookup x name = Some v ->
      Forall (fun y => singleLookup y name = None) post ->
      makeLookup inputs name = Some v)
  /\ (Forall (fun y => singleLookup y name = None) inputs ->
      makeLookup inputs name = None)
  /\ (forall pre x post rows,
        inputs = pre ++ x :: post ->
        singleRowsLookup x name = Found rows ->
        Forall (fun y => singleRowsLookup y name = Missing) post ->
        makeRowsLookup inputs name = Found rows)
  /\ (Forall (fun y => singleRowsLookup y name = Missing) inputs ->
      makeRowsLookup inputs name = Missing).
Proof.
  split; [|split; [|split]].
  - intros pre x post v -> Hx Hpost. unfold makeLookup.
    rewrite rev_app_distr. cbn [List.rev]. rewrite <- app_assoc. cbn [app].
    apply Forall_rev_list in Hpost. revert Hpost.
    generalize (List.rev post). intros l Hl.
    induction Hl as [|y l Hy _ IH]; simpl; [now rewrite Hx|now rewrite Hy].
  - intros H. unfold makeLookup. apply lookupFrom_none. now apply Forall_rev_list.
  - intros pre x post v -> Hx Hpost. unfold makeRowsLookup.
    rewrite rev_app_distr. cbn [List.rev]. rewrite <- app_assoc. cbn [app].
    apply Forall_rev_list in Hpost. revert Hpost.
    generalize (List.rev post). intros l Hl.
    induction Hl as [|y l Hy _ IH]; simpl; [now rewrite Hx|now rewrite Hy].
  - intros H. unfold makeRowsLookup. apply rowsLookupFrom_missing.
    now apply Forall_rev_list.
Qed.

Lemma X7_last_input_wins_witness :
  makeLookup [bag [("id", vInt 1)]; bag [("id", vInt 2)]; bag [("x", vInt 3)]] "id"
  = Some (vInt 2)
  /\ makeRowsLookup [bag [("id", vInt 1)]; bag [("id", vInt 2)]; bag [("x", vInt 3)]]
                    "rows"
     = Missing.
Proof.
  destruct (X7_last_input_wins
              [bag [("id", vInt 1)]; bag [("id", vInt 2)]; bag [("x", vInt 3)]] "id")
    as (A & _).
  destruct (X7_last_input_wins
              [bag [("id", vInt 1)]; bag [("id", vInt 2)]; bag [("x", vInt 3)]] "rows")
    as (_ & _ & _ & B).
  split.
  - apply (A [bag [("id", vInt 1)]] (bag [("id", vInt 2)]) [bag [("x", vInt 3)]]
             (vInt 2) eq_refl).
    + vm_compute. reflexivity.
    + repeat constructor.
  - apply B. repeat constructor.
Defined.

(** ** Maps keyed by a defined string type *)

(** X8: a rows block that is looked up in a bound map whose key type is
    a defined string type (not [string] itself) panics: the name is
    passed to [MapIndex] as a [string], which is not assignable to the key
    type.  The panic occurs when the map is the last input bound, whatever
    the earlier inputs hold. *)
Theorem X8_rows_lookup_panics_on_defined_string_keys
  (d : Dialect) (q : string) (cfg : Config) (inputs : list value) (input : value)
  (ti : tinfo) (kt et : rtype)
  (s : pstate) (c' : cursor) (name : string) (k k2 : nat) (cols : list string) :
  pos s < String.length q ->
  lexStep d q (cursor_of s) = (TBlock name k, c') ->
  nameTooLong cfg name = false ->
  readCols q k = Some (k2, cols) -> cols <> [] ->
  typeOf input = Some (TMap ti kt et) ->
  kindOfType kt = String_ -> kt <> tString ->
  singleRowsLookup input name = Panics
  /\ step d q cfg (makeLookup (inputs ++ [input])) (makeRowsLookup (inputs ++ [input])) s
     = Crash.
Proof.
  intros Hlt L Hn Hr Hc Ht Hk Hne.
  assert (singleRowsLookup input name = Panics) as Hp.
  { unfold singleRowsLookup, IsValid, kindOf. rewrite Ht. cbn. rewrite Hk. cbn.
    destruct (rtype_eqb kt tString) eqn:E; [|reflexivity].
    apply rtype_eqb_eq in E. contradiction. }
  split; [exact Hp|].
  rewrite (step_lex _ _ _ _ _ s Hlt), L. cbn [fst snd stepOn].
  rewrite Hn. unfold emitRowsBlock. rewrite Hr.
  assert (Nat.eqb (List.length cols) 0 = false) as ->
      by (destruct cols; [congruence|reflexivity]).
  unfold makeRowsLookup. rewrite rev_app_distr. cbn. now rewrite Hp.
Qed.

(** ** Rows blocks that succeed *)

Lemma deIndirect_unwrapAll row :
  Kind_eqb (kindOf (deIndirect row)) Pointer = false ->
  Kind_eqb (kindOf (deIndirect row)) Interface = false ->
  unwrapAll row = Some (deIndirect row).
Proof.
  induction row as [v E|t x IH|x IH] using unwrap_ind; intros Hp Hi.
  - destruct v as [ |t x|t [x|]|x|t els|t els|t kvs|t fs|x|name];
      try discriminate; reflexivity.
  - cbn in *. now apply IH.
  - assert (x = VNil \/ x <> VNil) as [->|Hx]
        by (destruct x; auto; right; discriminate).
    + discriminate.
    + destruct (unwrapAll_iface x Hx) as [E1 E2]. rewrite E1, E2.
      rewrite E2 in Hp, Hi. now apply IH.
Qed.

Lemma columnPaths_indep fm cols name r paths :
  columnPaths fm cols name r = inr paths ->
  forall name' r', columnPaths fm cols name' r' = inr paths.
Proof.
  revert paths; induction cols as [|c cols IH]; intros paths H name' r'.
  - exact H.
  - cbn [columnPaths] in *. destruct (fm !! c) as [fi|]; [|discriminate].
    destruct (ambiguous fi); [discriminate|].
    destruct (columnPaths fm cols name r) as [e|ps]; [discriminate|].
    injection H as <-. now rewrite (IH ps eq_refl name' r').
Qed.

Lemma valueAtPath_column rv fm cols name r paths cidx col v :
  columnPaths fm cols name r = inr paths ->
  cols !! cidx = Some col ->
  valueAtPath rv paths cidx = Some v ->
  exists fi, fm !! col = Some fi /\ ambiguous fi = false
             /\ getValueByPathAny rv (index fi) = (v, true).
Proof.
  intros P Hcol H.
  destruct (columnPaths_lookup _ _ _ _ _ P _ _ Hcol) as (fi & E & A & Pi).
  exists fi. split; [exact E|]. split; [exact A|].
  unfold valueAtPath in H. rewrite Pi in H.
  destruct (getValueByPathAny rv (index fi)) as [w [|]]; [|discriminate].
  now injection H as ->.
Qed.

(** What the loop fetches for a column is the value of the column on the
    row. *)
Lemma fetchColumn_sound name r row fast colKeys cols cidx col cache cache' v :
  cacheOk cols cache ->
  cols !! cidx = Some col ->
  (fast = true ->
   exists kt, kindOf (deIndirect row) = Map
              /\ typeOf (deIndirect row) ≫= keyType = Some kt
              /\ colKeys = List.map (fun c => stringKey c kt) cols
              /\ stringConvertibleTo kt = true) ->
  fetchColumn name r row (deIndirect row) fast colKeys cols cidx col cache
  = inr (cache', Some v) ->
  columnOf row col = Some v /\ cacheOk cols cache'.
Proof.
  intros Hc Hcol Hfast. unfold fetchColumn.
  destruct (IsValid (deIndirect row) && Kind_eqb (kindOf (deIndirect row)) Struct) eqn:S.
  - apply andb_prop in S as [_ S].
    assert (kindOf (deIndirect row) = Struct) as K
        by (now destruct (kindOf (deIndirect row))).
    assert (unwrapAll row = Some (deIndirect row)) as U
        by (apply deIndirect_unwrapAll; now rewrite K).
    destruct (typeOf (deIndirect row)) as [t|] eqn:T; [|discriminate].
    assert (forall paths name' r',
               columnPaths (fieldIndexMap t) cols name' r' = inr paths ->
               valueAtPath (deIndirect row) paths cidx = Some v ->
               columnOf row col = Some v) as Hval.
    { intros paths name' r' P H.
      destruct (valueAtPath_column _ _ _ _ _ _ _ _ _ P Hcol H) as (fi & E & A & G).
      unfold columnOf. now rewrite U, K, T, E, A, G. }
    destruct (cacheGet cache t) as [paths|] eqn:C.
    + intros [= <- H]. split; [|exact Hc]. exact (Hval paths name r (Hc _ _ C name r) H).
    + destruct (columnPaths (fieldIndexMap t) cols name r) as [e|paths] eqn:P;
        [discriminate|].
      intros [= <- H]. split; [exact (Hval paths name r P H)|].
      apply cacheOk_cons; [|exact Hc]. intros. now apply columnPaths_indep with name r.
  - assert (kindOf (deIndirect row) <> Struct) as K.
    { intros K. unfold IsValid in S. rewrite K in S. discriminate. }
    destruct fast.
    + destruct (Hfast eq_refl) as (kt & Km & Hkt & -> & Hconv).
      rewrite list_lookup_fmap, Hcol.
      cbn [fmap option_fmap option_map mbind option_bind].
      intros [= <- H]. split; [|exact Hc].
      assert (unwrapAll row = Some (deIndirect row)) as U
          by (apply deIndirect_unwrapAll; now rewrite Km).
      unfold columnOf. rewrite U, Km. unfold reflectMapLookup. rewrite Hkt, Hconv.
      now rewrite andb_false_r.
    + unfold getColValue. destruct (isMapStringAny row) eqn:M.
      * intros [= <- H]. split; [|exact Hc]. now rewrite (isMapStringAny_lookup _ col M).
      * intros [= <- H]. split; [|exact Hc]. unfold columnOf.
        destruct (unwrapAll row) as [rv|] eqn:U; [|discriminate].
        rewrite (proj1 (unwrapAll_deIndirect _ _ U)) in K.
        destruct (kindOf rv); try discriminate; congruence.
Qed.

Lemma emitCols_sound d name r row fast colKeys cols :
  (fast = true ->
   exists kt, kindOf (deIndirect row) = Map
              /\ typeOf (deIndirect row) ≫= keyType = Some kt
              /\ colKeys = List.map (fun c => stringKey c kt) cols
              /\ stringConvertibleTo kt = true) ->
  forall rest cidx cache n out acc res,
    cacheOk cols cache ->
    (forall j col, rest !! j = Some col -> cols !! (cidx + j) = Some col) ->
    emitCols d name r row (deIndirect row) fast colKeys cols cidx rest cache n out acc
    = inr res ->
    cacheOk cols (fst (fst (fst res)))
    /\ forall col, In col rest -> is_Some (columnOf row col).
Proof.
  intros Hfast rest.
  induction rest as [|col rest IH]; intros cidx cache n out acc res Hc Hrest H.
  - cbn in H. injection H as <-. split; [exact Hc|]. intros col [].
  - cbn [emitCols] in H.
    assert (cols !! cidx = Some col) as Hcol
        by (rewrite <- (Nat.add_0_r cidx); now apply Hrest).
    destruct (fetchColumn name r row (deIndirect row) fast colKeys cols cidx col cache)
      as [e|[cache1 [v|]]] eqn:F; try discriminate.
    destruct (fetchColumn_sound _ _ _ _ _ _ _ _ _ _ _ Hc Hcol Hfast F) as [Hv Hc1].
    apply IH in H as [H1 H2]; [|exact Hc1|].
    + split; [exact H1|]. intros c [<-|Hin]; [now exists v|now apply H2].
    + intros j c Hj. replace (S cidx + j) with (cidx + S j) by lia. now apply Hrest.
Qed.

Lemma keysOk_weaken cols colKeys mapKeyT :
  keysOk cols colKeys mapKeyT ->
  forall ks, colKeys = Some ks ->
             exists kt, mapKeyT = Some kt
                        /\ ks = List.map (fun c => stringKey c kt) cols.
Proof. intros H ks E. destruct (H ks E) as (kt & A & B & _). now exists kt. Qed.

Lemma emitRows_sound d name colKeys mapKeyT cols :
  keysOk cols colKeys mapKeyT ->
  forall rows r cache n out acc res,
    cacheOk cols cache ->
    emitRows d name colKeys mapKeyT cols r rows cache n out acc = inr res ->
    forall row col, In row rows -> In col cols -> is_Some (columnOf row col).
Proof.
  intros Hkeys rows.
  induction rows as [|row rows IH]; intros r cache n out acc res Hc H row' col Hr Hin.
  - destruct Hr.
  - cbn [emitRows] in H.
    set (fast := _ && sameKeyType (deIndirect row) mapKeyT) in H.
    destruct (emitCols d name r row (deIndirect row) fast (default [] colKeys) cols 0
                       cols cache n _ acc) as [e|[[[cache1 n1] out1] acc1]] eqn:E;
      [discriminate|].
    apply emitCols_sound in E as [Hc1 Hcols]; [|clear E|exact Hc|now intros j c].
    + destruct Hr as [<-|Hr]; [now apply Hcols|].
      exact (IH _ _ _ _ _ _ Hc1 H row' col Hr Hin).
    + unfold fast. intros Hf.
      apply andb_prop in Hf as [Hf Hs]. apply andb_prop in Hf as [Hf Hm].
      apply andb_prop in Hf as [Hf _].
      destruct colKeys as [ks|]; [|discriminate].
      destruct (Hkeys ks eq_refl) as (kt & -> & -> & Hconv).
      unfold sameKeyType in Hs.
      destruct (typeOf (deIndirect row) ≫= keyType) as [a|] eqn:Ha; [|discriminate].
      apply rtype_eqb_eq in Hs as ->. exists kt.
      split; [now destruct (kindOf (deIndirect row))|]. now repeat split.
Qed.

(** The result of a rows block that continues. *)
Lemma emitRowsBlock_success d q cfg rowsLookup s name k s' :
  emitRowsBlock d q cfg rowsLookup s name k = Next s' ->
  exists k2 cols rows,
    readCols q k = Some (k2, cols) /\ cols <> []
    /\ rowsLookup name = Found rows /\ rows <> []
    /\ ensureAdd cfg (count s) (List.length rows * List.length cols) = None
    /\ (forall row col, In row rows -> In col cols -> is_Some (columnOf row col))
    /\ s' = PState k2 sText (dqTag s)
                   (count s + List.length rows * List.length cols)
                   (buf s +:+ tupleList d 0 (count s) (List.length rows) (List.length cols))
                   (args s ++ cellsOf rows cols).
Proof.
  unfold emitRowsBlock. intros H.
  destruct (readCols q k) as [[k2 cols]|] eqn:R; [|discriminate].
  destruct (Nat.eqb (List.length cols) 0) eqn:E0; [discriminate|].
  destruct (rowsLookup name) as [rows| |] eqn:L; try discriminate.
  destruct rows as [|row0 rows0] eqn:Erows; [discriminate|].
  destruct (ensureAdd cfg (count s) _) eqn:En; [discriminate|].
  cbv zeta in H.
  match type of H with
  | match ?pre with _ => _ end = _ =>
      assert (exists cache, cacheOk cols cache /\ pre = inr cache)
        as (cache & Hcache & Epre)
  end.
  { destruct (IsValid (deIndirect row0) && Kind_eqb (kindOf (deIndirect row0)) Struct);
      [|exists []; split; [apply cacheOk_nil|reflexivity]].
    destruct (typeOf (deIndirect row0)) as [t|];
      [|exists []; split; [apply cacheOk_nil|reflexivity]].
    destruct (columnPaths (fieldIndexMap t) cols name 0) as [e|paths] eqn:P.
    - discriminate H.
    - exists [(t, paths)]. split; [|reflexivity].
      apply cacheOk_cons; [|apply cacheOk_nil].
      intros. now apply columnPaths_indep with name 0. }
  rewrite Epre in H.
  match type of H with
  | match emitRows _ _ ?ck ?mk _ _ _ _ _ _ _ with _ => _ end = _ =>
      assert (keysOk cols ck mk) as Hkeys
  end.
  { intros ks.
    destruct (if IsValid (deIndirect row0) && Kind_eqb (kindOf (deIndirect row0)) Map
              then typeOf (deIndirect row0) ≫= keyType else None) as [kt|];
      [|discriminate].
    destruct (Kind_eqb (kindOfType kt) String_ || stringConvertibleTo kt) eqn:B;
      [|discriminate].
    intros [= <-]. exists kt. repeat split.
    unfold stringConvertibleTo in *. now destruct (Kind_eqb (kindOfType kt) String_). }
  match type of H with
  | match ?x with _ => _ end = _ => destruct x as [[[[e1 n1] out1] acc1]|res] eqn:E
  end; [discriminate|].
  pose proof (emitRows_sound _ _ _ _ _ Hkeys _ _ _ _ _ _ _ Hcache E) as Hall.
  rewrite (emitRows_resolved _ _ _ _ _ (keysOk_weaken _ _ _ Hkeys) _ _ _ _ _ _
             Hcache Hall) in E.
  injection E as <-. injection H as <-.
  exists k2, cols, (row0 :: rows0).
  split; [reflexivity|]. split; [now destruct cols|]. split; [reflexivity|].
  split; [discriminate|]. split; [exact En|]. split; [exact Hall|reflexivity].
Qed.

(** X9: a rows block is replaced by tuples only if every requested
    column resolves on every row: when the iteration at a rows block
    continues, each column has a value on each row, the parameter limit
    admits all of them, and the counter, the text and the arguments are
    extended by exactly rows times columns placeholders and values. *)
Theorem X9_rows_block_succeeds_only_if_all_columns_resolve
  (d : Dialect) (q : string) (cfg : Config)
  (lookup : string -> option value)
  (rowsLookup : string -> lookupRes (list value))
  (s s' : pstate) (name : string) (k : nat) (c' : cursor) :
  pos s < String.length q ->
  lexStep d q (cursor_of s) = (TBlock name k, c') ->
  step d q cfg lookup rowsLookup s = Next s' ->
  exists k2 cols rows,
    readCols q k = Some (k2, cols) /\ cols <> []
    /\ rowsLookup name = Found rows /\ rows <> []
    /\ (forall row col, In row rows -> In col cols -> is_Some (columnOf row col))
    /\ count s' = count s + List.length rows * List.length cols
    /\ buf s' = buf s +:+ tupleList d 0 (count s) (List.length rows) (List.length cols)
    /\ args s' = args s ++ cellsOf rows cols.
Proof.
  intros Hlt L H.
  rewrite (step_lex d q cfg lookup rowsLookup s Hlt), L in H. cbn [fst snd stepOn] in H.
  destruct (nameTooLong cfg name); [discriminate|].
  apply emitRowsBlock_success in H
    as (k2 & cols & rows & R & Hc & Hl & Hr & _ & Hall & ->).
  exists k2, cols, rows. now repeat split.
Qed.

(** ** The parameter limit *)

Lemma ensureAdd_inv cfg cur add e :
  ensureAdd cfg cur add = Some e ->
  e = ErrTooManyParams (Z.of_nat (cur + add)) (MaxParams cfg)
  /\ (0 < MaxParams cfg < Z.of_nat (cur + add))%Z.
Proof.
  unfold ensureAdd.
  destruct (0 <? MaxParams cfg)%Z eqn:E1; [|discriminate].
  destruct (MaxParams cfg <? Z.of_nat (cur + add))%Z eqn:E2; [|discriminate].
  intros [= <-]. apply Z.ltb_lt in E1, E2. split; [reflexivity|lia].
Qed.

Lemma ensureAdd_within cfg cur add :
  ensureAdd cfg cur add = None ->
  (0 < MaxParams cfg)%Z -> (Z.of_nat (cur + add) <= MaxParams cfg)%Z.
Proof.
  unfold ensureAdd. intros H H0. apply Z.ltb_lt in H0. rewrite H0 in H.
  destruct (MaxParams cfg <? Z.of_nat (cur + add))%Z eqn:E; [discriminate|].
  now apply Z.ltb_ge in E.
Qed.

Lemma emitOne_extends d cfg s k arg s' :
  emitOne d cfg s k arg = Next s' -> extends cfg s s'.
Proof.
  unfold emitOne. destruct (ensureAdd cfg (count s) 1) eqn:E; [discriminate|].
  intros [= <-]. exists 1. cbn. rewrite length_app. cbn.
  split; [lia|]. split; [reflexivity|]. intros H0 _.
  pose proof (ensureAdd_within _ _ _ E H0). lia.
Qed.

Lemma emitValue_extends d cfg s name k v s' :
  emitValue d cfg s name k v = Next s' -> extends cfg s s'.
Proof.
  unfold emitValue. intros H.
  repeat match type of H with
         | emitOne _ _ _ _ _ = _ => apply emitOne_extends in H; exact H
         | Fail _ _ = Next _ => discriminate
         | context [emitElems] =>
             rewrite emitElems_spec in H; injection H as <-;
             eexists; cbn; rewrite length_app, length_map;
             split; [reflexivity|]; split; [reflexivity|];
             intros H0 _; eapply ensureAdd_within; eassumption
         | context [match ?x with _ => _ end] => destruct x eqn:?
         end.
Qed.

Lemma step_extends d q cfg lookup rowsLookup s s' :
  pos s < String.length q ->
  step d q cfg lookup rowsLookup s = Next s' -> extends cfg s s'.
Proof.
  intros Hlt H. rewrite (step_lex d q cfg lookup rowsLookup s Hlt) in H.
  destruct (lexStep d q (cursor_of s)) as [[w|name|name k] c']; cbn [fst snd stepOn] in H.
  - injection H as <-. exists 0. cbn. rewrite !Nat.add_0_r. auto.
  - destruct (nameTooLong cfg name); [discriminate|].
    destruct (lookup name); [|discriminate]. now apply emitValue_extends in H.
  - destruct (nameTooLong cfg name); [discriminate|].
    apply emitRowsBlock_success in H
      as (k2 & cols & rows & _ & _ & _ & _ & En & Hall & ->).
    exists (List.length rows * List.length cols). cbn.
    rewrite length_app, (cellsOf_length _ _ Hall).
    split; [reflexivity|]. split; [reflexivity|].
    intros H0 _. now apply ensureAdd_within.
Qed.

Lemma run_within d q cfg lookup rowsLookup fuel : forall s text arguments,
  List.length (args s) = count s ->
  ((0 < MaxParams cfg)%Z -> (Z.of_nat (count s) <= MaxParams cfg)%Z) ->
  run d q cfg lookup rowsLookup fuel s = Return text arguments None ->
  (0 < MaxParams cfg)%Z -> (Z.of_nat (List.length arguments) <= MaxParams cfg)%Z.
Proof.
  induction fuel as [|f IH]; intros s text arguments Ha Hc H H0.
  - cbn in H. destruct (String.length q <=? pos s); [|discriminate].
    injection H as _ <-. rewrite Ha. auto.
  - cbn [run] in H. destruct (String.length q <=? pos s) eqn:E.
    + injection H as _ <-. rewrite Ha. auto.
    + apply Nat.leb_gt in E.
      destruct (step d q cfg lookup rowsLookup s) as [s1|e s1|] eqn:S; try discriminate.
      destruct (step_extends _ _ _ _ _ _ _ E S) as (add & C1 & A1 & L1).
      apply (IH s1 text arguments); auto; lia.
Qed.

(** X10: when [parse] succeeds under a positive [MaxParams], the number
    of arguments it returns is at most [MaxParams]. *)
Theorem X10_arguments_within_limit
  (d : Dialect) (q : string) (inputs : list value) (cfg : Config)
  (text : string) (arguments : list value) :
  parse d q inputs cfg = Return text arguments None ->
  (0 < MaxParams cfg)%Z ->
  (Z.of_nat (List.length arguments) <= MaxParams cfg)%Z.
Proof.
  unfold parse. apply run_within; [reflexivity|]. cbn. lia.
Qed.

Lemma X10_arguments_within_limit_witness :
  (Z.of_nat (List.length [vInt 10; vInt 11; vStr "x"]) <= 3)%Z.
Proof.
  apply (X10_arguments_within_limit Postgres "a IN (:ids) AND b=:b"
           [bag [("ids", VSlice (TSlice anon tInt) [vInt 10; vInt 11]); ("b", vStr "x")]]
           (MkConfig 3 64) "a IN ($1, $2) AND b=$3" [vInt 10; vInt 11; vStr "x"]).
  - vm_compute. reflexivity.
  - reflexivity.
Defined.

Lemma columnPaths_error fm cols name r e :
  columnPaths fm cols name r = inl e -> notLimit e.
Proof.
  induction cols as [|c cols IH]; cbn [columnPaths]; [discriminate|].
  destruct (fm !! c) as [fi|]; [|intros [= <-] ? ?; discriminate].
  destruct (ambiguous fi); [intros [= <-] ? ?; discriminate|].
  destruct (columnPaths fm cols name r) as [e'|ps]; [|discriminate].
  intros [= <-]. now apply IH.
Qed.

Lemma fetchColumn_error name r row rv fast colKeys cols cidx col cache e :
  fetchColumn name r row rv fast colKeys cols cidx col cache = inl e -> notLimit e.
Proof.
  unfold fetchColumn. destruct (IsValid rv && _).
  - destruct (typeOf rv) as [t|]; [|discriminate].
    destruct (cacheGet cache t); [discriminate|].
    destruct (columnPaths (fieldIndexMap t) cols name r) as [e'|ps] eqn:P; [|discriminate].
    intros [= <-]. now apply columnPaths_error in P.
  - destruct fast; discriminate.
Qed.

Lemma emitCols_error d name r row rv fast colKeys cols :
  forall rest cidx cache n out acc e n' out' acc',
    emitCols d name r row rv fast colKeys cols cidx rest cache n out acc
    = inl (e, n', out', acc') -> notLimit e.
Proof.
  induction rest as [|col rest IH]; intros cidx cache n out acc e n' out' acc' H;
    [discriminate|].
  cbn [emitCols] in H.
  destruct (fetchColumn name r row rv fast colKeys cols cidx col cache)
    as [e1|[cache1 [v|]]] eqn:F.
  - injection H as <- _ _ _. now apply fetchColumn_error in F.
  - now apply IH in H.
  - injection H as <- _ _ _. intros ? ?. discriminate.
Qed.

Lemma emitRows_error d name colKeys mapKeyT cols :
  forall rows r cache n out acc e n' out' acc',
    emitRows d name colKeys mapKeyT cols r rows cache n out acc
    = inl (e, n', out', acc') -> notLimit e.
Proof.
  induction rows as [|row rows IH]; intros r cache n out acc e n' out' acc' H;
    [discriminate|].
  cbn [emitRows] in H.
  match type of H with
  | match ?x with _ => _ end = _ =>
      destruct x as [[[[e1 n1] out1] acc1]|[[[cache1 n1] out1] acc1]] eqn:E
  end.
  - injection H as <- _ _ _. now apply emitCols_error in E.
  - now apply IH in H.
Qed.

(** An iteration fails with [ErrTooManyParams] only from [ensureAdd]. *)
Lemma step_limit_error d q cfg lookup rowsLookup s s' req lim :
  pos s < String.length q ->
  step d q cfg lookup rowsLookup s = Fail (ErrTooManyParams req lim) s' ->
  lim = MaxParams cfg /\ (0 < lim < req)%Z.
Proof.
  intros Hlt H. rewrite (step_lex d q cfg lookup rowsLookup s Hlt) in H.
  assert (forall cur add,
             ensureAdd cfg cur add = Some (ErrTooManyParams req lim) ->
             lim = MaxParams cfg /\ (0 < lim < req)%Z) as He.
  { intros cur add E. apply ensureAdd_inv in E as [[= -> ->] E]. now split. }
  destruct (lexStep d q (cursor_of s)) as [[w|name|name k] c']; cbn [fst snd stepOn] in H.
  - discriminate.
  - destruct (nameTooLong cfg name); [discriminate|].
    destruct (lookup name) as [v|]; [|discriminate].
    unfold emitValue, emitOne in H.
    repeat match type of H with
           | Fail ?e _ = Fail _ _ =>
               injection H as -> _; first [eapply He; eassumption | discriminate]
           | Next _ = Fail _ _ => discriminate
           | Fail _ _ = Fail _ _ => discriminate
           | context [emitElems] => rewrite emitElems_spec in H
           | context [match ?x with _ => _ end] => destruct x eqn:?
           end.
  - destruct (nameTooLong cfg name); [discriminate|].
    unfold emitRowsBlock in H.
    destruct (readCols q k) as [[k2 cols]|]; [|discriminate].
    destruct (Nat.eqb (List.length cols) 0); [discriminate|].
    destruct (rowsLookup name) as [rows| |]; try discriminate.
    destruct rows as [|row0 rows0]; [discriminate|].
    destruct (ensureAdd cfg (count s) _) as [e|] eqn:En.
    { injection H as -> _. now apply He in En. }
    cbv zeta in H.
    match type of H with
    | match ?pre with _ => _ end = _ => destruct pre as [e|cache] eqn:Epre
    end.
    + injection H as -> _. exfalso.
      destruct (IsValid (deIndirect row0) && _); [|discriminate].
      destruct (typeOf (deIndirect row0)) as [t|]; [|discriminate].
      destruct (columnPaths (fieldIndexMap t) cols name 0) as [e|paths] eqn:P;
        [|discriminate].
      injection Epre as ->. now apply columnPaths_error in P as P'; apply (P' req lim).
    + match type of H with
      | match ?x with _ => _ end = _ =>
          destruct x as [[[[e1 n1] out1] acc1]|[[n1 out1] acc1]] eqn:E
      end; [|discriminate].
      injection H as -> _. exfalso.
      apply emitRows_error in E. now apply (E req lim).
Qed.

(** X11: [parse] returns [ErrTooManyParams] only when [MaxParams] is
    positive and the number of placeholders requested exceeds it; the
    error carries that number and the limit.  With a limit that is zero or
    negative the error never occurs. *)
Theorem X11_limit_error_only_when_exceeded
  (d : Dialect) (q : string) (inputs : list value) (cfg : Config)
  (text : string) (arguments : list value) (req lim : Z) :
  parse d q inputs cfg = Return text arguments (Some (ErrTooManyParams req lim)) ->
  lim = MaxParams cfg /\ (0 < lim < req)%Z.
Proof.
  unfold parse. generalize (String.length q) at 1. generalize initial.
  intros s fuel; revert s; induction fuel as [|f IH]; intros s; cbn [run].
  - destruct (String.length q <=? pos s); discriminate.
  - destruct (String.length q <=? pos s) eqn:E; [discriminate|].
    apply Nat.leb_gt in E.
    destruct (step d q cfg (makeLookup inputs) (makeRowsLookup inputs) s)
      as [s1|e s1|] eqn:S; [apply IH| |discriminate].
    intros [= _ _ ->]. now apply step_limit_error in S.
Qed.

Lemma X11_limit_error_only_when_exceeded_witness :
  (1 = MaxParams (MkConfig 1 64) /\ 0 < 1 < 2)%Z.
Proof.
  apply (X11_limit_error_only_when_exceeded MySQL "a=:a AND b=:b"
           [bag [("a", vInt 1); ("b", vStr "x")]] (MkConfig 1 64) "" [] 2 1).
  vm_compute. reflexivity.
Defined.

(** ** Names with one leaf or none *)

Lemma addLeaves_absent l : forall (m : gmap string fieldInfo) name,
  count_occ string_dec (List.map fst l) name = 0 ->
  addLeaves l m !! name = m !! name.
Proof.
  induction l as [|[n fi] l IH]; intros m name H; [reflexivity|].
  cbn [List.map fst count_occ] in H.
  destruct (string_dec n name) as [->|Hn]; [discriminate|].
  unfold addLeaves in *. cbn [fold_left fst snd]. rewrite IH by exact H.
  now apply addLeaf_lookup_other.
Qed.

Lemma addLeaves_single l : forall (m : gmap string fieldInfo) name,
  m !! name = None ->
  count_occ string_dec (List.map fst l) name = 1 ->
  exists fi, In (name, fi) l /\ addLeaves l m !! name = Some fi.
Proof.
  induction l as [|[n fi] l IH]; intros m name Hm H; [discriminate|].
  cbn [List.map fst count_occ] in H.
  destruct (string_dec n name) as [->|Hn].
  - exists fi. split; [now left|].
    unfold addLeaves in *. cbn [fold_left fst snd].
    change (fold_left _ l ?x) with (addLeaves l x).
    rewrite addLeaves_absent by lia. now rewrite addLeaf_lookup_same, Hm.
  - destruct (IH (addLeaf m n fi) name) as (fi' & Hin & Hl); [|exact H|].
    + now rewrite addLeaf_lookup_other.
    + exists fi'. split; [now right|exact Hl].
Qed.

Lemma leavesFields_unambiguous descend path fs :
  Forall (fun x => forall p n fi, In (n, fi) (descend (snd x) p) -> ambiguous fi = false) fs ->
  forall i n fi, In (n, fi) (leavesFields descend path i fs) -> ambiguous fi = false.
Proof.
  induction 1 as [|[f ft] fs Hx _ IH]; intros i n fi Hin; [destruct Hin|].
  cbn [leavesFields] in Hin.
  destruct (negb (String.eqb (fPkgPath f) "") || String.eqb (fTag f) "-");
    [now apply IH in Hin|].
  destruct (shouldFlatten ft).
  - apply in_app_or in Hin as [Hin|Hin]; [now apply Hx in Hin|now apply IH in Hin].
  - destruct Hin as [[= _ <-]|Hin]; [reflexivity|now apply IH in Hin].
Qed.

Lemma leavesFrom_unambiguous rt : forall visited path n fi,
  In (n, fi) (leavesFrom rt visited path) -> ambiguous fi = false.
Proof.
  induction rt as [k ti|e IH| |ti e IH|ti n0 e IH|ti k e IHk IHe|ti fs IH|ti]
    using rtype_nested_ind; intros visited path n fi Hin; try (now destruct Hin).
  - cbn in Hin. now apply IH in Hin.
  - cbn [leavesFrom] in Hin.
    destruct (existsb (rtype_eqb (TStruct ti fs)) visited); [now destruct Hin|].
    eapply leavesFields_unambiguous; [|exact Hin].
    eapply Forall_impl; [exact IH|]. intros [f ft] Hft p n' fi' H'. cbn [snd] in *.
    now apply Hft in H'.
Qed.

(** X12: the field index holds exactly the names that its leaves
    expose: a name that no leaf exposes is absent, a name that one leaf
    exposes maps to the path and scalar flag of that leaf and is not
    ambiguous, and a name that several leaves expose is ambiguous. *)
Theorem X12_field_index_by_leaf_count (t : rtype) (name : string) :
  match fieldIndexMap t !! name with
  | None => leafCount t name = 0
  | Some fi =>
      if ambiguous fi then 2 <= leafCount t name
      else leafCount t name = 1 /\ In (name, fi) (leaves t)
  end.
Proof.
  destruct (Nat.lt_trichotomy (leafCount t name) 1) as [H|[H|H]].
  - assert (leafCount t name = 0) as H0 by lia.
    rewrite fieldIndexMap_leaves. unfold leafCount in H0.
    now rewrite (addLeaves_absent _ ∅ _ H0), lookup_empty.
  - rewrite fieldIndexMap_leaves. unfold leafCount in H.
    destruct (addLeaves_single (leaves t) ∅ name (lookup_empty _) H) as (fi & Hin & ->).
    unfold leaves in Hin. rewrite (leavesFrom_unambiguous _ _ _ _ _ Hin).
    split; [exact H|exact Hin].
  - destruct (fieldIndexMap_ambiguous t name H) as (fi & -> & ->). exact H.
Qed.

Lemma X12_field_index_by_leaf_count_witness :
  leafCount tUser "name" = 1
  /\ In ("name", FieldInfo [1] false false) (leaves tUser)
  /\ leafCount tUser "email" = 0
  /\ 2 <= leafCount tPair "id"
  /\ leafCount tNode "id" = 1
  /\ In ("id", FieldInfo [0] false false) (leaves tNode).
Proof.
  pose proof (X12_field_index_by_leaf_count tUser "name") as A.
  pose proof (X12_field_index_by_leaf_count tUser "email") as B.
  pose proof (X12_field_index_by_leaf_count tPair "id") as C.
  pose proof (X12_field_index_by_leaf_count tNode "id") as D.
  vm_compute in A, B, C, D. destruct A as [A1 A2]. destruct D as [D1 D2].
  split; [exact A1|]. split; [exact A2|]. split; [exact B|]. split; [exact C|].
  split; [exact D1|exact D2].
Defined.

(** ** Setting a field by its path *)

(** X13: after [setFieldByIndex] has set a value at a path of a struct,
    the field at the path holds the value, with the nil pointers between
    the root and the leaf allocated, and every field at a path that parts
    from the path is as before. *)
Theorem X13_setFieldByIndex_sets_only_its_path
  (d d' : value) (p : list nat) (x : value) :
  p <> [] ->
  setFieldByIndex d p x = Some d' ->
  fieldAt d' p = Some x
  /\ forall p' f, disjointPaths p p' = true ->
                  fieldAt d p' = Some f -> fieldAt d' p' = Some f.
Proof.
  intros Hp H. split; [now apply setFieldByIndex_same with d|].
  intros p' f Hd Hf. unfold setFieldByIndex in H.
  now apply (updatePath_frame p d p' (fun _ => x) d' f).
Qed.

Lemma X13_setFieldByIndex_sets_only_its_path_witness :
  setFieldByIndex emptyHolder [0; 0] (vInt 5)
  = Some (VStruct tHolder [VPtr (tInner "X") (Some (VStruct (tInner "X") [vInt 5])); vInt 7])
  /\ fieldAt (VStruct tHolder
                      [VPtr (tInner "X") (Some (VStruct (tInner "X") [vInt 5])); vInt 7])
             [0; 0] = Some (vInt 5)
  /\ fieldAt (VStruct tHolder
                      [VPtr (tInner "X") (Some (VStruct (tInner "X") [vInt 5])); vInt 7])
             [1] = Some (vInt 7).
Proof.
  assert (setFieldByIndex emptyHolder [0; 0] (vInt 5)
          = Some (VStruct tHolder
                          [VPtr (tInner "X") (Some (VStruct (tInner "X") [vInt 5])); vInt 7]))
    as H by (vm_compute; reflexivity).
  destruct (X13_setFieldByIndex_sets_only_its_path emptyHolder _ [0; 0] (vInt 5)
              ltac:(discriminate) H) as [A B].
  split; [exact H|]. split; [exact A|].
  apply (B [1] (vInt 7)); reflexivity.
Defined.

(** ** The shape of a scan plan *)

(** X14: a scan plan has one entry per result column, in order; a
    column whose name is not in the field index of the destination is
    discarded into a sink, every other column is mapped to the path of its
    leaf, and the columns listed as optional leaves are those of kind
    [ckPtr]. *)
Theorem X14_plan_has_one_entry_per_column
  (cols : list string) (t : rtype) (plan : scanPlan) :
  buildScanPlan cols t = Done plan ->
  List.length (kinds plan) = List.length cols
  /\ (forall i col,
        cols !! i = Some col ->
        match fieldIndexMap t !! col with
        | None => kinds plan !! i = Some ckSink /\ fPath plan !! i = Some []
        | Some fi =>
            ambiguous fi = false
            /\ fPath plan !! i = Some (index fi)
            /\ exists kind, kinds plan !! i = Some kind /\ kind <> ckSink
        end)
  /\ (forall i, i < List.length cols ->
                (In i (ptrIdx plan) <-> kinds plan !! i = Some ckPtr)).
Proof.
  intros H. destruct (buildScanPlan_columns _ _ _ H) as (Hlen & Hcols & Hptr).
  split; [exact Hlen|]. split.
  - intros i col Hc. destruct (Hcols i col Hc) as (en & He & Hk & Hp & _).
    unfold colEntry in He. rewrite fieldIndexMap_deref in He.
    destruct (fieldIndexMap t !! col) as [fi|].
    + destruct (ambiguous fi); [discriminate|]. split; [reflexivity|].
      destruct (FieldByIndexType (derefType t) (index fi)) as [ft|]; [|discriminate].
      destruct (isScannerField ft); [|destruct (Kind_eqb (kindOfType ft) Pointer)];
        injection He as <-; cbn in Hk, Hp; (split; [exact Hp|]);
        eexists; (split; [exact Hk|discriminate]).
    + injection He as <-. now split.
  - intros i Hi. split; [apply Hptr|]. intros Hk.
    destruct (lookup_lt_is_Some_2 cols i Hi) as [col Hc].
    destruct (Hcols i col Hc) as (en & _ & Hk' & _ & _ & Hin).
    apply Hin. rewrite Hk in Hk'. now injection Hk' as <-.
Qed.

Lemma X14_plan_has_one_entry_per_column_witness :
  List.length (kinds planRec) = 2
  /\ kinds (ScanPlan [ckValue; ckSink] [[0]; []] [] [None; None]) !! 1 = Some ckSink.
Proof.
  destruct (X14_plan_has_one_entry_per_column ["a"; "b"] tRec planRec) as (A & _ & _);
    [vm_compute; reflexivity|].
  destruct (X14_plan_has_one_entry_per_column ["a"; "zz"] tRec
              (ScanPlan [ckValue; ckSink] [[0]; []] [] [None; None])) as (_ & B & _);
    [vm_compute; reflexivity|].
  split; [exact A|]. specialize (B 1 "zz" eq_refl). vm_compute in B. exact (proj1 B).
Defined.

(** ** The elements of a multi-row scan *)

Lemma scanAllRows_length convertNonNull scanMethod plan structT isPtr backing :
  forall rows out s log outs log',
    scanAllRows convertNonNull scanMethod plan structT isPtr backing rows out s log
    = Done (outs, log') ->
    List.length outs = List.length out + List.length rows.
Proof.
  induction rows as [|row rows IH]; intros out s log outs log' H.
  - cbn in H. injection H as <- _. cbn. lia.
  - cbn [scanAllRows] in H.
    destruct (scanRow _ _ _ _ _ _ _ _ _) as [m| |]; try discriminate.
    apply IH in H. rewrite length_app in H. cbn in *. lia.
Qed.

(** X15: a multi-row scan that succeeds returns one element per row of
    the result, whatever the destination slice held before; elements that
    are structs, pointers to structs, or single values. *)
Theorem X15_scanAll_returns_one_element_per_row
  (convertNonNull scanMethod : rtype -> driverValue -> option value)
  (cols : list string) (rows : list (list driverValue)) (elemT : rtype)
  (backing outs : list value) (log : list (nat * driverValue)) :
  scanAll convertNonNull scanMethod cols rows elemT backing = Done (outs, log) ->
  List.length outs = List.length rows.
Proof.
  unfold scanAll. intros H.
  assert (forall structT isPtr,
             match getScanPlan cols structT with
             | Done plan =>
                 scanAllRows convertNonNull scanMethod plan structT isPtr backing rows []
                             (newState plan) []
             | Failed e => Failed e
             | Panicked => Panicked
             end = Done (outs, log) ->
             List.length outs = List.length rows) as Hs.
  { intros structT isPtr H'. destruct (getScanPlan cols structT); try discriminate.
    now apply scanAllRows_length in H'. }
  assert (forall out l,
             (fix items (rows : list (list driverValue)) (out : list value)
                  (log : list (nat * driverValue)) :=
                match rows with
                | [] => Done (out, log)
                | row :: rest =>
                    match row with
                    | [src] =>
                        let '(r, l) := convertAssign convertNonNull scanMethod 0 elemT src in
                        match r with
                        | inl e => Failed e
                        | inr x => items rest (out ++ [x]) (log ++ l)
                        end
                    | _ => Failed (EShape "sql: expected destination arguments in Scan")
                    end
                end) rows out l = Done (outs, log) ->
             List.length outs = List.length out + List.length rows) as Hi.
  { clear H Hs. induction rows as [|row rows IH]; intros out l H.
    - injection H as <- _. cbn. lia.
    - destruct row as [|src [|? ?]]; try discriminate.
      destruct (convertAssign convertNonNull scanMethod 0 elemT src) as [[e|x] l'];
        [discriminate|].
      apply IH in H. rewrite length_app in H. cbn in *. lia. }
  destruct (kindOfType elemT);
    try (destruct (negb _); [discriminate|]; now apply Hi in H).
  - destruct (_ && _); [discriminate|]. now apply Hs in H.
  - destruct (_ && _); [discriminate|]. now apply Hs in H.
Qed.

Lemma X15_scanAll_returns_one_element_per_row_witness :
  List.length [VStruct tRec [vInt 1; VPtr tString (Some (vStr "x"))];
               VStruct tRec [vInt 3; VPtr tString None]] = 2.
Proof.
  apply (X15_scanAll_returns_one_element_per_row basicConvert noteScan ["a"; "b"]
           [[DInt64 1; DString "x"]; [DInt64 3; DNull]] tRec [] _ []).
  vm_compute. reflexivity.
Defined.

(** ** NULL into a leaf that is not optional *)

Lemma convertAssign_null_rejected convertNonNull scanMethod col ft :
  rejectsNull ft = true ->
  convertAssign convertNonNull scanMethod col ft DNull = (inl (EConvert col), []).
Proof.
  unfold rejectsNull. intros H.
  apply andb_prop in H as [H H5]. apply andb_prop in H as [H H4].
  apply andb_prop in H as [H H3]. apply andb_prop in H as [H1 H2].
  apply negb_true_iff in H1, H2, H3, H4, H5.
  destruct ft; cbn [convertAssign]; rewrite ?H1, ?H2, ?H4, ?H5; try reflexivity;
    try discriminate.
Qed.

Lemma assignColumns_null_rejected convertNonNull scanMethod tgts :
  forall i0 row m k path ft m',
    tgts !! k = Some (Some (ToField path ft)) ->
    row !! k = Some DNull ->
    rejectsNull ft = true ->
    assignColumns convertNonNull scanMethod i0 tgts row m <> Done m'.
Proof.
  induction tgts as [|tg tgts IH]; intros i0 row m k path ft m' Ht Hr Hn;
    [discriminate|].
  destruct row as [|src row]; [discriminate|].
  destruct k as [|k].
  - cbn in Ht, Hr. injection Ht as ->. injection Hr as ->.
    cbn [assignColumns]. rewrite (convertAssign_null_rejected _ _ _ _ Hn). discriminate.
  - cbn in Ht, Hr. cbn [assignColumns].
    destruct tg as [[j|p t|j t]|]; try discriminate.
    + now apply IH with k path ft.
    + destruct (convertAssign convertNonNull scanMethod i0 t src) as [[e|x] l];
        [discriminate|].
      destruct (setFieldByIndex (dst m) p x); [|discriminate].
      now apply IH with k path ft.
    + destruct (convertAssign convertNonNull scanMethod i0 t src) as [[e|x] l];
        [discriminate|].
      now apply IH with k path ft.
Qed.

Lemma scanRow_null_rejected convertNonNull scanMethod plan structT alloc i ft :
  kinds plan !! i = Some ckValue ->
  FieldByIndexType structT (planPath plan i) = Some ft ->
  rejectsNull ft = true ->
  forall row d s log m,
    sized (List.length (kinds plan)) s ->
    row !! i = Some DNull ->
    scanRow convertNonNull scanMethod plan structT alloc row d s log <> Done m.
Proof.
  intros Hk Hft Hn row d s log m Hs Hrow. unfold scanRow.
  destruct (prepareTargets plan structT alloc 0 (kinds plan) (ScanMem d s log) [])
    as [[m0 acc]|] eqn:P; [|discriminate].
  destruct (prepareTargets_spec plan structT alloc (kinds plan) 0 [] (ScanMem d s log)
              [] m0 acc (List.length (kinds plan)) eq_refl eq_refl Hs (le_n _) P)
    as (_ & _ & _ & Ht & _).
  destruct (Ht i) as (tg & Htg & Hti).
  { apply lookup_lt_Some in Hk. lia. }
  unfold targetOf in Htg. rewrite Hk in Htg. fold (planPath plan i) in Htg.
  rewrite Hft in Htg. injection Htg as <-.
  unfold rowsScan. destruct (negb _); [discriminate|].
  destruct (assignColumns _ _ 0 _ row m0) as [m1| |] eqn:A; try discriminate.
  exfalso. revert A. now apply assignColumns_null_rejected with i (planPath plan i) ft.
Qed.

(** X16: a NULL in a column that is mapped to a leaf that is no
    pointer and no interface, neither [[]byte] nor [sql.RawBytes], and
    has no [Scan] method makes the scan of the row fail: a single-row
    scan into a struct never returns success for such a row. *)
Theorem X16_null_into_plain_leaf_fails
  (convertNonNull scanMethod : rtype -> driverValue -> option value)
  (cols : list string) (structT : rtype)
  (i : nat) (col : string) (fi : fieldInfo) (ft : rtype)
  (row : list driverValue) (d d' : value) (log : list (nat * driverValue)) :
  kindOfType structT = Struct ->
  typeOf d = Some structT ->
  cols !! i = Some col ->
  fieldIndexMap structT !! col = Some fi ->
  FieldByIndexType structT (index fi) = Some ft ->
  isScannerField ft = false ->
  rejectsNull ft = true ->
  row !! i = Some DNull ->
  scanOneWithPlan convertNonNull scanMethod cols row d <> Done (d', log).
Proof.
  intros Hk Ht Hc Hfi Hft Hs Hn Hrow. unfold scanOneWithPlan.
  replace (structTypeOf d) with structT by (unfold structTypeOf; now rewrite Ht).
  destruct (getScanPlan cols structT) as [plan| |] eqn:P; try discriminate.
  rewrite (derefType_struct _ Hk).
  unfold getScanPlan in P. destruct (buildScanPlan_columns _ _ _ P) as (_ & Hcols & _).
  destruct (Hcols i col Hc) as (en & He & Hkind & Hpath & _).
  rewrite derefType_idem, (derefType_struct _ Hk) in He.
  unfold colEntry in He. rewrite Hfi in He.
  destruct (ambiguous fi); [discriminate|]. rewrite Hft, Hs in He.
  assert (Kind_eqb (kindOfType ft) Pointer = false) as Hp.
  { unfold rejectsNull in Hn. apply andb_prop in Hn as [Hn _].
    apply andb_prop in Hn as [Hn _].
    apply andb_prop in Hn as [_ Hn]. now apply negb_true_iff in Hn. }
  rewrite Hp in He. injection He as <-. cbn in Hkind, Hpath.
  destruct (scanRow _ _ _ _ _ _ _ _ _) as [m| |] eqn:R; try discriminate.
  exfalso. revert R.
  apply scanRow_null_rejected with i ft; auto.
  - unfold planPath. now rewrite Hpath.
  - apply newState_sized.
Qed.

Lemma X16_null_into_plain_leaf_fails_witness :
  scanOneWithPlan basicConvert noteScan ["a"; "b"] [DNull; DString "x"] (zeroValue tRec)
  <> Done (VStruct tRec [vInt 0; VPtr tString (Some (vStr "x"))], [])
  /\ scanOneWithPlan basicConvert noteScan ["a"; "b"] [DNull; DString "x"]
                     (zeroValue tRec)
     = Failed (EConvert 0).
Proof.
  split; [|vm_compute; reflexivity].
  apply (X16_null_into_plain_leaf_fails basicConvert noteScan ["a"; "b"] tRec 0 "a"
           (FieldInfo [0] false false) tInt);
    solve [reflexivity | vm_compute; reflexivity].
Defined.

Lemma X8_rows_lookup_panics_on_defined_string_keys_witness :
  singleRowsLookup keyedRows "rows" = Panics
  /\ step MySQL "VALUES :rows{id,name}" (defaultConfig MySQL (MkConfig 0 0))
          (makeLookup [twoUsers; keyedRows]) (makeRowsLookup [twoUsers; keyedRows])
          beforeBlock
     = Crash.
Proof.
  assert (pos beforeBlock < String.length "VALUES :rows{id,name}") as H1
      by (vm_compute; lia).
  assert (readCols "VALUES :rows{id,name}" 12 = Some (21, ["id"; "name"])) as H2
      by (vm_compute; reflexivity).
  apply (X8_rows_lookup_panics_on_defined_string_keys
           MySQL "VALUES :rows{id,name}" (defaultConfig MySQL (MkConfig 0 0))
           [twoUsers] keyedRows anon tKey TInterface beforeBlock (Cursor 12 Plain "")
           "rows" 12 21 ["id"; "name"] H1).
  - vm_compute. reflexivity.
  - reflexivity.
  - exact H2.
  - discriminate.
  - reflexivity.
  - reflexivity.
  - discriminate.
Defined.

Lemma X9_rows_block_succeeds_only_if_all_columns_resolve_witness :
  exists cols rows,
    readCols "VALUES :rows{id,name}" 12 = Some (21, cols)
    /\ makeRowsLookup [twoUsers] "rows" = Found rows
    /\ forall row col, In row rows -> In col cols -> is_Some (columnOf row col).
Proof.
  assert (pos beforeBlock < String.length "VALUES :rows{id,name}") as H1
      by (vm_compute; lia).
  assert (lexStep MySQL "VALUES :rows{id,name}" (cursor_of beforeBlock)
          = (TBlock "rows" 12, Cursor 12 Plain "")) as H2 by (vm_compute; reflexivity).
  assert (step MySQL "VALUES :rows{id,name}" (defaultConfig MySQL (MkConfig 0 0))
               (makeLookup [twoUsers]) (makeRowsLookup [twoUsers]) beforeBlock
          = Next (PState 21 sText "" 4 "VALUES (?, ?), (?, ?)"
                         [vInt 1; vStr "A"; vInt 2; vStr "B"])) as H3
      by (vm_compute; reflexivity).
  destruct (X9_rows_block_succeeds_only_if_all_columns_resolve
              MySQL "VALUES :rows{id,name}" (defaultConfig MySQL (MkConfig 0 0))
              (makeLookup [twoUsers]) (makeRowsLookup [twoUsers]) beforeBlock _
              "rows" 12 (Cursor 12 Plain "") H1 H2 H3)
    as (k2 & cols & rows & R & _ & L & _ & Hall & _).
  assert (readCols "VALUES :rows{id,name}" 12 = Some (21, ["id"; "name"])) as R'
      by (vm_compute; reflexivity).
  rewrite R' in R. injection R as <- <-.
  exists ["id"; "name"], rows. now repeat split.
Defined.

(** ** Examples *)

(** Two scalar placeholders on the ordinal dialect. *)
Lemma C1_scalar_placeholders_render_in_order_witness :
  parse Postgres "a=:a AND b=:b" [bag [("a", vInt 1); ("b", vStr "x")]]
        (defaultConfig Postgres (MkConfig 0 0))
  = Return "a=$1 AND b=$2" [vInt 1; vStr "x"] None
  /\ ordinalsOf (pieces 0 (tokens Postgres "a=:a AND b=:b")) = [1; 2].
Proof.
  assert (forallb (fun t => negb (isBlock t)) (tokens Postgres "a=:a AND b=:b") = true)
    as H1 by reflexivity.
  assert (Forall (bindsSingle (defaultConfig Postgres (MkConfig 0 0))
                              (makeLookup [bag [("a", vInt 1); ("b", vStr "x")]]))
                 (paramNames (tokens Postgres "a=:a AND b=:b"))) as H2.
  { repeat constructor; eexists; split; reflexivity. }
  assert (MaxParams (defaultConfig Postgres (MkConfig 0 0)) <= 0
          \/ Z.of_nat (List.length (paramNames (tokens Postgres "a=:a AND b=:b")))
             <= MaxParams (defaultConfig Postgres (MkConfig 0 0)))%Z as H3.
  { right. vm_compute. discriminate. }
  destruct (C1_scalar_placeholders_render_in_order
              Postgres "a=:a AND b=:b" [bag [("a", vInt 1); ("b", vStr "x")]]
              (defaultConfig Postgres (MkConfig 0 0)) H1 H2 H3) as (P & O & _).
  split; [exact P|exact O].
Defined.

(** A slice of two integers bound to [:ids] takes two placeholders. *)
Lemma C2_collection_expands_elementwise_witness :
  step Postgres "SELECT :ids" (defaultConfig Postgres (MkConfig 0 0))
       (makeLookup [bag [("ids", VSlice (TSlice anon tInt) [vInt 10; vInt 11])]])
       (makeRowsLookup []) beforeParam
  = Next (PState 11 sText "" 2 "SELECT $1, $2" [vInt 10; vInt 11]).
Proof.
  assert (pos beforeParam < String.length "SELECT :ids") as H1 by (vm_compute; lia).
  refine (proj2 (C2_collection_expands_elementwise
                   Postgres "SELECT :ids" (defaultConfig Postgres (MkConfig 0 0))
                   (makeLookup [bag [("ids", VSlice (TSlice anon tInt) [vInt 10; vInt 11])]])
                   (makeRowsLookup []) beforeParam "ids" (Cursor 11 Plain "")
                   (VSlice (TSlice anon tInt) [vInt 10; vInt 11]) [vInt 10; vInt 11]
                   H1 eq_refl eq_refl eq_refl eq_refl eq_refl) _ _).
  - discriminate.
  - right. vm_compute. discriminate.
Defined.

(** A slice of two strings whose type has a [Value] method, bound to
    [:xs], takes one placeholder and is passed as one argument. *)
Lemma C2_valuer_slice_takes_one_placeholder :
  expandable stringArray = Some [vStr "a"; vStr "b"]
  /\ parse MySQL "SELECT :xs" [bag [("xs", stringArray)]]
           (defaultConfig MySQL (MkConfig 0 0))
     = Return "SELECT ?" [stringArray] None.
Proof. split; vm_compute; reflexivity. Qed.

(** Two records bound to [:rows{id,name}] on the dialect of [?]. *)
Lemma C3_rows_block_renders_tuples_row_major_witness :
  step MySQL "VALUES :rows{id,name}" (defaultConfig MySQL (MkConfig 0 0))
       (makeLookup [twoUsers]) (makeRowsLookup [twoUsers]) beforeBlock
  = Next (PState 21 sText "" 4 "VALUES (?, ?), (?, ?)"
                 [vInt 1; vStr "A"; vInt 2; vStr "B"]).
Proof.
  assert (pos beforeBlock < String.length "VALUES :rows{id,name}") as H1
      by (vm_compute; lia).
  assert (forall row col, In row [user 1 "A"; user 2 "B"] -> In col ["id"; "name"] ->
                          is_Some (columnOf row col)) as H2.
  { intros row col [<-|[<-|[]]] [<-|[<-|[]]]; vm_compute; eauto. }
  refine (proj1 (C3_rows_block_renders_tuples_row_major
                   MySQL "VALUES :rows{id,name}" (defaultConfig MySQL (MkConfig 0 0))
                   (makeLookup [twoUsers]) (makeRowsLookup [twoUsers]) beforeBlock
                   "rows" 12 (Cursor 12 Plain "") 21 ["id"; "name"]
                   [user 1 "A"; user 2 "B"]
                   H1 eq_refl eq_refl eq_refl _ eq_refl _ H2 _)).
  - discriminate.
  - discriminate.
  - right. vm_compute. discriminate.
Defined.

(** The text written for the two records has a space after each comma
    between placeholders and between tuples. *)
Lemma C3_tuples_are_separated_by_comma_and_space :
  parse MySQL "INSERT INTO u(id,name) VALUES :rows{id,name}" [twoUsers]
        (defaultConfig MySQL (MkConfig 0 0))
  = Return "INSERT INTO u(id,name) VALUES (?, ?), (?, ?)"
           [vInt 1; vStr "A"; vInt 2; vStr "B"] None
  /\ parse MySQL "INSERT INTO u(id,name) VALUES :rows{id,name}" [twoUsers]
           (defaultConfig MySQL (MkConfig 0 0))
     <> Return "INSERT INTO u(id,name) VALUES (?,?),(?,?)"
               [vInt 1; vStr "A"; vInt 2; vStr "B"] None.
Proof. split; [vm_compute; reflexivity|vm_compute; discriminate]. Qed.

(** The column [id] of [P] is exposed by two leaves. *)
Lemma C5_ambiguous_column_always_fails_witness :
  (exists fi, fieldIndexMap tPair !! "id" = Some fi /\ ambiguous fi = true)
  /\ columnPaths (fieldIndexMap tPair) ["id"] "rows" 0
     = inl (ErrFieldAmbiguous "id" (Some ("rows", 0)))
  /\ buildScanPlan ["id"] tPair = Failed (EPackage (ErrFieldAmbiguous "id" None))
  /\ step MySQL "x=:id" (MkConfig 0 0) (makeLookup [pairOfIds]) (makeRowsLookup [])
          (PState 2 sText "" 0 "x=" [])
     = Fail (ErrFieldAmbiguous "id" None) (PState 2 sText "" 0 "x=" [])
  /\ parse MySQL "x=:id" [pairOfIds] (MkConfig 0 0)
     = Return "" [] (Some (ErrFieldAmbiguous "id" None))
  /\ fieldIndexMap tNode !! "id" = Some (FieldInfo [0] false false).
Proof.
  assert (2 <= leafCount tPair "id") as H by (vm_compute; lia).
  destruct (C5_ambiguous_column_always_fails tPair "id" H)
    as (A & _ & P & _ & _ & _ & B & S & _).
  split; [exact A|]. split; [|split; [|split; [|split]]].
  - apply (P [] [] "rows" 0). constructor.
  - apply (B [] [] (ScanPlan [] [] [] [])). vm_compute. reflexivity.
  - apply (S MySQL "x=:id" (MkConfig 0 0) [] pairOfIds
             [VStruct (tInner "X") [vInt 1]; VStruct (tInner "Y") [vInt 2]]
             (makeRowsLookup []) (PState 2 sText "" 0 "x=" []) (Cursor 5 Plain ""));
      [reflexivity|reflexivity|simpl; lia|vm_compute; reflexivity|reflexivity].
  - vm_compute. reflexivity.
  - vm_compute. reflexivity.
Defined.

(** With a limit of one parameter the second placeholder fails, and
    nothing is returned with the error. *)
Lemma C6_limit_precedes_emission_and_errors_return_nothing_witness :
  parse MySQL "a=:a AND b=:b" [bag [("a", vInt 1); ("b", vStr "x")]] (MkConfig 1 64)
  = Return "" [] (Some (ErrTooManyParams 2 1))
  /\ emitValue MySQL (MkConfig 1 64) (PState 13 sText "" 1 "a=? AND b=" [vInt 1])
               "b" 15 (vStr "x")
     = Fail (ErrTooManyParams 2 1) (PState 13 sText "" 1 "a=? AND b=" [vInt 1]).
Proof.
  destruct (C6_limit_precedes_emission_and_errors_return_nothing
              MySQL "a=:a AND b=:b" [bag [("a", vInt 1); ("b", vStr "x")]]
              (MkConfig 1 64)) as (_ & S & _).
  split; [reflexivity|].
  apply (S (PState 13 sText "" 1 "a=? AND b=" [vInt 1]) "b" 15 (vStr "x"));
    [reflexivity|reflexivity|vm_compute; reflexivity].
Defined.

(** A block comment that is never closed is copied to the end. *)
Lemma C9_parse_terminates_and_tolerates_unterminated_regions_witness :
  parse Postgres "SELECT 1 /* :x" [] (MkConfig 0 0) <> OutOfFuel
  /\ run Postgres "SELECT 1 /* :x" (MkConfig 0 0) (makeLookup []) (makeRowsLookup [])
         3 (PState 11 sBC "" 0 "SELECT 1 /*" [])
     = Return "SELECT 1 /* :x" [] None.
Proof.
  destruct (C9_parse_terminates_and_tolerates_unterminated_regions
              Postgres "SELECT 1 /* :x" [] (MkConfig 0 0)) as (T & B & _).
  split; [exact T|].
  apply (B (PState 11 sBC "" 0 "SELECT 1 /*" []) 3);
    [reflexivity|vm_compute; lia|reflexivity].
Defined.

(** The nil optional field of a bound record binds NULL. *)
Lemma C10_nil_field_binds_null_witness :
  (exists v, singleLookup nilRec "b" = Some v
             /\ makeLookup [nilRec] "b" = Some v
             /\ argOf v = VNil)
  /\ exists text arguments,
      parse MySQL "a=:a AND b=:b" [nilRec] (defaultConfig MySQL (MkConfig 0 0))
      = Return text arguments None
      /\ arguments !! 1 = Some VNil.
Proof.
  assert (crossesNil nilRec [1]) as H.
  { apply crosses_leaf with (t := tRec) (fs := [vInt 1; VPtr tString None])
                            (f := VPtr tString None);
      [reflexivity|reflexivity|reflexivity|exact I]. }
  destruct (C10_nil_field_binds_null
              nilRec (TInfo "main" "R" NoMethod NoMethod)
              [(FieldDecl "A" "" "a", tInt); (FieldDecl "B" "" "b", TPointer tString)]
              [vInt 1; VPtr tString None] "b" (FieldInfo [1] false false)
              eq_refl eq_refl eq_refl H) as (v & L & M & N & _ & _ & P).
  split; [exists v; split; [exact L|]; split; [exact (M [])|exact N]|].
  destruct (P MySQL "a=:a AND b=:b" (defaultConfig MySQL (MkConfig 0 0)) [])
    as (text & arguments & E & _ & A).
  - vm_compute. reflexivity.
  - repeat constructor; eexists; split; vm_compute; reflexivity.
  - right. vm_compute. discriminate.
  - exists text, arguments. split; [exact E|]. apply A. vm_compute. reflexivity.
Defined.

Lemma onlyColumnOf_second plan :
  List.length (kinds plan) = 2 -> fPath plan = [[0]; [1]] -> onlyColumnOf plan 1 [1].
Proof.
  intros Hk Hp j Hj Hm. unfold planPath. rewrite Hp.
  destruct j as [|[|j]]; [reflexivity|congruence|].
  unfold mappedColumn in Hm. rewrite lookup_ge_None_2 in Hm by (rewrite Hk; lia).
  discriminate.
Qed.

Lemma mappedDisjoint_two plan :
  List.length (kinds plan) = 2 -> fPath plan = [[0]; [1]] -> mappedDisjoint plan.
Proof.
  intros Hk Hp j k Hjk Hj Hk'. unfold planPath. rewrite Hp.
  assert (forall n, mappedColumn plan (S (S n)) = false) as Out.
  { intros n. unfold mappedColumn. now rewrite lookup_ge_None_2 by (rewrite Hk; lia). }
  destruct j as [|[|j]], k as [|[|k]]; try reflexivity; try congruence;
    rewrite Out in *; discriminate.
Qed.

Lemma destReady_two alloc plan d :
  List.length (kinds plan) = 2 -> fPath plan = [[0]; [1]] ->
  is_Some (fieldAt d [0]) -> is_Some (fieldAt d [1]) ->
  is_Some (fieldByIndexAlloc d [0]) -> is_Some (fieldByIndexAlloc d [1]) ->
  destReady alloc plan d.
Proof.
  intros Hk Hp F0 F1 A0 A1 j Hj. unfold planPath. rewrite Hp.
  destruct j as [|[|j]]; cbn; auto; try (split; [discriminate|auto]).
  unfold mappedColumn in Hj. rewrite lookup_ge_None_2 in Hj by (rewrite Hk; lia).
  discriminate.
Qed.

(** A string and a NULL scanned into the field [Note] of [N]. *)
Lemma C7_pointer_scanner_leaf_is_converted_after_the_fetch_witness :
  targetOf planNoted tNoted 1 = Some (ToSink 1)
  /\ scanOneWithPlan basicConvert noteScan ["a"; "note"] [DInt64 1; DString "hi"]
                     (zeroValue tNoted)
     = Done (VStruct tNoted [vInt 1; VPtr tNote (Some (VBasic tNote (DStr "hi")))],
             [(1, DString "hi")])
  /\ fieldAt (VStruct tNoted [vInt 1; VPtr tNote (Some (VBasic tNote (DStr "hi")))]) [1]
     = Some (VPtr tNote (noteScan tNote (DString "hi")))
  /\ (exists d' log,
        scanOneWithPlan basicConvert noteScan ["a"; "note"] [DInt64 1; DNull]
                        (zeroValue tNoted)
        = Done (d', log)
        /\ fieldAt d' [1] = Some (VPtr tNote None)
        /\ forall r0, ~ In (1, r0) log)
  /\ (exists d' log,
        scanOneWithPlan basicConvert noteScan ["a"; "note"] [DInt64 1; DString "hi"]
                        (zeroValue tNoted)
        = Done (d', log)
        /\ fieldAt d' [1] = Some (VPtr tNote (Some (VBasic tNote (DStr "hi"))))
        /\ In (1, DString "hi") log).
Proof.
  assert (scanOneWithPlan basicConvert noteScan ["a"; "note"] [DInt64 1; DString "hi"]
                          (zeroValue tNoted)
          = Done (VStruct tNoted [vInt 1; VPtr tNote (Some (VBasic tNote (DStr "hi")))],
                  [(1, DString "hi")])) as E by (vm_compute; reflexivity).
  destruct (C7_pointer_scanner_leaf_is_converted_after_the_fetch
              basicConvert noteScan ["a"; "note"] tNoted planNoted 1 "note"
              (FieldInfo [1] false false) tNote
              eq_refl eq_refl eq_refl eq_refl eq_refl ltac:(discriminate)
              eq_refl eq_refl (onlyColumnOf_second planNoted eq_refl eq_refl))
    as (T & S & _ & P).
  split; [exact T|]. split; [exact E|]. split.
  { exact (proj1 (S [DInt64 1; DString "hi"] (DString "hi") (zeroValue tNoted)
                    (VStruct tNoted [vInt 1; VPtr tNote (Some (VBasic tNote (DStr "hi")))])
                    [(1, DString "hi")] eq_refl eq_refl E)). }
  assert (destReady (fun _ => true) planNoted (zeroValue tNoted)) as R.
  { apply destReady_two; try reflexivity; eexists; vm_compute; reflexivity. }
  assert (forall raw,
             (isNull raw = false -> is_Some (noteScan tNote raw)) ->
             forall j, columnScans basicConvert noteScan planNoted tNoted
                                   [DInt64 1; raw] j) as C.
  { intros raw Hraw [|[|j]]; unfold columnScans; cbn [kinds planNoted lookup list_lookup].
    - exists tInt, (DInt64 1), (vInt 1), []. repeat split.
    - exists (TPointer tNote), raw. split; [reflexivity|]. split; [reflexivity|].
      change (Kind_eqb (kindOfType (TPointer tNote)) Pointer
              && implementsScanner (TPointer tNote)) with true. cbv iota.
      intros Hn e0 [= <-]. now apply Hraw.
    - exact I. }
  split.
  - destruct (P [DInt64 1; DNull] DNull (zeroValue tNoted) eq_refl eq_refl
                (mappedDisjoint_two planNoted eq_refl eq_refl) R
                (C DNull ltac:(discriminate)) eq_refl)
      as (d' & log & E' & F & _ & L).
    exists d', log. split; [exact E'|]. split; [exact F|].
    intros r0 Hin. apply L in Hin as [_ Hn]. discriminate.
  - destruct (P [DInt64 1; DString "hi"] (DString "hi") (zeroValue tNoted)
                eq_refl eq_refl (mappedDisjoint_two planNoted eq_refl eq_refl) R
                (C (DString "hi") ltac:(intros _; eexists; reflexivity)) eq_refl)
      as (d' & log & E' & F & N & _).
    exists d', log. split; [exact E'|]. split; [exact F|]. now apply N.
Defined.

(** The rows [(1, "x")] and [(3, NULL)] scanned into a slice of [R]: the
    second element has a nil [B]; and the preparation of a row resets a
    holder that still points to a string. *)
Lemma C8_null_leaves_optional_leaf_nil_witness :
  scanAll basicConvert noteScan ["a"; "b"]
          [[DInt64 1; DString "x"]; [DInt64 3; DNull]] tRec []
  = Done ([VStruct tRec [vInt 1; VPtr tString (Some (vStr "x"))];
           VStruct tRec [vInt 3; VPtr tString None]], [])
  /\ (exists el,
        [VStruct tRec [vInt 1; VPtr tString (Some (vStr "x"))];
         VStruct tRec [vInt 3; VPtr tString None]] !! 1 = Some el
        /\ fieldAt (elemStruct el) [1] = Some (VPtr tString None))
  /\ (exists m0 ptrScannerIdx,
        prepareTargets planRec tRec (fun _ => true) 0 (kinds planRec)
                       (ScanMem (zeroValue tRec) staleState []) []
        = Some (m0, ptrScannerIdx)
        /\ holders (st m0) !! 1 = Some (Some (VPtr tString None)))
  /\ (exists d' log,
        scanOneWithPlan basicConvert noteScan ["a"; "b"] [DInt64 1; DNull]
                        (zeroValue tRec)
        = Done (d', log)
        /\ fieldAt d' [1] = Some (VPtr tString None))
  /\ (exists outs log,
        scanAll basicConvert noteScan ["a"; "b"]
                [[DInt64 1; DNull]; [DInt64 3; DNull]] tRec []
        = Done (outs, log)
        /\ (exists el, outs !! 0 = Some el
                       /\ fieldAt (elemStruct el) [1] = Some (VPtr tString None))
        /\ (exists el, outs !! 1 = Some el
                       /\ fieldAt (elemStruct el) [1] = Some (VPtr tString None))).
Proof.
  assert (scanAll basicConvert noteScan ["a"; "b"]
                  [[DInt64 1; DString "x"]; [DInt64 3; DNull]] tRec []
          = Done ([VStruct tRec [vInt 1; VPtr tString (Some (vStr "x"))];
                   VStruct tRec [vInt 3; VPtr tString None]], [])) as E
      by (vm_compute; reflexivity).
  split; [exact E|].
  destruct (C8_null_leaves_optional_leaf_nil
              basicConvert noteScan ["a"; "b"] tRec planRec 1 "b"
              (FieldInfo [1] false false) tString
              eq_refl eq_refl eq_refl eq_refl eq_refl ltac:(discriminate)
              eq_refl eq_refl (onlyColumnOf_second planRec eq_refl eq_refl))
    as (_ & A & _ & H & P & Q).
  split.
  { exact (A [[DInt64 1; DString "x"]; [DInt64 3; DNull]] false []
             [VStruct tRec [vInt 1; VPtr tString (Some (vStr "x"))];
              VStruct tRec [vInt 3; VPtr tString None]] [] E
             1 [DInt64 3; DNull] eq_refl eq_refl). }
  split.
  { assert (prepareTargets planRec tRec (fun _ => true) 0 (kinds planRec)
                            (ScanMem (zeroValue tRec) staleState []) []
            = Some (ScanMem (VStruct tRec [vInt 0; VPtr tString None])
                      (ScanState [Some (ToField [0] tInt);
                                  Some (ToHolder 1 (TPointer tString))]
                                 [DNull; DNull] [None; Some (VPtr tString None)]) [],
                    [])) as Pq by (vm_compute; reflexivity).
    eexists _, _. split; [exact Pq|].
    apply (H (fun _ => true) (zeroValue tRec) staleState [] _ _
             ltac:(repeat split) Pq). }
  assert (forall alloc, destReady alloc planRec (zeroValue tRec)) as R.
  { intros alloc. apply destReady_two; try reflexivity; eexists; vm_compute; reflexivity. }
  assert (forall z j, columnScans basicConvert noteScan planRec tRec
                                  [DInt64 z; DNull] j) as C.
  { intros z [|[|j]]; unfold columnScans; cbn [kinds planRec lookup list_lookup].
    - exists tInt, (DInt64 z), (vInt z), []. repeat split.
    - exists (TPointer tString), DNull, (VPtr tString None), []. repeat split.
    - exact I. }
  split.
  - exact (P [DInt64 1; DNull] (zeroValue tRec) eq_refl eq_refl
             (mappedDisjoint_two planRec eq_refl eq_refl) (R _) (C 1%Z) eq_refl).
  - destruct (Q [[DInt64 1; DNull]; [DInt64 3; DNull]] false []
                (mappedDisjoint_two planRec eq_refl eq_refl))
      as (outs & log & S & N).
    + repeat constructor; apply C.
    + apply R.
    + constructor.
    + exists outs, log. split; [exact S|]. split.
      * exact (N 0 [DInt64 1; DNull] eq_refl eq_refl).
      * exact (N 1 [DInt64 3; DNull] eq_refl eq_refl).
Defined.
